(** * FuncDep: candidate keys of a set of functional dependencies

    A shallow embedding of the bitmask attribute sets ([set.c]), of the FIFO
    queue of dependencies ([queue.c]) and of the key enumeration of
    Lucchesi and Osborn ([func_dep.c], in its revision over one queue of
    [lhs]/[rhs] pairs), followed by the properties of the set operations,
    of the closure, of the reduction of a superkey to a candidate key and
    of the enumeration of all candidate keys.  Embedded as well are the
    reading of the dependencies by [main], the queue with its nodes in
    memory, the hash map ([hashmap.h]) and the superkey test of the
    revision over a graph ([graph.h]), each with its properties in the
    second part.

    Unsigned machine integers are numbers in [Z]; structures are records;
    a function that writes through a pointer returns the new value; a
    failed [assert] is the result [AssertFail]. *)

From Stdlib Require Import Ascii String.
From Stdlib Require Import ZArith List Bool Lia Sorted.
Import ListNotations.

Local Open Scope Z_scope.
Local Open Scope bool_scope.

(** ** Results of fallible code

    [assert] aborts the program (the build without [NDEBUG]); the two
    [while] loops run on fuel, which the properties below show to be
    enough. *)

Inductive res (A : Type) : Type :=
| Ok (a : A)
| AssertFail
| OutOfFuel.

Arguments Ok {A} a.
Arguments AssertFail {A}.
Arguments OutOfFuel {A}.

Definition bind {A B : Type} (m : res A) (f : A -> res B) : res B :=
  match m with
  | Ok a => f a
  | AssertFail => AssertFail
  | OutOfFuel => OutOfFuel
  end.

Definition rmap {A B : Type} (f : A -> B) (m : res A) : res B :=
  bind m (fun a => Ok (f a)).

Notation "x <- m ;; k" := (bind m (fun x => k))
  (at level 61, m at next level, right associativity).
Notation "' p <- m ;; k" := (bind m (fun x => match x with p => k end))
  (at level 61, p pattern, m at next level, right associativity).

Definition assert (b : bool) : res unit :=
  if b then Ok tt else AssertFail.

(** ** Machine integers *)

Definition u8 (x : Z) : Z := x mod 256.
Definition u32 (x : Z) : Z := x mod 2 ^ 32.

(** [__builtin_popcount] on a 32-bit word: the number of bits set among the
    positions [0..31]. *)
Fixpoint popcount_upto (k : nat) (x : Z) : Z :=
  match k with
  | O => 0
  | S k' => popcount_upto k' x + Z.b2z (Z.testbit x (Z.of_nat k'))
  end.

Definition popcount (x : Z) : Z := popcount_upto 32 x.

(** ** set.h / set.c *)

Definition MAX_ATTRIBS : Z := 26.
Definition INVALID_ATTRIB : Z := MAX_ATTRIBS.
Definition USED_MASK : Z := 0x03FFFFFF.

(** The structure [Set] ([Set] is a sort in Rocq, hence the name). *)
Record Set_t : Type := mkSet {
  set : Z;      (* uint32_t *)
  size : Z;     (* uint8_t *)
  cursor : Z;   (* uint8_t *)
  count : Z     (* uint8_t *)
}.

Definition Set_union (s t : Set_t) : Set_t :=
  let u := Z.lor (set s) (set t) in
  {| set := u; size := u8 (popcount u); cursor := 0; count := 0 |}.

Definition Set_intersection (s t : Set_t) : Set_t :=
  let i := Z.land (set s) (set t) in
  {| set := i; size := u8 (popcount i); cursor := 0; count := 0 |}.

Definition Set_difference (s t : Set_t) : Set_t :=
  let d := Z.land (set s) (u32 (Z.lnot (set t))) in
  {| set := d; size := u8 (popcount d); cursor := 0; count := 0 |}.

Definition Set_contains (s t : Set_t) : bool :=
  Z.land (set s) (set t) =? set t.

Definition Set_init : Set_t :=
  {| set := 0; size := 0; cursor := 0; count := 0 |}.

Definition Set_copy (other : Set_t) : Set_t :=
  {| set := set other; size := size other; cursor := 0; count := 0 |}.

Definition Set_full (n_attribs : Z) : res Set_t :=
  _ <- assert (n_attribs <=? MAX_ATTRIBS) ;;
  Ok {| set := Z.shiftl 1 n_attribs - 1; size := n_attribs;
        cursor := 0; count := 0 |}.

Definition Set_is_full (s : Set_t) (n_attribs : Z) : res bool :=
  _ <- assert (n_attribs <=? MAX_ATTRIBS) ;;
  Ok (size s =? n_attribs).

Definition Set_insert (s : Set_t) (i : Z) : res Set_t :=
  _ <- assert (i <? MAX_ATTRIBS) ;;
  _ <- assert (cursor s =? 0) ;;
  if negb (Z.land (set s) (Z.shiftl 1 i) =? 0) then Ok s
  else Ok {| set := Z.lor (set s) (Z.shiftl 1 i); size := u8 (size s + 1);
             cursor := cursor s; count := count s |}.

Definition Set_remove (s : Set_t) (i : Z) : res Set_t :=
  _ <- assert (i <? MAX_ATTRIBS) ;;
  _ <- assert (negb (Z.land (set s) (Z.shiftl 1 i) =? 0)) ;;
  _ <- assert (cursor s =? 0) ;;
  Ok {| set := Z.lxor (set s) (Z.shiftl 1 i); size := u8 (size s - 1);
        cursor := cursor s; count := count s |}.

Definition Set_clear : Set_t :=
  {| set := 0; size := 0; cursor := 0; count := 0 |}.

(** The [for] loop of [Set_next_pos]: [todo] is the number of positions
    left between [i] and [MAX_ATTRIBS]. *)
Fixpoint next_pos_from (todo : nat) (i : Z) (s : Set_t) : Set_t * Z :=
  match todo with
  | O => (s, INVALID_ATTRIB)
  | S todo' =>
      if negb (Z.land (set s) (Z.shiftl 1 i) =? 0) then
        let c := u8 (count s + 1) in
        if c =? size s then
          ({| set := set s; size := size s; cursor := 0; count := 0 |}, i)
        else
          ({| set := set s; size := size s; cursor := i + 1; count := c |}, i)
      else next_pos_from todo' (i + 1) s
  end.

Definition Set_next_pos (s : Set_t) : Set_t * Z :=
  next_pos_from (Z.to_nat (MAX_ATTRIBS - cursor s)) (cursor s) s.

(** [Set_print]: the attribute positions written, one line per call. *)
Fixpoint print_loop (todo : nat) (s : Set_t) : Set_t * list Z :=
  match todo with
  | O => (s, [])
  | S todo' =>
      let '(s1, pos) := Set_next_pos s in
      let '(s2, line) := print_loop todo' s1 in
      (s2, pos :: line)
  end.

Definition Set_print (s : Set_t) : Set_t * list Z :=
  print_loop (Z.to_nat (size s)) s.

(** ** queue.h / queue.c

    A singly linked FIFO: [Q_insert] links the new node behind [head],
    [Q_pop] unlinks [tail], and an iterator walks from [tail] along [next].
    The list holds the keys from [tail] to [head].  The [size] field is a
    [uint32_t] that [Q_insert] increments and [Q_pop] decrements, so that it
    is the length of the list modulo [2 ^ 32]. *)

Record q_key_t : Type := mkKey { lhs : Set_t; rhs : Set_t }.

Definition Queue : Type := list q_key_t.

Definition Q_init : Queue := [].

Definition Q_iterator (q : Queue) : list q_key_t := q.

Definition Q_size (q : Queue) : Z := u32 (Z.of_nat (length q)).

Definition Q_insert (q : Queue) (key : q_key_t) : Queue := q ++ [key].

Definition Q_pop (q : Queue) : res (q_key_t * Queue) :=
  _ <- assert (0 <? Q_size q) ;;
  match q with
  | [] => AssertFail
  | key :: q' => Ok (key, q')
  end.

(** ** func_dep.c *)

(** One pass over the dependencies, shared by [compute_closure] and
    [is_superkey], whose inner loops are the same text: [Full] is the exit
    taken when [Set_is_full] holds after a union ([goto end], respectively
    [return 1]); [Done] carries the closure and [is_new_attrib] at the end
    of the pass. *)
Inductive pass_result : Type :=
| Full (closure : Set_t)
| Done (closure : Set_t) (is_new_attrib : bool).

Fixpoint closure_pass (iter : list q_key_t) (n_attribs : Z)
    (closure : Set_t) (is_new_attrib : bool) : res pass_result :=
  match iter with
  | [] => Ok (Done closure is_new_attrib)
  | key :: next =>
      if Set_contains closure (lhs key) && negb (Set_contains closure (rhs key))
      then
        let closure' := Set_union closure (rhs key) in
        full <- Set_is_full closure' n_attribs ;;
        if full then Ok (Full closure')
        else closure_pass next n_attribs closure' true
      else closure_pass next n_attribs closure is_new_attrib
  end.

(** The [while (is_new_attrib)] loop of [compute_closure]. *)
Fixpoint closure_while (fuel : nat) (q : Queue) (n_attribs : Z)
    (closure : Set_t) : res Set_t :=
  match fuel with
  | O => OutOfFuel
  | S fuel' =>
      r <- closure_pass (Q_iterator q) n_attribs closure false ;;
      match r with
      | Full c => Ok c
      | Done c true => closure_while fuel' q n_attribs c
      | Done c false => Ok c
      end
  end.

(** Every pass but the last one adds a bit to a 32-bit word, so that 33
    passes are never exceeded ([closure_fuel_suffices]). *)
Definition closure_fuel : nat := 33.

Definition compute_closure (s : Set_t) (q : Queue) (n_attribs : Z)
    : res Set_t :=
  closure_while closure_fuel q n_attribs (Set_copy s).

(** The [while (is_new_attrib)] loop of [is_superkey]. *)
Fixpoint superkey_while (fuel : nat) (q : Queue) (n_attribs : Z)
    (closure : Set_t) : res bool :=
  match fuel with
  | O => OutOfFuel
  | S fuel' =>
      r <- closure_pass (Q_iterator q) n_attribs closure false ;;
      match r with
      | Full _ => Ok true
      | Done c true => superkey_while fuel' q n_attribs c
      | Done _ false => Ok false
      end
  end.

Definition is_superkey (s : Set_t) (q : Queue) (n_attribs : Z) : res bool :=
  superkey_while closure_fuel q n_attribs (Set_copy s).

(** The [for] loop of [candidate_key_from_super_key]; [skey] is enumerated
    while [ckey] shrinks. *)
Fixpoint reduce_loop (todo : nat) (skey ckey : Set_t) (q : Queue)
    (n_attribs : Z) : res Set_t :=
  match todo with
  | O => Ok ckey
  | S todo' =>
      let '(skey', attrib) := Set_next_pos skey in
      temp <- Set_remove (Set_copy ckey) attrib ;;
      b <- is_superkey temp q n_attribs ;;
      if b then reduce_loop todo' skey' (Set_copy temp) q n_attribs
      else reduce_loop todo' skey' ckey q n_attribs
  end.

Definition candidate_key_from_super_key (skey : Set_t) (q : Queue)
    (n_attribs : Z) : res Set_t :=
  reduce_loop (Z.to_nat (size skey)) skey (Set_copy skey) q n_attribs.

(** State of the enumeration: the keys found, the keys still to expand and
    the lines printed so far. *)
Record enum_state : Type := mkEnum {
  ckeys : Queue;
  work : Queue;
  printed : list (list Z)
}.

Definition Set_zero : Set_t :=
  {| set := 0; size := 0; cursor := 0; count := 0 |}.

(** The inclusion test: [test] stays 1 when no key found so far is
    contained in [S]. *)
Fixpoint inclusion_test (ckey_iter : list q_key_t) (S : Set_t) : bool :=
  match ckey_iter with
  | [] => true
  | J :: next => if Set_contains S (lhs J) then false else inclusion_test next S
  end.

(** The loop over all dependencies for one key popped from [work]. *)
Fixpoint expand_key (iter : list q_key_t) (key : q_key_t) (q : Queue)
    (n_attribs : Z) (st : enum_state) : res enum_state :=
  match iter with
  | [] => Ok st
  | fd :: next =>
      let s_left := lhs fd in
      let s_right := rhs fd in
      let diff := Set_difference (lhs key) s_right in
      let S := Set_union s_left diff in
      if inclusion_test (Q_iterator (ckeys st)) S then
        ckey <- candidate_key_from_super_key S q n_attribs ;;
        let qkey := {| lhs := ckey; rhs := Set_zero |} in
        let '(_, line) := Set_print ckey in
        expand_key next key q n_attribs
          {| ckeys := Q_insert (ckeys st) qkey;
             work := Q_insert (work st) qkey;
             printed := printed st ++ [line] |}
      else expand_key next key q n_attribs st
  end.

(** One turn of the [while (work.size != 0)] loop. *)
Definition work_step (q : Queue) (n_attribs : Z) (st : enum_state)
    : res enum_state :=
  '(key, work') <- Q_pop (work st) ;;
  expand_key (Q_iterator q) key q n_attribs
    {| ckeys := ckeys st; work := work'; printed := printed st |}.

Fixpoint work_loop (fuel : nat) (q : Queue) (n_attribs : Z)
    (st : enum_state) : res enum_state :=
  match fuel with
  | O => OutOfFuel
  | S fuel' =>
      if Q_size (work st) =? 0 then Ok st
      else
        st' <- work_step q n_attribs st ;;
        work_loop fuel' q n_attribs st'
  end.

(** The state after at most [turns] turns of the work loop. *)
Fixpoint work_turns (turns : nat) (q : Queue) (n_attribs : Z)
    (st : enum_state) : res enum_state :=
  match turns with
  | O => Ok st
  | S turns' =>
      if Q_size (work st) =? 0 then Ok st
      else
        st' <- work_step q n_attribs st ;;
        work_turns turns' q n_attribs st'
  end.

(** The first key, found from the set of all attributes. *)
Definition first_state (q : Queue) (n_attribs : Z) : res enum_state :=
  attribs <- Set_full n_attribs ;;
  ckey <- candidate_key_from_super_key attribs q n_attribs ;;
  let '(ckey', line) := Set_print ckey in
  let qkey := {| lhs := ckey'; rhs := Set_zero |} in
  Ok {| ckeys := Q_insert Q_init qkey;
        work := Q_insert Q_init qkey;
        printed := [line] |}.

(** There are at most [2 ^ n_attribs] different keys, each popped once. *)
Definition work_fuel (n_attribs : Z) : nat := S (Z.to_nat (2 ^ n_attribs)).

(** [print_all_candidate_keys]: the keys found, in the order of discovery,
    and the lines printed. *)
Definition print_all_candidate_keys (q : Queue) (n_attribs : Z)
    : res (list Set_t * list (list Z)) :=
  st0 <- first_state q n_attribs ;;
  st <- work_loop (work_fuel n_attribs) q n_attribs st0 ;;
  Ok (map lhs (ckeys st), printed st).

(** ** The sample inputs of the repository

    [attrs] builds a set the way [parse_attrib_list] does, by [Set_init]
    and one [Set_insert] per attribute; [large_txt] is [dep_in/large.txt]
    of the README. *)

Definition attrs (l : list Z) : Set_t :=
  fold_left (fun s i => match Set_insert s i with Ok s' => s' | _ => s end)
            l Set_init.

Definition fd (l r : list Z) : q_key_t := {| lhs := attrs l; rhs := attrs r |}.

Definition large_txt : Queue :=
  [ fd [0] [1; 2]; fd [1] [3; 4]; fd [2] [5; 6];
    fd [3; 6] [7]; fd [4; 5] [8]; fd [7; 8] [0] ].

(** ** set.h, the header-only revision

    The operations that differ from [set.c]: [Set_difference] applies
    [USED_MASK], [Set_insert] and [Set_remove] do not look at the cursor,
    and [Set_next_pos] asserts that the set is not empty and tests the bit
    [j], which starts as [1 << cursor] and is shifted along with [i]. *)

Module Set_h.

Definition Set_difference (s t : Set_t) : Set_t :=
  let d := Z.land (set s) (Z.land (u32 (Z.lnot (set t))) USED_MASK) in
  {| set := d; size := u8 (popcount d); cursor := 0; count := 0 |}.

Definition Set_insert (s : Set_t) (i : Z) : res Set_t :=
  _ <- assert (i <? MAX_ATTRIBS) ;;
  if negb (Z.land (set s) (Z.shiftl 1 i) =? 0) then Ok s
  else Ok {| set := Z.lor (set s) (Z.shiftl 1 i); size := u8 (size s + 1);
             cursor := cursor s; count := count s |}.

Definition Set_remove (s : Set_t) (i : Z) : res Set_t :=
  _ <- assert ((i <? MAX_ATTRIBS) &&
               negb (Z.land (set s) (Z.shiftl 1 i) =? 0)) ;;
  Ok {| set := Z.lxor (set s) (Z.shiftl 1 i); size := u8 (size s - 1);
        cursor := cursor s; count := count s |}.

Fixpoint next_pos_from (todo : nat) (i j : Z) (s : Set_t) : Set_t * Z :=
  match todo with
  | O => (s, INVALID_ATTRIB)
  | S todo' =>
      if negb (Z.land (set s) j =? 0) then
        let c := u8 (count s + 1) in
        if c =? size s then
          ({| set := set s; size := size s; cursor := 0; count := 0 |}, i)
        else
          ({| set := set s; size := size s; cursor := i + 1; count := c |}, i)
      else next_pos_from todo' (i + 1) (u32 (Z.shiftl j 1)) s
  end.

Definition Set_next_pos (s : Set_t) : res (Set_t * Z) :=
  _ <- assert (size s >? 0) ;;
  Ok (next_pos_from (Z.to_nat (MAX_ATTRIBS - cursor s)) (cursor s)
        (Z.shiftl 1 (cursor s)) s).

End Set_h.

(** ** Code that works on memory

    A run of such code returns, fails an assertion ([Aborts]), reads or
    writes where it must not ([Undefined]: an invalid cell, an index
    outside an array) or is cut off when its loop runs out of fuel
    ([Unfinished]). *)

Inductive run (A : Type) : Type :=
| Returns (a : A)
| Aborts
| Undefined
| Unfinished.

Arguments Returns {A} a.
Arguments Aborts {A}.
Arguments Undefined {A}.
Arguments Unfinished {A}.

Definition and_then {A B : Type} (m : run A) (f : A -> run B) : run B :=
  match m with
  | Returns a => f a
  | Aborts => Aborts
  | Undefined => Undefined
  | Unfinished => Unfinished
  end.

Notation "x <~ m ;; k" := (and_then m (fun x => k))
  (at level 61, m at next level, right associativity).

(** ** queue.c, with its nodes in memory

    The nodes of the queue live in a memory of cells.  An address is a
    number, [NULL] is 0.  [malloc] returns a cell that was never given out
    before, or [NULL] when the memory is used up; [free] makes a cell
    invalid; reading, writing or freeing an invalid cell is undefined
    behaviour.  The [while] loops that follow the [next] pointers run on
    fuel. *)

Module Queue_c.

Record q_node_t : Type := mkNode { next : nat; key : q_key_t }.

Record Queue : Type := mkQueue { head : nat; tail : nat; size : Z }.

Record memory : Type := mkMemory {
  cell : nat -> option q_node_t;
  brk : nat;
  limit : nat
}.

Definition NULL : nat := 0.

Definition upd (c : nat -> option q_node_t) (p : nat) (v : option q_node_t)
    : nat -> option q_node_t :=
  fun p' => if Nat.eqb p' p then v else c p'.

(** The content of a fresh cell is not read: [Q_insert] writes both fields
    of the node first. *)
Definition malloc (m : memory) : memory * nat :=
  if Nat.ltb (brk m) (limit m) then
    ({| cell := upd (cell m) (brk m)
                  (Some {| next := NULL;
                           key := {| lhs := Set_init; rhs := Set_init |} |});
        brk := S (brk m); limit := limit m |}, brk m)
  else (m, NULL).

Definition load (m : memory) (p : nat) : run q_node_t :=
  match cell m p with
  | Some node => Returns node
  | None => Undefined
  end.

Definition store (m : memory) (p : nat) (node : q_node_t) : run memory :=
  match cell m p with
  | Some _ => Returns {| cell := upd (cell m) p (Some node);
                         brk := brk m; limit := limit m |}
  | None => Undefined
  end.

Definition free (m : memory) (p : nat) : run memory :=
  if Nat.eqb p NULL then Returns m
  else match cell m p with
       | Some _ => Returns {| cell := upd (cell m) p None;
                              brk := brk m; limit := limit m |}
       | None => Undefined
       end.

Definition Q_init : Queue := {| head := NULL; tail := NULL; size := 0 |}.

Definition Q_iterator (q : Queue) : nat := tail q.

Definition Q_insert (m : memory) (q : Queue) (k : q_key_t)
    : run (memory * Queue) :=
  let (m0, new_node) := malloc m in
  if Nat.eqb new_node NULL then Aborts
  else
    m1 <~ store m0 new_node {| next := NULL; key := k |} ;;
    let size' := u32 (size q + 1) in
    if Nat.eqb (head q) NULL then
      Returns (m1, {| head := new_node; tail := new_node; size := size' |})
    else
      h <~ load m1 (head q) ;;
      m2 <~ store m1 (head q) {| next := new_node; key := key h |} ;;
      Returns (m2, {| head := new_node; tail := tail q; size := size' |}).

Definition Q_pop (m : memory) (q : Queue)
    : run (q_key_t * memory * Queue) :=
  if size q >? 0 then
    t <~ load m (tail q) ;;
    let k := key t in
    let temp := tail q in
    let tail' := next t in
    m' <~ free m temp ;;
    let head' := if Nat.eqb tail' NULL then NULL else head q in
    Returns (k, m', {| head := head'; tail := tail';
                       size := u32 (size q - 1) |})
  else Aborts.

(** The [while (q->tail != NULL)] of [Q_free]. *)
Fixpoint free_nodes (fuel : nat) (m : memory) (tail : nat) : run memory :=
  if Nat.eqb tail NULL then Returns m
  else
    match fuel with
    | O => Unfinished
    | S fuel' =>
        t <~ load m tail ;;
        m' <~ free m tail ;;
        free_nodes fuel' m' (next t)
    end.

Definition Q_free (fuel : nat) (m : memory) (q : Queue)
    : run (memory * Queue) :=
  m' <~ free_nodes fuel m (tail q) ;;
  Returns (m', {| head := NULL; tail := NULL; size := 0 |}).

(** The loop [while (iter) { ... iter->key ...; iter = iter->next; }] of
    [func_dep.c]: the keys it visits. *)
Fixpoint visit (fuel : nat) (m : memory) (iter : nat) : run (list q_key_t) :=
  if Nat.eqb iter NULL then Returns []
  else
    match fuel with
    | O => Unfinished
    | S fuel' =>
        t <~ load m iter ;;
        rest <~ visit fuel' m (next t) ;;
        Returns (key t :: rest)
    end.

(** The cells from [p] on hold the keys of [l] at the addresses of [l],
    linked by [next] up to [NULL]. *)
Fixpoint nodes (m : memory) (p : nat) (l : list (nat * q_key_t)) : Prop :=
  match l with
  | [] => p = NULL
  | (a, k) :: l' =>
      p = a /\ a <> NULL /\
      exists nx, cell m a = Some {| next := nx; key := k |} /\ nodes m nx l'
  end.

Definition addresses (l : list (nat * q_key_t)) : list nat := map fst l.

Definition keys (l : list (nat * q_key_t)) : list q_key_t := map snd l.

(** The queue [q] in the memory [m] holds the keys of [l], the oldest
    first. *)
Record represents (m : memory) (q : Queue) (l : list (nat * q_key_t))
    : Prop := {
  rep_nodes : nodes m (tail q) l;
  rep_nodup : NoDup (addresses l);
  rep_head : head q = last (addresses l) NULL;
  rep_size : size q = Z.of_nat (length l);
  rep_size_range : size q < 2 ^ 32;
  rep_brk : forall a, In a (addresses l) -> (a < brk m)%nat;
  rep_null : (0 < brk m)%nat
}.

End Queue_c.

(** ** hashmap.h

    The two arrays of a [HashMap] have [HASH_MAP_SIZE] entries; an array
    is the function from an index to its entry, and an access outside the
    array is undefined.  [unsigned int] has 32 bits. *)

Module HashMap_h.

Definition HASH_MAP_SIZE : Z := 257.
Definition HASH_DEFAULT_KEY : Z := 4294967295.

Definition array : Type := Z -> Z.

Definition in_bounds (i : Z) : bool := (0 <=? i) && (i <? HASH_MAP_SIZE).

Definition upd (a : array) (i v : Z) : array :=
  fun j => if j =? i then v else a j.

Definition get (a : array) (i : Z) : run Z :=
  if in_bounds i then Returns (a i) else Undefined.

Definition put (a : array) (i v : Z) : run array :=
  if in_bounds i then Returns (upd a i v) else Undefined.

Record HashMap : Type := mkHashMap { map : array; index : array; size : Z }.

Definition hash (x : Z) : Z :=
  let x := u32 (Z.lxor (Z.shiftr x 16) x * 73244475) in
  let x := u32 (Z.lxor (Z.shiftr x 16) x * 73244475) in
  Z.lxor (Z.shiftr x 16) x.

(** The [for] loop of [HashMap_init]; the array [index] is left as it
    is. *)
Fixpoint init_loop (todo : nat) (i : Z) (m : array) : array :=
  match todo with
  | O => m
  | S todo' => init_loop todo' (i + 1) (upd m i HASH_DEFAULT_KEY)
  end.

Definition HashMap_init (h : HashMap) : HashMap :=
  {| map := init_loop (Z.to_nat HASH_MAP_SIZE) 0 (map h);
     index := index h;
     size := 0 |}.

Definition HashMap_size (h : HashMap) : Z := size h.

Definition HashMap_get (h : HashMap) (i : Z) : run Z :=
  j <~ get (index h) i ;;
  get (map h) j.

(** How the [do ... while] of [HashMap_insert] is left: by [return 0] on
    finding the key, or at its end with the values of [i] and [j]. *)
Inductive probe_result : Type :=
| Contained
| Stopped (i j : Z).

Fixpoint probe (fuel : nat) (m : array) (hashIndex key i : Z)
    : run probe_result :=
  match fuel with
  | O => Unfinished
  | S fuel' =>
      let j := (hashIndex + i) mod HASH_MAP_SIZE in
      slot <~ get m j ;;
      if slot =? key then Returns Contained
      else
        let i' := i + 1 in
        if negb (slot =? HASH_DEFAULT_KEY) && (i' <? HASH_MAP_SIZE)
        then probe fuel' m hashIndex key i'
        else Returns (Stopped i' j)
  end.

(** The key is stored at [j] and [j] is entered in [index]. *)
Definition store (h : HashMap) (j key : Z) : run (HashMap * Z) :=
  m' <~ put (map h) j key ;;
  index' <~ put (index h) (size h) j ;;
  Returns ({| map := m'; index := index'; size := size h + 1 |}, 0).

Definition HashMap_insert (h : HashMap) (key : Z) : run (HashMap * Z) :=
  let hashIndex := hash key mod HASH_MAP_SIZE in
  slot <~ get (map h) hashIndex ;;
  if slot =? HASH_DEFAULT_KEY then store h hashIndex key
  else if negb (slot =? key) then
    r <~ probe (Z.to_nat HASH_MAP_SIZE) (map h) hashIndex key 1 ;;
    match r with
    | Contained => Returns (h, 0)
    | Stopped i j =>
        if i <? HASH_MAP_SIZE then store h j key
        else Returns (h, -1)
    end
  else Returns (h, 0).

Fixpoint find_loop (fuel : nat) (m : array) (hashIndex key i : Z)
    : run bool :=
  if i <? HASH_MAP_SIZE then
    match fuel with
    | O => Unfinished
    | S fuel' =>
        let j := (hashIndex + i) mod HASH_MAP_SIZE in
        slot <~ get m j ;;
        if slot =? HASH_DEFAULT_KEY then Returns false
        else if slot =? key then Returns true
        else find_loop fuel' m hashIndex key (i + 1)
    end
  else Returns false.

Definition HashMap_find (h : HashMap) (key : Z) : run bool :=
  find_loop (S (Z.to_nat HASH_MAP_SIZE)) (map h)
    (hash key mod HASH_MAP_SIZE) key 0.

(** Insertion of the keys of a list, one after the other, whatever
    [HashMap_insert] returns. *)
Fixpoint insert_all (h : HashMap) (l : list Z) : run HashMap :=
  match l with
  | [] => Returns h
  | key :: l' =>
      r <~ HashMap_insert h key ;;
      insert_all (fst r) l'
  end.

(** The slot that is [e] steps behind the first slot of [key]. *)
Definition slot_of (key e : Z) : Z := (hash key mod HASH_MAP_SIZE + e) mod HASH_MAP_SIZE.

(** A key that can be told from an empty slot. *)
Definition valid_key (key : Z) : Prop :=
  0 <= key < 2 ^ 32 /\ key <> HASH_DEFAULT_KEY.

(** The map [h] holds the keys of [ks], entered in this order: the slot of
    the key number [i] is [index[i]], every slot from the first slot of the
    key up to this one is taken, and no other slot is taken. *)
Record table (h : HashMap) (ks : list Z) : Prop := {
  t_size : size h = Z.of_nat (length ks);
  t_nodup : NoDup ks;
  t_valid : forall k, In k ks -> k <> HASH_DEFAULT_KEY;
  t_index : forall i k, nth_error ks i = Some k ->
    exists e, 0 <= e < HASH_MAP_SIZE /\
      index h (Z.of_nat i) = slot_of k e /\
      map h (slot_of k e) = k /\
      forall e', 0 <= e' < e -> map h (slot_of k e') <> HASH_DEFAULT_KEY;
  t_taken : forall j, 0 <= j < HASH_MAP_SIZE ->
    map h j <> HASH_DEFAULT_KEY ->
    exists i, nth_error ks i = Some (map h j) /\ index h (Z.of_nat i) = j
}.

(** The keys of a list in the order of their first occurrence. *)
Fixpoint first_occurrences (seen l : list Z) : list Z :=
  match l with
  | [] => []
  | k :: l' =>
      if existsb (Z.eqb k) seen then first_occurrences seen l'
      else k :: first_occurrences (seen ++ [k]) l'
  end.

End HashMap_h.

(** ** linked_list.h, darray.h and graph.h

    A [LinkedList] is a FIFO of the same make as the queue and is the list
    of its keys, the oldest first; a [DArray] is the list of its [size]
    elements.  An array of [uint32_t] behind a pointer is a [buffer]: its
    length and the function from an index to its entry; an access outside
    is undefined. *)

Module Graph_h.

Definition LL_INVALID_KEY : Z := 4294967295.

Definition LinkedList : Type := list Z.

Definition LL_init : LinkedList := [].

Definition LL_size (ll : LinkedList) : Z := Z.of_nat (length ll).

Definition LL_iterator (ll : LinkedList) : list Z := ll.

Definition LL_insert (ll : LinkedList) (key : Z) : LinkedList := ll ++ [key].

Definition LL_pop (ll : LinkedList) : Z * LinkedList :=
  match ll with
  | [] => (LL_INVALID_KEY, [])
  | key :: ll' => (key, ll')
  end.

Record buffer : Type := mkBuffer { len : Z; cell : Z -> Z }.

Definition read (b : buffer) (i : Z) : run Z :=
  if (0 <=? i) && (i <? len b) then Returns (cell b i) else Undefined.

Definition write (b : buffer) (i v : Z) : run buffer :=
  if (0 <=? i) && (i <? len b)
  then Returns {| len := len b; cell := fun j => if j =? i then v else cell b j |}
  else Undefined.

(** [LL_dump_to_array]: the keys of the list, in an array of [size]
    entries. *)
Definition LL_dump_to_array (ll : LinkedList) : buffer :=
  {| len := LL_size ll; cell := fun i => nth (Z.to_nat i) ll 0 |}.

Definition DArray : Type := list LinkedList.

Definition DArray_size (arr : DArray) : Z := Z.of_nat (length arr).

Definition DArray_init_reserve (n : Z) : DArray := repeat LL_init (Z.to_nat n).

Definition DArray_insert (arr : DArray) : DArray := arr ++ [LL_init].

Definition DArray_get (arr : DArray) (i : Z) : run LinkedList :=
  if (0 <=? i) && (i <? DArray_size arr)
  then Returns (nth (Z.to_nat i) arr LL_init)
  else Aborts.

(** The element [i] of the array, written through the pointer that
    [DArray_get] returns. *)
Fixpoint DArray_set (arr : DArray) (i : nat) (ll : LinkedList) : DArray :=
  match arr, i with
  | [], _ => []
  | _ :: arr', O => ll :: arr'
  | l0 :: arr', S i' => l0 :: DArray_set arr' i' ll
  end.

Record Graph : Type := mkGraph {
  adjList : DArray;
  n_vert : Z;
  n_edge : Z
}.

Definition Graph_init (n_vert : Z) : Graph :=
  {| adjList := DArray_init_reserve n_vert; n_vert := n_vert; n_edge := 0 |}.

Definition Graph_add_edge (graph : Graph) (i j : Z) : run Graph :=
  let size := DArray_size (adjList graph) in
  if n_vert graph =? size then
    if (i <? n_vert graph) && (j <? n_vert graph) then
      ll <~ DArray_get (adjList graph) i ;;
      Returns {| adjList := DArray_set (adjList graph) (Z.to_nat i)
                              (LL_insert ll j);
                 n_vert := n_vert graph;
                 n_edge := u32 (n_edge graph + 1) |}
    else Aborts
  else Aborts.

Definition Graph_new_vertex (graph : Graph) : Graph * Z :=
  ({| adjList := DArray_insert (adjList graph);
      n_vert := u32 (n_vert graph + 1);
      n_edge := n_edge graph |}, n_vert graph).

(** The loop over the neighbours of [current]. *)
Fixpoint neighbors_loop (iter : list Z) (search_list : LinkedList)
    (visited_buf visited_thresh : buffer) : run (LinkedList * buffer) :=
  match iter with
  | [] => Returns (search_list, visited_buf)
  | neighbor :: next =>
      thresh <~ read visited_thresh neighbor ;;
      v <~ read visited_buf neighbor ;;
      if v =? thresh then
        neighbors_loop next search_list visited_buf visited_thresh
      else
        let v' := u32 (v + 1) in
        visited_buf' <~ write visited_buf neighbor v' ;;
        if v' =? thresh then
          neighbors_loop next (LL_insert search_list neighbor) visited_buf'
            visited_thresh
        else neighbors_loop next search_list visited_buf' visited_thresh
  end.

(** The loop [while (LL_size(&search_list) != 0)]. *)
Fixpoint search_loop (fuel : nat) (graph : Graph) (search_list : LinkedList)
    (visited_buf visited_thresh : buffer) : run buffer :=
  if LL_size search_list =? 0 then Returns visited_buf
  else
    match fuel with
    | O => Unfinished
    | S fuel' =>
        let (current, search_list') := LL_pop search_list in
        if current =? LL_INVALID_KEY then Aborts
        else
          ll <~ DArray_get (adjList graph) current ;;
          r <~ neighbors_loop (LL_iterator ll) search_list' visited_buf
                 visited_thresh ;;
          search_loop fuel' graph (fst r) (snd r) visited_thresh
    end.

Definition Graph_BFS_closure (fuel : nat) (graph : Graph) (source : Z)
    (visited_buf visited_thresh : buffer) : run buffer :=
  if (0 <=? source) && (source <? n_vert graph) then
    v <~ read visited_buf source ;;
    if v =? 1 then Returns visited_buf
    else
      visited_buf' <~ write visited_buf source 1 ;;
      search_loop fuel graph (LL_insert LL_init source) visited_buf'
        visited_thresh
  else Aborts.

End Graph_h.

(** ** func_dep.c, the revision over a graph

    Each dependency with one attribute on the left gives an edge from it
    to each attribute on the right; each dependency with more attributes
    on the left gives a new vertex, with an edge from each attribute on
    the left and an edge to each attribute on the right, and with the
    number of attributes on the left as its threshold. *)

Module Func_dep_graph.

(** The first loop of [check_super_key]; [j] is a [uint8_t]. *)
Fixpoint clear_loop (fuel : nat) (n_vert j : Z) (visited_buf : Graph_h.buffer)
    : run Graph_h.buffer :=
  if j <? n_vert then
    match fuel with
    | O => Unfinished
    | S fuel' =>
        visited_buf' <~ Graph_h.write visited_buf j 0 ;;
        clear_loop fuel' n_vert (u8 (j + 1)) visited_buf'
    end
  else Returns visited_buf.

(** The second loop: one search from each attribute of the set. *)
Fixpoint sources_loop (todo fuel : nat) (g : Graph_h.Graph) (attrib : Set_t)
    (visited_buf visited_thresh : Graph_h.buffer)
    : run (Set_t * Graph_h.buffer) :=
  match todo with
  | O => Returns (attrib, visited_buf)
  | S todo' =>
      let '(attrib', index) := Set_next_pos attrib in
      visited_buf' <~ Graph_h.Graph_BFS_closure fuel g index visited_buf
                        visited_thresh ;;
      sources_loop todo' fuel g attrib' visited_buf' visited_thresh
  end.

(** The third loop: [false] at the first attribute that was not reached. *)
Fixpoint reached_loop (todo : nat) (j : Z) (visited_buf : Graph_h.buffer)
    : run bool :=
  match todo with
  | O => Returns true
  | S todo' =>
      v <~ Graph_h.read visited_buf j ;;
      if negb (v =? 1) then Returns false
      else reached_loop todo' (j + 1) visited_buf
  end.

(** [check_super_key], with the set and the buffer as it leaves them. *)
Definition check_super_key (fuel : nat) (g : Graph_h.Graph) (attrib : Set_t)
    (visited_buf visited_thresh : Graph_h.buffer) (n_attribs : Z)
    : run (Set_t * Graph_h.buffer * bool) :=
  visited_buf0 <~ clear_loop fuel (Graph_h.n_vert g) 0 visited_buf ;;
  r <~ sources_loop (Z.to_nat (size attrib)) fuel g attrib visited_buf0
         visited_thresh ;;
  b <~ reached_loop (Z.to_nat n_attribs) 0 (snd r) ;;
  Returns (fst r, snd r, b).

(** The loops of [main] that add the edges of a dependency. *)
Fixpoint edges_to (todo : nat) (g : Graph_h.Graph) (s_left : Set_t)
    (new_index : Z) : run (Graph_h.Graph * Set_t) :=
  match todo with
  | O => Returns (g, s_left)
  | S todo' =>
      let '(s_left', other_index) := Set_next_pos s_left in
      g' <~ Graph_h.Graph_add_edge g other_index new_index ;;
      edges_to todo' g' s_left' new_index
  end.

Fixpoint edges_from (todo : nat) (g : Graph_h.Graph) (index : Z)
    (s_right : Set_t) : run (Graph_h.Graph * Set_t) :=
  match todo with
  | O => Returns (g, s_right)
  | S todo' =>
      let '(s_right', other_index) := Set_next_pos s_right in
      g' <~ Graph_h.Graph_add_edge g index other_index ;;
      edges_from todo' g' index s_right'
  end.

(** What [main] does with the two sets of a line, once they are parsed:
    the graph and the list of thresholds after it. *)
Definition add_dependency (g : Graph_h.Graph)
    (ll_visited_thresh : Graph_h.LinkedList) (key : q_key_t)
    : run (Graph_h.Graph * Graph_h.LinkedList) :=
  let s_left := lhs key in
  let s_right := rhs key in
  let left := size s_left in
  let right := size s_right in
  if (left >? 0) && (right >? 0) then
    if left >? 1 then
      let (g1, new_index) := Graph_h.Graph_new_vertex g in
      r2 <~ edges_to (Z.to_nat left) g1 s_left new_index ;;
      r3 <~ edges_from (Z.to_nat right) (fst r2) new_index s_right ;;
      Returns (fst r3, Graph_h.LL_insert ll_visited_thresh left)
    else
      let '(_, left_index) := Set_next_pos s_left in
      r2 <~ edges_from (Z.to_nat right) g left_index s_right ;;
      Returns (fst r2, ll_visited_thresh)
  else Aborts.

Fixpoint add_dependencies (g : Graph_h.Graph)
    (ll_visited_thresh : Graph_h.LinkedList) (q : list q_key_t)
    : run (Graph_h.Graph * Graph_h.LinkedList) :=
  match q with
  | [] => Returns (g, ll_visited_thresh)
  | key :: q' =>
      r <~ add_dependency g ll_visited_thresh key ;;
      add_dependencies (fst r) (snd r) q'
  end.

(** The graph and the array of thresholds that [main] hands to
    [print_all_candidate_keys], for the dependencies of the lines. *)
Definition build (n_attribs : Z) (q : list q_key_t)
    : run (Graph_h.Graph * Graph_h.buffer) :=
  let g := Graph_h.Graph_init n_attribs in
  let ll_visited_thresh := repeat 1 (Z.to_nat n_attribs) in
  r <~ add_dependencies g ll_visited_thresh q ;;
  Returns (fst r, Graph_h.LL_dump_to_array (snd r)).

(** A buffer of [n] entries, as [malloc] returns it. *)
Definition fresh_buffer (n : Z) (content : Z -> Z) : Graph_h.buffer :=
  {| Graph_h.len := n; Graph_h.cell := content |}.

End Func_dep_graph.

(** ** func_dep.c: reading the dependencies

    A C string is the list of its characters before the terminating NUL.
    [strtok_r] is the function of the C library, as POSIX describes it:
    skip the characters of [delim], return [NULL] at the end of the string,
    else end the token at the next character of [delim] (overwritten with
    NUL) and save the position after it.  Here it takes the string to scan
    ([str], or the saved position when [str] is [NULL]) and returns the
    token with the position saved. *)

Definition code (c : ascii) : Z := Z.of_N (N_of_ascii c).

Definition is_delim (delim : list ascii) (c : ascii) : bool :=
  existsb (Ascii.eqb c) delim.

Fixpoint skip_delims (delim str : list ascii) : list ascii :=
  match str with
  | [] => []
  | c :: str' => if is_delim delim c then skip_delims delim str' else str
  end.

Fixpoint token_end (delim str : list ascii) : list ascii * list ascii :=
  match str with
  | [] => ([], [])
  | c :: str' =>
      if is_delim delim c then ([], str)
      else let (token, rest) := token_end delim str' in (c :: token, rest)
  end.

Definition strtok_r (str delim : list ascii)
    : option (list ascii * list ascii) :=
  match skip_delims delim str with
  | [] => None
  | c :: str' =>
      let (token, rest) := token_end delim (c :: str') in
      Some (token, match rest with [] => [] | _ :: save => save end)
  end.

Definition DELIM : list ascii := [","%char].
Definition SEP : list ascii := ["-"%char; ">"%char].

(** What is written to [stderr] before [return 1] or [exit(EXIT_FAILURE)]. *)
Inductive failure : Type :=
| Invalid_attribute (c : ascii)
| Missing_valid_attribute
| Missing_arrow
| Right_hand_side_empty
| Line_not_terminated (line : Z)
| Invalid_attribute_count.

Inductive outcome (A : Type) : Type :=
| Success (a : A)
| Failure (e : failure).

Arguments Success {A} a.
Arguments Failure {A} e.

Definition is_valid_attrib (attrib : ascii) : bool :=
  (code "A"%char <=? code attrib) && (code attrib <=? code "Z"%char).

(** The inner [while] of [parse_attrib_list], over the characters of a
    token: the value of [index] after it, or the failure reported in it. *)
Fixpoint scan_token (iter : list ascii) (n_attribs : Z) : outcome Z :=
  match iter with
  | [] => Success INVALID_ATTRIB
  | c :: iter' =>
      if is_valid_attrib c then
        let index := u8 (code c - code "A"%char) in
        if index >=? n_attribs then Failure (Invalid_attribute c)
        else Success index
      else scan_token iter' n_attribs
  end.

(** The outer [while (attrib != NULL)] of [parse_attrib_list]. *)
Fixpoint parse_tokens (fuel : nat) (attrib : option (list ascii * list ascii))
    (n_attribs : Z) (attribs : Set_t) : res (outcome Set_t) :=
  match attrib with
  | None => Ok (Success attribs)
  | Some (token, save_attrib) =>
      match fuel with
      | O => OutOfFuel
      | S fuel' =>
          match scan_token token n_attribs with
          | Failure e => Ok (Failure e)
          | Success index =>
              if index =? INVALID_ATTRIB
              then Ok (Failure Missing_valid_attribute)
              else
                attribs' <- Set_insert attribs index ;;
                parse_tokens fuel' (strtok_r save_attrib DELIM) n_attribs
                  attribs'
          end
      end
  end.

(** [parse_attrib_list]: [Success] with the set written to [attribs] when
    it returns 0, [Failure] when it returns 1.  Each token takes a
    character, so that the tokens are at most as many as the characters. *)
Definition parse_attrib_list (attrib_list : list ascii) (n_attribs : Z)
    : res (outcome Set_t) :=
  parse_tokens (length attrib_list) (strtok_r attrib_list DELIM) n_attribs
    Set_init.

(** The body of the [while (fgets(...))] of [main] for the line in
    [line_buf]: the dependency put into the queue, or the failure the
    program exits with. *)
Definition parse_line (line_buf : list ascii) (line_num : Z) (n_attribs : Z)
    : res (outcome q_key_t) :=
  let length := Z.of_nat (List.length line_buf) in
  _ <- assert (length >? 0) ;;
  if negb (Ascii.eqb (last line_buf "000"%char) "010"%char)
  then Ok (Failure (Line_not_terminated (u32 (line_num + 2))))
  else
    match strtok_r line_buf SEP with
    | None => Ok (Failure Missing_arrow)
    | Some (attrib_list, save_attrib_list) =>
        left <- parse_attrib_list attrib_list n_attribs ;;
        match left with
        | Failure e => Ok (Failure e)
        | Success s_left =>
            match strtok_r save_attrib_list SEP with
            | None => Ok (Failure Right_hand_side_empty)
            | Some (attrib_list', _) =>
                right <- parse_attrib_list attrib_list' n_attribs ;;
                match right with
                | Failure e => Ok (Failure e)
                | Success s_right =>
                    Ok (Success {| lhs := s_left; rhs := s_right |})
                end
            end
        end
    end.

(** The [while (fgets(...))] of [main] over the lines that [fgets]
    returns. *)
Fixpoint read_lines (lines : list (list ascii)) (line_num : Z)
    (n_attribs : Z) (q : Queue) : res (outcome Queue) :=
  match lines with
  | [] => Ok (Success q)
  | line_buf :: lines' =>
      r <- parse_line line_buf line_num n_attribs ;;
      match r with
      | Failure e => Ok (Failure e)
      | Success key =>
          read_lines lines' (u32 (line_num + 1)) n_attribs (Q_insert q key)
      end
  end.

(** What a successful run prints: the number of attributes, one line per
    key and the number of keys. *)
Record report : Type := mkReport {
  attribute_count : Z;
  key_lines : list (list Z);
  key_count : Z
}.

(** [main] from the point where [fscanf] has stored [n_attribs], on the
    lines that [fgets] returns for the rest of the file. *)
Definition main (n_attribs : Z) (lines : list (list ascii))
    : res (outcome report) :=
  if (n_attribs =? 0) || (n_attribs >? MAX_ATTRIBS)
  then Ok (Failure Invalid_attribute_count)
  else
    r <- read_lines lines 0 n_attribs Q_init ;;
    match r with
    | Failure e => Ok (Failure e)
    | Success q =>
        '(found, printed_lines) <- print_all_candidate_keys q n_attribs ;;
        Ok (Success {| attribute_count := n_attribs;
                       key_lines := printed_lines;
                       key_count := Z.of_nat (length found) |})
    end.

(** The first capital letter of a token, and the attribute it stands
    for. *)
Fixpoint first_capital (token : list ascii) : option ascii :=
  match token with
  | [] => None
  | c :: token' => if is_valid_attrib c then Some c else first_capital token'
  end.

Definition attrib_index (c : ascii) : Z := code c - code "A"%char.

(** The tokens that successive calls of [strtok_r] return. *)
Fixpoint tokens (fuel : nat) (str delim : list ascii) : list (list ascii) :=
  match fuel with
  | O => []
  | S fuel' =>
      match strtok_r str delim with
      | None => []
      | Some (token, save) => token :: tokens fuel' save delim
      end
  end.

Definition attrib_tokens (attrib_list : list ascii) : list (list ascii) :=
  tokens (length attrib_list) attrib_list DELIM.

(** The two sides of a line, parsed one after the other. *)
Definition both_sides (l r : list ascii) (n_attribs : Z)
    : res (outcome q_key_t) :=
  left <- parse_attrib_list l n_attribs ;;
  match left with
  | Failure e => Ok (Failure e)
  | Success s_left =>
      right <- parse_attrib_list r n_attribs ;;
      match right with
      | Failure e => Ok (Failure e)
      | Success s_right => Ok (Success {| lhs := s_left; rhs := s_right |})
      end
  end.

(** The characters of a text, and a line of text as [fgets] returns it. *)
Definition text (s : string) : list ascii := list_ascii_of_string s.

Definition text_line (s : string) : list ascii := text s ++ ["010"%char].

(** * Notions used in the statements *)

(** The dependencies of the lines, each line parsed on its own. *)
Definition parsed (n : Z) (lines : list (list ascii)) (keys : Queue) : Prop :=
  Forall2 (fun line key => parse_line line 0 n = Ok (Success key)) lines keys.

(** Bitmasks over the first [n] attributes. *)
Definition in_universe (n x : Z) : Prop := 0 <= x < 2 ^ n.

(** Inclusion of bitmasks. *)
Definition subset (a b : Z) : Prop :=
  forall i, 0 <= i -> Z.testbit a i = true -> Z.testbit b i = true.

(** The [size] field counts the bits of the [set] field. *)
Definition consistent (s : Set_t) : Prop := size s = popcount (set s).

(** No enumeration is in progress. *)
Definition idle (s : Set_t) : Prop := cursor s = 0 /\ count s = 0.

(** A set of the attributes [0 .. n-1]. *)
Definition wf (n : Z) (s : Set_t) : Prop :=
  in_universe n (set s) /\ consistent s.

(** [x & ~USED_MASK]: the bits of [x] at the positions from 26 on. *)
Definition outside_mask (x : Z) : Z := Z.land x (u32 (Z.lnot USED_MASK)).

(** The sets that the program can hold: those that the operations of
    [set.c] build, starting from [Set_init], [Set_clear], [Set_full] and the
    literal [(Set) {0}] of [print_all_candidate_keys].  The arguments [i]
    and [n_attribs] are [uint8_t], hence not negative. *)
Inductive built : Set_t -> Prop :=
| built_init : built Set_init
| built_clear : built Set_clear
| built_zero : built Set_zero
| built_full (n_attribs : Z) (s : Set_t) :
    0 <= n_attribs -> Set_full n_attribs = Ok s -> built s
| built_copy (s : Set_t) : built s -> built (Set_copy s)
| built_insert (s : Set_t) (i : Z) (s' : Set_t) :
    built s -> 0 <= i -> Set_insert s i = Ok s' -> built s'
| built_remove (s : Set_t) (i : Z) (s' : Set_t) :
    built s -> 0 <= i -> Set_remove s i = Ok s' -> built s'
| built_union (s t : Set_t) : built s -> built t -> built (Set_union s t)
| built_intersection (s t : Set_t) :
    built s -> built t -> built (Set_intersection s t)
| built_difference (s t : Set_t) :
    built s -> built t -> built (Set_difference s t)
| built_next_pos (s : Set_t) : built s -> built (fst (Set_next_pos s))
| built_print (s : Set_t) : built s -> built (fst (Set_print s)).

(** The members of the bitmask [x] among the [todo] positions from [i] on,
    in ascending order. *)
Fixpoint members_from (todo : nat) (i : Z) (x : Z) : list Z :=
  match todo with
  | O => []
  | S todo' =>
      if Z.testbit x i then i :: members_from todo' (i + 1) x
      else members_from todo' (i + 1) x
  end.

(** The attributes of [s], in ascending order. *)
Definition members (s : Set_t) : list Z :=
  members_from (Z.to_nat MAX_ATTRIBS) 0 (set s).

(** The set [s] with its enumeration at cursor [c] after [j] members. *)
Definition at_cursor (s : Set_t) (c j : Z) : Set_t :=
  {| set := set s; size := size s; cursor := c; count := j |}.

(** The bitmask [x] without its attribute [a]. *)
Definition without (x a : Z) : Z := Z.lxor x (Z.shiftl 1 a).

(** The set [S] built from a key and a dependency. *)
Definition expansion (key fd : q_key_t) : Set_t :=
  Set_union (lhs fd) (Set_difference (lhs key) (rhs fd)).

(** The bitmasks of the keys found. *)
Definition key_sets (found : Queue) : list Z :=
  map (fun k => set (lhs k)) found.

(** A dependency that applies to the bitmask [T] and adds to it. *)
Definition applicable (T : Z) (fd : q_key_t) : bool :=
  Set_contains (mkSet T 0 0 0) (lhs fd) &&
  negb (Set_contains (mkSet T 0 0 0) (rhs fd)).

(** No set occurs twice, and no set at one position contains the set at
    another position. *)
Definition antichain (l : list Set_t) : Prop :=
  NoDup l /\
  forall i j a b,
    nth_error l i = Some a -> nth_error l j = Some b -> i <> j ->
    Set_contains a b = false.

(** Decision of [in_universe] and of the validity of the dependencies. *)
Definition in_universeb (n x : Z) : bool := (0 <=? x) && (x <? 2 ^ n).

Definition valid_depsb (q : Queue) (n : Z) : bool :=
  forallb (fun k => in_universeb n (set (lhs k)) &&
                    in_universeb n (set (rhs k))) q.

(** [A -> B], [B -> C], [C -> A] over three attributes. *)
Definition cycle_txt : Queue := [ fd [0] [1]; fd [1] [2]; fd [2] [0] ].

(** The edges that the loops of [main] add, for the members of a set. *)
Fixpoint add_edges_from (g : Graph_h.Graph) (index : Z) (others : list Z)
    : run Graph_h.Graph :=
  match others with
  | [] => Returns g
  | other_index :: others' =>
      g' <~ Graph_h.Graph_add_edge g index other_index ;;
      add_edges_from g' index others'
  end.

Fixpoint add_edges_to (g : Graph_h.Graph) (others : list Z) (new_index : Z)
    : run Graph_h.Graph :=
  match others with
  | [] => Returns g
  | other_index :: others' =>
      g' <~ Graph_h.Graph_add_edge g other_index new_index ;;
      add_edges_to g' others' new_index
  end.

(** The searches of [check_super_key], for the members of the set. *)
Fixpoint search_from (fuel : nat) (g : Graph_h.Graph) (sources : list Z)
    (visited_buf visited_thresh : Graph_h.buffer) : run Graph_h.buffer :=
  match sources with
  | [] => Returns visited_buf
  | index :: sources' =>
      visited_buf' <~ Graph_h.Graph_BFS_closure fuel g index visited_buf
                        visited_thresh ;;
      search_from fuel g sources' visited_buf' visited_thresh
  end.

(** The dependencies that get a vertex of their own. *)
Definition new_vertices (q : list q_key_t) : list q_key_t :=
  filter (fun k => 1 <? size (lhs k)) q.

(** The adjacency list of the vertex [v]. *)
Definition neighbors (g : Graph_h.Graph) (v : Z) : list Z :=
  nth (Z.to_nat v) (Graph_h.adjList g) Graph_h.LL_init.

(** A dependency as [main] of the graph revision accepts it: two sets of
    the universe, neither of them empty. *)
Definition graph_dep (n : Z) (k : q_key_t) : Prop :=
  (wf n (lhs k) /\ idle (lhs k) /\ 0 < size (lhs k)) /\
  (wf n (rhs k) /\ idle (rhs k) /\ 0 < size (rhs k)).

(** Decision of [graph_dep]. *)
Definition graph_sideb (n : Z) (s : Set_t) : bool :=
  in_universeb n (set s) && (size s =? popcount (set s)) &&
  (cursor s =? 0) && (count s =? 0) && (0 <? size s).

Definition graph_depsb (n : Z) (q : list q_key_t) : bool :=
  forallb (fun k => graph_sideb n (lhs k) && graph_sideb n (rhs k)) q.

(** The graph [g] with the thresholds [thresh] is the graph of the
    dependencies [qs] over [n] attributes; [aux] lists the vertices added
    for the dependencies with more than one attribute on the left. *)
Record graph_of (n : Z) (qs : list q_key_t) (g : Graph_h.Graph)
    (thresh : list Z) (aux : list (Z * q_key_t)) : Prop := {
  go_size : Graph_h.n_vert g = Z.of_nat (length (Graph_h.adjList g));
  go_thresh : length thresh = length (Graph_h.adjList g);
  go_count : Graph_h.n_vert g = n + Z.of_nat (length aux);
  go_attrib : forall a, 0 <= a < n -> nth (Z.to_nat a) thresh 0 = 1;
  go_aux : forall x k, In (x, k) aux ->
    n <= x < Graph_h.n_vert g /\ In k qs /\ 1 < size (lhs k) /\
    nth (Z.to_nat x) thresh 0 = size (lhs k) /\
    neighbors g x = members (rhs k);
  go_all : forall x, n <= x < Graph_h.n_vert g -> exists k, In (x, k) aux;
  go_cover : forall k, In k qs -> 1 < size (lhs k) ->
    exists x, In (x, k) aux;
  go_below : forall v w, 0 <= v -> In w (neighbors g v) ->
    0 <= w < Graph_h.n_vert g;
  go_edges : forall a w, 0 <= a < n -> In w (neighbors g a) ->
    (0 <= w < n /\
     exists k, In k qs /\ size (lhs k) = 1 /\
               Z.testbit (set (lhs k)) a = true /\
               Z.testbit (set (rhs k)) w = true) \/
    (exists k, In (w, k) aux /\ Z.testbit (set (lhs k)) a = true);
  go_single : forall k a r, In k qs -> size (lhs k) = 1 ->
    0 <= a < n -> 0 <= r ->
    Z.testbit (set (lhs k)) a = true -> Z.testbit (set (rhs k)) r = true ->
    In r (neighbors g a);
  go_multi : forall x k a, In (x, k) aux -> 0 <= a < n ->
    count_occ Z.eq_dec (neighbors g a) x =
    if Z.testbit (set (lhs k)) a then 1%nat else 0%nat
}.

(** The number of attributes of the left-hand side of [k] among the
    vertices of [done]. *)
Definition count_in (k : q_key_t) (done : list Z) : Z :=
  Z.of_nat (length (filter (fun v => Z.testbit (set (lhs k)) v) done)).

(** The vertex [v] has reached its threshold. *)
Definition marked (visited_buf visited_thresh : Graph_h.buffer) (v : Z)
    : Prop :=
  Graph_h.cell visited_buf v = Graph_h.cell visited_thresh v.

(** The state of a search: [done] are the vertices whose neighbours were
    all looked at, [cur] are the vertex whose neighbours are looked at
    (none between two turns of the outer loop), [pre] its neighbours
    looked at so far, [todo] the search list; [C] is a set closed under
    the dependencies that holds the attributes the searches started
    from. *)
Record search_inv (n : Z) (g : Graph_h.Graph) (vt : Graph_h.buffer)
    (aux : list (Z * q_key_t)) (C : Z)
    (vb : Graph_h.buffer) (done cur pre todo : list Z) : Prop := {
  si_len : Graph_h.len vb = Graph_h.n_vert g;
  si_nodup : NoDup (done ++ cur ++ todo);
  si_range : forall v, In v (done ++ cur ++ todo) ->
    0 <= v < Graph_h.n_vert g;
  si_marked : forall v, 0 <= v < Graph_h.n_vert g ->
    (marked vb vt v <-> In v (done ++ cur ++ todo));
  si_attrib : forall a, 0 <= a < n ->
    Graph_h.cell vb a = 0 \/ Graph_h.cell vb a = 1;
  si_aux : forall x k, In (x, k) aux ->
    Graph_h.cell vb x = count_in k done + Z.of_nat (count_occ Z.eq_dec pre x);
  si_done : forall v w, In v done -> In w (neighbors g v) -> 0 <= w < n ->
    Graph_h.cell vb w = 1;
  si_pre : forall w, In w pre -> 0 <= w < n -> Graph_h.cell vb w = 1;
  si_sound : forall a, 0 <= a < n -> Graph_h.cell vb a = 1 ->
    Z.testbit C a = true
}.

(** The bitmask of the attributes marked in the buffer. *)
Fixpoint reached_mask (todo : nat) (vb : Graph_h.buffer) : Z :=
  match todo with
  | O => 0
  | S todo' =>
      Z.lor (reached_mask todo' vb)
        (if Graph_h.cell vb (Z.of_nat todo') =? 1
         then Z.shiftl 1 (Z.of_nat todo') else 0)
  end.

Section FuncDep.

Variable q : Queue.
Variable n : Z.

(** Every attribute of every dependency is below [n] (checked by
    [parse_attrib_list]). *)
Definition valid_deps : Prop :=
  forall k, In k q ->
    in_universe n (set (lhs k)) /\ in_universe n (set (rhs k)).

(** The bitmask [c] is closed under every dependency. *)
Definition closed (c : Z) : Prop :=
  forall k, In k q -> subset (set (lhs k)) c -> subset (set (rhs k)) c.

(** [derives c c']: [c'] is reached from [c] by unions with right-hand
    sides of dependencies that apply and add something. *)
Inductive derives : Set_t -> Set_t -> Prop :=
| derives_refl (c : Set_t) : derives c c
| derives_step (c c' : Set_t) (k : q_key_t) :
    In k q ->
    subset (set (lhs k)) (set c) ->
    ~ subset (set (rhs k)) (set c) ->
    derives (Set_union c (rhs k)) c' ->
    derives c c'.

(** The bitmask [x] determines every attribute: each closed set above it
    contains the whole universe. *)
Definition determines_all (x : Z) : Prop :=
  forall C, subset x C -> closed C -> subset (Z.shiftl 1 n - 1) C.

(** The superkey test by way of the closure. *)
Definition closure_is_full (s : Set_t) : Prop :=
  exists C, compute_closure s q n = Ok C /\ Set_is_full C n = Ok true.

(** No attribute of [x] can be dropped. *)
Definition minimal (x : Z) : Prop :=
  forall a, 0 <= a -> Z.testbit x a = true -> ~ determines_all (without x a).

(** The state of the [for] loop of [candidate_key_from_super_key] when the
    members [R] of [S] are still to be tried. *)
Record reduce_inv (S : Set_t) (R : list Z) (ckey : Set_t) : Prop := {
  ri_wf : wf n ckey;
  ri_idle : idle ckey;
  ri_sub : subset (set ckey) (set S);
  ri_key : determines_all (set ckey);
  ri_todo : forall m, In m R -> Z.testbit (set ckey) m = true;
  ri_done : forall a, 0 <= a -> Z.testbit (set ckey) a = true -> ~ In a R ->
            ~ determines_all (without (set ckey) a)
}.

(** What [candidate_key_from_super_key] returns for a superkey. *)
Record candidate_key (K : Set_t) : Prop := {
  ck_wf : wf n K;
  ck_idle : idle K;
  ck_key : determines_all (set K);
  ck_minimal : minimal (set K)
}.

(** Every expansion of [key] contains a key that was found. *)
Definition expanded (found : Queue) (key : q_key_t) : Prop :=
  forall fd, In fd q ->
    exists J, In J found /\ subset (set (lhs J)) (set (expansion key fd)).

(** What holds of the keys found at any time. *)
Record found_inv (st : enum_state) : Prop := {
  fi_keys : forall k, In k (ckeys st) -> candidate_key (lhs k);
  fi_nodup : NoDup (key_sets (ckeys st));
  fi_work : incl (work st) (ckeys st);
  fi_printed : printed st = map (fun k => members (lhs k)) (ckeys st);
  fi_length : (length (work st) <= length (ckeys st))%nat
}.

(** What holds between two turns of the work loop. *)
Record enum_inv (st : enum_state) : Prop := {
  ei_found : found_inv st;
  ei_expanded : forall k, In k (ckeys st) ->
                In k (work st) \/ expanded (ckeys st) k;
  ei_nonempty : ckeys st <> []
}.

(** * Properties *)

(** ** Bits *)

Lemma land_bit_zero (x i : Z) :
  0 <= i -> (Z.land x (Z.shiftl 1 i) =? 0) = negb (Z.testbit x i).
Proof.
  intros Hi. rewrite Z.shiftl_1_l.
  destruct (Z.testbit x i) eqn:Hb; simpl.
  - apply Z.eqb_neq. intros H0.
    assert (Hc : Z.testbit (Z.land x (2 ^ i)) i = true).
    { rewrite Z.land_spec, Hb, Z.pow2_bits_true by lia. reflexivity. }
    rewrite H0, Z.bits_0 in Hc. discriminate.
  - apply Z.eqb_eq. apply Z.bits_inj'. intros j Hj.
    rewrite Z.land_spec, Z.bits_0.
    destruct (Z.eq_dec i j) as [->|Hne].
    + rewrite Hb. reflexivity.
    + rewrite (Z.pow2_bits_false i j) by lia. apply andb_false_r.
Qed.

Lemma bit_of_shiftl (i j : Z) :
  0 <= i -> 0 <= j -> Z.testbit (Z.shiftl 1 i) j = (i =? j).
Proof.
  intros Hi Hj. rewrite Z.shiftl_1_l. apply Z.pow2_bits_eqb. lia.
Qed.

Lemma u32_bit (x i : Z) :
  Z.testbit (u32 x) i = (i <? 32) && Z.testbit x i.
Proof.
  unfold u32. destruct (Z.ltb_spec i 32).
  - rewrite andb_true_l. destruct (Z.ltb_spec i 0).
    + rewrite !Z.testbit_neg_r by lia. reflexivity.
    + apply Z.mod_pow2_bits_low. lia.
  - rewrite andb_false_l. apply Z.mod_pow2_bits_high. lia.
Qed.

Lemma in_universe_high (m x i : Z) :
  0 <= m -> in_universe m x -> m <= i -> Z.testbit x i = false.
Proof.
  intros Hn Hx Hi. rewrite <- (Z.mod_small x (2 ^ m)) by exact Hx.
  apply Z.mod_pow2_bits_high. lia.
Qed.

Lemma in_universe_of_bits (m x : Z) :
  0 <= m -> (forall i, m <= i -> Z.testbit x i = false) -> in_universe m x.
Proof.
  intros Hn H. unfold in_universe.
  assert (E : x = x mod 2 ^ m).
  { apply Z.bits_inj'. intros i Hi. destruct (Z.ltb_spec i m).
    - rewrite Z.mod_pow2_bits_low by lia. reflexivity.
    - rewrite Z.mod_pow2_bits_high by lia. apply H. lia. }
  rewrite E. apply Z.mod_pos_bound. apply Z.pow_pos_nonneg; lia.
Qed.

Lemma in_universe_weaken (k m x : Z) :
  0 <= k <= m -> in_universe k x -> in_universe m x.
Proof.
  intros Hnm [H0 H1]. split; [exact H0|].
  apply Z.lt_le_trans with (2 ^ k); [exact H1|].
  apply Z.pow_le_mono_r; lia.
Qed.

Lemma subset_refl (a : Z) : subset a a.
Proof. intros i _ H. exact H. Qed.

Lemma subset_trans (a b c : Z) : subset a b -> subset b c -> subset a c.
Proof. intros Hab Hbc i Hi H. apply Hbc, Hab; assumption. Qed.

Lemma subset_antisym (a b : Z) : subset a b -> subset b a -> a = b.
Proof.
  intros Hab Hba. apply Z.bits_inj'. intros i Hi.
  destruct (Z.testbit a i) eqn:Ha.
  - symmetry. apply Hab; assumption.
  - destruct (Z.testbit b i) eqn:Hb; [|reflexivity].
    rewrite (Hba i Hi Hb) in Ha. discriminate.
Qed.

Lemma subset_in_universe (m a b : Z) :
  0 <= m -> subset a b -> in_universe m b -> in_universe m a.
Proof.
  intros Hn Hab Hb. apply in_universe_of_bits; [exact Hn|].
  intros i Hi. destruct (Z.testbit a i) eqn:Ha; [|reflexivity].
  rewrite <- (in_universe_high m b i Hn Hb Hi). symmetry.
  apply Hab; [lia|exact Ha].
Qed.

Lemma Set_contains_subset (s t : Set_t) :
  Set_contains s t = true <-> subset (set t) (set s).
Proof.
  unfold Set_contains. rewrite Z.eqb_eq. split.
  - intros E i Hi Ht. rewrite <- E, Z.land_spec in Ht.
    apply andb_true_iff in Ht. tauto.
  - intros H. apply Z.bits_inj'. intros i Hi. rewrite Z.land_spec.
    destruct (Z.testbit (set t) i) eqn:Ht.
    + rewrite (H i Hi Ht). reflexivity.
    + apply andb_false_r.
Qed.

Lemma Set_contains_false (s t : Set_t) :
  Set_contains s t = false <-> ~ subset (set t) (set s).
Proof.
  rewrite <- Set_contains_subset. destruct (Set_contains s t); split;
    intros H; try reflexivity; congruence.
Qed.

(** ** Counting bits *)

Lemma popcount_upto_bounds (k : nat) (x : Z) :
  0 <= popcount_upto k x <= Z.of_nat k.
Proof.
  induction k as [|k IH]; simpl popcount_upto; [lia|].
  destruct (Z.testbit x (Z.of_nat k)); simpl Z.b2z; lia.
Qed.

Lemma popcount_upto_mono (k : nat) (x y : Z) :
  (forall i, 0 <= i < Z.of_nat k ->
     Z.testbit x i = true -> Z.testbit y i = true) ->
  popcount_upto k x <= popcount_upto k y.
Proof.
  induction k as [|k IH]; intros H; simpl popcount_upto; [lia|].
  assert (IH' : popcount_upto k x <= popcount_upto k y).
  { apply IH. intros i Hi. apply H. lia. }
  specialize (H (Z.of_nat k) ltac:(lia)).
  destruct (Z.testbit x (Z.of_nat k)); simpl Z.b2z.
  - rewrite H by reflexivity. simpl. lia.
  - destruct (Z.testbit y (Z.of_nat k)); simpl; lia.
Qed.

Lemma popcount_upto_mono_eq (k : nat) (x y : Z) :
  (forall i, 0 <= i < Z.of_nat k ->
     Z.testbit x i = true -> Z.testbit y i = true) ->
  popcount_upto k x = popcount_upto k y ->
  forall i, 0 <= i < Z.of_nat k -> Z.testbit x i = Z.testbit y i.
Proof.
  induction k as [|k IH]; intros H E i Hi; [lia|].
  simpl popcount_upto in E.
  assert (Hm : popcount_upto k x <= popcount_upto k y).
  { apply popcount_upto_mono. intros j Hj. apply H. lia. }
  pose proof (H (Z.of_nat k) ltac:(lia)) as Hk.
  destruct (Z.testbit x (Z.of_nat k)) eqn:Hx.
  - rewrite Hk in E by reflexivity. simpl in E.
    destruct (Z.eq_dec i (Z.of_nat k)) as [->|Hne].
    + rewrite Hx. symmetry. apply Hk. reflexivity.
    + apply IH; [intros j Hj; apply H; lia|lia|lia].
  - destruct (Z.testbit y (Z.of_nat k)) eqn:Hy; simpl in E; [lia|].
    destruct (Z.eq_dec i (Z.of_nat k)) as [->|Hne].
    + congruence.
    + apply IH; [intros j Hj; apply H; lia|lia|lia].
Qed.

Lemma popcount_upto_ext (k : nat) (x y : Z) :
  (forall i, 0 <= i < Z.of_nat k -> Z.testbit x i = Z.testbit y i) ->
  popcount_upto k x = popcount_upto k y.
Proof.
  induction k as [|k IH]; intros H; simpl popcount_upto; [reflexivity|].
  rewrite IH by (intros i Hi; apply H; lia).
  rewrite (H (Z.of_nat k)) by lia. reflexivity.
Qed.

Lemma popcount_upto_flip (k : nat) (x y i : Z) :
  0 <= i < Z.of_nat k ->
  Z.testbit x i = false -> Z.testbit y i = true ->
  (forall j, 0 <= j < Z.of_nat k -> j <> i -> Z.testbit y j = Z.testbit x j) ->
  popcount_upto k y = popcount_upto k x + 1.
Proof.
  induction k as [|k IH]; intros Hi Hx Hy H; [lia|].
  simpl popcount_upto.
  destruct (Z.eq_dec i (Z.of_nat k)) as [E|Hne].
  - subst i. rewrite Hx, Hy. simpl.
    rewrite (popcount_upto_ext k y x); [lia|].
    intros j Hj. apply H; lia.
  - rewrite IH by (try lia; try assumption; intros j Hj Hji; apply H; lia).
    rewrite (H (Z.of_nat k)) by lia. lia.
Qed.

Lemma popcount_upto_low (k m : nat) (x : Z) :
  (m <= k)%nat ->
  (forall i, Z.of_nat m <= i < Z.of_nat k -> Z.testbit x i = false) ->
  popcount_upto k x = popcount_upto m x.
Proof.
  intros Hnk. induction Hnk as [|k Hnk IH]; intros H; [reflexivity|].
  simpl popcount_upto. rewrite IH by (intros i Hi; apply H; lia).
  rewrite H by lia. simpl. lia.
Qed.

Lemma popcount_upto_all (k : nat) (x : Z) :
  popcount_upto k x = Z.of_nat k ->
  forall i, 0 <= i < Z.of_nat k -> Z.testbit x i = true.
Proof.
  induction k as [|k IH]; intros E i Hi; [lia|].
  simpl popcount_upto in E.
  pose proof (popcount_upto_bounds k x) as Hb.
  destruct (Z.testbit x (Z.of_nat k)) eqn:Hx; simpl in E; [|lia].
  destruct (Z.eq_dec i (Z.of_nat k)) as [->|Hne]; [exact Hx|].
  apply IH; lia.
Qed.

Lemma popcount_upto_ones (k : nat) (x : Z) :
  (forall i, 0 <= i < Z.of_nat k -> Z.testbit x i = true) ->
  popcount_upto k x = Z.of_nat k.
Proof.
  induction k as [|k IH]; intros H; simpl popcount_upto; [reflexivity|].
  rewrite IH by (intros i Hi; apply H; lia).
  rewrite H by lia. simpl. lia.
Qed.

Lemma popcount_unfold (x : Z) : popcount x = popcount_upto 32 x.
Proof. reflexivity. Qed.

Lemma popcount_bounds (x : Z) : 0 <= popcount x <= 32.
Proof. exact (popcount_upto_bounds 32 x). Qed.

Lemma u8_popcount (x : Z) : u8 (popcount x) = popcount x.
Proof.
  unfold u8. apply Z.mod_small. pose proof (popcount_bounds x). lia.
Qed.

Lemma popcount_in_universe (m x : Z) :
  0 <= m <= 32 -> in_universe m x ->
  popcount x = popcount_upto (Z.to_nat m) x.
Proof.
  intros Hn Hx. unfold popcount. apply popcount_upto_low; [lia|].
  intros i Hi. apply (in_universe_high m x i); [lia|exact Hx|lia].
Qed.

Lemma popcount_universe_le (m x : Z) :
  0 <= m <= 32 -> in_universe m x -> popcount x <= m.
Proof.
  intros Hn Hx. rewrite (popcount_in_universe m x Hn Hx).
  pose proof (popcount_upto_bounds (Z.to_nat m) x). lia.
Qed.

Lemma ones_in_universe (m : Z) : 0 <= m -> in_universe m (Z.shiftl 1 m - 1).
Proof.
  intros Hn. unfold in_universe. rewrite Z.shiftl_1_l.
  assert (0 < 2 ^ m) by (apply Z.pow_pos_nonneg; lia). lia.
Qed.

Lemma ones_bit (m i : Z) :
  0 <= m -> 0 <= i -> Z.testbit (Z.shiftl 1 m - 1) i = (i <? m).
Proof.
  intros Hn Hi. change (Z.shiftl 1 m - 1) with (Z.ones m).
  destruct (Z.ltb_spec i m).
  - apply Z.ones_spec_low. lia.
  - apply Z.ones_spec_high. lia.
Qed.

Lemma popcount_ones (m : Z) :
  0 <= m <= 32 -> popcount (Z.shiftl 1 m - 1) = m.
Proof.
  intros Hn.
  rewrite (popcount_in_universe m) by (try lia; apply ones_in_universe; lia).
  rewrite popcount_upto_ones; [lia|].
  intros i Hi. rewrite ones_bit by lia. apply Z.ltb_lt. lia.
Qed.

(** In the universe, only the set of all attributes has [m] bits. *)
Lemma popcount_full (m x : Z) :
  0 <= m <= 32 -> in_universe m x ->
  (popcount x = m <-> x = Z.shiftl 1 m - 1).
Proof.
  intros Hn Hx. split.
  - intros E. rewrite (popcount_in_universe m x Hn Hx) in E.
    apply Z.bits_inj'. intros i Hi. rewrite ones_bit by lia.
    destruct (Z.ltb_spec i m).
    + apply (popcount_upto_all (Z.to_nat m)); lia.
    + apply (in_universe_high m); [lia|exact Hx|lia].
  - intros ->. apply popcount_ones. exact Hn.
Qed.

(** ** Attribute sets *)

Lemma Set_union_bit (s t : Set_t) (i : Z) :
  Z.testbit (set (Set_union s t)) i =
  Z.testbit (set s) i || Z.testbit (set t) i.
Proof. apply Z.lor_spec. Qed.

Lemma Set_difference_bit (s t : Set_t) (i : Z) :
  0 <= i ->
  Z.testbit (set (Set_difference s t)) i =
  Z.testbit (set s) i && ((i <? 32) && negb (Z.testbit (set t) i)).
Proof.
  intros Hi. simpl. rewrite Z.land_spec, u32_bit, Z.lnot_spec by lia.
  reflexivity.
Qed.

Lemma Set_union_consistent (s t : Set_t) : consistent (Set_union s t).
Proof. apply u8_popcount. Qed.

Lemma Set_intersection_consistent (s t : Set_t) :
  consistent (Set_intersection s t).
Proof. apply u8_popcount. Qed.

Lemma Set_difference_consistent (s t : Set_t) :
  consistent (Set_difference s t).
Proof. apply u8_popcount. Qed.

Lemma Set_union_in_universe (m : Z) (s t : Set_t) :
  0 <= m -> in_universe m (set s) -> in_universe m (set t) ->
  in_universe m (set (Set_union s t)).
Proof.
  intros Hn Hs Ht. apply in_universe_of_bits; [exact Hn|]. intros i Hi.
  rewrite Set_union_bit, (in_universe_high m (set s)),
    (in_universe_high m (set t)) by assumption.
  reflexivity.
Qed.

Lemma Set_difference_in_universe (m : Z) (s t : Set_t) :
  0 <= m -> in_universe m (set s) ->
  in_universe m (set (Set_difference s t)).
Proof.
  intros Hn Hs. apply in_universe_of_bits; [exact Hn|]. intros i Hi.
  rewrite Set_difference_bit, (in_universe_high m (set s)) by (assumption || lia).
  reflexivity.
Qed.

Lemma Set_full_ok (m : Z) :
  0 <= m <= MAX_ATTRIBS ->
  exists s, Set_full m = Ok s /\ set s = Z.shiftl 1 m - 1 /\
            wf m s /\ idle s.
Proof.
  intros Hn. unfold Set_full.
  replace (m <=? MAX_ATTRIBS) with true by (symmetry; apply Z.leb_le; lia).
  simpl. eexists. split; [reflexivity|]. split; [reflexivity|].
  unfold MAX_ATTRIBS in Hn.
  split; [split|split; reflexivity].
  - apply ones_in_universe. lia.
  - unfold consistent. simpl. symmetry. apply popcount_ones. lia.
Qed.

Lemma Set_is_full_ok (s : Set_t) (m : Z) :
  m <= MAX_ATTRIBS -> Set_is_full s m = Ok (size s =? m).
Proof.
  intros Hn. unfold Set_is_full.
  replace (m <=? MAX_ATTRIBS) with true by (symmetry; apply Z.leb_le; lia).
  reflexivity.
Qed.

Lemma wf_full_iff (m : Z) (s : Set_t) :
  0 <= m <= MAX_ATTRIBS -> wf m s ->
  (size s = m <-> set s = Z.shiftl 1 m - 1).
Proof.
  intros Hn [Hr Hc]. rewrite Hc. apply popcount_full; [|exact Hr].
  unfold MAX_ATTRIBS in Hn. lia.
Qed.

Lemma Set_insert_new (s : Set_t) (i : Z) :
  0 <= i < MAX_ATTRIBS -> cursor s = 0 -> Z.testbit (set s) i = false ->
  Set_insert s i =
  Ok {| set := Z.lor (set s) (Z.shiftl 1 i); size := u8 (size s + 1);
        cursor := cursor s; count := count s |}.
Proof.
  intros Hi Hc Hb. unfold Set_insert.
  replace (i <? MAX_ATTRIBS) with true by (symmetry; apply Z.ltb_lt; lia).
  rewrite Hc, land_bit_zero, Hb by lia. reflexivity.
Qed.

Lemma Set_remove_ok (s : Set_t) (i : Z) :
  0 <= i < MAX_ATTRIBS -> cursor s = 0 -> Z.testbit (set s) i = true ->
  Set_remove s i =
  Ok {| set := Z.lxor (set s) (Z.shiftl 1 i); size := u8 (size s - 1);
        cursor := cursor s; count := count s |}.
Proof.
  intros Hi Hc Hb. unfold Set_remove.
  replace (i <? MAX_ATTRIBS) with true by (symmetry; apply Z.ltb_lt; lia).
  rewrite Hc, land_bit_zero, Hb by lia. reflexivity.
Qed.

Lemma lxor_bit_removed (x i j : Z) :
  0 <= i -> 0 <= j ->
  Z.testbit (Z.lxor x (Z.shiftl 1 i)) j = xorb (Z.testbit x j) (i =? j).
Proof.
  intros Hi Hj. rewrite Z.lxor_spec, bit_of_shiftl by lia. reflexivity.
Qed.

Lemma lor_bit_added (x i j : Z) :
  0 <= i -> 0 <= j ->
  Z.testbit (Z.lor x (Z.shiftl 1 i)) j = Z.testbit x j || (i =? j).
Proof.
  intros Hi Hj. rewrite Z.lor_spec, bit_of_shiftl by lia. reflexivity.
Qed.

Lemma popcount_added (x i : Z) :
  0 <= i < 32 -> Z.testbit x i = false ->
  popcount (Z.lor x (Z.shiftl 1 i)) = popcount x + 1.
Proof.
  intros Hi Hb. unfold popcount. apply (popcount_upto_flip 32 x _ i).
  - lia.
  - exact Hb.
  - rewrite lor_bit_added, Z.eqb_refl by lia. apply orb_true_r.
  - intros j Hj Hne. rewrite lor_bit_added by lia.
    replace (i =? j) with false by (symmetry; apply Z.eqb_neq; lia).
    apply orb_false_r.
Qed.

Lemma popcount_removed (x i : Z) :
  0 <= i < 32 -> Z.testbit x i = true ->
  popcount (Z.lxor x (Z.shiftl 1 i)) = popcount x - 1.
Proof.
  intros Hi Hb. unfold popcount.
  rewrite (popcount_upto_flip 32 (Z.lxor x (Z.shiftl 1 i)) x i); [lia|lia| | |].
  - rewrite lxor_bit_removed, Hb, Z.eqb_refl by lia. reflexivity.
  - exact Hb.
  - intros j Hj Hne. rewrite lxor_bit_removed by lia.
    replace (i =? j) with false by (symmetry; apply Z.eqb_neq; lia).
    symmetry. apply xorb_false_r.
Qed.

Lemma popcount_pos (x i : Z) :
  0 <= i < 32 -> Z.testbit x i = true -> 1 <= popcount x.
Proof.
  intros Hi Hb. pose proof (popcount_removed x i Hi Hb).
  pose proof (popcount_bounds (Z.lxor x (Z.shiftl 1 i))). lia.
Qed.

Lemma Set_insert_consistent (s s' : Set_t) (i : Z) :
  0 <= i -> consistent s -> Set_insert s i = Ok s' -> consistent s'.
Proof.
  unfold Set_insert, consistent. intros Hi Hs.
  destruct (i <? MAX_ATTRIBS) eqn:Hlt; [|discriminate].
  destruct (cursor s =? 0); [|discriminate]. simpl.
  rewrite land_bit_zero, negb_involutive by lia.
  apply Z.ltb_lt in Hlt. unfold MAX_ATTRIBS in Hlt.
  destruct (Z.testbit (set s) i) eqn:Hb; intros E; inversion E; subst s'.
  - exact Hs.
  - simpl. rewrite popcount_added, Hs by (lia || assumption).
    unfold u8. apply Z.mod_small. pose proof (popcount_bounds (set s)). lia.
Qed.

Lemma Set_remove_consistent (s s' : Set_t) (i : Z) :
  0 <= i -> consistent s -> Set_remove s i = Ok s' -> consistent s'.
Proof.
  unfold Set_remove, consistent. intros Hi Hs.
  destruct (i <? MAX_ATTRIBS) eqn:Hlt; [|discriminate]. simpl.
  rewrite land_bit_zero, negb_involutive by lia.
  apply Z.ltb_lt in Hlt. unfold MAX_ATTRIBS in Hlt.
  destruct (Z.testbit (set s) i) eqn:Hb; [|discriminate].
  destruct (cursor s =? 0); [|discriminate].
  intros E; inversion E; subst s'. simpl.
  rewrite popcount_removed, Hs by (lia || assumption).
  unfold u8. apply Z.mod_small.
  pose proof (popcount_bounds (set s)).
  pose proof (popcount_pos (set s) i ltac:(lia) Hb). lia.
Qed.

(** C10: every set built by the operations of [set.c] keeps
    [size == popcount(set)], given that the set operated on does; for a set
    of the universe with this invariant, [Set_is_full], which looks at the
    [size] field alone, holds exactly of the set of all [m] attributes. *)
Theorem size_is_popcount (s t : Set_t) (i m : Z) :
  0 <= i -> 0 <= m <= MAX_ATTRIBS -> consistent s ->
  consistent (Set_union s t) /\
  consistent (Set_intersection s t) /\
  consistent (Set_difference s t) /\
  consistent Set_init /\
  consistent (Set_copy s) /\
  (forall f, Set_full m = Ok f -> consistent f) /\
  (forall s', Set_insert s i = Ok s' -> consistent s') /\
  (forall s', Set_remove s i = Ok s' -> consistent s') /\
  consistent Set_clear /\
  (in_universe m (set s) ->
   exists b, Set_is_full s m = Ok b /\
             (b = true <-> set s = Z.shiftl 1 m - 1)).
Proof.
  intros Hi Hn Hs.
  split; [apply Set_union_consistent|].
  split; [apply Set_intersection_consistent|].
  split; [apply Set_difference_consistent|].
  split; [reflexivity|].
  split; [exact Hs|].
  split.
  { intros f Hf. destruct (Set_full_ok m Hn) as (f' & E & _ & [_ Hc] & _).
    congruence. }
  split; [intros s'; apply Set_insert_consistent; assumption|].
  split; [intros s'; apply Set_remove_consistent; assumption|].
  split; [reflexivity|].
  intros Hr. exists (size s =? m). split; [apply Set_is_full_ok; lia|].
  rewrite Z.eqb_eq. apply wf_full_iff; [exact Hn|]. split; assumption.
Qed.

Lemma size_is_popcount_witness :
  consistent (Set_union (mkSet 5 2 0 0) (mkSet 3 2 0 0)) /\
  (forall s', Set_remove (mkSet 5 2 0 0) 2 = Ok s' -> consistent s').
Proof.
  assert (H : consistent (mkSet 5 2 0 0)) by reflexivity.
  destruct (size_is_popcount (mkSet 5 2 0 0) (mkSet 3 2 0 0) 2 3
              ltac:(lia) ltac:(unfold MAX_ATTRIBS; lia) H)
    as (U & _ & _ & _ & _ & _ & _ & R & _).
  split; assumption.
Defined.

(** C8: [Set_insert] leaves a set that holds [i] as it is; [Set_remove]
    fails its assertion when [i] is absent or not below [MAX_ATTRIBS]; both
    fail their assertion while the cursor is not 0. *)
Theorem mutator_errors (s : Set_t) (i : Z) :
  0 <= i ->
  (i < MAX_ATTRIBS -> cursor s = 0 -> Z.testbit (set s) i = true ->
   Set_insert s i = Ok s) /\
  (Z.testbit (set s) i = false \/ MAX_ATTRIBS <= i ->
   Set_remove s i = AssertFail) /\
  (cursor s <> 0 ->
   Set_insert s i = AssertFail /\ Set_remove s i = AssertFail).
Proof.
  intros Hi. split; [|split].
  - intros Hlt Hc Hb. unfold Set_insert.
    replace (i <? MAX_ATTRIBS) with true by (symmetry; apply Z.ltb_lt; lia).
    rewrite Hc, land_bit_zero, Hb by lia. reflexivity.
  - intros H. unfold Set_remove.
    destruct (i <? MAX_ATTRIBS) eqn:Hlt; [|reflexivity].
    destruct H as [Hb|Hge]; [|apply Z.ltb_lt in Hlt; lia].
    rewrite land_bit_zero, Hb by lia. reflexivity.
  - intros Hc. apply Z.eqb_neq in Hc. unfold Set_insert, Set_remove.
    rewrite Hc. split.
    + destruct (i <? MAX_ATTRIBS); reflexivity.
    + destruct (i <? MAX_ATTRIBS); [|reflexivity].
      destruct (negb (Z.land (set s) (Z.shiftl 1 i) =? 0)); reflexivity.
Qed.

Lemma mutator_errors_witness :
  Set_insert (mkSet 5 2 0 0) 2 = Ok (mkSet 5 2 0 0) /\
  Set_remove (mkSet 5 2 0 0) 1 = AssertFail /\
  Set_insert (mkSet 5 2 1 1) 1 = AssertFail.
Proof.
  destruct (mutator_errors (mkSet 5 2 0 0) 2 ltac:(lia)) as (I & _ & _).
  destruct (mutator_errors (mkSet 5 2 0 0) 1 ltac:(lia)) as (_ & R & _).
  destruct (mutator_errors (mkSet 5 2 1 1) 1 ltac:(lia)) as (_ & _ & C).
  split; [|split].
  - apply I; [unfold MAX_ATTRIBS; lia|reflexivity|reflexivity].
  - apply R. left. reflexivity.
  - apply C. simpl. lia.
Defined.

(** ** Difference and the mask of used bits *)

Lemma USED_MASK_bit (i : Z) :
  0 <= i -> Z.testbit USED_MASK i = (i <? MAX_ATTRIBS).
Proof.
  intros Hi. change USED_MASK with (Z.shiftl 1 26 - 1). unfold MAX_ATTRIBS.
  apply ones_bit; lia.
Qed.

Lemma outside_mask_bit (x i : Z) :
  0 <= i ->
  Z.testbit (outside_mask x) i =
  Z.testbit x i && ((i <? 32) && negb (i <? MAX_ATTRIBS)).
Proof.
  intros Hi. unfold outside_mask.
  rewrite Z.land_spec, u32_bit, Z.lnot_spec, USED_MASK_bit by lia.
  reflexivity.
Qed.

Lemma in_universe_outside_mask (x : Z) :
  in_universe MAX_ATTRIBS x -> outside_mask x = 0.
Proof.
  intros Hx. apply Z.bits_inj'. intros i Hi.
  rewrite outside_mask_bit, Z.bits_0 by exact Hi.
  destruct (Z.ltb_spec i MAX_ATTRIBS) as [Hlt|Hge].
  - rewrite !andb_false_r. reflexivity.
  - rewrite (in_universe_high MAX_ATTRIBS x i) by
      (unfold MAX_ATTRIBS in *; lia || assumption).
    reflexivity.
Qed.

(** [Set_difference] of [set.c] computes [s->set & ~t->set] and applies no
    mask of its own: the bits of its result from position 26 on are those of
    its first argument. *)
Lemma Set_difference_within_mask (a b : Set_t) :
  outside_mask (set a) = 0 ->
  outside_mask (set (Set_difference a b)) = 0.
Proof.
  unfold outside_mask. intros H. apply Z.bits_inj'. intros i Hi.
  assert (Ha : Z.testbit (Z.land (set a) (u32 (Z.lnot USED_MASK))) i = false).
  { rewrite H. apply Z.bits_0. }
  rewrite Z.land_spec in Ha.
  rewrite Z.land_spec, Set_difference_bit, Z.bits_0 by exact Hi.
  destruct (Z.testbit (set a) i); [|reflexivity].
  simpl in Ha. rewrite Ha. apply andb_false_r.
Qed.

(** A structure with bit 26 in its [set] field is not one of the sets that
    the operations build (see [built_in_universe] below); on such a
    structure the bit would stay in the difference. *)
Example Set_difference_of_raw_structure :
  outside_mask (set (Set_difference (mkSet (2 ^ 26) 1 0 0) Set_init)) <> 0.
Proof. vm_compute. discriminate. Qed.

Lemma Set_h_difference_outside_mask (a b : Set_t) :
  outside_mask (set (Set_h.Set_difference a b)) = 0.
Proof.
  apply Z.bits_inj'. intros i Hi. rewrite outside_mask_bit, Z.bits_0 by lia.
  cbn [Set_h.Set_difference set].
  rewrite !Z.land_spec, USED_MASK_bit by lia.
  destruct (i <? MAX_ATTRIBS); [|rewrite !andb_false_r; reflexivity].
  rewrite !andb_false_r. reflexivity.
Qed.

Lemma next_pos_from_set (todo : nat) :
  forall (i : Z) (s : Set_t), set (fst (next_pos_from todo i s)) = set s.
Proof.
  induction todo as [|todo IH]; intros i s; cbn [next_pos_from].
  - reflexivity.
  - destruct (negb (Z.land (set s) (Z.shiftl 1 i) =? 0)); [|apply IH].
    destruct (u8 (count s + 1) =? size s); reflexivity.
Qed.

Lemma print_loop_set (todo : nat) :
  forall s : Set_t, set (fst (print_loop todo s)) = set s.
Proof.
  induction todo as [|todo IH]; intros s; cbn [print_loop].
  - reflexivity.
  - pose proof (next_pos_from_set (Z.to_nat (MAX_ATTRIBS - cursor s))
                  (cursor s) s) as Hn.
    fold (Set_next_pos s) in Hn.
    destruct (Set_next_pos s) as [s1 pos]. cbn [fst] in Hn.
    pose proof (IH s1) as Hp.
    destruct (print_loop todo s1) as [s2 line]. cbn [fst] in Hp |- *.
    rewrite Hp. exact Hn.
Qed.

Lemma bit_in_universe (i : Z) :
  0 <= i < MAX_ATTRIBS -> in_universe MAX_ATTRIBS (Z.shiftl 1 i).
Proof.
  intros Hi. unfold in_universe. rewrite Z.shiftl_1_l.
  split; [apply Z.pow_nonneg; lia|].
  apply Z.pow_lt_mono_r; unfold MAX_ATTRIBS in *; lia.
Qed.

(** No operation of [set.c] sets a bit from position 26 on. *)
Lemma built_in_universe (s : Set_t) :
  built s -> in_universe MAX_ATTRIBS (set s).
Proof.
  assert (H26 : 0 <= MAX_ATTRIBS) by (unfold MAX_ATTRIBS; lia).
  assert (H0 : in_universe MAX_ATTRIBS 0) by (split; [lia|reflexivity]).
  induction 1 as [ | | |m s Hm E|s _ IH|s i s' _ IH Hi E|s i s' _ IH Hi E
                  |s t _ IHs _ IHt|s t _ IHs _ IHt|s t _ IHs _ IHt
                  |s _ IH|s _ IH].
  - exact H0.
  - exact H0.
  - exact H0.
  - unfold Set_full in E. destruct (m <=? MAX_ATTRIBS) eqn:Hle; [|discriminate].
    apply Z.leb_le in Hle. cbn in E. inversion E. cbn [set].
    apply (in_universe_weaken m); [lia|]. apply ones_in_universe. exact Hm.
  - exact IH.
  - unfold Set_insert in E. destruct (i <? MAX_ATTRIBS) eqn:Hlt; [|discriminate].
    apply Z.ltb_lt in Hlt. destruct (cursor s =? 0); [|discriminate].
    cbn [assert bind] in E.
    destruct (negb (Z.land (set s) (Z.shiftl 1 i) =? 0));
      inversion E; subst s'; [exact IH|]. cbn [set].
    apply in_universe_of_bits; [exact H26|]. intros j Hj.
    rewrite Z.lor_spec, (in_universe_high MAX_ATTRIBS (set s) j),
      (in_universe_high MAX_ATTRIBS (Z.shiftl 1 i) j)
      by (assumption || apply bit_in_universe; lia).
    reflexivity.
  - unfold Set_remove in E. destruct (i <? MAX_ATTRIBS) eqn:Hlt; [|discriminate].
    apply Z.ltb_lt in Hlt.
    destruct (negb (Z.land (set s) (Z.shiftl 1 i) =? 0)); [|discriminate].
    destruct (cursor s =? 0); [|discriminate].
    cbn [assert bind] in E. inversion E. cbn [set].
    apply in_universe_of_bits; [exact H26|]. intros j Hj.
    rewrite Z.lxor_spec, (in_universe_high MAX_ATTRIBS (set s) j),
      (in_universe_high MAX_ATTRIBS (Z.shiftl 1 i) j)
      by (assumption || apply bit_in_universe; lia).
    reflexivity.
  - apply Set_union_in_universe; assumption.
  - apply in_universe_of_bits; [exact H26|]. intros j Hj.
    cbn [Set_intersection set].
    rewrite Z.land_spec, (in_universe_high MAX_ATTRIBS (set s) j)
      by assumption.
    reflexivity.
  - apply Set_difference_in_universe; assumption.
  - unfold Set_next_pos. rewrite next_pos_from_set. exact IH.
  - unfold Set_print. rewrite print_loop_set. exact IH.
Qed.

(** C9: the result of [Set_difference] has no bit from position 26 on,
    although the complement of a set [b] of the universe has all the bits
    from 26 to 31.  In [set.c] this holds for every set [a] that the
    operations of [set.c] build and every [b]; the revision of [set.h] that
    masks the complement with [USED_MASK] ensures it for every value of the
    two structures. *)
Theorem Set_difference_in_range (a b : Set_t) :
  built a ->
  outside_mask (set (Set_difference a b)) = 0 /\
  (forall i, MAX_ATTRIBS <= i ->
     Z.testbit (set (Set_difference a b)) i = false) /\
  (in_universe MAX_ATTRIBS (set b) ->
   forall i, MAX_ATTRIBS <= i < 32 ->
     Z.testbit (u32 (Z.lnot (set b))) i = true) /\
  (forall a' b' : Set_t,
     outside_mask (set (Set_h.Set_difference a' b')) = 0).
Proof.
  intros Ha. pose proof (built_in_universe a Ha) as Hu.
  assert (H26 : 0 <= MAX_ATTRIBS) by (unfold MAX_ATTRIBS; lia).
  split; [|split; [|split]].
  - apply Set_difference_within_mask, in_universe_outside_mask. exact Hu.
  - intros i Hi.
    apply (in_universe_high MAX_ATTRIBS); [exact H26| |exact Hi].
    apply Set_difference_in_universe; assumption.
  - intros Hb i Hi.
    rewrite u32_bit, Z.lnot_spec, (in_universe_high MAX_ATTRIBS (set b) i)
      by (assumption || lia).
    replace (i <? 32) with true by (symmetry; apply Z.ltb_lt; lia).
    reflexivity.
  - apply Set_h_difference_outside_mask.
Qed.

Lemma Set_difference_in_range_witness :
  outside_mask (set (Set_difference (mkSet 5 2 0 0) (mkSet 4 1 0 0))) = 0 /\
  (forall i, MAX_ATTRIBS <= i ->
     Z.testbit (set (Set_difference (mkSet 5 2 0 0) (mkSet 4 1 0 0))) i
     = false) /\
  (forall i, MAX_ATTRIBS <= i < 32 ->
     Z.testbit (u32 (Z.lnot (set (mkSet 4 1 0 0)))) i = true) /\
  (forall a' b' : Set_t,
     outside_mask (set (Set_h.Set_difference a' b')) = 0).
Proof.
  destruct (Set_difference_in_range (mkSet 5 2 0 0) (mkSet 4 1 0 0))
    as (Hmask & Hbits & Hcompl & Hheader).
  - apply (built_insert (mkSet 1 1 0 0) 2); [|lia|reflexivity].
    apply (built_insert Set_init 0); [|lia|reflexivity].
    apply built_init.
  - split; [exact Hmask|]. split; [exact Hbits|]. split; [|exact Hheader].
    apply Hcompl. unfold in_universe, MAX_ATTRIBS. cbn [set]. lia.
Defined.

(** ** Enumeration of the members *)

Lemma members_from_In (todo : nat) (i x j : Z) :
  In j (members_from todo i x) <->
  i <= j < i + Z.of_nat todo /\ Z.testbit x j = true.
Proof.
  revert i. induction todo as [|todo IH]; intros i.
  - simpl. split; [tauto|lia].
  - cbn [members_from]. destruct (Z.testbit x i) eqn:Hb.
    + cbn [In]. rewrite IH. split.
      * intros [<-|[H1 H2]]; [split; [lia|exact Hb]|split; [lia|exact H2]].
      * intros [H1 H2]. destruct (Z.eq_dec i j) as [E|Hne]; [left; exact E|].
        right. split; [lia|exact H2].
    + rewrite IH. split.
      * intros [H1 H2]. split; [lia|exact H2].
      * intros [H1 H2]. destruct (Z.eq_dec i j) as [E|Hne].
        { subst j. congruence. }
        split; [lia|exact H2].
Qed.

Lemma members_In (s : Set_t) (j : Z) :
  In j (members s) <-> 0 <= j < MAX_ATTRIBS /\ Z.testbit (set s) j = true.
Proof.
  unfold members. rewrite members_from_In.
  rewrite Z2Nat.id by (unfold MAX_ATTRIBS; lia). reflexivity.
Qed.

Lemma members_from_lower (todo : nat) (i x : Z) :
  Forall (fun j => i <= j) (members_from todo i x).
Proof.
  apply Forall_forall. intros j Hj. apply members_from_In in Hj. lia.
Qed.

Lemma members_from_sorted (todo : nat) (i x : Z) :
  StronglySorted Z.lt (members_from todo i x).
Proof.
  revert i. induction todo as [|todo IH]; intros i; cbn [members_from].
  - constructor.
  - destruct (Z.testbit x i); [|apply IH].
    constructor; [apply IH|].
    eapply Forall_impl; [|apply (members_from_lower todo (i + 1) x)].
    simpl. intros j Hj. lia.
Qed.

Lemma members_from_length (todo : nat) (i x : Z) :
  0 <= i ->
  Z.of_nat (length (members_from todo i x)) + popcount_upto (Z.to_nat i) x =
  popcount_upto (Z.to_nat i + todo) x.
Proof.
  revert i. induction todo as [|todo IH]; intros i Hi; cbn [members_from].
  - simpl. rewrite Nat.add_0_r. reflexivity.
  - replace (Z.to_nat i + S todo)%nat with (Z.to_nat (i + 1) + todo)%nat by lia.
    rewrite <- IH by lia.
    replace (Z.to_nat (i + 1)) with (S (Z.to_nat i)) by lia.
    cbn [popcount_upto]. rewrite Z2Nat.id by lia.
    destruct (Z.testbit x i); cbn [length Z.b2z]; lia.
Qed.

Lemma members_length (s : Set_t) :
  wf MAX_ATTRIBS s -> Z.of_nat (length (members s)) = size s.
Proof.
  intros [Hr Hc]. rewrite Hc.
  rewrite (popcount_in_universe MAX_ATTRIBS) by (unfold MAX_ATTRIBS; lia || exact Hr).
  pose proof (members_from_length (Z.to_nat MAX_ATTRIBS) 0 (set s) ltac:(lia)) as H.
  simpl popcount_upto in H at 1. unfold members.
  change (Z.to_nat 0 + Z.to_nat MAX_ATTRIBS)%nat with (Z.to_nat MAX_ATTRIBS) in H.
  lia.
Qed.

(** What one call of [Set_next_pos] does, read off the members left at and
    after the cursor. *)
Lemma next_pos_from_spec (todo : nat) (i : Z) (s : Set_t) :
  0 <= i ->
  match members_from todo i (set s) with
  | [] => next_pos_from todo i s = (s, INVALID_ATTRIB)
  | m :: rest =>
      next_pos_from todo i s =
      ((if u8 (count s + 1) =? size s
        then {| set := set s; size := size s; cursor := 0; count := 0 |}
        else {| set := set s; size := size s; cursor := m + 1;
                count := u8 (count s + 1) |}), m) /\
      i <= m /\
      rest = members_from (todo - S (Z.to_nat (m - i))) (m + 1) (set s)
  end.
Proof.
  revert i. induction todo as [|todo IH]; intros i Hi.
  - reflexivity.
  - cbn [members_from next_pos_from]. rewrite land_bit_zero by lia.
    rewrite negb_involutive.
    destruct (Z.testbit (set s) i) eqn:Hb.
    + split; [|split; [lia|]].
      * destruct (u8 (count s + 1) =? size s); reflexivity.
      * replace (Z.to_nat (i - i)) with O by lia.
        replace (S todo - 1)%nat with todo by lia. reflexivity.
    + specialize (IH (i + 1) ltac:(lia)).
      destruct (members_from todo (i + 1) (set s)) as [|m rest]; [exact IH|].
      destruct IH as (E & Hm & Hr). split; [exact E|]. split; [lia|].
      rewrite Hr. f_equal. lia.
Qed.

Lemma idle_at_cursor (s : Set_t) : idle s -> at_cursor s 0 0 = s.
Proof. destruct s as [x z c j]. intros [Hc Hj]. simpl in *. subst. reflexivity. Qed.

Lemma Set_next_pos_at (s : Set_t) (c j : Z) :
  0 <= c <= MAX_ATTRIBS -> 0 <= j < 255 ->
  match members_from (Z.to_nat (MAX_ATTRIBS - c)) c (set s) with
  | [] => Set_next_pos (at_cursor s c j) = (at_cursor s c j, INVALID_ATTRIB)
  | m :: rest =>
      Set_next_pos (at_cursor s c j) =
      ((if j + 1 =? size s then at_cursor s 0 0
        else at_cursor s (m + 1) (j + 1)), m) /\
      c <= m < MAX_ATTRIBS /\
      rest = members_from (Z.to_nat (MAX_ATTRIBS - (m + 1))) (m + 1) (set s)
  end.
Proof.
  intros Hc Hj. unfold Set_next_pos.
  pose proof (next_pos_from_spec (Z.to_nat (MAX_ATTRIBS - c)) c
                (at_cursor s c j) ltac:(lia)) as H.
  cbn [at_cursor set size cursor count] in *.
  destruct (members_from (Z.to_nat (MAX_ATTRIBS - c)) c (set s))
    as [|m rest] eqn:E; [exact H|].
  destruct H as (H1 & H2 & H3).
  assert (Hm : c <= m < MAX_ATTRIBS).
  { assert (Hin : In m (members_from (Z.to_nat (MAX_ATTRIBS - c)) c (set s)))
      by (rewrite E; left; reflexivity).
    apply members_from_In in Hin. lia. }
  split; [|split; [exact Hm|]].
  - rewrite H1. unfold u8. rewrite Z.mod_small by lia.
    destruct (j + 1 =? size s); reflexivity.
  - rewrite H3. f_equal. lia.
Qed.

(** Draining the members [R] left from the cursor on brings the set back
    to its idle state. *)
Lemma print_loop_drain (s : Set_t) (R : list Z) :
  forall c j : Z,
  0 <= c <= MAX_ATTRIBS -> 0 <= j -> size s < 256 ->
  members_from (Z.to_nat (MAX_ATTRIBS - c)) c (set s) = R ->
  j + Z.of_nat (length R) = size s ->
  R <> [] ->
  print_loop (length R) (at_cursor s c j) = (at_cursor s 0 0, R).
Proof.
  induction R as [|m rest IH]; intros c j Hc Hj Hs HR Hlen Hne; [congruence|].
  cbn [length] in Hlen. cbn [print_loop length].
  pose proof (Set_next_pos_at s c j Hc ltac:(lia)) as H. rewrite HR in H.
  destruct H as (E1 & Hm & Hrest). rewrite E1.
  destruct rest as [|m' rest'].
  - cbn [length] in Hlen.
    replace (j + 1 =? size s) with true by (symmetry; apply Z.eqb_eq; lia).
    reflexivity.
  - replace (j + 1 =? size s) with false
      by (symmetry; apply Z.eqb_neq; cbn [length] in Hlen; lia).
    rewrite (IH (m + 1) (j + 1)); try lia; congruence.
Qed.

Lemma Set_print_members (s : Set_t) :
  wf MAX_ATTRIBS s -> idle s -> Set_print s = (s, members s).
Proof.
  intros Hwf Hidle. unfold Set_print.
  pose proof (members_length s Hwf) as Hlen.
  assert (Hsz : size s < 256).
  { destruct Hwf as [_ Hc]. rewrite Hc.
    pose proof (popcount_bounds (set s)). lia. }
  rewrite <- Hlen, Nat2Z.id.
  destruct (members s) as [|m rest] eqn:E.
  - reflexivity.
  - pose proof (print_loop_drain s (m :: rest) 0 0) as D.
    rewrite (idle_at_cursor s Hidle) in D. apply D.
    + unfold MAX_ATTRIBS. lia.
    + lia.
    + exact Hsz.
    + exact E.
    + lia.
    + discriminate.
Qed.

(** C7, as stated, fails: the cursor is reset by the call that returns the
    last member, and the call after it starts over with the first member;
    no call returns [INVALID_ATTRIB]. *)
Lemma Set_next_pos_wraps_around :
  let s := mkSet 3 2 0 0 in
  let '(s1, p1) := Set_next_pos s in
  let '(s2, p2) := Set_next_pos s1 in
  let '(s3, p3) := Set_next_pos s2 in
  p1 = 0 /\ p2 = 1 /\ cursor s2 = 0 /\ p3 = 0 /\ p3 <> INVALID_ATTRIB.
Proof. vm_compute. repeat split; discriminate. Qed.

(** C7, amended: for a set of attributes below [MAX_ATTRIBS] whose [size]
    is its number of bits and whose cursor and count are 0, [size]
    successive calls of [Set_next_pos] return the members in ascending
    order; the last of these calls leaves cursor and count at 0 again, so
    that the next call starts over; [INVALID_ATTRIB] is returned, with the
    set unchanged, exactly when the set is empty. *)
Theorem Set_next_pos_protocol (s : Set_t) :
  wf MAX_ATTRIBS s -> idle s ->
  print_loop (Z.to_nat (size s)) s = (s, members s) /\
  StronglySorted Z.lt (members s) /\
  (forall i, In i (members s) <->
             0 <= i < MAX_ATTRIBS /\ Z.testbit (set s) i = true) /\
  (size s = 0 -> Set_next_pos s = (s, INVALID_ATTRIB)) /\
  (size s <> 0 -> In (snd (Set_next_pos s)) (members s)).
Proof.
  intros Hwf Hidle.
  split; [exact (Set_print_members s Hwf Hidle)|].
  split; [apply members_from_sorted|].
  split; [apply members_In|].
  pose proof (members_length s Hwf) as Hlen.
  assert (Hsz : size s < 256).
  { destruct Hwf as [_ Hc]. rewrite Hc.
    pose proof (popcount_bounds (set s)). lia. }
  pose proof (Set_next_pos_at s 0 0 ltac:(unfold MAX_ATTRIBS; lia) ltac:(lia))
    as H.
  rewrite (idle_at_cursor s Hidle) in H.
  change (members_from (Z.to_nat (MAX_ATTRIBS - 0)) 0 (set s))
    with (members s) in H.
  destruct (members s) as [|m rest]; cbn [length] in Hlen.
  - split; [intros _; exact H|]. intros Hne. lia.
  - split; [intros E; lia|]. intros _.
    destruct H as (E & _ & _). rewrite E. left. reflexivity.
Qed.

Lemma Set_next_pos_protocol_witness :
  print_loop 2 (mkSet 5 2 0 0) = (mkSet 5 2 0 0, [0; 2]).
Proof.
  assert (Hwf : wf MAX_ATTRIBS (mkSet 5 2 0 0)).
  { split; [unfold in_universe, MAX_ATTRIBS; simpl; lia|reflexivity]. }
  assert (Hidle : idle (mkSet 5 2 0 0)) by (split; reflexivity).
  destruct (Set_next_pos_protocol (mkSet 5 2 0 0) Hwf Hidle) as (E & _).
  exact E.
Defined.

(** ** Closure under the dependencies *)

Lemma popcount_union_grows (x y : Z) :
  in_universe 32 x -> in_universe 32 y -> ~ subset y x ->
  popcount x < popcount (Z.lor x y).
Proof.
  intros Hx Hy Hns.
  assert (Hle : popcount x <= popcount (Z.lor x y)).
  { rewrite (popcount_unfold x), (popcount_unfold (Z.lor x y)).
    apply popcount_upto_mono. intros i Hi Hb.
    rewrite Z.lor_spec, Hb. reflexivity. }
  assert (Hneq : popcount x <> popcount (Z.lor x y)).
  { intros E. rewrite (popcount_unfold x), (popcount_unfold (Z.lor x y)) in E.
    apply Hns. intros i Hi Hb.
    destruct (Z.lt_ge_cases i 32) as [Hlt|Hge].
    - assert (Hm : forall j, 0 <= j < Z.of_nat 32 ->
                Z.testbit x j = true -> Z.testbit (Z.lor x y) j = true).
      { intros j Hj Hbj. rewrite Z.lor_spec, Hbj. reflexivity. }
      assert (Hi32 : 0 <= i < Z.of_nat 32) by (split; [exact Hi|exact Hlt]).
      rewrite (popcount_upto_mono_eq 32 x (Z.lor x y) Hm E i Hi32).
      rewrite Z.lor_spec, Hb. apply orb_true_r.
    - rewrite (in_universe_high 32 y i) in Hb by (lia || assumption).
      discriminate. }
  lia.
Qed.

(** The fuel of [compute_closure] and [is_superkey] is never used up on
    machine words: a pass that sets [is_new_attrib] adds one of 32 bits. *)
Lemma closure_pass_grows (iter : list q_key_t) :
  forall (c : Set_t) (b : bool),
  (forall k, In k iter -> in_universe 32 (set (rhs k))) ->
  in_universe 32 (set c) ->
  match closure_pass iter n c b with
  | Ok (Full _) => True
  | Ok (Done c' b') =>
      in_universe 32 (set c') /\
      popcount (set c) <= popcount (set c') /\
      (b' = true -> b = true \/ popcount (set c) < popcount (set c'))
  | AssertFail => True
  | OutOfFuel => False
  end.
Proof.
  induction iter as [|k iter IH]; intros c b Hw Hc; cbn [closure_pass].
  - split; [exact Hc|]. split; [lia|]. intros ->. left. reflexivity.
  - assert (Hw' : forall k', In k' iter -> in_universe 32 (set (rhs k')))
      by (intros k' Hk'; apply Hw; right; exact Hk').
    destruct (Set_contains c (lhs k) && negb (Set_contains c (rhs k))) eqn:Ha.
    + apply andb_true_iff in Ha. destruct Ha as [_ Hr].
      apply negb_true_iff in Hr. apply Set_contains_false in Hr.
      assert (Hu : in_universe 32 (set (Set_union c (rhs k)))).
      { apply Set_union_in_universe; [lia|exact Hc|].
        apply Hw. left. reflexivity. }
      assert (Hg : popcount (set c) < popcount (set (Set_union c (rhs k)))).
      { apply popcount_union_grows; [exact Hc| |exact Hr].
        apply Hw. left. reflexivity. }
      destruct (Set_is_full (Set_union c (rhs k)) n) as [full| |] eqn:F;
        cbn [bind]; [|exact I|].
      * destruct full; [exact I|].
        specialize (IH (Set_union c (rhs k)) true Hw' Hu).
        destruct (closure_pass iter n (Set_union c (rhs k)) true)
          as [[c'|c' b']| |]; try exact IH.
        destruct IH as (H1 & H2 & H3). split; [exact H1|].
        split; [lia|]. intros _. right. lia.
      * unfold Set_is_full in F. destruct (n <=? MAX_ATTRIBS); discriminate.
    + apply IH; assumption.
Qed.

Lemma closure_while_fuel (fuel : nat) :
  forall c : Set_t,
  (forall k, In k q -> in_universe 32 (set (rhs k))) ->
  in_universe 32 (set c) ->
  32 - popcount (set c) < Z.of_nat fuel ->
  closure_while fuel q n c <> OutOfFuel /\
  superkey_while fuel q n c <> OutOfFuel.
Proof.
  induction fuel as [|fuel IH]; intros c Hw Hc Hfuel.
  - pose proof (popcount_bounds (set c)). lia.
  - cbn [closure_while superkey_while]. unfold Q_iterator.
    pose proof (closure_pass_grows q c false Hw Hc) as Hp.
    destruct (closure_pass q n c false) as [[c'|c' [|]]| |]; cbn [bind];
      try (split; discriminate); try contradiction.
    destruct Hp as (H1 & _ & H3).
    destruct (H3 eq_refl) as [H4|H4]; [discriminate|].
    apply IH; [exact Hw|exact H1|lia].
Qed.

Lemma closure_fuel_suffices (s : Set_t) :
  (forall k, In k q -> in_universe 32 (set (rhs k))) ->
  in_universe 32 (set s) ->
  compute_closure s q n <> OutOfFuel /\ is_superkey s q n <> OutOfFuel.
Proof.
  intros Hw Hs. apply closure_while_fuel; [exact Hw|exact Hs|].
  pose proof (popcount_bounds (set (Set_copy s))). unfold closure_fuel. lia.
Qed.

(** From here on: at most [MAX_ATTRIBS] attributes, and dependencies over
    them. *)
Hypothesis n_range : 0 <= n <= MAX_ATTRIBS.
Hypothesis q_valid : valid_deps.

Lemma derives_trans (a b c : Set_t) :
  derives a b -> derives b c -> derives a c.
Proof.
  intros Hab Hbc. induction Hab as [|a b k Hk Hl Hr _ IH]; [exact Hbc|].
  eapply derives_step; eauto.
Qed.

Lemma n_le_32 : 0 <= n <= 32.
Proof. unfold MAX_ATTRIBS in n_range. lia. Qed.

Lemma universe_32 (x : Z) : in_universe n x -> in_universe 32 x.
Proof. apply in_universe_weaken. apply n_le_32. Qed.

Lemma derives_facts (c c' : Set_t) :
  derives c c' -> in_universe n (set c) ->
  in_universe n (set c') /\
  subset (set c) (set c') /\
  (c' = c \/
   consistent c' /\ idle c' /\ popcount (set c) < popcount (set c')).
Proof.
  intros H. induction H as [c|c c' k Hk Hl Hr Hd IH]; intros Hc.
  - split; [exact Hc|]. split; [apply subset_refl|]. left. reflexivity.
  - destruct (q_valid k Hk) as [_ Hrk].
    assert (Hu : in_universe n (set (Set_union c (rhs k)))).
    { apply Set_union_in_universe; [apply n_range|exact Hc|exact Hrk]. }
    assert (Hg : popcount (set c) < popcount (set (Set_union c (rhs k)))).
    { apply popcount_union_grows; [apply universe_32..|]; assumption. }
    destruct (IH Hu) as (H1 & H2 & H3). split; [exact H1|]. split.
    + intros i Hi Hb. apply H2; [exact Hi|]. rewrite Set_union_bit, Hb.
      reflexivity.
    + right. destruct H3 as [->|(H3 & H4 & H5)].
      * split; [apply Set_union_consistent|]. split; [split; reflexivity|].
        exact Hg.
      * split; [exact H3|]. split; [exact H4|]. lia.
Qed.

Lemma derives_below (c c' : Set_t) (C : Z) :
  derives c c' -> closed C -> subset (set c) C -> subset (set c') C.
Proof.
  intros H HC. induction H as [c|c c' k Hk Hl Hr Hd IH]; intros Hc.
  - exact Hc.
  - apply IH. intros i Hi Hb. rewrite Set_union_bit in Hb.
    apply orb_true_iff in Hb. destruct Hb as [Hb|Hb].
    + apply Hc; assumption.
    + apply (HC k Hk); [|exact Hi|exact Hb].
      eapply subset_trans; [exact Hl|exact Hc].
Qed.

(** The set of all attributes is closed. *)
Lemma full_closed (c : Set_t) :
  in_universe n (set c) -> consistent c -> size c = n -> closed (set c).
Proof.
  intros Hu Hc Hs k Hk _ i Hi Hb.
  assert (E : set c = Z.shiftl 1 n - 1).
  { apply wf_full_iff; [exact n_range|split; assumption|exact Hs]. }
  rewrite E, ones_bit by (lia || apply n_range). apply Z.ltb_lt.
  destruct (Z.lt_ge_cases i n) as [Hlt|Hge]; [exact Hlt|].
  destruct (q_valid k Hk) as [_ Hrk].
  rewrite (in_universe_high n (set (rhs k)) i) in Hb
    by (assumption || apply n_range).
  discriminate.
Qed.

(** One pass. *)
Lemma closure_pass_spec (iter : list q_key_t) :
  forall (c : Set_t) (b : bool),
  incl iter q -> in_universe n (set c) ->
  exists r, closure_pass iter n c b = Ok r /\
    match r with
    | Full c' =>
        derives c c' /\ size c' = n /\ consistent c' /\ idle c'
    | Done c' b' =>
        derives c c' /\
        (c' = c \/ size c' <> n) /\
        (b' = false ->
         b = false /\ c' = c /\
         forall k, In k iter ->
           subset (set (lhs k)) (set c) -> subset (set (rhs k)) (set c)) /\
        (b' = true -> b = true \/ popcount (set c) < popcount (set c'))
    end.
Proof.
  induction iter as [|k iter IH]; intros c b Hincl Hc.
  - exists (Done c b). split; [reflexivity|].
    split; [constructor|]. split; [left; reflexivity|]. split.
    + intros ->. split; [reflexivity|]. split; [reflexivity|].
      intros k [].
    + intros ->. left. reflexivity.
  - assert (Hk : In k q) by (apply Hincl; left; reflexivity).
    assert (Hincl' : incl iter q)
      by (intros x Hx; apply Hincl; right; exact Hx).
    cbn [closure_pass].
    destruct (Set_contains c (lhs k)) eqn:Hl;
      [destruct (Set_contains c (rhs k)) eqn:Hr|]; cbn [andb negb].
    + (* the right-hand side is already there *)
      destruct (IH c b Hincl' Hc) as (r & E & Hspec). exists r.
      split; [exact E|]. destruct r as [c'|c' b']; [exact Hspec|].
      destruct Hspec as (H1 & H2 & H3 & H4).
      split; [exact H1|]. split; [exact H2|]. split; [|exact H4].
      intros Hb'. destruct (H3 Hb') as (Hb & Hcc & Hall).
      split; [exact Hb|]. split; [exact Hcc|].
      intros k' [<-|Hk'] Hsub; [apply Set_contains_subset; exact Hr|].
      apply Hall; assumption.
    + (* the dependency applies *)
      apply Set_contains_subset in Hl. apply Set_contains_false in Hr.
      destruct (q_valid k Hk) as [_ Hrk].
      set (c1 := Set_union c (rhs k)).
      assert (Hu : in_universe n (set c1)).
      { apply Set_union_in_universe; [apply n_range|exact Hc|exact Hrk]. }
      assert (Hg : popcount (set c) < popcount (set c1)).
      { apply popcount_union_grows; [apply universe_32..|]; assumption. }
      assert (Hd : derives c c1).
      { eapply derives_step; eauto. constructor. }
      rewrite Set_is_full_ok by apply n_range. cbn [bind].
      destruct (size c1 =? n) eqn:Hfull.
      * exists (Full c1). split; [reflexivity|].
        split; [exact Hd|]. split; [apply Z.eqb_eq; exact Hfull|].
        split; [apply Set_union_consistent|split; reflexivity].
      * destruct (IH c1 true Hincl' Hu) as (r & E & Hspec). exists r.
        split; [exact E|]. destruct r as [c'|c' b'].
        { destruct Hspec as (H1 & H2). split; [|exact H2].
          eapply derives_trans; eassumption. }
        destruct Hspec as (H1 & H2 & H3 & H4).
        destruct (derives_facts c1 c' H1 Hu) as (_ & _ & H5).
        assert (Hg' : popcount (set c) < popcount (set c')).
        { destruct H5 as [->|(_ & _ & H5)]; lia. }
        split; [eapply derives_trans; eassumption|]. split.
        { right. destruct H2 as [->|H2]; [|exact H2].
          apply Z.eqb_neq. exact Hfull. }
        split.
        { intros ->. destruct (H3 eq_refl) as (Hb & _). discriminate. }
        intros _. right. exact Hg'.
    + (* the left-hand side is not contained *)
      apply Set_contains_false in Hl.
      destruct (IH c b Hincl' Hc) as (r & E & Hspec). exists r.
      split; [exact E|]. destruct r as [c'|c' b']; [exact Hspec|].
      destruct Hspec as (H1 & H2 & H3 & H4).
      split; [exact H1|]. split; [exact H2|]. split; [|exact H4].
      intros Hb'. destruct (H3 Hb') as (Hb & Hcc & Hall).
      split; [exact Hb|]. split; [exact Hcc|].
      intros k' [<-|Hk'] Hsub; [contradiction|].
      apply Hall; assumption.
Qed.

(** A pass over a closed set changes nothing. *)
Lemma closure_pass_closed (iter : list q_key_t) (c : Set_t) (b : bool) :
  incl iter q -> closed (set c) ->
  closure_pass iter n c b = Ok (Done c b).
Proof.
  intros Hincl Hc. induction iter as [|k iter IH]; [reflexivity|].
  cbn [closure_pass].
  assert (Hk : In k q) by (apply Hincl; left; reflexivity).
  replace (Set_contains c (lhs k) && negb (Set_contains c (rhs k)))
    with false.
  - apply IH. intros x Hx. apply Hincl. right. exact Hx.
  - symmetry. destruct (Set_contains c (lhs k)) eqn:Hl; [|reflexivity].
    apply Set_contains_subset in Hl.
    replace (Set_contains c (rhs k)) with true; [reflexivity|].
    symmetry. apply Set_contains_subset. apply (Hc k Hk Hl).
Qed.

(** The passes: each one that goes on has added a bit, of which there are
    at most [n]. *)
Lemma closure_while_spec (fuel : nat) :
  forall c : Set_t,
  in_universe n (set c) ->
  n - popcount (set c) < Z.of_nat fuel ->
  exists c', closure_while fuel q n c = Ok c' /\
             derives c c' /\ closed (set c').
Proof.
  induction fuel as [|fuel IH]; intros c Hc Hfuel.
  - pose proof (popcount_universe_le n (set c) n_le_32 Hc). lia.
  - cbn [closure_while]. unfold Q_iterator.
    destruct (closure_pass_spec q c false (incl_refl q) Hc) as (r & E & Hr).
    rewrite E. cbn [bind]. destruct r as [c'|c' [|]].
    + destruct Hr as (Hd & Hs & Hcon & _). exists c'.
      split; [reflexivity|]. split; [exact Hd|].
      apply full_closed; try assumption.
      apply (derives_facts c c' Hd Hc).
    + destruct Hr as (Hd & _ & _ & Hg).
      destruct (Hg eq_refl) as [Hg'|Hg']; [discriminate|].
      destruct (derives_facts c c' Hd Hc) as (Hu & _).
      destruct (IH c' Hu ltac:(lia)) as (c'' & E' & Hd' & Hcl).
      exists c''. split; [exact E'|]. split; [|exact Hcl].
      eapply derives_trans; eassumption.
    + destruct Hr as (Hd & _ & Hf & _).
      destruct (Hf eq_refl) as (_ & -> & Hcl).
      exists c. split; [reflexivity|]. split; [constructor|].
      intros k Hk. apply Hcl. exact Hk.
Qed.

Lemma closure_fuel_enough (c : Set_t) :
  n - popcount (set c) < Z.of_nat closure_fuel.
Proof.
  pose proof (popcount_bounds (set c)). unfold closure_fuel.
  unfold MAX_ATTRIBS in n_range. lia.
Qed.

Lemma compute_closure_spec (s : Set_t) :
  in_universe n (set s) ->
  exists C, compute_closure s q n = Ok C /\
            derives (Set_copy s) C /\ closed (set C).
Proof.
  intros Hs. unfold compute_closure.
  apply closure_while_spec; [exact Hs|apply closure_fuel_enough].
Qed.

(** C5: for a seed [s] within the universe, [compute_closure] returns the
    least set that contains [s] and is closed under every dependency; a
    further pass over the result adds nothing. *)
Theorem compute_closure_least (s : Set_t) :
  in_universe n (set s) ->
  exists C, compute_closure s q n = Ok C /\
    in_universe n (set C) /\
    subset (set s) (set C) /\
    closed (set C) /\
    (forall C', subset (set s) C' -> closed C' -> subset (set C) C') /\
    closure_pass (Q_iterator q) n C false = Ok (Done C false).
Proof.
  intros Hs. destruct (compute_closure_spec s Hs) as (C & E & Hd & Hcl).
  exists C. split; [exact E|].
  destruct (derives_facts (Set_copy s) C Hd Hs) as (Hu & Hsub & _).
  split; [exact Hu|]. split; [exact Hsub|]. split; [exact Hcl|]. split.
  - intros C' Hs' Hcl'. apply (derives_below (Set_copy s) C C' Hd Hcl' Hs').
  - apply closure_pass_closed; [apply incl_refl|exact Hcl].
Qed.

(** ** Superkeys *)

Lemma determines_all_mono (x y : Z) :
  subset x y -> determines_all x -> determines_all y.
Proof.
  intros Hxy Hx C Hy Hcl. apply Hx; [|exact Hcl].
  eapply subset_trans; eassumption.
Qed.

Lemma universe_subset (x : Z) :
  in_universe n x -> subset x (Z.shiftl 1 n - 1).
Proof.
  intros Hx i Hi Hb. rewrite ones_bit by (lia || apply n_range).
  apply Z.ltb_lt. destruct (Z.lt_ge_cases i n) as [Hlt|Hge]; [exact Hlt|].
  rewrite (in_universe_high n x i) in Hb by (assumption || apply n_range).
  discriminate.
Qed.

Lemma closure_is_full_iff (s : Set_t) :
  wf n s -> (closure_is_full s <-> determines_all (set s)).
Proof.
  intros [Hu Hc]. destruct (compute_closure_spec s Hu) as (C & E & Hd & Hcl).
  destruct (derives_facts (Set_copy s) C Hd Hu) as (HuC & Hsub & HC).
  assert (HcC : consistent C).
  { destruct HC as [->|(HC & _)]; [exact Hc|exact HC]. }
  pose proof (wf_full_iff n C n_range (conj HuC HcC)) as Hfull.
  split.
  - intros (C0 & E0 & F0). rewrite E in E0. inversion E0; subst C0.
    rewrite Set_is_full_ok in F0 by apply n_range.
    inversion F0 as [F1]. apply Z.eqb_eq in F1. apply Hfull in F1.
    intros C' Hs' Hcl'. rewrite <- F1.
    apply (derives_below (Set_copy s) C C' Hd Hcl' Hs').
  - intros Hall. exists C. split; [exact E|].
    rewrite Set_is_full_ok by apply n_range. f_equal. apply Z.eqb_eq.
    apply Hfull. apply subset_antisym.
    + apply universe_subset. exact HuC.
    + apply Hall; [exact Hsub|exact Hcl].
Qed.

(** Up to its early exit, [is_superkey] runs the passes of
    [compute_closure]: unless the set it starts from has [n] elements, its
    answer is the fullness of the closure. *)
Lemma Set_is_full_inv (s : Set_t) (m : Z) (b : bool) :
  Set_is_full s m = Ok b -> b = (size s =? m).
Proof.
  unfold Set_is_full. destruct (m <=? MAX_ATTRIBS); cbn; congruence.
Qed.

Lemma closure_pass_not_full (iter : list q_key_t) :
  forall (c c' : Set_t) (b b' : bool),
  closure_pass iter n c b = Ok (Done c' b') -> c' = c \/ size c' <> n.
Proof.
  induction iter as [|k iter IH]; intros c c' b b' E; cbn [closure_pass] in E.
  - inversion E. left. reflexivity.
  - destruct (Set_contains c (lhs k) && negb (Set_contains c (rhs k))).
    + destruct (Set_is_full (Set_union c (rhs k)) n) as [full| |] eqn:F;
        cbn [bind] in E; try discriminate.
      apply Set_is_full_inv in F. destruct full; [discriminate|].
      right. destruct (IH _ _ _ _ E) as [->|H]; [|exact H].
      apply Z.eqb_neq. symmetry. exact F.
    + apply (IH _ _ _ _ E).
Qed.

Lemma closure_pass_full_size (iter : list q_key_t) :
  forall (c c' : Set_t) (b : bool),
  closure_pass iter n c b = Ok (Full c') -> size c' = n.
Proof.
  induction iter as [|k iter IH]; intros c c' b E; cbn [closure_pass] in E.
  - discriminate.
  - destruct (Set_contains c (lhs k) && negb (Set_contains c (rhs k))).
    + destruct (Set_is_full (Set_union c (rhs k)) n) as [full| |] eqn:F;
        cbn [bind] in E; try discriminate.
      apply Set_is_full_inv in F. destruct full.
      * inversion E; subst c'. apply Z.eqb_eq. symmetry. exact F.
      * apply (IH _ _ _ E).
    + apply (IH _ _ _ E).
Qed.

Lemma superkey_while_closure_while (fuel : nat) :
  forall c : Set_t,
  size c <> n ->
  superkey_while fuel q n c =
  rmap (fun c' => size c' =? n) (closure_while fuel q n c).
Proof.
  induction fuel as [|fuel IH]; intros c Hc; [reflexivity|].
  cbn [superkey_while closure_while].
  destruct (closure_pass (Q_iterator q) n c false) as [r| |] eqn:E;
    [|reflexivity..].
  cbn [bind]. destruct r as [c'|c' [|]].
  - apply closure_pass_full_size in E. unfold rmap. cbn [bind].
    rewrite E, Z.eqb_refl. reflexivity.
  - apply IH. destruct (closure_pass_not_full _ _ _ _ _ E) as [->|H];
      assumption.
  - unfold rmap. cbn [bind]. f_equal. symmetry. apply Z.eqb_neq.
    destruct (closure_pass_not_full _ _ _ _ _ E) as [->|H]; assumption.
Qed.

Lemma is_superkey_compute_closure (s : Set_t) :
  size s <> n ->
  is_superkey s q n = rmap (fun c => size c =? n) (compute_closure s q n).
Proof.
  intros Hs. apply superkey_while_closure_while. exact Hs.
Qed.

Lemma is_superkey_spec (s : Set_t) :
  wf n s -> size s <> n ->
  exists b, is_superkey s q n = Ok b /\
            (b = true <-> determines_all (set s)).
Proof.
  intros Hwf Hs. rewrite (is_superkey_compute_closure s Hs).
  pose proof (closure_is_full_iff s Hwf) as Hiff.
  destruct Hwf as [Hu Hc].
  destruct (compute_closure_spec s Hu) as (C & E & _).
  unfold closure_is_full in Hiff. rewrite E in *. unfold rmap. cbn [bind].
  exists (size C =? n). split; [reflexivity|]. rewrite <- Hiff. split.
  - intros Hb. exists C. split; [reflexivity|].
    rewrite Set_is_full_ok by apply n_range. rewrite Hb. reflexivity.
  - intros (C0 & E0 & F0). inversion E0; subst C0.
    rewrite Set_is_full_ok in F0 by apply n_range. inversion F0. reflexivity.
Qed.

(** ** Reduction of a superkey to a candidate key *)

Lemma without_bit (x a j : Z) :
  0 <= a -> 0 <= j ->
  Z.testbit (without x a) j = xorb (Z.testbit x j) (a =? j).
Proof. apply lxor_bit_removed. Qed.

Lemma without_subset (x a : Z) :
  0 <= a -> Z.testbit x a = true -> subset (without x a) x.
Proof.
  intros Ha Hb j Hj. rewrite without_bit by lia.
  destruct (Z.eqb_spec a j) as [->|Hne].
  - rewrite Hb. discriminate.
  - rewrite xorb_false_r. trivial.
Qed.

Lemma without_mono (x y a : Z) :
  0 <= a -> subset x y -> Z.testbit x a = true ->
  subset (without x a) (without y a).
Proof.
  intros Ha Hxy Hb j Hj. rewrite !without_bit by lia.
  destruct (Z.eqb_spec a j) as [->|Hne].
  - rewrite Hb. discriminate.
  - rewrite !xorb_false_r. apply Hxy. exact Hj.
Qed.

Lemma bit_below_n (x a : Z) :
  in_universe n x -> 0 <= a -> Z.testbit x a = true -> a < n.
Proof.
  intros Hx Ha Hb. destruct (Z.lt_ge_cases a n) as [Hlt|Hge]; [exact Hlt|].
  rewrite (in_universe_high n x a) in Hb by (assumption || apply n_range).
  discriminate.
Qed.

Lemma Set_remove_spec (s : Set_t) (a : Z) :
  wf n s -> cursor s = 0 -> 0 <= a -> Z.testbit (set s) a = true ->
  exists s', Set_remove s a = Ok s' /\
             set s' = without (set s) a /\
             wf n s' /\ size s' = size s - 1 /\
             cursor s' = 0 /\ count s' = count s.
Proof.
  intros [Hu Hc] Hcur Ha Hb.
  pose proof (bit_below_n (set s) a Hu Ha Hb) as Han.
  assert (Ha26 : 0 <= a < MAX_ATTRIBS) by lia.
  rewrite (Set_remove_ok s a Ha26 Hcur Hb). eexists. split; [reflexivity|].
  cbn [set size cursor count]. split; [reflexivity|].
  assert (Hcons : consistent
            {| set := Z.lxor (set s) (Z.shiftl 1 a); size := u8 (size s - 1);
               cursor := cursor s; count := count s |}).
  { apply (Set_remove_consistent s _ a Ha Hc).
    apply Set_remove_ok; assumption. }
  split; [split|].
  - cbn [set]. apply (subset_in_universe n _ (set s)); [apply n_range| |exact Hu].
    apply without_subset; assumption.
  - exact Hcons.
  - split; [|split; [exact Hcur|reflexivity]].
    unfold u8. apply Z.mod_small. rewrite Hc.
    pose proof (popcount_bounds (set s)).
    pose proof (popcount_pos (set s) a ltac:(unfold MAX_ATTRIBS in *; lia) Hb).
    lia.
Qed.

Lemma wf_size_le (s : Set_t) : wf n s -> 0 <= size s <= n.
Proof.
  intros [Hu Hc]. rewrite Hc. pose proof (popcount_bounds (set s)).
  pose proof (popcount_universe_le n (set s) n_le_32 Hu). lia.
Qed.

Lemma Set_copy_wf (s : Set_t) : wf n s -> wf n (Set_copy s) /\ idle (Set_copy s).
Proof. intros [Hu Hc]. split; [split; assumption|split; reflexivity]. Qed.

(** One attribute tried. *)
Lemma reduce_step (S : Set_t) (m : Z) (rest : list Z) (ckey : Set_t) :
  0 <= m -> Forall (fun j => m + 1 <= j) rest ->
  reduce_inv S (m :: rest) ckey ->
  exists temp b,
    Set_remove (Set_copy ckey) m = Ok temp /\
    is_superkey temp q n = Ok b /\
    reduce_inv S rest (if b then Set_copy temp else ckey).
Proof.
  intros Hm Hrest [Hwf Hidle Hsub Hkey Htodo Hdone].
  assert (Hbm : Z.testbit (set ckey) m = true) by (apply Htodo; left; reflexivity).
  destruct (Set_copy_wf ckey Hwf) as [Hwfc _].
  destruct (Set_remove_spec (Set_copy ckey) m Hwfc eq_refl Hm Hbm)
    as (temp & Et & Hset & Hwft & Hsz & Hcur & Hcnt).
  cbn [Set_copy set size count] in Hset, Hsz, Hcnt.
  pose proof (wf_size_le ckey Hwf) as Hle.
  destruct (is_superkey_spec temp Hwft ltac:(lia)) as (b & Eb & Hb).
  exists temp, b. split; [exact Et|]. split; [exact Eb|].
  assert (Hnotin : forall a, In a rest -> a <> m).
  { intros a Ha. rewrite Forall_forall in Hrest. specialize (Hrest a Ha). lia. }
  destruct b.
  - (* [m] is dropped *)
    assert (Hk : determines_all (set temp)) by (apply Hb; reflexivity).
    constructor.
    + apply Set_copy_wf. exact Hwft.
    + split; reflexivity.
    + cbn [Set_copy set]. rewrite Hset.
      eapply subset_trans; [apply without_subset; assumption|exact Hsub].
    + exact Hk.
    + intros a Ha. cbn [Set_copy set]. rewrite Hset.
      assert (Ha0 : 0 <= a).
      { destruct (Z.lt_ge_cases a 0) as [Hneg|Hpos]; [|exact Hpos].
        pose proof (Htodo a (or_intror Ha)) as Hba.
        rewrite Z.testbit_neg_r in Hba by lia. discriminate. }
      rewrite without_bit by lia.
      rewrite (Htodo a (or_intror Ha)).
      replace (m =? a) with false; [reflexivity|].
      symmetry. apply Z.eqb_neq. specialize (Hnotin a Ha). lia.
    + intros a Ha. cbn [Set_copy set]. rewrite Hset. intros Hba Hna Hall.
      rewrite without_bit in Hba by lia.
      destruct (Z.eqb_spec m a) as [->|Hne].
      { rewrite Hbm in Hba. discriminate. }
      rewrite xorb_false_r in Hba.
      apply (Hdone a Ha Hba).
      * intros [E|Hin]; [congruence|contradiction].
      * eapply determines_all_mono; [|exact Hall].
        apply without_mono; [exact Ha|apply without_subset; assumption|].
        rewrite without_bit by lia.
        replace (m =? a) with false by (symmetry; apply Z.eqb_neq; lia).
        rewrite xorb_false_r. exact Hba.
  - (* [m] is essential *)
    constructor; try assumption.
    + intros a Ha. apply Htodo. right. exact Ha.
    + intros a Ha Hba Hna. destruct (Z.eq_dec a m) as [->|Hne].
      * intros Hall. rewrite <- Hset in Hall. apply Hb in Hall. discriminate.
      * apply (Hdone a Ha Hba). intros [E|Hin]; [congruence|contradiction].
Qed.

Lemma reduce_loop_spec (S : Set_t) (R : list Z) :
  forall (c j : Z) (ckey : Set_t),
  0 <= c <= MAX_ATTRIBS -> 0 <= j -> size S <= MAX_ATTRIBS ->
  members_from (Z.to_nat (MAX_ATTRIBS - c)) c (set S) = R ->
  j + Z.of_nat (length R) = size S ->
  reduce_inv S R ckey ->
  exists K, reduce_loop (length R) (at_cursor S c j) ckey q n = Ok K /\
            reduce_inv S [] K.
Proof.
  induction R as [|m rest IH]; intros c j ckey Hc Hj Hs HR Hlen Hinv.
  - exists ckey. split; [reflexivity|exact Hinv].
  - cbn [length] in Hlen. cbn [reduce_loop length].
    pose proof (Set_next_pos_at S c j Hc
                  ltac:(unfold MAX_ATTRIBS in *; lia)) as H.
    rewrite HR in H. destruct H as (E1 & Hm & Hrest). rewrite E1.
    assert (Hlow : Forall (fun i => m + 1 <= i) rest).
    { rewrite Hrest. apply members_from_lower. }
    destruct (reduce_step S m rest ckey ltac:(lia) Hlow Hinv)
      as (temp & b & Et & Eb & Hinv').
    rewrite Et. cbn [bind]. rewrite Eb. cbn [bind].
    destruct rest as [|m' rest'].
    + cbn [length reduce_loop]. destruct b; eexists; split;
        try reflexivity; exact Hinv'.
    + replace (j + 1 =? size S) with false
        by (symmetry; apply Z.eqb_neq; cbn [length] in Hlen; lia).
      assert (Hc' : 0 <= m + 1 <= MAX_ATTRIBS) by lia.
      assert (Hlen' : j + 1 + Z.of_nat (length (m' :: rest')) = size S) by lia.
      destruct b.
      * apply (IH (m + 1) (j + 1) (Set_copy temp) Hc' ltac:(lia) Hs
                 (eq_sym Hrest) Hlen' Hinv').
      * apply (IH (m + 1) (j + 1) ckey Hc' ltac:(lia) Hs
                 (eq_sym Hrest) Hlen' Hinv').
Qed.

Lemma candidate_key_from_super_key_spec (S : Set_t) :
  wf n S -> idle S -> determines_all (set S) ->
  exists K, candidate_key_from_super_key S q n = Ok K /\
            candidate_key K /\ subset (set K) (set S).
Proof.
  intros Hwf Hidle Hall. unfold candidate_key_from_super_key.
  assert (Hwf26 : wf MAX_ATTRIBS S).
  { destruct Hwf as [Hu Hc]. split; [|exact Hc].
    apply (in_universe_weaken n); [exact n_range|exact Hu]. }
  pose proof (members_length S Hwf26) as Hlen.
  pose proof (wf_size_le S Hwf) as Hsz.
  assert (Hinv : reduce_inv S (members S) (Set_copy S)).
  { constructor.
    - apply Set_copy_wf. exact Hwf.
    - split; reflexivity.
    - apply subset_refl.
    - exact Hall.
    - intros m Hm. apply members_In in Hm. apply Hm.
    - intros a Ha Hb Hna. exfalso. apply Hna. apply members_In.
      split; [|exact Hb]. cbn [Set_copy set] in Hb.
      destruct Hwf as [Hu _].
      pose proof (bit_below_n (set S) a Hu Ha Hb). lia. }
  destruct (reduce_loop_spec S (members S) 0 0 (Set_copy S)
              ltac:(unfold MAX_ATTRIBS; lia) ltac:(lia) ltac:(lia)
              eq_refl ltac:(lia) Hinv) as (K & E & [H1 H2 H3 H4 _ H6]).
  rewrite (idle_at_cursor S Hidle) in E.
  rewrite <- Hlen, Nat2Z.id. exists K. split; [exact E|].
  split; [|exact H3]. constructor; try assumption.
  intros a Ha Hb. apply (H6 a Ha Hb). intros [].
Qed.

Lemma minimal_no_proper_subset (x t : Z) :
  minimal x -> determines_all t -> subset t x -> t = x.
Proof.
  intros Hmin Ht Htx. apply subset_antisym; [exact Htx|].
  intros a Ha Hb. destruct (Z.testbit t a) eqn:Hta; [reflexivity|].
  exfalso. apply (Hmin a Ha Hb).
  eapply determines_all_mono; [|exact Ht].
  intros j Hj Hbj. rewrite without_bit by lia.
  destruct (Z.eqb_spec a j) as [->|Hne]; [congruence|].
  rewrite xorb_false_r. apply Htx; assumption.
Qed.

(** C3: for a superkey [S] (a set of the universe, not being enumerated,
    whose closure is full), [candidate_key_from_super_key] returns a set
    [K] contained in [S] whose closure is full, such that removing any one
    attribute of [K] gives a set whose closure is not full; no other set
    contained in [K] has a full closure. *)
Theorem candidate_key_from_super_key_minimal (S : Set_t) :
  wf n S -> idle S -> closure_is_full S ->
  exists K, candidate_key_from_super_key S q n = Ok K /\
    Set_contains S K = true /\
    closure_is_full K /\
    (forall a, 0 <= a -> Z.testbit (set K) a = true ->
       exists K', Set_remove K a = Ok K' /\ ~ closure_is_full K') /\
    (forall T, wf n T -> Set_contains K T = true -> set T <> set K ->
       ~ closure_is_full T).
Proof.
  intros Hwf Hidle Hfull. apply (closure_is_full_iff S Hwf) in Hfull.
  destruct (candidate_key_from_super_key_spec S Hwf Hidle Hfull)
    as (K & E & [Kwf Kidle Kkey Kmin] & Ksub).
  exists K. split; [exact E|].
  split; [apply Set_contains_subset; exact Ksub|].
  split; [apply (closure_is_full_iff K Kwf); exact Kkey|]. split.
  - intros a Ha Hb.
    destruct (Set_remove_spec K a Kwf (proj1 Kidle) Ha Hb)
      as (K' & E' & Hset & Hwf' & _).
    exists K'. split; [exact E'|]. intros Hf.
    apply (closure_is_full_iff K' Hwf') in Hf. rewrite Hset in Hf.
    apply (Kmin a Ha Hb Hf).
  - intros T HT Hsub Hne Hf. apply Hne.
    apply (closure_is_full_iff T HT) in Hf.
    apply Set_contains_subset in Hsub.
    apply (minimal_no_proper_subset (set K) (set T) Kmin Hf Hsub).
Qed.

(** ** Enumeration of all candidate keys *)

Lemma expanded_mono (found found' : Queue) (key : q_key_t) :
  incl found found' -> expanded found key -> expanded found' key.
Proof.
  intros Hincl He fd Hfd. destruct (He fd Hfd) as (J & HJ & Hsub).
  exists J. split; [apply Hincl; exact HJ|exact Hsub].
Qed.

Lemma expansion_wf (key fd : q_key_t) :
  In fd q -> in_universe n (set (lhs key)) ->
  wf n (expansion key fd) /\ idle (expansion key fd).
Proof.
  intros Hfd Hkey. destruct (q_valid fd Hfd) as [Hl _].
  split; [split|split; reflexivity].
  - apply Set_union_in_universe; [apply n_range|exact Hl|].
    apply Set_difference_in_universe; [apply n_range|exact Hkey].
  - apply Set_union_consistent.
Qed.

Lemma expansion_bit (key fd : q_key_t) (i : Z) :
  0 <= i ->
  Z.testbit (set (expansion key fd)) i =
  Z.testbit (set (lhs fd)) i ||
  (Z.testbit (set (lhs key)) i &&
   ((i <? 32) && negb (Z.testbit (set (rhs fd)) i))).
Proof.
  intros Hi. unfold expansion.
  rewrite Set_union_bit, Set_difference_bit by exact Hi. reflexivity.
Qed.

Lemma expansion_determines_all (key fd : q_key_t) :
  In fd q -> in_universe n (set (lhs key)) ->
  determines_all (set (lhs key)) ->
  determines_all (set (expansion key fd)).
Proof.
  intros Hfd Hu Hkey C HS Hcl. apply Hkey; [|exact Hcl].
  assert (Hr : subset (set (rhs fd)) C).
  { apply (Hcl fd Hfd). intros i Hi Hb. apply HS; [exact Hi|].
    rewrite expansion_bit, Hb by exact Hi. reflexivity. }
  intros i Hi Hb. destruct (Z.testbit (set (rhs fd)) i) eqn:Hri.
  - apply Hr; assumption.
  - apply HS; [exact Hi|]. rewrite expansion_bit, Hb, Hri by exact Hi.
    pose proof (bit_below_n _ i Hu Hi Hb) as Hlt.
    replace (i <? 32) with true; [apply orb_true_r|].
    symmetry. apply Z.ltb_lt. pose proof n_le_32. lia.
Qed.

Lemma inclusion_test_true (found : list q_key_t) (S : Set_t) :
  inclusion_test found S = true ->
  forall J, In J found -> ~ subset (set (lhs J)) (set S).
Proof.
  induction found as [|J0 found IH]; intros H J [].
  - subst J0. cbn [inclusion_test] in H.
    destruct (Set_contains S (lhs J)) eqn:E; [discriminate|].
    apply Set_contains_false. exact E.
  - cbn [inclusion_test] in H.
    destruct (Set_contains S (lhs J0)); [discriminate|]. apply IH; assumption.
Qed.

Lemma inclusion_test_false (found : list q_key_t) (S : Set_t) :
  inclusion_test found S = false ->
  exists J, In J found /\ subset (set (lhs J)) (set S).
Proof.
  induction found as [|J0 found IH]; intros H; [discriminate|].
  cbn [inclusion_test] in H. destruct (Set_contains S (lhs J0)) eqn:E.
  - exists J0. split; [left; reflexivity|].
    apply Set_contains_subset. exact E.
  - destruct (IH H) as (J & HJ & Hsub). exists J.
    split; [right; exact HJ|exact Hsub].
Qed.

(** A duplicate-free list of numbers below [N] has at most [N] elements. *)
Lemma NoDup_bounded_length (l : list Z) (N : Z) :
  0 <= N -> NoDup l -> (forall x, In x l -> 0 <= x < N) ->
  Z.of_nat (length l) <= N.
Proof.
  intros HN Hnd Hb.
  assert (Hnd' : NoDup (map Z.to_nat l)).
  { apply NoDup_map_NoDup_ForallPairs; [|exact Hnd].
    intros x y Hx Hy E. pose proof (Hb x Hx). pose proof (Hb y Hy). lia. }
  assert (Hincl : incl (map Z.to_nat l) (seq 0 (Z.to_nat N))).
  { intros k Hk. apply in_map_iff in Hk. destruct Hk as (x & <- & Hx).
    apply in_seq. pose proof (Hb x Hx). lia. }
  pose proof (NoDup_incl_length Hnd' Hincl) as Hlen.
  rewrite length_map, length_seq in Hlen. lia.
Qed.

Lemma wf_MAX (s : Set_t) : wf n s -> wf MAX_ATTRIBS s.
Proof.
  intros [Hu Hc]. split; [|exact Hc].
  apply (in_universe_weaken n); [exact n_range|exact Hu].
Qed.

Lemma found_inv_insert (st : enum_state) (K : Set_t) :
  found_inv st -> candidate_key K ->
  (forall J, In J (ckeys st) -> set (lhs J) <> set K) ->
  found_inv
    {| ckeys := Q_insert (ckeys st) {| lhs := K; rhs := Set_zero |};
       work := Q_insert (work st) {| lhs := K; rhs := Set_zero |};
       printed := printed st ++ [members K] |}.
Proof.
  intros [Hk Hnd Hw Hp Hl] HK Hnew. unfold Q_insert.
  constructor; cbn [ckeys work printed].
  - intros k Hin. apply in_app_or in Hin. destruct Hin as [Hin|[<-|[]]].
    + apply Hk. exact Hin.
    + exact HK.
  - unfold key_sets. rewrite map_app. apply NoDup_app.
    + exact Hnd.
    + cbn. constructor; [intros []|constructor].
    + intros a Ha [<-|[]]. apply in_map_iff in Ha.
      destruct Ha as (J & E & HJ). apply (Hnew J HJ). exact E.
  - intros k Hin. apply in_app_or in Hin. apply in_or_app.
    destruct Hin as [Hin|Hin]; [left; apply Hw; exact Hin|right; exact Hin].
  - rewrite Hp, map_app. reflexivity.
  - rewrite !length_app. cbn [length]. lia.
Qed.

(** The loop over the dependencies for one key. *)
Lemma expand_key_spec (key : q_key_t) (iter : list q_key_t) :
  forall st : enum_state,
  incl iter q -> candidate_key (lhs key) -> found_inv st ->
  exists st' new,
    expand_key iter key q n st = Ok st' /\
    found_inv st' /\
    ckeys st' = ckeys st ++ new /\
    work st' = work st ++ new /\
    forall fd, In fd iter ->
      exists J, In J (ckeys st') /\
                subset (set (lhs J)) (set (expansion key fd)).
Proof.
  induction iter as [|fd iter IH]; intros st Hincl Hkey Hinv.
  - exists st, []. split; [reflexivity|]. split; [exact Hinv|].
    rewrite !app_nil_r. split; [reflexivity|]. split; [reflexivity|].
    intros fd [].
  - assert (Hfd : In fd q) by (apply Hincl; left; reflexivity).
    assert (Hincl' : incl iter q)
      by (intros x Hx; apply Hincl; right; exact Hx).
    cbn [expand_key]. change (Set_union (lhs fd)
                                (Set_difference (lhs key) (rhs fd)))
      with (expansion key fd).
    destruct Hkey as [Kwf Kidle Kkey Kmin].
    destruct (expansion_wf key fd Hfd (proj1 Kwf)) as [Swf Sidle].
    pose proof (expansion_determines_all key fd Hfd (proj1 Kwf) Kkey) as Skey.
    unfold Q_iterator.
    destruct (inclusion_test (ckeys st) (expansion key fd)) eqn:Htest.
    + destruct (candidate_key_from_super_key_spec _ Swf Sidle Skey)
        as (K & E & HK & Ksub).
      rewrite E. cbn [bind].
      rewrite (Set_print_members K (wf_MAX K (ck_wf K HK)) (ck_idle K HK)).
      set (qkey := {| lhs := K; rhs := Set_zero |}).
      assert (Hnew : forall J, In J (ckeys st) -> set (lhs J) <> set K).
      { intros J HJ EJ.
        apply (inclusion_test_true _ _ Htest J HJ). rewrite EJ. exact Ksub. }
      pose proof (found_inv_insert st K Hinv HK Hnew) as Hinv1.
      fold qkey in Hinv1.
      destruct (IH _ Hincl' (Build_candidate_key _ Kwf Kidle Kkey Kmin) Hinv1)
        as (st' & new & E' & Hinv' & Hc & Hw & Hall).
      cbn [ckeys work] in Hc, Hw. unfold Q_insert in Hc, Hw.
      exists st', (qkey :: new). split; [exact E'|]. split; [exact Hinv'|].
      split; [rewrite Hc, <- app_assoc; reflexivity|].
      split; [rewrite Hw, <- app_assoc; reflexivity|].
      intros fd' [<-|Hfd']; [|apply Hall; exact Hfd'].
      exists qkey. split; [|exact Ksub].
      rewrite Hc. apply in_or_app. left. apply in_or_app. right.
      left. reflexivity.
    + destruct (inclusion_test_false _ _ Htest) as (J & HJ & Jsub).
      destruct (IH st Hincl' (Build_candidate_key _ Kwf Kidle Kkey Kmin) Hinv)
        as (st' & new & E' & Hinv' & Hc & Hw & Hall).
      exists st', new. split; [exact E'|]. split; [exact Hinv'|].
      split; [exact Hc|]. split; [exact Hw|].
      intros fd' [<-|Hfd']; [|apply Hall; exact Hfd'].
      exists J. split; [|exact Jsub]. rewrite Hc. apply in_or_app.
      left. exact HJ.
Qed.

Lemma found_count (st : enum_state) :
  found_inv st -> Z.of_nat (length (ckeys st)) <= 2 ^ n.
Proof.
  intros [Hk Hnd _ _ _].
  replace (length (ckeys st)) with (length (key_sets (ckeys st)))
    by apply length_map.
  apply NoDup_bounded_length.
  - apply Z.pow_nonneg. lia.
  - exact Hnd.
  - intros x Hx. apply in_map_iff in Hx. destruct Hx as (k & <- & Hin).
    apply (ck_wf _ (Hk k Hin)).
Qed.

(** The [size] field of the work queue does not wrap around: the queue is
    never longer than the list of the keys found. *)
Lemma work_size (st : enum_state) :
  found_inv st -> Q_size (work st) = Z.of_nat (length (work st)).
Proof.
  intros Hinv. pose proof (found_count st Hinv) as Hc.
  pose proof (fi_length st Hinv) as Hl.
  assert (H26 : 2 ^ n <= 2 ^ 26).
  { apply Z.pow_le_mono_r; [lia|]. pose proof n_range as Hn.
    unfold MAX_ATTRIBS in Hn. lia. }
  unfold Q_size, u32. apply Z.mod_small.
  assert (E : 2 ^ 26 < 2 ^ 32) by reflexivity. lia.
Qed.

Lemma work_step_spec (st : enum_state) :
  enum_inv st -> work st <> [] ->
  exists st',
    work_step q n st = Ok st' /\ enum_inv st' /\
    incl (ckeys st) (ckeys st') /\
    (length (work st') + length (ckeys st) + 1 =
     length (work st) + length (ckeys st'))%nat.
Proof.
  intros [Hinv Hexp Hne] Hw. unfold work_step.
  pose proof (work_size st Hinv) as Hsize.
  pose proof (fi_length st Hinv) as Hlen.
  destruct (work st) as [|key work'] eqn:Ew; [congruence|].
  unfold Q_pop. rewrite Hsize.
  replace (0 <? Z.of_nat (length (key :: work'))) with true
    by (symmetry; apply Z.ltb_lt; cbn [length]; lia).
  cbn [assert bind].
  assert (Hkey : candidate_key (lhs key)).
  { apply (fi_keys st Hinv). apply (fi_work st Hinv). rewrite Ew.
    left. reflexivity. }
  assert (Hinv0 : found_inv
            {| ckeys := ckeys st; work := work'; printed := printed st |}).
  { destruct Hinv as [H1 H2 H3 H4 H5]. constructor; cbn [ckeys work printed];
      try assumption.
    - intros k Hk. apply H3. rewrite Ew. right. exact Hk.
    - cbn [length] in Hlen. lia. }
  destruct (expand_key_spec key q _ (incl_refl q) Hkey Hinv0)
    as (st' & new & E & Hinv' & Hc & Hwk & Hall).
  cbn [ckeys work] in Hc, Hwk. unfold Q_iterator.
  exists st'. split; [exact E|].
  assert (Hincl : incl (ckeys st) (ckeys st')).
  { intros k Hk. rewrite Hc. apply in_or_app. left. exact Hk. }
  split; [|split; [exact Hincl|]].
  - constructor.
    + exact Hinv'.
    + intros k Hk. rewrite Hc in Hk. apply in_app_or in Hk.
      destruct Hk as [Hk|Hk].
      * destruct (Hexp k Hk) as [Hin|He].
        { destruct Hin as [<-|Hin].
          - right. intros fd Hfd. apply Hall. exact Hfd.
          - left. rewrite Hwk. apply in_or_app. left. exact Hin. }
        right. apply (expanded_mono (ckeys st)); assumption.
      * left. rewrite Hwk. apply in_or_app. right. exact Hk.
    + rewrite Hc. intros E0. apply app_eq_nil in E0. apply Hne, E0.
  - rewrite Hc, Hwk, !length_app. cbn [length]. lia.
Qed.

(** The work loop ends: each turn takes one key from [work], and every key
    put into [work] is a new one among at most [2 ^ n]. *)
Lemma work_loop_spec (fuel : nat) :
  forall st : enum_state,
  enum_inv st ->
  Z.of_nat (length (work st)) + 2 ^ n - Z.of_nat (length (ckeys st))
    < Z.of_nat fuel ->
  exists st', work_loop fuel q n st = Ok st' /\ enum_inv st' /\
              work st' = [] /\ incl (ckeys st) (ckeys st').
Proof.
  induction fuel as [|fuel IH]; intros st Hinv Hfuel.
  - pose proof (found_count st (ei_found st Hinv)). lia.
  - cbn [work_loop]. rewrite (work_size st (ei_found st Hinv)).
    destruct (work st) as [|key work'] eqn:Ew.
    + exists st. split; [reflexivity|]. split; [exact Hinv|].
      split; [exact Ew|apply incl_refl].
    + replace (Z.of_nat (length (key :: work')) =? 0) with false
        by (symmetry; apply Z.eqb_neq; cbn [length]; lia).
      destruct (work_step_spec st Hinv ltac:(rewrite Ew; discriminate))
        as (st1 & E & Hinv1 & Hincl & Hlen).
      rewrite E. cbn [bind]. rewrite Ew in Hlen. cbn [length] in Hlen, Hfuel.
      destruct (IH st1 Hinv1 ltac:(lia)) as (st' & E' & Hinv' & Hw & Hincl').
      exists st'. split; [exact E'|]. split; [exact Hinv'|].
      split; [exact Hw|]. intros k Hk. apply Hincl', Hincl, Hk.
Qed.

Lemma work_turns_spec (turns : nat) :
  forall st : enum_state,
  enum_inv st ->
  exists st', work_turns turns q n st = Ok st' /\ enum_inv st'.
Proof.
  induction turns as [|turns IH]; intros st Hinv.
  - exists st. split; [reflexivity|exact Hinv].
  - cbn [work_turns]. rewrite (work_size st (ei_found st Hinv)).
    destruct (work st) as [|key work'] eqn:Ew.
    + exists st. split; [reflexivity|exact Hinv].
    + replace (Z.of_nat (length (key :: work')) =? 0) with false
        by (symmetry; apply Z.eqb_neq; cbn [length]; lia).
      destruct (work_step_spec st Hinv ltac:(rewrite Ew; discriminate))
        as (st1 & E & Hinv1 & _). rewrite E. cbn [bind]. apply IH. exact Hinv1.
Qed.

Lemma full_determines_all (s : Set_t) :
  set s = Z.shiftl 1 n - 1 -> determines_all (set s).
Proof. intros E C H _. rewrite <- E. exact H. Qed.

Lemma first_state_spec :
  exists st0, first_state q n = Ok st0 /\ enum_inv st0 /\
              length (work st0) = 1%nat /\ length (ckeys st0) = 1%nat.
Proof.
  unfold first_state.
  destruct (Set_full_ok n n_range) as (attribs & E & Hset & Hwf & Hidle).
  rewrite E. cbn [bind].
  destruct (candidate_key_from_super_key_spec attribs Hwf Hidle
              (full_determines_all attribs Hset)) as (K & EK & HK & _).
  rewrite EK. cbn [bind].
  rewrite (Set_print_members K (wf_MAX K (ck_wf K HK)) (ck_idle K HK)).
  eexists. split; [reflexivity|]. cbn [Q_insert Q_init app].
  split; [|split; reflexivity]. constructor; cbn [ckeys work printed].
  - constructor; cbn [ckeys work printed].
    + intros k [<-|[]]. exact HK.
    + cbn. constructor; [intros []|constructor].
    + apply incl_refl.
    + reflexivity.
    + apply Nat.le_refl.
  - intros k Hk. left. exact Hk.
  - discriminate.
Qed.

Lemma work_fuel_enough : 1 + 2 ^ n - 1 < Z.of_nat (work_fuel n).
Proof.
  unfold work_fuel. assert (0 <= 2 ^ n) by (apply Z.pow_nonneg; lia). lia.
Qed.

Lemma print_all_candidate_keys_spec :
  exists st, print_all_candidate_keys q n = Ok (map lhs (ckeys st), printed st) /\
             enum_inv st /\ work st = [].
Proof.
  unfold print_all_candidate_keys.
  destruct first_state_spec as (st0 & E0 & Hinv0 & Hw0 & Hc0). rewrite E0.
  cbn [bind].
  destruct (work_loop_spec (work_fuel n) st0 Hinv0) as (st & E & Hinv & Hw & _).
  { rewrite Hw0, Hc0. apply work_fuel_enough. }
  rewrite E. cbn [bind]. exists st. split; [reflexivity|].
  split; assumption.
Qed.

(** The lines printed are the keys found, each as the ascending list of its
    attributes. *)
Lemma print_all_candidate_keys_lines :
  exists found,
    print_all_candidate_keys q n = Ok (found, map members found).
Proof.
  destruct print_all_candidate_keys_spec as (st & E & Hinv & _).
  exists (map lhs (ckeys st)). rewrite E.
  rewrite (fi_printed st (ei_found st Hinv)), map_map. reflexivity.
Qed.

(** The lemma of Lucchesi and Osborn: when every expansion of every key
    found contains a key found, every superkey contains a key found. *)
Lemma found_complete (found : Queue) :
  found <> [] ->
  (forall k, In k found -> in_universe n (set (lhs k))) ->
  (forall k, In k found -> expanded found k) ->
  forall (m : nat) (T : Z),
  in_universe n T -> determines_all T ->
  n - popcount T <= Z.of_nat m ->
  exists J, In J found /\ subset (set (lhs J)) T.
Proof.
  intros Hne Hu Hexp. induction m as [|m IH]; intros T HT Hall Hm.
  - (* [T] has [n] attributes *)
    pose proof (popcount_universe_le n T n_le_32 HT) as Hle.
    assert (E : T = Z.shiftl 1 n - 1).
    { apply popcount_full; [apply n_le_32|exact HT|lia]. }
    destruct found as [|J found']; [congruence|]. exists J.
    split; [left; reflexivity|]. rewrite E. apply universe_subset.
    apply Hu. left. reflexivity.
  - destruct (find (applicable T) q) as [fd|] eqn:Ef.
    + apply find_some in Ef. destruct Ef as [Hfd Happ].
      unfold applicable in Happ. apply andb_true_iff in Happ.
      destruct Happ as [Hl Hr]. apply Set_contains_subset in Hl.
      apply negb_true_iff in Hr. apply Set_contains_false in Hr.
      cbn [set] in Hl, Hr.
      destruct (q_valid fd Hfd) as [_ Hrk].
      assert (HT' : in_universe n (Z.lor T (set (rhs fd)))).
      { apply (Set_union_in_universe n (mkSet T 0 0 0) (rhs fd));
          [apply n_range|exact HT|exact Hrk]. }
      assert (Hg : popcount T < popcount (Z.lor T (set (rhs fd)))).
      { apply popcount_union_grows; [apply universe_32..|]; assumption. }
      assert (Hall' : determines_all (Z.lor T (set (rhs fd)))).
      { eapply determines_all_mono; [|exact Hall].
        intros i Hi Hb. rewrite Z.lor_spec, Hb. reflexivity. }
      destruct (IH _ HT' Hall' ltac:(lia)) as (K & HK & Ksub).
      destruct (Hexp K HK fd Hfd) as (J & HJ & Jsub).
      exists J. split; [exact HJ|]. intros i Hi Hb.
      specialize (Jsub i Hi Hb). rewrite expansion_bit in Jsub by exact Hi.
      apply orb_true_iff in Jsub. destruct Jsub as [Hbl|Hbk].
      * apply Hl; assumption.
      * apply andb_true_iff in Hbk. destruct Hbk as [Hbk Hbr].
        apply andb_true_iff in Hbr. destruct Hbr as [_ Hbr].
        apply negb_true_iff in Hbr.
        specialize (Ksub i Hi Hbk). rewrite Z.lor_spec, Hbr in Ksub.
        rewrite orb_false_r in Ksub. exact Ksub.
    + (* [T] is closed, hence the whole universe *)
      assert (Hcl : closed T).
      { intros k Hk Hl. pose proof (find_none _ _ Ef k Hk) as Hf.
        unfold applicable in Hf.
        replace (Set_contains (mkSet T 0 0 0) (lhs k)) with true in Hf
          by (symmetry; apply Set_contains_subset; exact Hl).
        cbn [andb] in Hf. apply negb_false_iff in Hf.
        apply Set_contains_subset in Hf. exact Hf. }
      destruct found as [|J found']; [congruence|]. exists J.
      split; [left; reflexivity|].
      eapply subset_trans; [|apply (Hall T (subset_refl T) Hcl)].
      apply universe_subset. apply Hu. left. reflexivity.
Qed.


Lemma found_inv_antichain (st : enum_state) :
  found_inv st -> antichain (map lhs (ckeys st)).
Proof.
  intros [Hk Hnd _ _].
  assert (Hnd' : NoDup (map set (map lhs (ckeys st)))).
  { rewrite map_map. exact Hnd. }
  split; [eapply NoDup_map_inv; exact Hnd'|].
  intros i j a b Ha Hb Hij.
  destruct (Set_contains a b) eqn:Hc; [exfalso|reflexivity].
  apply Set_contains_subset in Hc.
  assert (HKa : candidate_key a).
  { apply nth_error_In in Ha. apply in_map_iff in Ha.
    destruct Ha as (k & <- & Hin). apply Hk. exact Hin. }
  assert (HKb : candidate_key b).
  { apply nth_error_In in Hb. apply in_map_iff in Hb.
    destruct Hb as (k & <- & Hin). apply Hk. exact Hin. }
  pose proof (minimal_no_proper_subset (set a) (set b)
                (ck_minimal a HKa) (ck_key b HKb) Hc) as E.
  apply Hij. apply (proj1 (NoDup_nth_error _) Hnd').
  - rewrite length_map. apply nth_error_Some. congruence.
  - assert (Ea : nth_error (map set (map lhs (ckeys st))) i = Some (set a))
      by (rewrite nth_error_map, Ha; reflexivity).
    assert (Eb : nth_error (map set (map lhs (ckeys st))) j = Some (set b))
      by (rewrite nth_error_map, Hb; reflexivity).
    congruence.
Qed.

(** C2: the keys found form an antichain without repetition, at the end of
    the enumeration and after any number of turns of the work loop. *)
Theorem enumeration_antichain :
  (exists found lines,
     print_all_candidate_keys q n = Ok (found, lines) /\ antichain found) /\
  (forall turns, exists st0 st,
     first_state q n = Ok st0 /\
     work_turns turns q n st0 = Ok st /\
     antichain (map lhs (ckeys st))).
Proof.
  split.
  - destruct print_all_candidate_keys_spec as (st & E & Hinv & _).
    exists (map lhs (ckeys st)), (printed st). split; [exact E|].
    apply found_inv_antichain. apply Hinv.
  - intros turns. destruct first_state_spec as (st0 & E0 & Hinv0 & _).
    destruct (work_turns_spec turns st0 Hinv0) as (st & E & Hinv).
    exists st0, st. split; [exact E0|]. split; [exact E|].
    apply found_inv_antichain. apply Hinv.
Qed.

Lemma work_loop_more_fuel (fuel : nat) :
  forall (st st' : enum_state) (fuel' : nat),
  work_loop fuel q n st = Ok st' -> (fuel <= fuel')%nat ->
  work_loop fuel' q n st = Ok st'.
Proof.
  induction fuel as [|fuel IH]; intros st st' fuel' E Hle; [discriminate|].
  destruct fuel' as [|fuel']; [lia|]. cbn [work_loop] in *.
  destruct (Q_size (work st) =? 0); [exact E|].
  destruct (work_step q n st) as [st1| |]; try discriminate.
  cbn [bind] in *. apply (IH st1 st' fuel' E). lia.
Qed.

(** C6: the work loop ends within [work_fuel n] turns, and with any larger
    bound it ends in the same state; the keys found are pairwise different
    sets, at most [2 ^ n] of them. *)
Theorem enumeration_terminates :
  exists st0 st,
    first_state q n = Ok st0 /\
    work_loop (work_fuel n) q n st0 = Ok st /\
    work st = [] /\
    print_all_candidate_keys q n = Ok (map lhs (ckeys st), printed st) /\
    (forall fuel, (work_fuel n <= fuel)%nat ->
       work_loop fuel q n st0 = Ok st) /\
    NoDup (map set (map lhs (ckeys st))) /\
    Z.of_nat (length (ckeys st)) <= 2 ^ n.
Proof.
  destruct first_state_spec as (st0 & E0 & Hinv0 & Hw0 & Hc0).
  destruct (work_loop_spec (work_fuel n) st0 Hinv0) as (st & E & Hinv & Hw & _).
  { rewrite Hw0, Hc0. apply work_fuel_enough. }
  exists st0, st. split; [exact E0|]. split; [exact E|]. split; [exact Hw|].
  split.
  { unfold print_all_candidate_keys. rewrite E0. cbn [bind]. rewrite E.
    reflexivity. }
  split.
  { intros fuel Hle. apply (work_loop_more_fuel _ _ _ _ E Hle). }
  split.
  - rewrite map_map. apply (fi_nodup st (ei_found st Hinv)).
  - apply found_count. apply Hinv.
Qed.

(** ** Closure, superkeys and keys: how the functions compose *)

Lemma Set_copy_idle (s : Set_t) : idle s -> Set_copy s = s.
Proof.
  destruct s as [x z c j]. intros [Hc Hj]. cbn in Hc, Hj. subst.
  reflexivity.
Qed.

Lemma consistent_idle_eq (a b : Set_t) :
  consistent a -> consistent b -> idle a -> idle b -> set a = set b -> a = b.
Proof.
  destruct a as [xa za ca ja], b as [xb zb cb jb].
  unfold consistent, idle. cbn [set size cursor count].
  intros Ha Hb [Hca Hja] [Hcb Hjb] E. subst. reflexivity.
Qed.

Lemma compute_closure_idle (s C : Set_t) :
  in_universe n (set s) -> compute_closure s q n = Ok C -> idle C.
Proof.
  intros Hs E. destruct (compute_closure_spec s Hs) as (C' & E' & Hd & _).
  rewrite E in E'. inversion E'; subst C'.
  destruct (derives_facts (Set_copy s) C Hd Hs) as (_ & _ & [->|(_ & H & _)]).
  - split; reflexivity.
  - exact H.
Qed.

Lemma compute_closure_closed_set (C : Set_t) :
  closed (set C) -> compute_closure C q n = Ok (Set_copy C).
Proof.
  intros Hcl. unfold compute_closure, closure_fuel. cbn [closure_while].
  rewrite (closure_pass_closed (Q_iterator q) (Set_copy C) false).
  - reflexivity.
  - apply incl_refl.
  - exact Hcl.
Qed.

(** X9: [compute_closure] is monotone, and closing a closure again returns
    it unchanged. *)
Theorem compute_closure_monotone_idempotent (s t : Set_t) :
  in_universe n (set s) -> in_universe n (set t) ->
  subset (set s) (set t) ->
  exists Cs Ct,
    compute_closure s q n = Ok Cs /\
    compute_closure t q n = Ok Ct /\
    subset (set Cs) (set Ct) /\
    compute_closure Cs q n = Ok Cs.
Proof.
  intros Hs Ht Hst.
  destruct (compute_closure_spec s Hs) as (Cs & Es & Hds & Hcs).
  destruct (compute_closure_spec t Ht) as (Ct & Et & Hdt & Hct).
  exists Cs, Ct. split; [exact Es|]. split; [exact Et|]. split.
  - apply (derives_below (Set_copy s) Cs (set Ct) Hds Hct).
    eapply subset_trans; [exact Hst|].
    apply (derives_facts (Set_copy t) Ct Hdt Ht).
  - rewrite (compute_closure_closed_set Cs Hcs). f_equal.
    apply Set_copy_idle. apply (compute_closure_idle s Cs Hs Es).
Qed.

(** X10: unless the set has [n] elements when it is passed in,
    [is_superkey] gives the fullness of the closure, with the same failures;
    on a set of the universe that has all [n] attributes it answers 0. *)
Theorem is_superkey_characterised (s : Set_t) :
  (size s <> n ->
   is_superkey s q n = rmap (fun c => size c =? n) (compute_closure s q n)) /\
  (wf n s -> size s = n -> is_superkey s q n = Ok false).
Proof.
  split; [apply is_superkey_compute_closure|].
  intros [Hu Hc] Hs. unfold is_superkey, closure_fuel. cbn [superkey_while].
  rewrite (closure_pass_closed (Q_iterator q) (Set_copy s) false).
  - reflexivity.
  - apply incl_refl.
  - apply (full_closed s Hu Hc Hs).
Qed.

(** X11: within the universe, every set that contains a superkey is a
    superkey. *)
Theorem superkey_upward_closed (S T : Set_t) :
  wf n S -> wf n T -> Set_contains T S = true ->
  closure_is_full S -> closure_is_full T.
Proof.
  intros HS HT Hsub Hfull. apply (closure_is_full_iff T HT).
  apply (closure_is_full_iff S HS) in Hfull.
  apply Set_contains_subset in Hsub.
  apply (determines_all_mono _ _ Hsub Hfull).
Qed.

Lemma minimal_iff_remove (T : Set_t) :
  wf n T ->
  (minimal (set T) <->
   forall a, 0 <= a -> Z.testbit (set T) a = true ->
     exists T', Set_remove (Set_copy T) a = Ok T' /\ ~ closure_is_full T').
Proof.
  intros HT. destruct (Set_copy_wf T HT) as [HTc _]. split.
  - intros Hmin a Ha Hb.
    destruct (Set_remove_spec (Set_copy T) a HTc eq_refl Ha Hb)
      as (T' & E & Hset & Hwf' & _).
    exists T'. split; [exact E|]. intros Hf.
    apply (closure_is_full_iff T' Hwf') in Hf. rewrite Hset in Hf.
    apply (Hmin a Ha Hb Hf).
  - intros H a Ha Hb Hall. destruct (H a Ha Hb) as (T' & E & Hnf).
    destruct (Set_remove_spec (Set_copy T) a HTc eq_refl Ha Hb)
      as (T2 & E2 & Hset & Hwf' & _).
    rewrite E in E2. inversion E2; subst T2. apply Hnf.
    apply (closure_is_full_iff T' Hwf'). rewrite Hset. exact Hall.
Qed.

(** X12: a candidate key is a fixed point of the reduction:
    [candidate_key_from_super_key] returns it as it is. *)
Theorem candidate_key_fixed_point (K : Set_t) :
  wf n K -> idle K -> closure_is_full K ->
  (forall a, 0 <= a -> Z.testbit (set K) a = true ->
     exists K', Set_remove (Set_copy K) a = Ok K' /\ ~ closure_is_full K') ->
  candidate_key_from_super_key K q n = Ok K.
Proof.
  intros Hwf Hidle Hfull Hmin.
  apply (closure_is_full_iff K Hwf) in Hfull.
  apply (minimal_iff_remove K Hwf) in Hmin.
  destruct (candidate_key_from_super_key_spec K Hwf Hidle Hfull)
    as (K2 & E & [Kwf Kidle Kkey _] & Ksub).
  rewrite E. f_equal.
  apply consistent_idle_eq; try assumption; try apply Kwf; try apply Hwf.
  apply (minimal_no_proper_subset (set K) (set K2) Hmin Kkey Ksub).
Qed.

(** ** The list of keys returned by the enumeration *)

(** The bitmasks found are those of the candidate keys. *)
Lemma found_exact (st : enum_state) :
  enum_inv st -> work st = [] ->
  forall x, in_universe n x ->
    (In x (key_sets (ckeys st)) <-> determines_all x /\ minimal x).
Proof.
  intros [Hinv Hexp Hne] Hw x Hx. split.
  - intros Hin. apply in_map_iff in Hin. destruct Hin as (k & <- & Hk).
    destruct (fi_keys st Hinv k Hk) as [_ _ H1 H2]. split; assumption.
  - intros [Hall Hmin].
    destruct (found_complete (ckeys st) Hne) with (m := Z.to_nat n) (T := x)
      as (J & HJ & Jsub).
    + intros k Hk. apply (ck_wf _ (fi_keys st Hinv k Hk)).
    + intros k Hk. destruct (Hexp k Hk) as [Hin|He]; [|exact He].
      rewrite Hw in Hin. destruct Hin.
    + exact Hx.
    + exact Hall.
    + pose proof (popcount_bounds x). lia.
    + apply in_map_iff. exists J. split; [|exact HJ].
      apply (minimal_no_proper_subset x (set (lhs J)) Hmin
               (ck_key _ (fi_keys st Hinv J HJ)) Jsub).
Qed.

(** X13: every key returned by the enumeration is a candidate key: a set
    of the universe whose closure is full and that loses this property
    when any one of its attributes is removed. *)
Theorem enumeration_sound :
  exists found lines,
    print_all_candidate_keys q n = Ok (found, lines) /\
    forall K, In K found ->
      wf n K /\ idle K /\ closure_is_full K /\
      forall a, 0 <= a -> Z.testbit (set K) a = true ->
        exists K', Set_remove K a = Ok K' /\ ~ closure_is_full K'.
Proof.
  destruct print_all_candidate_keys_spec as (st & E & [Hinv _ _] & _).
  exists (map lhs (ckeys st)), (printed st). split; [exact E|].
  intros K HK. apply in_map_iff in HK. destruct HK as (k & <- & Hk).
  destruct (fi_keys st Hinv k Hk) as [Kwf Kidle Kkey Kmin].
  split; [exact Kwf|]. split; [exact Kidle|].
  split; [apply (closure_is_full_iff _ Kwf); exact Kkey|].
  intros a Ha Hb.
  destruct (proj1 (minimal_iff_remove _ Kwf) Kmin a Ha Hb) as (K' & E' & Hn).
  rewrite (Set_copy_idle _ Kidle) in E'. exists K'. split; assumption.
Qed.

(** C1: the enumeration returns and misses no candidate key.  Every
    superkey [T] (a set of the universe whose closure is full) contains one
    of the sets returned, and that set is itself a candidate key: a set of
    the universe whose closure is full and that loses this property when any
    one of its attributes is removed.  Conversely the bitmask of every
    candidate key of the universe is among those returned. *)
Theorem enumeration_complete :
  exists found lines,
    print_all_candidate_keys q n = Ok (found, lines) /\
    (forall T, wf n T -> closure_is_full T ->
       exists K, In K found /\ Set_contains T K = true /\
         wf n K /\ closure_is_full K /\
         forall a, 0 <= a -> Z.testbit (set K) a = true ->
           exists K', Set_remove K a = Ok K' /\ ~ closure_is_full K') /\
    (forall T, wf n T -> closure_is_full T ->
       (forall a, 0 <= a -> Z.testbit (set T) a = true ->
          exists T', Set_remove (Set_copy T) a = Ok T' /\
                     ~ closure_is_full T') ->
       In (set T) (map set found)).
Proof.
  destruct print_all_candidate_keys_spec as (st & E & Hinv & Hw).
  exists (map lhs (ckeys st)), (printed st). split; [exact E|]. split.
  - destruct Hinv as [Hfi Hexp Hne].
    intros T HT Hfull. apply (closure_is_full_iff T HT) in Hfull.
    destruct (found_complete (ckeys st) Hne) with (m := Z.to_nat n) (T := set T)
      as (J & HJ & Jsub).
    + intros k Hk. apply (ck_wf _ (fi_keys st Hfi k Hk)).
    + intros k Hk. destruct (Hexp k Hk) as [Hin|He]; [|exact He].
      rewrite Hw in Hin. destruct Hin.
    + apply HT.
    + exact Hfull.
    + pose proof (popcount_bounds (set T)). lia.
    + destruct (fi_keys st Hfi J HJ) as [Kwf Kidle Kkey Kmin].
      exists (lhs J). split; [apply in_map; exact HJ|].
      split; [apply Set_contains_subset; exact Jsub|].
      split; [exact Kwf|].
      split; [apply (closure_is_full_iff _ Kwf); exact Kkey|].
      intros a Ha Hb.
      destruct (proj1 (minimal_iff_remove _ Kwf) Kmin a Ha Hb)
        as (K' & E' & Hn).
      rewrite (Set_copy_idle _ Kidle) in E'. exists K'. split; assumption.
  - intros T HT Hfull Hmin. rewrite map_map. fold (key_sets (ckeys st)).
    apply (found_exact st Hinv Hw (set T) (proj1 HT)).
    split; [apply (closure_is_full_iff T HT); exact Hfull|].
    apply (minimal_iff_remove T HT). exact Hmin.
Qed.

(** X14: the bitmasks of the keys returned are exactly those of the
    candidate keys of the universe. *)
Theorem enumeration_exact :
  exists found lines,
    print_all_candidate_keys q n = Ok (found, lines) /\
    forall T, wf n T ->
      (In (set T) (map set found) <->
       closure_is_full T /\
       forall a, 0 <= a -> Z.testbit (set T) a = true ->
         exists T', Set_remove (Set_copy T) a = Ok T' /\
                    ~ closure_is_full T').
Proof.
  destruct print_all_candidate_keys_spec as (st & E & Hinv & Hw).
  exists (map lhs (ckeys st)), (printed st). split; [exact E|].
  intros T HT. rewrite map_map. fold (key_sets (ckeys st)).
  rewrite (found_exact st Hinv Hw (set T) (proj1 HT)).
  rewrite (closure_is_full_iff T HT), (minimal_iff_remove T HT). reflexivity.
Qed.

(** X15: each key found is printed as the ascending list of its
    attributes, all of them below [n]. *)
Theorem printed_lines_are_keys :
  exists found,
    print_all_candidate_keys q n = Ok (found, map members found) /\
    forall K, In K found ->
      StronglySorted Z.lt (members K) /\
      Z.of_nat (length (members K)) = size K /\
      forall a, In a (members K) <->
                0 <= a < n /\ Z.testbit (set K) a = true.
Proof.
  destruct print_all_candidate_keys_spec as (st & E & [Hinv _ _] & _).
  exists (map lhs (ckeys st)). split.
  - rewrite E, (fi_printed st Hinv), map_map. reflexivity.
  - intros K HK. apply in_map_iff in HK. destruct HK as (k & <- & Hk).
    destruct (fi_keys st Hinv k Hk) as [Kwf _ _ _].
    split; [apply members_from_sorted|].
    split; [apply members_length, wf_MAX; exact Kwf|].
    intros a. rewrite members_In. split.
    + intros [Ha Hb]. split; [|exact Hb].
      pose proof (bit_below_n _ a (proj1 Kwf) ltac:(lia) Hb). lia.
    + intros [Ha Hb]. split; [lia|exact Hb].
Qed.

End FuncDep.

(** ** The properties at the sample inputs *)

Lemma in_universeb_ok (n x : Z) : in_universeb n x = true -> in_universe n x.
Proof.
  unfold in_universeb, in_universe. intros H. apply andb_true_iff in H.
  destruct H as [H0 H1]. apply Z.leb_le in H0. apply Z.ltb_lt in H1. lia.
Qed.

Lemma valid_depsb_ok (q : Queue) (n : Z) :
  valid_depsb q n = true -> valid_deps q n.
Proof.
  unfold valid_depsb, valid_deps. rewrite forallb_forall. intros H k Hk.
  specialize (H k Hk). apply andb_true_iff in H. destruct H as [Hl Hr].
  split; apply in_universeb_ok; assumption.
Qed.

Example large_txt_output :
  rmap snd (print_all_candidate_keys large_txt 9) =
  Ok [ [7; 8]; [3; 6; 8]; [4; 5; 7]; [1; 6; 8]; [2; 3; 8]; [3; 4; 5; 6];
       [1; 5; 7]; [2; 4; 7]; [0]; [1; 2]; [1; 5; 6]; [2; 3; 4] ].
Proof. vm_compute. reflexivity. Qed.

Example cycle_txt_output :
  rmap snd (print_all_candidate_keys cycle_txt 3) = Ok [ [2]; [1]; [0] ].
Proof. vm_compute. reflexivity. Qed.

Example no_dependency_output :
  rmap snd (print_all_candidate_keys [] 4) = Ok [ [0; 1; 2; 3] ].
Proof. vm_compute. reflexivity. Qed.

Example single_dependency_output :
  rmap snd (print_all_candidate_keys [fd [0] [1]] 2) = Ok [ [0] ].
Proof. vm_compute. reflexivity. Qed.

Lemma enumeration_complete_witness :
  exists found lines,
    print_all_candidate_keys large_txt 9 = Ok (found, lines) /\
    (forall T, wf 9 T -> closure_is_full large_txt 9 T ->
       exists K, In K found /\ Set_contains T K = true /\
         wf 9 K /\ closure_is_full large_txt 9 K /\
         forall a, 0 <= a -> Z.testbit (set K) a = true ->
           exists K', Set_remove K a = Ok K' /\
                      ~ closure_is_full large_txt 9 K') /\
    (forall T, wf 9 T -> closure_is_full large_txt 9 T ->
       (forall a, 0 <= a -> Z.testbit (set T) a = true ->
          exists T', Set_remove (Set_copy T) a = Ok T' /\
                     ~ closure_is_full large_txt 9 T') ->
       In (set T) (map set found)).
Proof.
  apply (enumeration_complete large_txt 9).
  - unfold MAX_ATTRIBS. lia.
  - apply valid_depsb_ok. reflexivity.
Defined.

Lemma enumeration_antichain_witness :
  exists found lines,
    print_all_candidate_keys large_txt 9 = Ok (found, lines) /\
    antichain found.
Proof.
  apply (enumeration_antichain large_txt 9).
  - unfold MAX_ATTRIBS. lia.
  - apply valid_depsb_ok. reflexivity.
Defined.

Lemma enumeration_terminates_witness :
  exists st0 st,
    first_state cycle_txt 3 = Ok st0 /\
    work_loop (work_fuel 3) cycle_txt 3 st0 = Ok st /\
    work st = [] /\
    print_all_candidate_keys cycle_txt 3 =
      Ok (map lhs (ckeys st), printed st) /\
    (forall fuel, (work_fuel 3 <= fuel)%nat ->
       work_loop fuel cycle_txt 3 st0 = Ok st) /\
    NoDup (map set (map lhs (ckeys st))) /\
    Z.of_nat (length (ckeys st)) <= 2 ^ 3.
Proof.
  apply (enumeration_terminates cycle_txt 3).
  - unfold MAX_ATTRIBS. lia.
  - apply valid_depsb_ok. reflexivity.
Defined.

Lemma candidate_key_from_super_key_minimal_witness :
  exists K,
    candidate_key_from_super_key (mkSet 7 3 0 0) cycle_txt 3 = Ok K /\
    Set_contains (mkSet 7 3 0 0) K = true /\
    closure_is_full cycle_txt 3 K /\
    (forall a, 0 <= a -> Z.testbit (set K) a = true ->
       exists K', Set_remove K a = Ok K' /\ ~ closure_is_full cycle_txt 3 K') /\
    (forall T, wf 3 T -> Set_contains K T = true -> set T <> set K ->
       ~ closure_is_full cycle_txt 3 T).
Proof.
  apply (candidate_key_from_super_key_minimal cycle_txt 3).
  - unfold MAX_ATTRIBS. lia.
  - apply valid_depsb_ok. reflexivity.
  - split; [apply in_universeb_ok; reflexivity|reflexivity].
  - split; reflexivity.
  - exists (mkSet 7 3 0 0). split; reflexivity.
Defined.

Lemma compute_closure_least_witness :
  exists C,
    compute_closure (mkSet 8 1 0 0) large_txt 9 = Ok C /\
    in_universe 9 (set C) /\
    subset (set (mkSet 8 1 0 0)) (set C) /\
    closed large_txt (set C) /\
    (forall C', subset (set (mkSet 8 1 0 0)) C' -> closed large_txt C' ->
       subset (set C) C') /\
    closure_pass (Q_iterator large_txt) 9 C false = Ok (Done C false).
Proof.
  apply (compute_closure_least large_txt 9).
  - unfold MAX_ATTRIBS. lia.
  - apply valid_depsb_ok. reflexivity.
  - apply in_universeb_ok. reflexivity.
Defined.

(** C4 fails in the code: [is_superkey] answers 1 only at the moment a
    union makes the closure full.  For a set that holds all the attributes
    from the start, here [{A, B}] with [A -> B] over two attributes, no
    union happens and the answer is 0, while the closure is full. *)
Theorem is_superkey_misses_full_set :
  is_superkey (attrs [0; 1]) [fd [0] [1]] 2 = Ok false /\
  bind (compute_closure (attrs [0; 1]) [fd [0] [1]] 2)
       (fun C => Set_is_full C 2) = Ok true.
Proof. split; vm_compute; reflexivity. Qed.

(** * Further properties of the code *)

(** ** The algebra of [set.c] *)

Lemma popcount_upto_lor_land (k : nat) (x y : Z) :
  popcount_upto k (Z.lor x y) + popcount_upto k (Z.land x y) =
  popcount_upto k x + popcount_upto k y.
Proof.
  induction k as [|k IH]; cbn [popcount_upto]; [reflexivity|].
  rewrite Z.lor_spec, Z.land_spec.
  destruct (Z.testbit x (Z.of_nat k)), (Z.testbit y (Z.of_nat k));
    cbn [orb andb Z.b2z]; lia.
Qed.

Lemma popcount_lor_land (x y : Z) :
  popcount (Z.lor x y) + popcount (Z.land x y) = popcount x + popcount y.
Proof.
  rewrite (popcount_unfold (Z.lor x y)), (popcount_unfold (Z.land x y)),
    (popcount_unfold x), (popcount_unfold y).
  apply popcount_upto_lor_land.
Qed.

(** X1: for two sets whose size is the number of bits of their mask, the
    sizes of union and intersection add up to the sizes of the two sets, and
    the size of both results is again the number of bits of their mask. *)
Theorem Set_union_intersection_size (s t : Set_t) :
  consistent s -> consistent t ->
  size (Set_union s t) + size (Set_intersection s t) = size s + size t /\
  size (Set_union s t) = popcount (set (Set_union s t)) /\
  size (Set_intersection s t) = popcount (set (Set_intersection s t)).
Proof.
  intros Hs Ht.
  split; [|split;
    [apply Set_union_consistent | apply Set_intersection_consistent]].
  rewrite (Set_union_consistent s t), (Set_intersection_consistent s t), Hs, Ht.
  apply popcount_lor_land.
Qed.

Lemma Set_union_intersection_size_witness :
  size (Set_union (mkSet 5 2 0 0) (mkSet 3 2 0 0)) +
  size (Set_intersection (mkSet 5 2 0 0) (mkSet 3 2 0 0)) = 2 + 2 /\
  size (Set_union (mkSet 5 2 0 0) (mkSet 3 2 0 0)) =
    popcount (set (Set_union (mkSet 5 2 0 0) (mkSet 3 2 0 0))) /\
  size (Set_intersection (mkSet 5 2 0 0) (mkSet 3 2 0 0)) =
    popcount (set (Set_intersection (mkSet 5 2 0 0) (mkSet 3 2 0 0))).
Proof.
  apply (Set_union_intersection_size (mkSet 5 2 0 0) (mkSet 3 2 0 0));
    reflexivity.
Defined.

Lemma Set_intersection_bit (s t : Set_t) (i : Z) :
  Z.testbit (set (Set_intersection s t)) i =
  Z.testbit (set s) i && Z.testbit (set t) i.
Proof. apply Z.land_spec. Qed.

Lemma popcount_partition (x d i : Z) :
  (forall j, 0 <= j < 32 ->
     Z.testbit d j && Z.testbit i j = false /\
     Z.testbit d j || Z.testbit i j = Z.testbit x j) ->
  popcount d + popcount i = popcount x.
Proof.
  intros H. rewrite <- (popcount_lor_land d i).
  assert (E0 : popcount (Z.land d i) = 0).
  { rewrite (popcount_unfold (Z.land d i)).
    rewrite (popcount_upto_ext 32 (Z.land d i) 0).
    - reflexivity.
    - intros j Hj. rewrite Z.land_spec, Z.bits_0. apply H. lia. }
  rewrite E0, Z.add_0_r.
  rewrite (popcount_unfold (Z.lor d i)), (popcount_unfold x).
  apply popcount_upto_ext. intros j Hj. rewrite Z.lor_spec. apply H. lia.
Qed.

(** X2: [Set_difference s t] is a part of [s] that shares nothing with
    [t]; with [Set_intersection s t] it makes up [s] again, in bits (for a
    32-bit [s]) and in size. *)
Theorem Set_difference_partition (s t : Set_t) :
  in_universe 32 (set s) -> consistent s ->
  Set_contains s (Set_difference s t) = true /\
  set (Set_intersection (Set_difference s t) t) = 0 /\
  set (Set_union (Set_difference s t) (Set_intersection s t)) = set s /\
  size (Set_difference s t) + size (Set_intersection s t) = size s.
Proof.
  intros Hu Hs. split; [|split; [|split]].
  - apply Set_contains_subset. intros i Hi.
    rewrite Set_difference_bit by exact Hi. intros H.
    apply andb_true_iff in H. apply H.
  - apply Z.bits_inj'. intros i Hi.
    rewrite Set_intersection_bit, Set_difference_bit, Z.bits_0 by exact Hi.
    destruct (Z.testbit (set s) i), (i <? 32), (Z.testbit (set t) i);
      reflexivity.
  - apply Z.bits_inj'. intros i Hi.
    rewrite Set_union_bit, Set_intersection_bit, Set_difference_bit
      by exact Hi.
    destruct (Z.ltb_spec i 32) as [Hlt|Hge].
    + destruct (Z.testbit (set s) i), (Z.testbit (set t) i); reflexivity.
    + rewrite (in_universe_high 32 (set s) i) by (lia || exact Hu).
      reflexivity.
  - rewrite (Set_difference_consistent s t),
      (Set_intersection_consistent s t), Hs.
    apply popcount_partition. intros j Hj.
    rewrite Set_intersection_bit, Set_difference_bit by lia.
    replace (j <? 32) with true by (symmetry; apply Z.ltb_lt; lia).
    destruct (Z.testbit (set s) j), (Z.testbit (set t) j); split; reflexivity.
Qed.

Lemma Set_difference_partition_witness :
  size (Set_difference (mkSet 13 3 0 0) (mkSet 6 2 0 0)) +
  size (Set_intersection (mkSet 13 3 0 0) (mkSet 6 2 0 0)) = 3.
Proof.
  apply (Set_difference_partition (mkSet 13 3 0 0) (mkSet 6 2 0 0)).
  - apply in_universeb_ok. reflexivity.
  - reflexivity.
Defined.

(** X3: [Set_contains] orders the sets by inclusion: it is reflexive and
    transitive, two sets that contain each other have the same bits,
    [Set_union] is the least set that contains both its arguments and
    [Set_intersection] the greatest set contained in both. *)
Theorem Set_contains_lattice (s t u : Set_t) :
  Set_contains s s = true /\
  (Set_contains s t = true -> Set_contains t u = true ->
   Set_contains s u = true) /\
  (Set_contains s t = true -> Set_contains t s = true -> set s = set t) /\
  (Set_contains u (Set_union s t) = true <->
   Set_contains u s = true /\ Set_contains u t = true) /\
  (Set_contains (Set_intersection s t) u = true <->
   Set_contains s u = true /\ Set_contains t u = true) /\
  (Set_contains s t = true <-> set (Set_union s t) = set s).
Proof.
  repeat rewrite Set_contains_subset. split; [apply subset_refl|].
  split; [intros H1 H2; eapply subset_trans; eassumption|].
  split; [intros H1 H2; apply subset_antisym; assumption|].
  split; [|split].
  - split.
    + intros H. split; intros i Hi Hb; apply H; try exact Hi;
        rewrite Set_union_bit, Hb; [reflexivity|apply orb_true_r].
    + intros [H1 H2] i Hi Hb. rewrite Set_union_bit in Hb.
      apply orb_true_iff in Hb. destruct Hb; [apply H1|apply H2]; assumption.
  - split.
    + intros H. split; intros i Hi Hb; specialize (H i Hi Hb);
        rewrite Set_intersection_bit in H; apply andb_true_iff in H; apply H.
    + intros [H1 H2] i Hi Hb. rewrite Set_intersection_bit.
      rewrite (H1 i Hi Hb), (H2 i Hi Hb). reflexivity.
  - split.
    + intros H. apply Z.bits_inj'. intros i Hi. rewrite Set_union_bit.
      destruct (Z.testbit (set t) i) eqn:Hb.
      * rewrite (H i Hi Hb). reflexivity.
      * apply orb_false_r.
    + intros E i Hi Hb. rewrite <- E, Set_union_bit, Hb. apply orb_true_r.
Qed.

Lemma u8_round_trip (z : Z) :
  0 <= z < 256 -> u8 (u8 (z + 1) - 1) = z /\ u8 (u8 (z - 1) + 1) = z.
Proof.
  intros Hz. unfold u8. destruct (Z.eq_dec z 255) as [->|H255];
    [split; [reflexivity|reflexivity]|].
  split.
  - rewrite (Z.mod_small (z + 1)) by lia. replace (z + 1 - 1) with z by lia.
    apply Z.mod_small. lia.
  - destruct (Z.eq_dec z 0) as [->|H0]; [reflexivity|].
    rewrite (Z.mod_small (z - 1)) by lia. replace (z - 1 + 1) with z by lia.
    apply Z.mod_small. lia.
Qed.

(** X4: inserting an absent attribute and removing it again gives back
    the set as it was, and so does removing a present attribute and
    inserting it again. *)
Theorem Set_insert_remove_round_trip (s : Set_t) (i : Z) :
  0 <= i < MAX_ATTRIBS -> cursor s = 0 -> 0 <= size s < 256 ->
  (Z.testbit (set s) i = false ->
   exists s', Set_insert s i = Ok s' /\ Z.testbit (set s') i = true /\
              Set_remove s' i = Ok s) /\
  (Z.testbit (set s) i = true ->
   exists s', Set_remove s i = Ok s' /\ Z.testbit (set s') i = false /\
              Set_insert s' i = Ok s).
Proof.
  intros Hi Hc Hz. destruct (u8_round_trip (size s) Hz) as [Eu1 Eu2].
  split; intros Hb.
  - rewrite (Set_insert_new s i Hi Hc Hb). eexists. split; [reflexivity|].
    cbn [set]. assert (Hb' : Z.testbit (Z.lor (set s) (Z.shiftl 1 i)) i = true).
    { rewrite lor_bit_added, Z.eqb_refl by lia. apply orb_true_r. }
    split; [exact Hb'|].
    rewrite Set_remove_ok by (cbn [set cursor]; assumption).
    cbn [set size cursor count]. rewrite Eu1. destruct s as [x z c j].
    cbn [set size cursor count] in *. f_equal. f_equal.
    apply Z.bits_inj'. intros k Hk.
    rewrite lxor_bit_removed, lor_bit_added by lia.
    destruct (Z.eqb_spec i k) as [->|Hne].
    + rewrite Hb. reflexivity.
    + rewrite orb_false_r, xorb_false_r. reflexivity.
  - rewrite (Set_remove_ok s i Hi Hc Hb). eexists. split; [reflexivity|].
    cbn [set].
    assert (Hb' : Z.testbit (Z.lxor (set s) (Z.shiftl 1 i)) i = false).
    { rewrite lxor_bit_removed, Z.eqb_refl, Hb by lia. reflexivity. }
    split; [exact Hb'|].
    rewrite Set_insert_new by (cbn [set cursor]; assumption).
    cbn [set size cursor count]. rewrite Eu2. destruct s as [x z c j].
    cbn [set size cursor count] in *. f_equal. f_equal.
    apply Z.bits_inj'. intros k Hk.
    rewrite lor_bit_added, lxor_bit_removed by lia.
    destruct (Z.eqb_spec i k) as [->|Hne].
    + rewrite Hb. reflexivity.
    + rewrite orb_false_r, xorb_false_r. reflexivity.
Qed.

Lemma Set_insert_remove_round_trip_witness :
  exists s', Set_insert (mkSet 5 2 0 0) 1 = Ok s' /\
             Z.testbit (set s') 1 = true /\
             Set_remove s' 1 = Ok (mkSet 5 2 0 0).
Proof.
  apply (Set_insert_remove_round_trip (mkSet 5 2 0 0) 1).
  - unfold MAX_ATTRIBS. lia.
  - reflexivity.
  - simpl. lia.
  - reflexivity.
Defined.

(** X5: [Set_full n] is the set of the attributes [0 .. n-1], of size [n]
    and with cursor and count 0: it passes [Set_is_full], and the sets it
    contains are exactly the sets of the universe; above [MAX_ATTRIBS]
    attributes the assertion fails. *)
Theorem Set_full_universe (m : Z) (s : Set_t) :
  0 <= m ->
  (m <= MAX_ATTRIBS ->
   exists f, Set_full m = Ok f /\
             set f = Z.shiftl 1 m - 1 /\
             size f = m /\ cursor f = 0 /\ count f = 0 /\
             Set_is_full f m = Ok true /\
             (forall i, In i (members f) <-> 0 <= i < m) /\
             (Set_contains f s = true <-> in_universe m (set s))) /\
  (MAX_ATTRIBS < m -> Set_full m = AssertFail).
Proof.
  intros Hm. split.
  - intros Hle.
    destruct (Set_full_ok m (conj Hm Hle))
      as (f & E & Hset & [Hu Hc] & Hcur & Hcnt).
    exists f. split; [exact E|].
    assert (Hsz : size f = m).
    { unfold Set_full in E. destruct (m <=? MAX_ATTRIBS); [|discriminate].
      cbn in E. inversion E. reflexivity. }
    split; [exact Hset|]. split; [exact Hsz|].
    split; [exact Hcur|]. split; [exact Hcnt|].
    split; [rewrite Set_is_full_ok, Hsz, Z.eqb_refl by exact Hle; reflexivity|].
    split.
    + intros i. rewrite members_In, Hset. split.
      * intros [Hi Hb]. rewrite ones_bit in Hb by lia.
        apply Z.ltb_lt in Hb. lia.
      * intros Hi. split; [lia|]. rewrite ones_bit by lia.
        apply Z.ltb_lt. lia.
    + rewrite Set_contains_subset, Hset. split.
      * intros Hsub. apply in_universe_of_bits; [exact Hm|].
        intros i Hi. destruct (Z.testbit (set s) i) eqn:Hb; [|reflexivity].
        specialize (Hsub i ltac:(lia) Hb). rewrite ones_bit in Hsub by lia.
        apply Z.ltb_lt in Hsub. lia.
      * intros Hs i Hi Hb. rewrite ones_bit by lia. apply Z.ltb_lt.
        destruct (Z.lt_ge_cases i m) as [Hlt|Hge]; [exact Hlt|].
        rewrite (in_universe_high m (set s) i Hm Hs Hge) in Hb. discriminate.
  - intros Hgt. unfold Set_full.
    replace (m <=? MAX_ATTRIBS) with false; [reflexivity|].
    symmetry. apply Z.leb_gt. exact Hgt.
Qed.

Lemma Set_full_universe_witness :
  (exists f, Set_full 3 = Ok f /\
             set f = Z.shiftl 1 3 - 1 /\
             size f = 3 /\ cursor f = 0 /\ count f = 0 /\
             Set_is_full f 3 = Ok true /\
             (forall i, In i (members f) <-> 0 <= i < 3) /\
             (Set_contains f (mkSet 5 2 0 0) = true <->
              in_universe 3 (set (mkSet 5 2 0 0)))) /\
  Set_full 27 = AssertFail.
Proof.
  split.
  - apply (Set_full_universe 3 (mkSet 5 2 0 0)); [lia|unfold MAX_ATTRIBS; lia].
  - apply (Set_full_universe 27 Set_init); [lia|unfold MAX_ATTRIBS; lia].
Defined.

(** The first [j] of the calls of [Set_next_pos] that enumerate a set. *)
Lemma print_loop_prefix (s : Set_t) (j : nat) :
  forall (R : list Z) (c cnt : Z),
  0 <= c <= MAX_ATTRIBS -> 0 <= cnt -> size s < 256 ->
  members_from (Z.to_nat (MAX_ATTRIBS - c)) c (set s) = R ->
  cnt + Z.of_nat (length R) = size s ->
  (0 < j < length R)%nat ->
  cursor (fst (print_loop j (at_cursor s c cnt))) <> 0 /\
  snd (print_loop j (at_cursor s c cnt)) = firstn j R.
Proof.
  induction j as [|j IH]; intros R c cnt Hc Hcnt Hs HR Hlen Hj; [lia|].
  destruct R as [|m rest]; [cbn [length] in Hj; lia|].
  cbn [length] in Hlen, Hj. cbn [print_loop firstn].
  pose proof (Set_next_pos_at s c cnt Hc ltac:(lia)) as H. rewrite HR in H.
  destruct H as (E1 & Hm & Hrest). rewrite E1.
  replace (cnt + 1 =? size s) with false
    by (symmetry; apply Z.eqb_neq; lia).
  destruct j as [|j'].
  - cbn [print_loop fst snd at_cursor cursor firstn]. split; [lia|reflexivity].
  - destruct (IH rest (m + 1) (cnt + 1) ltac:(lia) ltac:(lia) Hs
                (eq_sym Hrest) ltac:(lia) ltac:(lia)) as [H1 H2].
    destruct (print_loop (S j') (at_cursor s (m + 1) (cnt + 1)))
      as [s2 line] eqn:E2.
    cbn [fst snd] in *. split; [exact H1|]. rewrite H2. reflexivity.
Qed.

(** X6: while a set is being enumerated, that is after at least one and
    fewer than [size] calls of [Set_next_pos], its cursor is not 0 and both
    [Set_insert] and [Set_remove] fail their assertion, whatever the
    attribute. *)
Theorem mutation_fails_during_enumeration (s : Set_t) (j : nat) (i : Z) :
  wf MAX_ATTRIBS s -> idle s -> (0 < j)%nat -> Z.of_nat j < size s ->
  snd (print_loop j s) = firstn j (members s) /\
  cursor (fst (print_loop j s)) <> 0 /\
  Set_insert (fst (print_loop j s)) i = AssertFail /\
  Set_remove (fst (print_loop j s)) i = AssertFail.
Proof.
  intros Hwf Hidle Hj0 Hj.
  pose proof (members_length s Hwf) as Hlen.
  assert (Hsz : size s < 256).
  { destruct Hwf as [_ Hc]. rewrite Hc.
    pose proof (popcount_bounds (set s)). lia. }
  destruct (print_loop_prefix s j (members s) 0 0
              ltac:(unfold MAX_ATTRIBS; lia) ltac:(lia) Hsz eq_refl
              ltac:(lia) ltac:(lia)) as [Hc Hl].
  rewrite (idle_at_cursor s Hidle) in Hc, Hl.
  split; [exact Hl|]. split; [exact Hc|].
  apply Z.eqb_neq in Hc. unfold Set_insert, Set_remove. rewrite Hc. split.
  - destruct (i <? MAX_ATTRIBS); reflexivity.
  - destruct (i <? MAX_ATTRIBS); [|reflexivity].
    destruct (negb (Z.land (set (fst (print_loop j s))) (Z.shiftl 1 i) =? 0));
      reflexivity.
Qed.

Lemma mutation_fails_during_enumeration_witness :
  Set_insert (fst (print_loop 1 (mkSet 7 3 0 0))) 5 = AssertFail.
Proof.
  apply (mutation_fails_during_enumeration (mkSet 7 3 0 0) 1 5).
  - split; [apply in_universeb_ok; reflexivity|reflexivity].
  - split; reflexivity.
  - lia.
  - simpl. lia.
Defined.

(** ** The two revisions of the set operations *)

(** X7: [Set_difference] of the header revision never has a bit outside
    [USED_MASK], and on a first argument without such bits it returns what
    [Set_difference] of [set.c] returns. *)
Theorem Set_h_difference_masked (a b : Set_t) :
  outside_mask (set (Set_h.Set_difference a b)) = 0 /\
  (outside_mask (set a) = 0 ->
   Set_h.Set_difference a b = Set_difference a b).
Proof.
  split.
  - apply Z.bits_inj'. intros i Hi. rewrite outside_mask_bit, Z.bits_0 by lia.
    cbn [Set_h.Set_difference set].
    rewrite !Z.land_spec, USED_MASK_bit by lia.
    destruct (i <? MAX_ATTRIBS); [|rewrite !andb_false_r; reflexivity].
    rewrite !andb_false_r. reflexivity.
  - intros Ha.
    assert (E : Z.land (set a) (Z.land (u32 (Z.lnot (set b))) USED_MASK) =
                Z.land (set a) (u32 (Z.lnot (set b)))).
    { apply Z.bits_inj'. intros i Hi.
      assert (Hai : Z.testbit (outside_mask (set a)) i = false)
        by (rewrite Ha; apply Z.bits_0).
      rewrite outside_mask_bit in Hai by lia.
      rewrite !Z.land_spec, u32_bit, USED_MASK_bit by lia.
      destruct (Z.testbit (set a) i); [|reflexivity].
      destruct (i <? 32); [|reflexivity].
      destruct (i <? MAX_ATTRIBS); [|discriminate].
      rewrite andb_true_r. reflexivity. }
    unfold Set_h.Set_difference, Set_difference. cbv zeta. rewrite E.
    reflexivity.
Qed.

Lemma Set_h_difference_masked_witness :
  Set_h.Set_difference (mkSet 5 2 0 0) (mkSet 4 1 0 0) =
  Set_difference (mkSet 5 2 0 0) (mkSet 4 1 0 0).
Proof.
  apply (Set_h_difference_masked (mkSet 5 2 0 0) (mkSet 4 1 0 0)).
  reflexivity.
Defined.

Lemma Set_h_next_pos_from (todo : nat) :
  forall (i : Z) (s : Set_t),
  0 <= i -> i + Z.of_nat todo <= MAX_ATTRIBS ->
  Set_h.next_pos_from todo i (Z.shiftl 1 i) s = next_pos_from todo i s.
Proof.
  induction todo as [|todo IH]; intros i s Hi Hle; [reflexivity|].
  cbn [Set_h.next_pos_from next_pos_from].
  destruct (negb (Z.land (set s) (Z.shiftl 1 i) =? 0)); [reflexivity|].
  rewrite <- (IH (i + 1) s) by lia. f_equal.
  rewrite !Z.shiftl_1_l.
  rewrite Z.shiftl_mul_pow2, Z.pow_1_r by lia.
  replace (2 ^ i * 2) with (2 ^ (i + 1))
    by (rewrite Z.pow_add_r by lia; rewrite Z.pow_1_r; reflexivity).
  unfold u32. apply Z.mod_small. split; [apply Z.pow_nonneg; lia|].
  apply Z.pow_lt_mono_r; unfold MAX_ATTRIBS in Hle; lia.
Qed.

(** X8: on a set that is not being enumerated the mutators of the two
    revisions agree; [Set_next_pos] of the header revision fails its
    assertion on a set of size 0 and otherwise returns what [Set_next_pos]
    of [set.c] returns. *)
Theorem Set_h_agrees (s : Set_t) (i : Z) :
  0 <= cursor s <= MAX_ATTRIBS ->
  (cursor s = 0 ->
   Set_h.Set_insert s i = Set_insert s i /\
   Set_h.Set_remove s i = Set_remove s i) /\
  (size s <= 0 -> Set_h.Set_next_pos s = AssertFail) /\
  (0 < size s -> Set_h.Set_next_pos s = Ok (Set_next_pos s)).
Proof.
  intros Hc. split; [|split].
  - intros E. unfold Set_h.Set_insert, Set_insert, Set_h.Set_remove, Set_remove.
    rewrite E. split.
    + destruct (i <? MAX_ATTRIBS); reflexivity.
    + destruct (i <? MAX_ATTRIBS); [|reflexivity].
      destruct (negb (Z.land (set s) (Z.shiftl 1 i) =? 0)); reflexivity.
  - intros Hs. unfold Set_h.Set_next_pos.
    replace (size s >? 0) with false; [reflexivity|].
    symmetry. rewrite Z.gtb_ltb. apply Z.ltb_ge. exact Hs.
  - intros Hs. unfold Set_h.Set_next_pos, Set_next_pos.
    replace (size s >? 0) with true
      by (symmetry; rewrite Z.gtb_ltb; apply Z.ltb_lt; exact Hs).
    cbn [assert bind]. f_equal. apply Set_h_next_pos_from; lia.
Qed.

Lemma Set_h_agrees_witness :
  Set_h.Set_next_pos (mkSet 5 2 0 0) = Ok (Set_next_pos (mkSet 5 2 0 0)).
Proof.
  apply (Set_h_agrees (mkSet 5 2 0 0) 0).
  - unfold MAX_ATTRIBS. simpl. lia.
  - simpl. lia.
Defined.

(** ** The enumeration and its input *)

Lemma closure_monotone_idempotent_witness :
  exists Cs Ct,
    compute_closure (mkSet 8 1 0 0) large_txt 9 = Ok Cs /\
    compute_closure (mkSet 72 2 0 0) large_txt 9 = Ok Ct /\
    subset (set Cs) (set Ct) /\
    compute_closure Cs large_txt 9 = Ok Cs.
Proof.
  apply (compute_closure_monotone_idempotent large_txt 9).
  - unfold MAX_ATTRIBS. lia.
  - apply valid_depsb_ok. reflexivity.
  - apply in_universeb_ok. reflexivity.
  - apply in_universeb_ok. reflexivity.
  - apply (proj1 (Set_contains_subset (mkSet 72 2 0 0) (mkSet 8 1 0 0))).
    reflexivity.
Defined.

Lemma is_superkey_characterised_witness :
  is_superkey (mkSet 7 3 0 0) cycle_txt 3 = Ok false.
Proof.
  apply (is_superkey_characterised cycle_txt 3).
  - unfold MAX_ATTRIBS. lia.
  - apply valid_depsb_ok. reflexivity.
  - split; [apply in_universeb_ok; reflexivity|reflexivity].
  - reflexivity.
Defined.

Lemma superkey_upward_closed_witness :
  closure_is_full cycle_txt 3 (mkSet 3 2 0 0).
Proof.
  apply (superkey_upward_closed cycle_txt 3) with (S := mkSet 1 1 0 0).
  - unfold MAX_ATTRIBS. lia.
  - apply valid_depsb_ok. reflexivity.
  - split; [apply in_universeb_ok; reflexivity|reflexivity].
  - split; [apply in_universeb_ok; reflexivity|reflexivity].
  - reflexivity.
  - eexists. split; vm_compute; reflexivity.
Defined.

Lemma closure_not_full_by_evaluation (q : Queue) (n : Z) (s : Set_t) :
  bind (compute_closure s q n) (fun C => Set_is_full C n) = Ok false ->
  ~ closure_is_full q n s.
Proof.
  intros H (C & E & F). rewrite E in H. cbn [bind] in H. congruence.
Qed.

Lemma candidate_key_fixed_point_witness :
  candidate_key_from_super_key (mkSet 1 1 0 0) cycle_txt 3 =
  Ok (mkSet 1 1 0 0).
Proof.
  apply (candidate_key_fixed_point cycle_txt 3).
  - unfold MAX_ATTRIBS. lia.
  - apply valid_depsb_ok. reflexivity.
  - split; [apply in_universeb_ok; reflexivity|reflexivity].
  - split; reflexivity.
  - eexists. split; vm_compute; reflexivity.
  - intros a Ha Hb. destruct (Z.eq_dec a 0) as [->|Hne].
    + eexists. split; [reflexivity|].
      apply closure_not_full_by_evaluation. vm_compute. reflexivity.
    + exfalso. destruct a as [|p|p]; try lia; destruct p; discriminate.
Defined.

Lemma enumeration_sound_witness :
  exists found lines,
    print_all_candidate_keys large_txt 9 = Ok (found, lines) /\
    forall K, In K found ->
      wf 9 K /\ idle K /\ closure_is_full large_txt 9 K /\
      forall a, 0 <= a -> Z.testbit (set K) a = true ->
        exists K', Set_remove K a = Ok K' /\ ~ closure_is_full large_txt 9 K'.
Proof.
  apply (enumeration_sound large_txt 9).
  - unfold MAX_ATTRIBS. lia.
  - apply valid_depsb_ok. reflexivity.
Defined.

Lemma enumeration_exact_witness :
  exists found lines,
    print_all_candidate_keys large_txt 9 = Ok (found, lines) /\
    forall T, wf 9 T ->
      (In (set T) (map set found) <->
       closure_is_full large_txt 9 T /\
       forall a, 0 <= a -> Z.testbit (set T) a = true ->
         exists T', Set_remove (Set_copy T) a = Ok T' /\
                    ~ closure_is_full large_txt 9 T').
Proof.
  apply (enumeration_exact large_txt 9).
  - unfold MAX_ATTRIBS. lia.
  - apply valid_depsb_ok. reflexivity.
Defined.

Lemma printed_lines_are_keys_witness :
  exists found,
    print_all_candidate_keys cycle_txt 3 = Ok (found, map members found) /\
    forall K, In K found ->
      StronglySorted Z.lt (members K) /\
      Z.of_nat (length (members K)) = size K /\
      forall a, In a (members K) <->
                0 <= a < 3 /\ Z.testbit (set K) a = true.
Proof.
  apply (printed_lines_are_keys cycle_txt 3).
  - unfold MAX_ATTRIBS. lia.
  - apply valid_depsb_ok. reflexivity.
Defined.

Lemma closed_same_dependencies (q q' : Queue) (C : Z) :
  (forall k, In k q <-> In k q') -> closed q C -> closed q' C.
Proof. intros H Hc k Hk. apply Hc. apply H. exact Hk. Qed.

Lemma determines_all_same_dependencies (q q' : Queue) (n x : Z) :
  (forall k, In k q <-> In k q') ->
  determines_all q n x -> determines_all q' n x.
Proof.
  intros H Hx C Hs Hc. apply Hx; [exact Hs|].
  apply (closed_same_dependencies q' q); [|exact Hc].
  intros k. symmetry. apply H.
Qed.

Lemma minimal_same_dependencies (q q' : Queue) (n x : Z) :
  (forall k, In k q <-> In k q') -> minimal q n x -> minimal q' n x.
Proof.
  intros H Hm a Ha Hb Hall. apply (Hm a Ha Hb).
  apply (determines_all_same_dependencies q' q); [|exact Hall].
  intros k. symmetry. apply H.
Qed.

Lemma key_sets_in_universe (q : Queue) (n : Z) (st : enum_state) (x : Z) :
  found_inv q n st -> In x (key_sets (ckeys st)) -> in_universe n x.
Proof.
  intros Hinv Hin. apply in_map_iff in Hin. destruct Hin as (k & <- & Hk).
  apply (ck_wf q n _ (fi_keys q n st Hinv k Hk)).
Qed.

(** X16: the set of keys found does not depend on the order of the
    dependencies nor on their repetition: two lists with the same
    dependencies give the same bitmasks. *)
Theorem keys_independent_of_order (q q' : Queue) (n : Z) :
  0 <= n <= MAX_ATTRIBS -> valid_deps q n ->
  (forall k, In k q <-> In k q') ->
  exists found lines found' lines',
    print_all_candidate_keys q n = Ok (found, lines) /\
    print_all_candidate_keys q' n = Ok (found', lines') /\
    forall x, In x (map set found) <-> In x (map set found').
Proof.
  intros Hn Hq Hsame.
  assert (Hq' : valid_deps q' n).
  { intros k Hk. apply Hq. apply Hsame. exact Hk. }
  destruct (print_all_candidate_keys_spec q n Hn Hq) as (st & E & Hinv & Hw).
  destruct (print_all_candidate_keys_spec q' n Hn Hq')
    as (st' & E' & Hinv' & Hw').
  exists (map lhs (ckeys st)), (printed st),
         (map lhs (ckeys st')), (printed st').
  split; [exact E|]. split; [exact E'|].
  intros x. rewrite !map_map. fold (key_sets (ckeys st)).
  fold (key_sets (ckeys st')). split; intros Hin.
  - pose proof (key_sets_in_universe q n st x (ei_found q n st Hinv) Hin) as Hx.
    apply (found_exact q' n Hn Hq' st' Hinv' Hw' x Hx).
    apply (found_exact q n Hn Hq st Hinv Hw x Hx) in Hin.
    destruct Hin as [H1 H2]. split.
    + apply (determines_all_same_dependencies q q'); assumption.
    + apply (minimal_same_dependencies q q'); assumption.
  - pose proof (key_sets_in_universe q' n st' x (ei_found q' n st' Hinv') Hin)
      as Hx.
    apply (found_exact q n Hn Hq st Hinv Hw x Hx).
    apply (found_exact q' n Hn Hq' st' Hinv' Hw' x Hx) in Hin.
    assert (Hsame' : forall k, In k q' <-> In k q)
      by (intros k; symmetry; apply Hsame).
    destruct Hin as [H1 H2]. split.
    + apply (determines_all_same_dependencies q' q); assumption.
    + apply (minimal_same_dependencies q' q); assumption.
Qed.

Lemma keys_independent_of_order_witness :
  exists found lines found' lines',
    print_all_candidate_keys cycle_txt 3 = Ok (found, lines) /\
    print_all_candidate_keys (rev cycle_txt) 3 = Ok (found', lines') /\
    forall x, In x (map set found) <-> In x (map set found').
Proof.
  apply (keys_independent_of_order cycle_txt (rev cycle_txt) 3).
  - unfold MAX_ATTRIBS. lia.
  - apply valid_depsb_ok. reflexivity.
  - intros k. apply in_rev.
Defined.

(** X17: without any dependency the enumeration finds one key, the set of
    all attributes. *)
Theorem no_dependency_single_key (n : Z) :
  0 <= n <= MAX_ATTRIBS ->
  exists f, Set_full n = Ok f /\
            print_all_candidate_keys [] n = Ok ([f], [members f]).
Proof.
  intros Hn.
  assert (Hq : valid_deps [] n) by (intros k []).
  destruct (Set_full_ok n Hn) as (f & Ef & Hset & Hwf & Hidle).
  exists f. split; [exact Ef|].
  destruct (print_all_candidate_keys_spec [] n Hn Hq)
    as (st & E & [Hinv _ Hne] & _).
  rewrite E.
  assert (Hall : forall k, In k (ckeys st) -> lhs k = f).
  { intros k Hk. destruct (fi_keys [] n st Hinv k Hk) as [Kwf Kidle Kkey _].
    apply consistent_idle_eq; try assumption; try apply Kwf; try apply Hwf.
    rewrite Hset. apply subset_antisym.
    - apply (universe_subset n Hn). apply Kwf.
    - apply Kkey; [apply subset_refl|]. intros d []. }
  pose proof (fi_nodup [] n st Hinv) as Hnd.
  pose proof (fi_printed [] n st Hinv) as Hp.
  destruct (ckeys st) as [|k0 [|k1 rest]]; [congruence| |].
  - rewrite Hp. cbn [map]. rewrite (Hall k0 (or_introl eq_refl)). reflexivity.
  - exfalso. cbn [key_sets map] in Hnd. inversion Hnd as [|? ? Hnotin _].
    apply Hnotin. left.
    rewrite (Hall k0 (or_introl eq_refl)),
      (Hall k1 (or_intror (or_introl eq_refl))). reflexivity.
Qed.

Lemma no_dependency_single_key_witness :
  exists f, Set_full 4 = Ok f /\
            print_all_candidate_keys [] 4 = Ok ([f], [members f]).
Proof. apply (no_dependency_single_key 4). unfold MAX_ATTRIBS. lia. Defined.

(** ** Reading the dependencies *)

Lemma code_A : code "A"%char = 65.
Proof. reflexivity. Qed.

Lemma code_Z : code "Z"%char = 90.
Proof. reflexivity. Qed.

Lemma is_valid_attrib_index (c : ascii) :
  is_valid_attrib c = true -> 0 <= attrib_index c < MAX_ATTRIBS.
Proof.
  unfold is_valid_attrib, attrib_index. rewrite code_A, code_Z.
  intros H. apply andb_true_iff in H. destruct H as [H1 H2].
  apply Z.leb_le in H1. apply Z.leb_le in H2. unfold MAX_ATTRIBS. lia.
Qed.

Lemma first_capital_valid (t : list ascii) (c : ascii) :
  first_capital t = Some c -> is_valid_attrib c = true /\ In c t.
Proof.
  induction t as [|a t IH]; [discriminate|]. cbn [first_capital].
  destruct (is_valid_attrib a) eqn:Ha.
  - intros E. inversion E; subst a. split; [exact Ha|left; reflexivity].
  - intros E. destruct (IH E) as [H1 H2]. split; [exact H1|right; exact H2].
Qed.

Lemma scan_token_spec (t : list ascii) (n : Z) :
  scan_token t n =
  match first_capital t with
  | None => Success INVALID_ATTRIB
  | Some c => if attrib_index c >=? n then Failure (Invalid_attribute c)
              else Success (attrib_index c)
  end.
Proof.
  induction t as [|a t IH]; [reflexivity|]. cbn [scan_token first_capital].
  destruct (is_valid_attrib a) eqn:Ha; [|exact IH].
  pose proof (is_valid_attrib_index a Ha) as Hi. unfold MAX_ATTRIBS in Hi.
  fold (attrib_index a). unfold u8. rewrite Z.mod_small by lia. reflexivity.
Qed.

Lemma skip_delims_length (delim str : list ascii) :
  (length (skip_delims delim str) <= length str)%nat.
Proof.
  induction str as [|c str IH]; [apply Nat.le_refl|]. cbn [skip_delims].
  destruct (is_delim delim c); cbn [length]; lia.
Qed.

Lemma token_end_length (delim str token rest : list ascii) :
  token_end delim str = (token, rest) ->
  (length token + length rest = length str)%nat.
Proof.
  revert token rest. induction str as [|c str IH]; intros token rest E;
    cbn [token_end] in E.
  - inversion E. reflexivity.
  - destruct (is_delim delim c).
    + inversion E. reflexivity.
    + destruct (token_end delim str) as [t r] eqn:E'. inversion E; subst.
      cbn [length]. specialize (IH t rest eq_refl). lia.
Qed.

(** A call of [strtok_r] returns a token and leaves less to scan. *)
Lemma strtok_r_shorter (str delim token save : list ascii) :
  strtok_r str delim = Some (token, save) ->
  (length save < length str)%nat.
Proof.
  unfold strtok_r. pose proof (skip_delims_length delim str) as Hs.
  destruct (skip_delims delim str) as [|c str'] eqn:E; [discriminate|].
  destruct (token_end delim (c :: str')) as [t r] eqn:Et.
  intros H. inversion H; subst. pose proof (token_end_length _ _ _ _ Et) as Hl.
  cbn [token_end] in Et.
  assert (Hc : is_delim delim c = false).
  { clear - E. induction str as [|a str IH]; [discriminate|].
    cbn [skip_delims] in E. destruct (is_delim delim a) eqn:Ha.
    - apply IH. exact E.
    - inversion E; subst. exact Ha. }
  rewrite Hc in Et. destruct (token_end delim str') as [t' r'].
  inversion Et; subst. cbn [length] in *. destruct r; cbn [length] in *; lia.
Qed.

Lemma Set_insert_spec (s : Set_t) (i : Z) :
  0 <= i < MAX_ATTRIBS -> cursor s = 0 ->
  exists s', Set_insert s i = Ok s' /\
    (forall j, 0 <= j ->
       Z.testbit (set s') j = Z.testbit (set s) j || (i =? j)) /\
    cursor s' = 0 /\ count s' = count s /\
    (consistent s -> consistent s').
Proof.
  intros Hi Hc. destruct (Z.testbit (set s) i) eqn:Hb.
  - exists s. split.
    + unfold Set_insert.
      replace (i <? MAX_ATTRIBS) with true by (symmetry; apply Z.ltb_lt; lia).
      rewrite Hc, land_bit_zero, Hb by lia. reflexivity.
    + split; [|auto]. intros j Hj. destruct (Z.eqb_spec i j) as [->|Hne].
      * rewrite Hb. reflexivity.
      * rewrite orb_false_r. reflexivity.
  - rewrite (Set_insert_new s i Hi Hc Hb). eexists. split; [reflexivity|].
    cbn [set cursor count]. split; [|split; [exact Hc|split; [reflexivity|]]].
    + intros j Hj. apply lor_bit_added; lia.
    + intros Hs. apply (Set_insert_consistent s _ i ltac:(lia) Hs).
      apply Set_insert_new; assumption.
Qed.

(** The loop over the tokens. *)
Lemma parse_tokens_spec (n : Z) (fuel : nat) :
  forall (str : list ascii) (attribs : Set_t),
  (length str <= fuel)%nat -> cursor attribs = 0 ->
  exists r, parse_tokens fuel (strtok_r str DELIM) n attribs = Ok r /\
    match r with
    | Success s =>
        cursor s = 0 /\ count s = count attribs /\
        (consistent attribs -> consistent s) /\
        (forall t, In t (tokens fuel str DELIM) ->
           exists c, first_capital t = Some c /\ attrib_index c < n) /\
        (forall i, 0 <= i ->
           (Z.testbit (set s) i = true <->
            Z.testbit (set attribs) i = true \/
            exists t c, In t (tokens fuel str DELIM) /\
                        first_capital t = Some c /\ attrib_index c = i))
    | Failure e =>
        exists t, In t (tokens fuel str DELIM) /\
          (first_capital t = None /\ e = Missing_valid_attribute \/
           exists c, first_capital t = Some c /\ n <= attrib_index c /\
                     e = Invalid_attribute c)
    end.
Proof.
  induction fuel as [|fuel IH]; intros str attribs Hlen Hcur.
  - destruct str; [|cbn [length] in Hlen; lia].
    exists (Success attribs). split; [reflexivity|].
    split; [exact Hcur|]. split; [reflexivity|]. split; [auto|].
    split; [intros t []|]. intros i Hi. split; [auto|].
    intros [H|(t & c & [] & _)]. exact H.
  - cbn [tokens]. destruct (strtok_r str DELIM) as [[token save]|] eqn:Etok.
    + cbn [parse_tokens]. rewrite scan_token_spec.
      pose proof (strtok_r_shorter _ _ _ _ Etok) as Hshort.
      destruct (first_capital token) as [c|] eqn:Ecap.
      * destruct (first_capital_valid _ _ Ecap) as [Hvalid _].
        pose proof (is_valid_attrib_index c Hvalid) as Hidx.
        destruct (attrib_index c >=? n) eqn:Hge.
        { exists (Failure (Invalid_attribute c)). split; [reflexivity|].
          exists token. split; [left; reflexivity|]. right. exists c.
          split; [exact Ecap|]. split; [|reflexivity].
          rewrite Z.geb_leb in Hge. apply Z.leb_le in Hge. exact Hge. }
        replace (attrib_index c =? INVALID_ATTRIB) with false
          by (symmetry; apply Z.eqb_neq; unfold INVALID_ATTRIB; lia).
        destruct (Set_insert_spec attribs (attrib_index c) Hidx Hcur)
          as (attribs' & Eins & Hbits & Hcur' & Hcnt' & Hcons').
        rewrite Eins. cbn [bind].
        destruct (IH save attribs' ltac:(lia) Hcur') as (r & Er & Hr).
        exists r. split; [exact Er|]. destruct r as [s|e].
        { destruct Hr as (H1 & H2 & H3 & H4 & H5).
          split; [exact H1|]. split; [congruence|]. split; [auto|]. split.
          - intros t [<-|Ht]; [|apply H4; exact Ht]. exists c.
            split; [exact Ecap|]. rewrite Z.geb_leb in Hge.
            apply Z.leb_gt in Hge. exact Hge.
          - intros i Hi. rewrite (H5 i Hi), (Hbits i Hi). split.
            + intros [Hb|(t & c' & Ht & Hc' & Hi')].
              * apply orb_true_iff in Hb. destruct Hb as [Hb|Hb];
                  [left; exact Hb|].
                apply Z.eqb_eq in Hb. right. exists token, c.
                split; [left; reflexivity|]. split; assumption.
              * right. exists t, c'. split; [right; exact Ht|].
                split; assumption.
            + intros [Hb|(t & c' & [<-|Ht] & Hc' & Hi')].
              * left. rewrite Hb. reflexivity.
              * left. rewrite Ecap in Hc'. inversion Hc'; subst c'.
                rewrite Hi', Z.eqb_refl. apply orb_true_r.
              * right. exists t, c'. split; [exact Ht|]. split; assumption. }
        destruct Hr as (t & Ht & He). exists t. split; [right; exact Ht|].
        exact He.
      * replace (INVALID_ATTRIB >=? n) with (INVALID_ATTRIB >=? n)
          by reflexivity.
        rewrite Z.eqb_refl. exists (Failure Missing_valid_attribute).
        split; [reflexivity|]. exists token. split; [left; reflexivity|].
        left. split; [exact Ecap|reflexivity].
    + exists (Success attribs). split; [reflexivity|].
      split; [exact Hcur|]. split; [reflexivity|]. split; [auto|].
      split; [intros t []|]. intros i Hi. split; [auto|].
      intros [H|(t & c & [] & _)]. exact H.
Qed.

Lemma parse_tokens_in_universe (n : Z) (toks : list (list ascii)) (s : Set_t) :
  0 <= n ->
  (forall t, In t toks ->
     exists c, first_capital t = Some c /\ attrib_index c < n) ->
  (forall i, 0 <= i ->
     (Z.testbit (set s) i = true <->
      exists t c, In t toks /\ first_capital t = Some c /\
                  attrib_index c = i)) ->
  in_universe n (set s).
Proof.
  intros Hn H4 Hbits. apply in_universe_of_bits; [exact Hn|]. intros i Hi.
  destruct (Z.testbit (set s) i) eqn:Hb; [exfalso|reflexivity].
  apply (Hbits i ltac:(lia)) in Hb. destruct Hb as (t & c & Ht & Hc & Hi').
  destruct (H4 t Ht) as (c' & Hc' & Hlt). rewrite Hc in Hc'.
  inversion Hc'; subst c'. lia.
Qed.

Lemma parse_tokens_from_empty (n : Z) (fuel : nat) (str : list ascii) :
  (length str <= fuel)%nat ->
  exists r, parse_tokens fuel (strtok_r str DELIM) n Set_init = Ok r /\
    match r with
    | Success s =>
        consistent s /\ idle s /\
        (forall t, In t (tokens fuel str DELIM) ->
           exists c, first_capital t = Some c /\ attrib_index c < n) /\
        (forall i, 0 <= i ->
           (Z.testbit (set s) i = true <->
            exists t c, In t (tokens fuel str DELIM) /\
                        first_capital t = Some c /\ attrib_index c = i))
    | Failure e =>
        exists t, In t (tokens fuel str DELIM) /\
          (first_capital t = None /\ e = Missing_valid_attribute \/
           exists c, first_capital t = Some c /\ n <= attrib_index c /\
                     e = Invalid_attribute c)
    end.
Proof.
  intros Hlen.
  destruct (parse_tokens_spec n fuel str Set_init Hlen eq_refl)
    as (r & E & Hr).
  exists r. split; [exact E|]. destruct r as [s|e]; [|exact Hr].
  destruct Hr as (H1 & H2 & H3 & H4 & H5).
  split; [apply H3; reflexivity|]. split; [split; [exact H1|exact H2]|].
  split; [exact H4|]. intros i Hi. rewrite (H5 i Hi). cbn [Set_init set].
  rewrite Z.bits_0. split; [intros [H|H]; [discriminate|exact H]|].
  intros H. right. exact H.
Qed.

Lemma parse_attrib_list_wf (attrib_list : list ascii) (n : Z) (s : Set_t) :
  0 <= n -> parse_attrib_list attrib_list n = Ok (Success s) ->
  wf n s /\ idle s.
Proof.
  intros Hn E. unfold parse_attrib_list in E.
  destruct (parse_tokens_from_empty n (length attrib_list) attrib_list
              (Nat.le_refl _)) as (r & E' & Hr).
  rewrite E in E'. inversion E'; subst r.
  destruct Hr as (H1 & H2 & H3 & H4).
  split; [split; [|exact H1]|exact H2].
  apply (parse_tokens_in_universe n _ s Hn H3 H4).
Qed.

(** X18: [parse_attrib_list] returns on every list.  When it returns 0 the
    set written holds, for each token between commas, the first capital
    letter of the token, which is below [n_attribs]; the set is a set of
    the universe with a right [size] and no enumeration in progress.  When
    it returns 1 some token has no capital letter, or its first capital
    letter is not below [n_attribs]. *)
Theorem parse_attrib_list_spec (attrib_list : list ascii) (n : Z) :
  0 <= n ->
  exists r, parse_attrib_list attrib_list n = Ok r /\
    match r with
    | Success s =>
        wf n s /\ idle s /\
        (forall t, In t (attrib_tokens attrib_list) ->
           exists c, first_capital t = Some c /\ attrib_index c < n) /\
        (forall i, 0 <= i ->
           (Z.testbit (set s) i = true <->
            exists t c, In t (attrib_tokens attrib_list) /\
                        first_capital t = Some c /\ attrib_index c = i))
    | Failure e =>
        exists t, In t (attrib_tokens attrib_list) /\
          (first_capital t = None /\ e = Missing_valid_attribute \/
           exists c, first_capital t = Some c /\ n <= attrib_index c /\
                     e = Invalid_attribute c)
    end.
Proof.
  intros Hn. unfold parse_attrib_list, attrib_tokens.
  destruct (parse_tokens_from_empty n (length attrib_list) attrib_list
              (Nat.le_refl _)) as (r & E & Hr).
  exists r. split; [exact E|]. destruct r as [s|e]; [|exact Hr].
  destruct Hr as (H1 & H2 & H3 & H4).
  split; [split; [|exact H1]|split; [exact H2|split; [exact H3|exact H4]]].
  apply (parse_tokens_in_universe n _ s Hn H3 H4).
Qed.

Lemma parse_attrib_list_spec_witness :
  exists r, parse_attrib_list (text " xB ,A,, Cd") 3 = Ok r /\
    match r with
    | Success s =>
        wf 3 s /\ idle s /\
        (forall t, In t (attrib_tokens (text " xB ,A,, Cd")) ->
           exists c, first_capital t = Some c /\ attrib_index c < 3) /\
        (forall i, 0 <= i ->
           (Z.testbit (set s) i = true <->
            exists t c, In t (attrib_tokens (text " xB ,A,, Cd")) /\
                        first_capital t = Some c /\ attrib_index c = i))
    | Failure e =>
        exists t, In t (attrib_tokens (text " xB ,A,, Cd")) /\
          (first_capital t = None /\ e = Missing_valid_attribute \/
           exists c, first_capital t = Some c /\ 3 <= attrib_index c /\
                     e = Invalid_attribute c)
    end.
Proof. apply (parse_attrib_list_spec (text " xB ,A,, Cd") 3). lia. Defined.

Lemma skip_delims_app (delim pre str : list ascii) :
  Forall (fun c => is_delim delim c = true) pre ->
  skip_delims delim (pre ++ str) = skip_delims delim str.
Proof.
  induction 1 as [|c pre Hc _ IH]; [reflexivity|].
  cbn [app skip_delims]. rewrite Hc. exact IH.
Qed.

Lemma skip_delims_token (delim str : list ascii) (c : ascii) :
  is_delim delim c = false -> skip_delims delim (c :: str) = c :: str.
Proof. intros H. cbn [skip_delims]. rewrite H. reflexivity. Qed.

Lemma token_end_app (delim token rest : list ascii) :
  Forall (fun c => is_delim delim c = false) token ->
  (rest = [] \/ exists c rest', rest = c :: rest' /\ is_delim delim c = true) ->
  token_end delim (token ++ rest) = (token, rest).
Proof.
  intros Ht Hrest. induction Ht as [|c token Hc _ IH].
  - cbn [app]. destruct Hrest as [->|(c & rest' & -> & Hc)]; [reflexivity|].
    cbn [token_end]. rewrite Hc. reflexivity.
  - cbn [app token_end]. rewrite Hc, IH. reflexivity.
Qed.

(** A token between delimiters is what [strtok_r] returns; the position
    saved is after the delimiter that ends it. *)
Lemma strtok_r_token (delim pre token rest : list ascii) :
  Forall (fun c => is_delim delim c = true) pre ->
  token <> [] ->
  Forall (fun c => is_delim delim c = false) token ->
  (rest = [] \/ exists c rest', rest = c :: rest' /\ is_delim delim c = true) ->
  strtok_r (pre ++ token ++ rest) delim = Some (token, tl rest).
Proof.
  intros Hpre Hne Ht Hrest. unfold strtok_r.
  rewrite (skip_delims_app delim pre _ Hpre).
  destruct token as [|c token]; [congruence|].
  cbn [app]. rewrite skip_delims_token by (inversion Ht; assumption).
  change (c :: token ++ rest) with ((c :: token) ++ rest).
  rewrite (token_end_app delim (c :: token) rest Ht Hrest).
  destruct rest; reflexivity.
Qed.

Lemma last_nonempty (line : list ascii) (d c : ascii) :
  line <> [] -> last line d = c -> In c line.
Proof.
  intros Hne <-. induction line as [|a line IH]; [congruence|].
  destruct line as [|b line]; [left; reflexivity|].
  right. apply IH. discriminate.
Qed.

Lemma length_positive (line : list ascii) :
  line <> [] -> assert (Z.of_nat (length line) >? 0) = Ok tt.
Proof.
  intros Hne. destruct line; [congruence|]. cbn [length].
  replace (Z.of_nat (S (length line)) >? 0) with true; [reflexivity|].
  symmetry. apply Z.gtb_lt. lia.
Qed.

(** X19: the two sides of a line.  Characters [-] and [>] at the start of
    the line are skipped, the left-hand side is what comes before the next
    [-] or [>], any run of these characters separates the sides, and what
    follows a second run is not read: the dependency of the line is that
    of the two sides. *)
Theorem parse_line_sides (pre l seps r rest : list ascii) (k n : Z) :
  Forall (fun c => is_delim SEP c = true) pre ->
  l <> [] -> Forall (fun c => is_delim SEP c = false) l ->
  seps <> [] -> Forall (fun c => is_delim SEP c = true) seps ->
  r <> [] -> Forall (fun c => is_delim SEP c = false) r ->
  (rest = [] \/ exists c rest', rest = c :: rest' /\ is_delim SEP c = true) ->
  last (pre ++ l ++ seps ++ r ++ rest) "000"%char = "010"%char ->
  parse_line (pre ++ l ++ seps ++ r ++ rest) k n = both_sides l r n.
Proof.
  intros Hpre Hl Hl' Hs Hs' Hr Hr' Hrest Hlast. unfold parse_line.
  rewrite length_positive by (destruct pre; destruct l; cbn; congruence).
  cbn [bind]. rewrite Hlast, Ascii.eqb_refl. cbn [negb].
  destruct seps as [|s seps]; [congruence|].
  rewrite (strtok_r_token SEP pre l ((s :: seps) ++ r ++ rest) Hpre Hl Hl').
  2:{ right. exists s, (seps ++ r ++ rest). split; [reflexivity|].
      inversion Hs'; assumption. }
  cbn [app tl]. unfold both_sides.
  destruct (parse_attrib_list l n) as [[s_left|e]| |]; cbn [bind];
    try reflexivity.
  rewrite (strtok_r_token SEP seps r rest); try assumption.
  - reflexivity.
  - inversion Hs'; assumption.
Qed.

Lemma parse_line_sides_witness :
  parse_line (text ">-" ++ text "A,B " ++ text "-->" ++ text " C" ++
              text_line "-> D") 0 3 =
  both_sides (text "A,B ") (text " C") 3.
Proof.
  apply (parse_line_sides (text ">-") (text "A,B ") (text "-->") (text " C")
           (text_line "-> D") 0 3).
  - repeat constructor.
  - discriminate.
  - repeat constructor.
  - discriminate.
  - repeat constructor.
  - discriminate.
  - repeat constructor.
  - right. exists "-"%char, (text_line "> D"). split; reflexivity.
  - reflexivity.
Defined.

Lemma skip_delims_keeps (delim str : list ascii) (c : ascii) :
  In c str -> is_delim delim c = false -> skip_delims delim str <> [].
Proof.
  intros Hin Hc. induction str as [|a str IH]; [destruct Hin|].
  cbn [skip_delims]. destruct (is_delim delim a) eqn:Ha; [|discriminate].
  destruct Hin as [->|Hin]; [congruence|]. apply IH. exact Hin.
Qed.

Lemma parse_attrib_list_failure (attrib_list : list ascii) (n : Z) :
  exists r, parse_attrib_list attrib_list n = Ok r /\
            r <> Failure Missing_arrow /\
            r <> Failure Right_hand_side_empty.
Proof.
  unfold parse_attrib_list.
  destruct (parse_tokens_spec n (length attrib_list) attrib_list Set_init
              (Nat.le_refl _) eq_refl) as (r & E & Hr).
  exists r. split; [exact E|]. destruct r as [s|e]; [split; discriminate|].
  destruct Hr as (t & _ & [[_ ->]|(c & _ & _ & ->)]); split; discriminate.
Qed.

(** X20: the message [Missing '->'] is never given: the first [strtok_r]
    of a line that ends in a newline returns a token.  A line without [-]
    and [>] is not accepted: its only token is taken for the left-hand
    side, and when that parses the right-hand side is reported empty. *)
Theorem parse_line_missing_arrow (line : list ascii) (k n : Z) :
  parse_line line k n <> Ok (Failure Missing_arrow) /\
  (Forall (fun c => is_delim SEP c = false) line ->
   forall key, parse_line line k n <> Ok (Success key)) /\
  (Forall (fun c => is_delim SEP c = false) line ->
   forall s, last line "000"%char = "010"%char ->
   parse_attrib_list line n = Ok (Success s) ->
   parse_line line k n = Ok (Failure Right_hand_side_empty)).
Proof.
  assert (Hnone : Forall (fun c => is_delim SEP c = false) line ->
                  line <> [] -> last line "000"%char = "010"%char ->
                  parse_line line k n =
                  (left <- parse_attrib_list line n ;;
                   match left with
                   | Failure e => Ok (Failure e)
                   | Success _ => Ok (Failure Right_hand_side_empty)
                   end)).
  { intros Hall Hne Hlast. unfold parse_line.
    rewrite (length_positive line Hne). cbn [bind].
    rewrite Hlast, Ascii.eqb_refl. cbn [negb].
    pose proof (strtok_r_token SEP [] line [] (Forall_nil _) Hne Hall
                  (or_introl eq_refl)) as Etok.
    cbn [app tl] in Etok. rewrite app_nil_r in Etok. rewrite Etok. destruct (parse_attrib_list line n) as [[s|e]| |];
      reflexivity. }
  split; [|split].
  - destruct line as [|a line']; [cbn; discriminate|].
    set (line := a :: line'). unfold parse_line.
    rewrite length_positive by discriminate. cbn [bind].
    destruct (Ascii.eqb (last line "000"%char) "010"%char) eqn:Hlast;
      cbn [negb]; [|discriminate].
    apply Ascii.eqb_eq in Hlast.
    assert (Hin : In "010"%char line).
    { apply (last_nonempty line "000"%char); [discriminate|exact Hlast]. }
    unfold strtok_r.
    pose proof (skip_delims_keeps SEP line "010"%char Hin eq_refl) as Hskip.
    destruct (skip_delims SEP line) as [|c str']; [congruence|].
    destruct (token_end SEP (c :: str')) as [token rest].
    destruct (parse_attrib_list_failure token n) as (rl & -> & Hl & _).
    cbn [bind]. destruct rl as [s_left|e]; [|congruence].
    destruct (skip_delims SEP _) as [|c2 str2]; [discriminate|].
    destruct (token_end SEP (c2 :: str2)) as [token2 rest2].
    destruct (parse_attrib_list_failure token2 n) as (rr & -> & Hr & _).
    cbn [bind]. destruct rr; congruence.
  - intros Hall key. destruct line as [|a line']; [cbn; discriminate|].
    set (line := a :: line') in *.
    destruct (ascii_dec (last line "000"%char) "010"%char) as [Hlast|Hlast].
    + rewrite (Hnone Hall ltac:(discriminate) Hlast).
      destruct (parse_attrib_list line n) as [[s|e]| |]; discriminate.
    + unfold parse_line. rewrite length_positive by discriminate.
      cbn [bind]. apply Ascii.eqb_neq in Hlast. rewrite Hlast. discriminate.
  - intros Hall s Hlast Hs.
    assert (Hne : line <> []).
    { intros ->. cbn in Hlast. discriminate. }
    rewrite (Hnone Hall Hne Hlast), Hs. reflexivity.
Qed.

Lemma parse_line_missing_arrow_witness :
  parse_line (text_line "A,B") 0 3 <> Ok (Failure Missing_arrow) /\
  (forall key, parse_line (text_line "A,B") 0 3 <> Ok (Success key)) /\
  parse_line (text_line "A,B") 0 3 = Ok (Failure Right_hand_side_empty).
Proof.
  destruct (parse_line_missing_arrow (text_line "A,B") 0 3) as (H1 & H2 & H3).
  split; [exact H1|]. split.
  - apply H2. repeat constructor.
  - apply (H3 ltac:(repeat constructor) (mkSet 3 2 0 0)); reflexivity.
Defined.

(** ** The loop over the lines, and the program as a whole *)

Lemma parse_line_returns (line : list ascii) (k n : Z) :
  line <> [] -> exists r, parse_line line k n = Ok r.
Proof.
  intros Hne. unfold parse_line. rewrite (length_positive line Hne).
  cbn [bind]. destruct (negb _); [eexists; reflexivity|].
  destruct (strtok_r line SEP) as [[l save]|]; [|eexists; reflexivity].
  destruct (parse_attrib_list_failure l n) as (rl & -> & _). cbn [bind].
  destruct rl as [s_left|e]; [|eexists; reflexivity].
  destruct (strtok_r save SEP) as [[r save']|]; [|eexists; reflexivity].
  destruct (parse_attrib_list_failure r n) as (rr & -> & _). cbn [bind].
  destruct rr; eexists; reflexivity.
Qed.

Lemma parse_line_key (line : list ascii) (k n : Z) (key : q_key_t) :
  0 <= n -> parse_line line k n = Ok (Success key) ->
  (wf n (lhs key) /\ idle (lhs key)) /\ (wf n (rhs key) /\ idle (rhs key)).
Proof.
  intros Hn. unfold parse_line. destruct (assert _); try discriminate.
  cbn [bind]. destruct (negb _); [discriminate|].
  destruct (strtok_r line SEP) as [[l save]|]; [|discriminate].
  destruct (parse_attrib_list l n) as [[s_left|e]| |] eqn:El; cbn [bind];
    try discriminate.
  destruct (strtok_r save SEP) as [[r save']|]; [|discriminate].
  destruct (parse_attrib_list r n) as [[s_right|e]| |] eqn:Er; cbn [bind];
    try discriminate.
  intros E. inversion E; subst key. cbn [lhs rhs]. split.
  - apply (parse_attrib_list_wf l n s_left Hn El).
  - apply (parse_attrib_list_wf r n s_right Hn Er).
Qed.

(** The line number only shows in the message about a line without end. *)
Lemma parse_line_line_num (line : list ascii) (k k' n : Z) (key : q_key_t) :
  parse_line line k n = Ok (Success key) ->
  parse_line line k' n = Ok (Success key).
Proof.
  unfold parse_line. destruct (assert _); try discriminate. cbn [bind].
  destruct (negb _); [discriminate|]. exact (fun E => E).
Qed.

Lemma u32_succ (a : Z) : u32 (u32 a + 1) = u32 (a + 1).
Proof. unfold u32. apply Z.add_mod_idemp_l. lia. Qed.

Lemma read_lines_spec (n : Z) (lines : list (list ascii)) :
  (forall line, In line lines -> line <> []) ->
  forall (k : Z) (q : Queue),
  exists r, read_lines lines (u32 k) n q = Ok r /\
    match r with
    | Success q' => exists keys, q' = q ++ keys /\ parsed n lines keys
    | Failure e =>
        exists done line rest keys,
          lines = done ++ line :: rest /\ parsed n done keys /\
          parse_line line (u32 (k + Z.of_nat (length done))) n =
          Ok (Failure e)
    end.
Proof.
  induction lines as [|line lines IH]; intros Hne k q.
  - exists (Success q). split; [reflexivity|]. exists []. split.
    + symmetry. apply app_nil_r.
    + constructor.
  - cbn [read_lines].
    destruct (parse_line_returns line (u32 k) n (Hne line (or_introl eq_refl)))
      as (r & Er).
    rewrite Er. cbn [bind]. destruct r as [key|e].
    + rewrite u32_succ.
      destruct (IH (fun l Hl => Hne l (or_intror Hl)) (k + 1) (Q_insert q key))
        as (r & E & Hr).
      exists r. split; [exact E|]. destruct r as [q'|e].
      * destruct Hr as (keys & -> & Hkeys). exists (key :: keys). split.
        { unfold Q_insert. rewrite <- app_assoc. reflexivity. }
        constructor; [|exact Hkeys].
        apply (parse_line_line_num line (u32 k) 0 n key Er).
      * destruct Hr as (done & l & rest & keys & -> & Hkeys & El).
        exists (line :: done), l, rest, (key :: keys). split; [reflexivity|].
        split.
        { constructor; [|exact Hkeys].
          apply (parse_line_line_num line (u32 k) 0 n key Er). }
        cbn [length]. rewrite <- El. f_equal. f_equal. lia.
    + exists (Failure e). split; [reflexivity|].
      exists [], line, lines, []. split; [reflexivity|]. split; [constructor|].
      cbn [length]. rewrite Z.add_0_r. exact Er.
Qed.

Lemma parsed_valid_deps (n : Z) (lines : list (list ascii)) (keys : Queue) :
  0 <= n -> parsed n lines keys -> valid_deps keys n.
Proof.
  intros Hn H. induction H as [|line key lines keys Hkey _ IH].
  - intros k [].
  - intros k [<-|Hk]; [|apply IH; exact Hk].
    destruct (parse_line_key line 0 n key Hn Hkey) as [[[Hl _] _] [[Hr _] _]].
    split; assumption.
Qed.

(** X21: the loop over the lines of [main].  When every line parses the
    queue holds the dependencies of the lines in the order of the file, one
    for each line, and all their attributes are below [n_attribs]; its
    [size] field, a [uint32_t], is the number of lines modulo [2 ^ 32],
    hence the number of lines of a file of fewer than [2 ^ 32] lines.
    Otherwise the program stops at the first line that does not parse, with
    the failure of this line, and the lines after it are not read. *)
Theorem read_lines_queue (n : Z) (lines : list (list ascii)) :
  0 <= n ->
  (forall line, In line lines -> line <> []) ->
  exists r, read_lines lines 0 n Q_init = Ok r /\
    match r with
    | Success q =>
        parsed n lines q /\ valid_deps q n /\
        length q = length lines /\
        Q_size q = u32 (Z.of_nat (length lines)) /\
        (Z.of_nat (length lines) < 2 ^ 32 ->
         Q_size q = Z.of_nat (length lines))
    | Failure e =>
        exists done line rest keys,
          lines = done ++ line :: rest /\ parsed n done keys /\
          parse_line line (u32 (Z.of_nat (length done))) n = Ok (Failure e)
    end.
Proof.
  intros Hn Hne.
  destruct (read_lines_spec n lines Hne 0 Q_init) as (r & E & Hr).
  exists r. split; [exact E|]. destruct r as [q|e]; [|exact Hr].
  destruct Hr as (keys & -> & Hkeys). cbn [Q_init app].
  split; [exact Hkeys|]. split; [apply (parsed_valid_deps n lines); assumption|].
  pose proof (Forall2_length Hkeys) as Hlen.
  split; [symmetry; exact Hlen|]. unfold Q_size. rewrite <- Hlen.
  split; [reflexivity|].
  intros Hsmall. unfold u32. apply Z.mod_small. lia.
Qed.

Lemma read_lines_queue_witness :
  exists r, read_lines [text_line "A -> B"; text_line "B,C -> A"] 0 3 Q_init
            = Ok r /\
    match r with
    | Success q =>
        parsed 3 [text_line "A -> B"; text_line "B,C -> A"] q /\
        valid_deps q 3 /\
        length q = length [text_line "A -> B"; text_line "B,C -> A"] /\
        Q_size q =
          u32 (Z.of_nat (length [text_line "A -> B"; text_line "B,C -> A"])) /\
        (Z.of_nat (length [text_line "A -> B"; text_line "B,C -> A"]) < 2 ^ 32 ->
         Q_size q =
           Z.of_nat (length [text_line "A -> B"; text_line "B,C -> A"]))
    | Failure e =>
        exists done line rest keys,
          [text_line "A -> B"; text_line "B,C -> A"] = done ++ line :: rest /\
          parsed 3 done keys /\
          parse_line line (u32 (Z.of_nat (length done))) 3 = Ok (Failure e)
    end.
Proof.
  apply (read_lines_queue 3 [text_line "A -> B"; text_line "B,C -> A"]).
  - lia.
  - intros line [<-|[<-|[]]]; discriminate.
Defined.

(** X22: the program as a whole, from the attribute count on.  It never
    fails an assertion.  It refuses a count of 0 or above 26; it stops at a
    line that does not parse; otherwise it prints the count, then one line
    for each candidate key of the dependencies read and no other line, no
    key twice and no key that contains another, and then the number of
    these lines. *)
Theorem main_report (n : Z) (lines : list (list ascii)) :
  0 <= n ->
  (forall line, In line lines -> line <> []) ->
  exists r, main n lines = Ok r /\
    match r with
    | Failure e =>
        (n = 0 \/ MAX_ATTRIBS < n) /\ e = Invalid_attribute_count \/
        1 <= n <= MAX_ATTRIBS /\
        read_lines lines 0 n Q_init = Ok (Failure e)
    | Success rep =>
        1 <= n <= MAX_ATTRIBS /\ attribute_count rep = n /\
        exists q found,
          read_lines lines 0 n Q_init = Ok (Success q) /\
          print_all_candidate_keys q n = Ok (found, key_lines rep) /\
          key_lines rep = map members found /\
          key_count rep = Z.of_nat (length (key_lines rep)) /\
          antichain found /\
          forall T, wf n T ->
            (In (set T) (map set found) <->
             closure_is_full q n T /\
             forall a, 0 <= a -> Z.testbit (set T) a = true ->
               exists T', Set_remove (Set_copy T) a = Ok T' /\
                          ~ closure_is_full q n T')
    end.
Proof.
  intros Hn Hne. unfold main.
  destruct ((n =? 0) || (n >? MAX_ATTRIBS)) eqn:Hcount.
  - exists (Failure Invalid_attribute_count). split; [reflexivity|]. left.
    split; [|reflexivity]. apply orb_true_iff in Hcount.
    destruct Hcount as [H|H]; [left; apply Z.eqb_eq; exact H|].
    right. apply Z.gtb_lt in H. exact H.
  - apply orb_false_iff in Hcount. destruct Hcount as [H0 H1].
    apply Z.eqb_neq in H0. rewrite Z.gtb_ltb in H1. apply Z.ltb_ge in H1.
    assert (Hrange : 0 <= n <= MAX_ATTRIBS) by lia.
    destruct (read_lines_spec n lines Hne 0 Q_init) as (r & E & Hr).
    change (u32 0) with 0 in E. rewrite E. cbn [bind].
    destruct r as [q|e].
    + destruct Hr as (keys & -> & Hkeys). cbn [Q_init app] in *.
      pose proof (parsed_valid_deps n lines keys Hn Hkeys) as Hvalid.
      destruct (print_all_candidate_keys_spec keys n Hrange Hvalid)
        as (st & Ep & Hinv & Hw).
      rewrite Ep. cbn [bind]. eexists. split; [reflexivity|].
      cbn [attribute_count key_lines key_count].
      split; [lia|]. split; [reflexivity|].
      exists keys, (map lhs (ckeys st)). split; [reflexivity|].
      split; [exact Ep|].
      pose proof (fi_printed keys n st (ei_found keys n st Hinv)) as Hp.
      split; [rewrite Hp, map_map; reflexivity|].
      split; [rewrite Hp, !length_map; reflexivity|].
      split; [apply (found_inv_antichain keys n),
                (ei_found keys n st Hinv)|].
      intros T HT. rewrite map_map. fold (key_sets (ckeys st)).
      rewrite (found_exact keys n Hrange Hvalid st Hinv Hw (set T) (proj1 HT)).
      rewrite (closure_is_full_iff keys n Hrange Hvalid T HT),
        (minimal_iff_remove keys n Hrange Hvalid T HT).
      reflexivity.
    + exists (Failure e). split; [reflexivity|]. right. split; [lia|].
      reflexivity.
Qed.

Lemma main_report_witness :
  exists r, main 3 [text_line "A -> B"; text_line "B,C -> A"] = Ok r /\
    match r with
    | Failure e =>
        (3 = 0 \/ MAX_ATTRIBS < 3) /\ e = Invalid_attribute_count \/
        1 <= 3 <= MAX_ATTRIBS /\
        read_lines [text_line "A -> B"; text_line "B,C -> A"] 0 3 Q_init
        = Ok (Failure e)
    | Success rep =>
        1 <= 3 <= MAX_ATTRIBS /\ attribute_count rep = 3 /\
        exists q found,
          read_lines [text_line "A -> B"; text_line "B,C -> A"] 0 3 Q_init
          = Ok (Success q) /\
          print_all_candidate_keys q 3 = Ok (found, key_lines rep) /\
          key_lines rep = map members found /\
          key_count rep = Z.of_nat (length (key_lines rep)) /\
          antichain found /\
          forall T, wf 3 T ->
            (In (set T) (map set found) <->
             closure_is_full q 3 T /\
             forall a, 0 <= a -> Z.testbit (set T) a = true ->
               exists T', Set_remove (Set_copy T) a = Ok T' /\
                          ~ closure_is_full q 3 T')
    end.
Proof.
  apply (main_report 3 [text_line "A -> B"; text_line "B,C -> A"]).
  - lia.
  - intros line [<-|[<-|[]]]; discriminate.
Defined.

(** ** The queue in memory *)

Lemma upd_same (c : nat -> option Queue_c.q_node_t) (p : nat)
    (v : option Queue_c.q_node_t) :
  Queue_c.upd c p v p = v.
Proof. unfold Queue_c.upd. rewrite Nat.eqb_refl. reflexivity. Qed.

Lemma upd_other (c : nat -> option Queue_c.q_node_t) (p p' : nat)
    (v : option Queue_c.q_node_t) :
  p' <> p -> Queue_c.upd c p v p' = c p'.
Proof.
  intros H. unfold Queue_c.upd. apply Nat.eqb_neq in H. rewrite H.
  reflexivity.
Qed.

(** The nodes only depend on the cells at their addresses. *)
Lemma nodes_frame (m m' : Queue_c.memory) (l : list (nat * q_key_t)) :
  forall p,
  (forall a, In a (Queue_c.addresses l) ->
     Queue_c.cell m' a = Queue_c.cell m a) ->
  Queue_c.nodes m p l -> Queue_c.nodes m' p l.
Proof.
  induction l as [|[a k] l IH]; intros p Hsame H; [exact H|].
  cbn [Queue_c.nodes] in *. destruct H as (Hp & Ha & nx & Hc & Hl).
  split; [exact Hp|]. split; [exact Ha|]. exists nx. split.
  - rewrite Hsame; [exact Hc|]. left. reflexivity.
  - apply IH; [|exact Hl]. intros b Hb. apply Hsame. right. exact Hb.
Qed.

Lemma nodes_not_null (m : Queue_c.memory) (p : nat)
    (l : list (nat * q_key_t)) :
  Queue_c.nodes m p l -> l <> [] -> p <> Queue_c.NULL.
Proof.
  destruct l as [|[a k] l]; [congruence|]. cbn [Queue_c.nodes].
  intros (Hp & Ha & _) _. congruence.
Qed.

Lemma last_addresses_In (l : list (nat * q_key_t)) :
  l <> [] -> In (last (Queue_c.addresses l) Queue_c.NULL) (Queue_c.addresses l).
Proof.
  induction l as [|[a k] l IH]; [congruence|]. intros _.
  destruct l as [|[b kb] l]; [left; reflexivity|].
  right. apply IH. discriminate.
Qed.

Lemma last_addresses_snoc (l : list (nat * q_key_t)) (a : nat) (k : q_key_t) :
  last (Queue_c.addresses (l ++ [(a, k)])) Queue_c.NULL = a.
Proof.
  unfold Queue_c.addresses. rewrite map_app. apply last_last.
Qed.

(** The last node of a non-empty queue, and the nodes once another node is
    linked behind it. *)
Lemma nodes_snoc (m m' : Queue_c.memory) (l : list (nat * q_key_t))
    (a : nat) (k : q_key_t) :
  forall p,
  l <> [] -> NoDup (Queue_c.addresses l) ->
  ~ In a (Queue_c.addresses l) -> a <> Queue_c.NULL ->
  Queue_c.nodes m p l ->
  (forall b, b <> last (Queue_c.addresses l) Queue_c.NULL -> b <> a ->
     Queue_c.cell m' b = Queue_c.cell m b) ->
  (forall h, Queue_c.cell m (last (Queue_c.addresses l) Queue_c.NULL) = Some h ->
     Queue_c.cell m' (last (Queue_c.addresses l) Queue_c.NULL) =
     Some {| Queue_c.next := a; Queue_c.key := Queue_c.key h |}) ->
  Queue_c.cell m' a = Some {| Queue_c.next := Queue_c.NULL; Queue_c.key := k |} ->
  Queue_c.nodes m' p (l ++ [(a, k)]).
Proof.
  induction l as [|[b kb] l IH]; intros p Hne Hnd Hfresh Ha H Hsame Hlast Hnew;
    [congruence|].
  cbn [Queue_c.nodes app] in *. destruct H as (Hp & Hb & nx & Hc & Hl).
  split; [exact Hp|]. split; [exact Hb|].
  destruct l as [|[b2 k2] l].
  - cbn [Queue_c.nodes] in Hl. subst nx. exists a. split.
    + cbn in Hlast. apply (Hlast _ Hc).
    + cbn [app Queue_c.nodes]. split; [reflexivity|]. split; [exact Ha|].
      exists Queue_c.NULL. split; [exact Hnew|reflexivity].
  - exists nx. inversion Hnd as [|? ? Hnotin Hnd']; subst.
    assert (Hne' : (b2, k2) :: l <> []) by discriminate.
    pose proof (last_addresses_In _ Hne') as Hin.
    split.
    + rewrite Hsame; [exact Hc| |].
      * intros E. apply Hnotin. cbn [Queue_c.addresses map last] in E |- *.
        fold (Queue_c.addresses l) in *. rewrite E.
        exact Hin.
      * intros E. apply Hfresh. left. exact E.
    + apply IH; try assumption.
      intros Hin'. apply Hfresh. right. exact Hin'.
Qed.

Lemma nodes_cell (m : Queue_c.memory) (l : list (nat * q_key_t)) :
  forall p b, Queue_c.nodes m p l -> In b (Queue_c.addresses l) ->
  b <> Queue_c.NULL /\ exists h, Queue_c.cell m b = Some h.
Proof.
  induction l as [|[a k] l IH]; intros p b H Hb; [destruct Hb|].
  cbn [Queue_c.nodes] in H. destruct H as (Hp & Ha & nx & Hc & Hl).
  destruct Hb as [<-|Hb].
  - split; [exact Ha|]. eexists. exact Hc.
  - apply (IH nx b Hl Hb).
Qed.

Lemma keys_snoc (l : list (nat * q_key_t)) (a : nat) (k : q_key_t) :
  Queue_c.keys (l ++ [(a, k)]) = Q_insert (Queue_c.keys l) k.
Proof. unfold Queue_c.keys, Q_insert. apply map_app. Qed.

(** X23: [Q_insert] on the linked nodes is [Q_insert] on the list of keys.
    When [malloc] returns [NULL] the assertion fails; otherwise the fresh
    cell becomes the last node of the queue, behind the former [head], the
    other cells keep their content, and [size] counts the keys. *)
Theorem Q_insert_refines (m : Queue_c.memory) (q : Queue_c.Queue)
    (l : list (nat * q_key_t)) (k : q_key_t) :
  Queue_c.represents m q l ->
  Queue_c.size q + 1 < 2 ^ 32 ->
  if Nat.ltb (Queue_c.brk m) (Queue_c.limit m) then
    exists m' q' l',
      Queue_c.Q_insert m q k = Returns (m', q') /\
      Queue_c.represents m' q' l' /\
      l' = l ++ [(Queue_c.brk m, k)] /\
      Queue_c.keys l' = Q_insert (Queue_c.keys l) k /\
      Queue_c.size q' = Q_size (Q_insert (Queue_c.keys l) k) /\
      (forall b, b <> Queue_c.head q -> b <> Queue_c.brk m ->
         Queue_c.cell m' b = Queue_c.cell m b)
  else Queue_c.Q_insert m q k = Aborts.
Proof.
  intros [Hnodes Hnd Hhead Hsize Hrange Hbrk Hnull] Hroom.
  unfold Queue_c.Q_insert, Queue_c.malloc.
  destruct (Nat.ltb (Queue_c.brk m) (Queue_c.limit m)) eqn:Hlim.
  2:{ reflexivity. }
  set (a := Queue_c.brk m).
  assert (Ha : a <> Queue_c.NULL) by (unfold Queue_c.NULL, a; lia).
  assert (Hfresh : ~ In a (Queue_c.addresses l)).
  { intros Hin. apply Hbrk in Hin. unfold a in Hin. lia. }
  apply Nat.eqb_neq in Ha. rewrite Ha. apply Nat.eqb_neq in Ha.
  unfold Queue_c.store at 1. cbn [Queue_c.cell]. rewrite upd_same.
  cbn [and_then Queue_c.brk Queue_c.limit].
  assert (Hsize' : u32 (Queue_c.size q + 1) =
                   Z.of_nat (length (l ++ [(a, k)]))).
  { rewrite length_app. cbn [length]. unfold u32.
    rewrite Z.mod_small by lia. lia. }
  assert (Hcount : Z.of_nat (length (l ++ [(a, k)])) =
                   Q_size (Q_insert (Queue_c.keys l) k)).
  { unfold Q_size. rewrite <- (keys_snoc l a k). unfold Queue_c.keys.
    rewrite length_map. unfold u32. symmetry. apply Z.mod_small.
    rewrite length_app. cbn [length]. lia. }
  assert (Hbrk' : forall b, In b (Queue_c.addresses (l ++ [(a, k)])) ->
                            (b < S a)%nat).
  { intros b Hb. unfold Queue_c.addresses in Hb. rewrite map_app in Hb.
    apply in_app_iff in Hb. destruct Hb as [Hb|[<-|[]]].
    - apply Hbrk in Hb. unfold a. lia.
    - cbn. lia. }
  assert (Hnd' : NoDup (Queue_c.addresses (l ++ [(a, k)]))).
  { unfold Queue_c.addresses. rewrite map_app.
    apply NoDup_app; [exact Hnd|repeat constructor; intros []|].
    intros b Hb [<-|[]]. apply Hfresh. exact Hb. }
  destruct l as [|[b0 k0] l0] eqn:El.
  - (* first insert *)
    cbn in Hhead. rewrite Hhead. cbn [Nat.eqb Queue_c.NULL].
    eexists _, _, [(a, k)]. split; [reflexivity|].
    split; [|split; [reflexivity|split; [reflexivity|split]]].
    + constructor; cbn [Queue_c.tail Queue_c.head Queue_c.size Queue_c.brk].
      * cbn [Queue_c.nodes Queue_c.cell]. split; [reflexivity|].
        split; [exact Ha|]. exists Queue_c.NULL. rewrite upd_same.
        split; reflexivity.
      * exact Hnd'.
      * reflexivity.
      * exact Hsize'.
      * rewrite Hsize'. cbn [length app]. lia.
      * exact Hbrk'.
      * lia.
    + cbn [Queue_c.size]. rewrite Hsize'. exact Hcount.
    + intros b Hb1 Hb2. cbn [Queue_c.cell].
      rewrite !upd_other by assumption. reflexivity.
  - rewrite <- El in *.
    assert (Hne : l <> []) by (rewrite El; discriminate).
    pose proof (last_addresses_In l Hne) as Hin. rewrite <- Hhead in Hin.
    destruct (nodes_cell m l _ _ Hnodes Hin) as (Hh & h & Hcell).
    assert (Hha : Queue_c.head q <> a).
    { intros E. apply Hfresh. rewrite <- E. exact Hin. }
    apply Nat.eqb_neq in Hh. rewrite Hh. apply Nat.eqb_neq in Hh.
    unfold Queue_c.load, Queue_c.store. cbn [Queue_c.cell].
    rewrite !upd_other by exact Hha. rewrite Hcell.
    cbn [and_then Queue_c.brk Queue_c.limit].
    eexists _, _, (l ++ [(a, k)]). split; [reflexivity|].
    split; [|split; [reflexivity|split; [apply keys_snoc|split]]].
    + constructor; cbn [Queue_c.tail Queue_c.head Queue_c.size Queue_c.brk].
      * apply (nodes_snoc m _ l a k (Queue_c.tail q) Hne Hnd Hfresh Ha Hnodes);
          cbn [Queue_c.cell]; try rewrite <- Hhead.
        { intros b Hb1 Hb2. rewrite !upd_other by assumption. reflexivity. }
        { intros h' Hh'. rewrite upd_same. rewrite Hcell in Hh'.
          inversion Hh'; subst h'. reflexivity. }
        { rewrite upd_other by (intros E; apply Hha; symmetry; exact E).
          apply upd_same. }
      * exact Hnd'.
      * symmetry. apply last_addresses_snoc.
      * exact Hsize'.
      * rewrite Hsize', length_app. cbn [length]. lia.
      * exact Hbrk'.
      * lia.
    + cbn [Queue_c.size]. rewrite Hsize'. exact Hcount.
    + intros b Hb1 Hb2. cbn [Queue_c.cell].
      rewrite !upd_other by assumption. reflexivity.
Qed.

Lemma represents_one_node (k : q_key_t) :
  Queue_c.represents
    {| Queue_c.cell := Queue_c.upd (fun _ => None) 1
                         (Some {| Queue_c.next := 0; Queue_c.key := k |});
       Queue_c.brk := 2; Queue_c.limit := 8 |}
    {| Queue_c.head := 1; Queue_c.tail := 1; Queue_c.size := 1 |}
    [(1%nat, k)].
Proof.
  constructor; cbn.
  - split; [reflexivity|]. split; [discriminate|]. exists 0%nat.
    split; reflexivity.
  - repeat constructor. intros [].
  - reflexivity.
  - reflexivity.
  - reflexivity.
  - intros a [<-|[]]. lia.
  - lia.
Qed.

Lemma Q_insert_refines_witness :
  exists m' q' l',
    Queue_c.Q_insert
      {| Queue_c.cell := Queue_c.upd (fun _ => None) 1
                           (Some {| Queue_c.next := 0;
                                    Queue_c.key := fd [0] [1] |});
         Queue_c.brk := 2; Queue_c.limit := 8 |}
      {| Queue_c.head := 1; Queue_c.tail := 1; Queue_c.size := 1 |}
      (fd [1] [2]) = Returns (m', q') /\
    l' = [(1%nat, fd [0] [1]); (2%nat, fd [1] [2])] /\
    Queue_c.represents m' q' l'.
Proof.
  destruct (Q_insert_refines _ _ _ (fd [1] [2])
              (represents_one_node (fd [0] [1])) eq_refl)
    as (m' & q' & l' & E & Hrep & El & _).
  exists m', q', l'. split; [exact E|]. split; [exact El|exact Hrep].
Defined.

Lemma Q_pop_cons (k : q_key_t) (l : Queue) :
  Z.of_nat (length (k :: l)) < 2 ^ 32 -> Q_pop (k :: l) = Ok (k, l).
Proof.
  intros Hlen. unfold Q_pop, Q_size, u32. rewrite Z.mod_small by lia.
  replace (0 <? Z.of_nat (length (k :: l))) with true
    by (symmetry; apply Z.ltb_lt; cbn [length]; lia).
  reflexivity.
Qed.

(** X24: [Q_pop] on the linked nodes is [Q_pop] on the list of keys.  On
    an empty queue the assertion fails; otherwise the key of the oldest
    node is returned and the node is freed; the other cells keep their
    content, and the remaining nodes are the queue of the remaining
    keys. *)
Theorem Q_pop_refines (m : Queue_c.memory) (q : Queue_c.Queue)
    (l : list (nat * q_key_t)) :
  Queue_c.represents m q l ->
  match Q_pop (Queue_c.keys l) with
  | Ok (k, rest) =>
      exists m' q',
        Queue_c.Q_pop m q = Returns (k, m', q') /\
        Queue_c.represents m' q' (tl l) /\
        Queue_c.keys (tl l) = rest /\
        Queue_c.cell m' (Queue_c.tail q) = None /\
        (forall b, b <> Queue_c.tail q ->
           Queue_c.cell m' b = Queue_c.cell m b)
  | _ => Queue_c.Q_pop m q = Aborts
  end.
Proof.
  intros [Hnodes Hnd Hhead Hsize Hrange Hbrk Hnull].
  destruct l as [|[a k] l].
  - cbn [Queue_c.keys map]. unfold Queue_c.Q_pop. rewrite Hsize.
    reflexivity.
  - cbn [Queue_c.keys map tl]. fold (Queue_c.keys l).
    rewrite Q_pop_cons
      by (cbn [length]; unfold Queue_c.keys; rewrite length_map;
          cbn [length] in Hsize; lia).
    unfold Queue_c.Q_pop.
    replace (Queue_c.size q >? 0) with true
      by (symmetry; apply Z.gtb_lt; rewrite Hsize; cbn [length]; lia).
    cbn [Queue_c.nodes] in Hnodes. destruct Hnodes as (Ht & Ha & nx & Hc & Hl).
    unfold Queue_c.load, Queue_c.free. rewrite Ht, Hc.
    cbn [and_then Queue_c.key Queue_c.next].
    apply Nat.eqb_neq in Ha. rewrite Ha. apply Nat.eqb_neq in Ha.
    cbn [and_then]. eexists _, _. split; [reflexivity|].
    inversion Hnd as [|? ? Hnotin Hnd']; subst.
    split; [|split; [reflexivity|split]].
    + constructor; cbn [Queue_c.tail Queue_c.head Queue_c.size Queue_c.brk].
      * apply (nodes_frame m); [|exact Hl]. intros b Hb. cbn [Queue_c.cell].
        apply upd_other. intros E. apply Hnotin. rewrite <- E. exact Hb.
      * exact Hnd'.
      * destruct l as [|[b kb] l].
        { cbn [Queue_c.nodes] in Hl. rewrite Hl. reflexivity. }
        assert (Hnx : nx <> Queue_c.NULL).
        { apply (nodes_not_null m nx _ Hl). discriminate. }
        apply Nat.eqb_neq in Hnx. rewrite Hnx. rewrite Hhead. reflexivity.
      * cbn [length] in Hsize. unfold u32. rewrite Z.mod_small by lia. lia.
      * unfold u32. apply Z.mod_pos_bound. lia.
      * intros b Hb. apply Hbrk. right. exact Hb.
      * exact Hnull.
    + cbn [Queue_c.cell]. apply upd_same.
    + intros b Hb. cbn [Queue_c.cell]. apply upd_other. exact Hb.
Qed.

Lemma Q_pop_refines_witness :
  exists m' q',
    Queue_c.Q_pop
      {| Queue_c.cell := Queue_c.upd (fun _ => None) 1
                           (Some {| Queue_c.next := 0;
                                    Queue_c.key := fd [0] [1] |});
         Queue_c.brk := 2; Queue_c.limit := 8 |}
      {| Queue_c.head := 1; Queue_c.tail := 1; Queue_c.size := 1 |}
    = Returns (fd [0] [1], m', q') /\
    Queue_c.represents m' q' [] /\ Queue_c.cell m' 1%nat = None.
Proof.
  destruct (Q_pop_refines _ _ _ (represents_one_node (fd [0] [1])))
    as (m' & q' & E & Hrep & _ & Hfreed & _).
  exists m', q'. split; [exact E|]. split; [exact Hrep|exact Hfreed].
Defined.

Lemma free_nodes_spec (l : list (nat * q_key_t)) :
  forall (m : Queue_c.memory) (p : nat),
  Queue_c.nodes m p l -> NoDup (Queue_c.addresses l) ->
  exists m', Queue_c.free_nodes (length l) m p = Returns m' /\
    Queue_c.brk m' = Queue_c.brk m /\
    (forall a, In a (Queue_c.addresses l) -> Queue_c.cell m' a = None) /\
    (forall b, ~ In b (Queue_c.addresses l) ->
       Queue_c.cell m' b = Queue_c.cell m b).
Proof.
  induction l as [|[a k] l IH]; intros m p Hnodes Hnd.
  - cbn [Queue_c.nodes] in Hnodes. subst p. exists m. split; [reflexivity|].
    split; [reflexivity|]. split; [intros a []|reflexivity].
  - cbn [Queue_c.nodes] in Hnodes. destruct Hnodes as (-> & Ha & nx & Hc & Hl).
    inversion Hnd as [|? ? Hnotin Hnd']; subst.
    cbn [length Queue_c.free_nodes]. unfold Queue_c.load, Queue_c.free.
    apply Nat.eqb_neq in Ha. rewrite Ha, Hc.
    cbn [and_then Queue_c.next].
    set (m1 := {| Queue_c.cell := Queue_c.upd (Queue_c.cell m) a None;
                  Queue_c.brk := Queue_c.brk m;
                  Queue_c.limit := Queue_c.limit m |}).
    assert (Hl1 : Queue_c.nodes m1 nx l).
    { apply (nodes_frame m); [|exact Hl]. intros b Hb. cbn [m1 Queue_c.cell].
      apply upd_other. intros E. apply Hnotin. rewrite <- E. exact Hb. }
    destruct (IH m1 nx Hl1 Hnd') as (m' & E & Hb' & Hfreed & Hother).
    exists m'. split; [exact E|]. split; [exact Hb'|]. split.
    + intros b [Eb|Hb]; [|apply Hfreed; exact Hb].
      cbn [fst] in Eb. rewrite <- Eb. rewrite (Hother a Hnotin). cbn [m1 Queue_c.cell]. apply upd_same.
    + intros b Hb. rewrite Hother by (intros Hin; apply Hb; right; exact Hin).
      cbn [m1 Queue_c.cell]. apply upd_other. intros Eb. apply Hb. left.
      symmetry. exact Eb.
Qed.

(** X25: [Q_free] returns after one turn of its loop for each key; it
    frees every node of the queue and nothing else, and leaves the queue
    as [Q_init] does. *)
Theorem Q_free_releases (m : Queue_c.memory) (q : Queue_c.Queue)
    (l : list (nat * q_key_t)) :
  Queue_c.represents m q l ->
  exists m',
    Queue_c.Q_free (length l) m q = Returns (m', Queue_c.Q_init) /\
    Queue_c.represents m' Queue_c.Q_init [] /\
    (forall a, In a (Queue_c.addresses l) -> Queue_c.cell m' a = None) /\
    (forall b, ~ In b (Queue_c.addresses l) ->
       Queue_c.cell m' b = Queue_c.cell m b).
Proof.
  intros [Hnodes Hnd Hhead Hsize Hrange Hbrk Hnull].
  destruct (free_nodes_spec l m (Queue_c.tail q) Hnodes Hnd)
    as (m' & E & Hb & Hfreed & Hother).
  exists m'. unfold Queue_c.Q_free. rewrite E. cbn [and_then].
  split; [reflexivity|]. split; [|split; assumption].
  constructor; cbn.
  - reflexivity.
  - constructor.
  - reflexivity.
  - reflexivity.
  - reflexivity.
  - intros a [].
  - rewrite Hb. exact Hnull.
Qed.

Lemma Q_free_releases_witness :
  exists m',
    Queue_c.Q_free 1
      {| Queue_c.cell := Queue_c.upd (fun _ => None) 1
                           (Some {| Queue_c.next := 0;
                                    Queue_c.key := fd [0] [1] |});
         Queue_c.brk := 2; Queue_c.limit := 8 |}
      {| Queue_c.head := 1; Queue_c.tail := 1; Queue_c.size := 1 |}
    = Returns (m', Queue_c.Q_init) /\
    Queue_c.cell m' 1%nat = None.
Proof.
  destruct (Q_free_releases _ _ _ (represents_one_node (fd [0] [1])))
    as (m' & E & _ & Hfreed & _).
  exists m'. split; [exact E|]. apply Hfreed. left. reflexivity.
Defined.

Lemma visit_nodes (l : list (nat * q_key_t)) :
  forall (m : Queue_c.memory) (p : nat),
  Queue_c.nodes m p l ->
  Queue_c.visit (length l) m p = Returns (Queue_c.keys l).
Proof.
  induction l as [|[a k] l IH]; intros m p Hnodes.
  - cbn [Queue_c.nodes] in Hnodes. subst p. reflexivity.
  - cbn [Queue_c.nodes] in Hnodes. destruct Hnodes as (-> & Ha & nx & Hc & Hl).
    cbn [length Queue_c.visit]. apply Nat.eqb_neq in Ha. rewrite Ha.
    unfold Queue_c.load. rewrite Hc. cbn [and_then Queue_c.next].
    rewrite (IH m nx Hl). reflexivity.
Qed.

(** X26: a loop that starts at [Q_iterator] and follows [next] up to
    [NULL] visits the keys of the queue from the oldest to the newest, in
    one turn for each key. *)
Theorem visit_keys (m : Queue_c.memory) (q : Queue_c.Queue)
    (l : list (nat * q_key_t)) :
  Queue_c.represents m q l ->
  Queue_c.visit (length l) m (Queue_c.Q_iterator q) =
  Returns (Q_iterator (Queue_c.keys l)).
Proof.
  intros Hrep. apply visit_nodes. apply (Queue_c.rep_nodes m q l Hrep).
Qed.

Lemma visit_keys_witness :
  Queue_c.visit 1
    {| Queue_c.cell := Queue_c.upd (fun _ => None) 1
                         (Some {| Queue_c.next := 0;
                                  Queue_c.key := fd [0] [1] |});
       Queue_c.brk := 2; Queue_c.limit := 8 |}
    1%nat = Returns [fd [0] [1]].
Proof.
  apply (visit_keys _ _ _ (represents_one_node (fd [0] [1]))).
Defined.

(** ** The hash map *)

Lemma slot_of_unfold (key e : Z) :
  (HashMap_h.hash key mod HashMap_h.HASH_MAP_SIZE + e)
  mod HashMap_h.HASH_MAP_SIZE = HashMap_h.slot_of key e.
Proof. unfold HashMap_h.slot_of. reflexivity. Qed.

Lemma slot_of_range (key e : Z) :
  0 <= HashMap_h.slot_of key e < HashMap_h.HASH_MAP_SIZE.
Proof.
  unfold HashMap_h.slot_of, HashMap_h.HASH_MAP_SIZE.
  apply Z.mod_pos_bound. lia.
Qed.

Lemma slot_of_in_bounds (key e : Z) :
  HashMap_h.in_bounds (HashMap_h.slot_of key e) = true.
Proof.
  pose proof (slot_of_range key e) as H. unfold HashMap_h.in_bounds.
  apply andb_true_iff. split; [apply Z.leb_le|apply Z.ltb_lt]; lia.
Qed.

Lemma slot_of_inj (key e1 e2 : Z) :
  0 <= e1 < HashMap_h.HASH_MAP_SIZE -> 0 <= e2 < HashMap_h.HASH_MAP_SIZE ->
  HashMap_h.slot_of key e1 = HashMap_h.slot_of key e2 -> e1 = e2.
Proof.
  unfold HashMap_h.slot_of, HashMap_h.HASH_MAP_SIZE. intros H1 H2 E.
  pose proof (Z.mod_pos_bound (HashMap_h.hash key) 257 ltac:(lia)) as Hh.
  revert E. generalize (HashMap_h.hash key mod 257) Hh. intros h0 Hh0 E.
  Z.div_mod_to_equations. lia.
Qed.

Lemma slot_of_first (key : Z) :
  HashMap_h.slot_of key 0 = HashMap_h.hash key mod HashMap_h.HASH_MAP_SIZE.
Proof.
  unfold HashMap_h.slot_of. rewrite Z.add_0_r. apply Z.mod_mod.
  unfold HashMap_h.HASH_MAP_SIZE. lia.
Qed.

Lemma get_slot (m : HashMap_h.array) (key e : Z) :
  HashMap_h.get m (HashMap_h.slot_of key e) =
  Returns (m (HashMap_h.slot_of key e)).
Proof. unfold HashMap_h.get. rewrite slot_of_in_bounds. reflexivity. Qed.

Lemma hash_upd_same (a : HashMap_h.array) (i v : Z) :
  HashMap_h.upd a i v i = v.
Proof. unfold HashMap_h.upd. rewrite Z.eqb_refl. reflexivity. Qed.

Lemma hash_upd_other (a : HashMap_h.array) (i j v : Z) :
  j <> i -> HashMap_h.upd a i v j = a j.
Proof.
  intros H. unfold HashMap_h.upd. apply Z.eqb_neq in H. rewrite H.
  reflexivity.
Qed.

Lemma init_loop_default (todo : nat) :
  forall (i : Z) (m : HashMap_h.array) (j : Z),
  i <= j < i + Z.of_nat todo ->
  HashMap_h.init_loop todo i m j = HashMap_h.HASH_DEFAULT_KEY.
Proof.
  induction todo as [|todo IH]; intros i m j Hj; [lia|].
  cbn [HashMap_h.init_loop]. destruct (Z.eq_dec j i) as [->|Hne].
  - clear IH Hj.
    assert (Hkeep : forall t i2 m2, i < i2 ->
              m2 i = HashMap_h.HASH_DEFAULT_KEY ->
              HashMap_h.init_loop t i2 m2 i = HashMap_h.HASH_DEFAULT_KEY).
    { induction t as [|t IHt]; intros i2 m2 Hlt Hm; [exact Hm|].
      cbn [HashMap_h.init_loop]. apply IHt; [lia|].
      rewrite hash_upd_other by lia. exact Hm. }
    apply Hkeep; [lia|]. apply hash_upd_same.
  - apply IH. lia.
Qed.

(** The [do ... while] of [HashMap_insert], entered with [i] slots behind
    it that hold other keys. *)
Lemma probe_spec (m : HashMap_h.array) (key : Z) (fuel : nat) :
  forall i,
  1 <= i <= 256 -> 257 - i <= Z.of_nat fuel ->
  (forall e, 0 <= e < i ->
     m (HashMap_h.slot_of key e) <> key /\
     m (HashMap_h.slot_of key e) <> HashMap_h.HASH_DEFAULT_KEY) ->
  exists r,
    HashMap_h.probe fuel m (HashMap_h.hash key mod HashMap_h.HASH_MAP_SIZE)
      key i = Returns r /\
    match r with
    | HashMap_h.Contained =>
        exists e, i <= e < 257 /\ m (HashMap_h.slot_of key e) = key
    | HashMap_h.Stopped i' j =>
        i < i' <= 257 /\ j = HashMap_h.slot_of key (i' - 1) /\
        m j <> key /\
        (forall e, 0 <= e < i' - 1 ->
           m (HashMap_h.slot_of key e) <> key /\
           m (HashMap_h.slot_of key e) <> HashMap_h.HASH_DEFAULT_KEY) /\
        (i' < 257 -> m j = HashMap_h.HASH_DEFAULT_KEY)
    end.
Proof.
  induction fuel as [|fuel IH]; intros i Hi Hfuel Hbefore; [lia|].
  cbn [HashMap_h.probe]. rewrite (slot_of_unfold key i), get_slot.
  cbn [and_then]. set (j := HashMap_h.slot_of key i).
  destruct (Z.eqb_spec (m j) key) as [Hkey|Hkey].
  - exists HashMap_h.Contained. split; [reflexivity|]. exists i.
    split; [lia|exact Hkey].
  - destruct (Z.eqb_spec (m j) HashMap_h.HASH_DEFAULT_KEY) as [Hdef|Hdef];
      cbn [negb andb].
    + exists (HashMap_h.Stopped (i + 1) j). split; [reflexivity|].
      split; [lia|]. replace (i + 1 - 1) with i by lia.
      split; [reflexivity|]. split; [exact Hkey|]. split; [exact Hbefore|].
      intros _. exact Hdef.
    + unfold HashMap_h.HASH_MAP_SIZE at 1.
      destruct (Z.ltb_spec (i + 1) 257) as [Hlt|Hge].
      * destruct (IH (i + 1) ltac:(lia) ltac:(lia)) as (r & E & Hr).
        { intros e He. destruct (Z.eq_dec e i) as [->|Hne].
          - split; assumption.
          - apply Hbefore. lia. }
        exists r. split; [exact E|]. destruct r as [|i' j'].
        { destruct Hr as (e & He & Hm). exists e. split; [lia|exact Hm]. }
        destruct Hr as (H1 & H2 & H3 & H4 & H5).
        split; [lia|]. split; [exact H2|]. split; [exact H3|].
        split; assumption.
      * exists (HashMap_h.Stopped (i + 1) j). split; [reflexivity|].
        split; [lia|]. replace (i + 1 - 1) with i by lia.
        split; [reflexivity|]. split; [exact Hkey|]. split; [exact Hbefore|].
        intros Hlt. lia.
Qed.

(** A key that is not met on the way to an empty slot, or in any slot, is
    not in the table. *)
Lemma table_absent (h : HashMap_h.HashMap) (ks : list Z) (key e0 : Z) :
  HashMap_h.table h ks -> key <> HashMap_h.HASH_DEFAULT_KEY -> 0 <= e0 ->
  (forall e, 0 <= e < e0 ->
     HashMap_h.map h (HashMap_h.slot_of key e) <> key) ->
  257 <= e0 \/
  HashMap_h.map h (HashMap_h.slot_of key e0) = HashMap_h.HASH_DEFAULT_KEY ->
  ~ In key ks.
Proof.
  intros Ht Hkey He0 Hbefore Hend Hin.
  apply In_nth_error in Hin. destruct Hin as (i & Hi).
  destruct (HashMap_h.t_index h ks Ht i key Hi) as (e & He & _ & Hm & Hchain).
  unfold HashMap_h.HASH_MAP_SIZE in He.
  destruct (Z.ltb_spec e e0) as [Hlt|Hge].
  - apply (Hbefore e ltac:(lia)). exact Hm.
  - destruct Hend as [Hend|Hend]; [lia|].
    destruct (Z.eq_dec e e0) as [->|Hne]; [congruence|].
    apply (Hchain e0 ltac:(lia)). exact Hend.
Qed.

(** The slots listed in [index] are different slots. *)
Lemma table_slots (h : HashMap_h.HashMap) (ks : list Z) :
  HashMap_h.table h ks ->
  let slots := map (fun i => HashMap_h.index h (Z.of_nat i))
                 (seq 0 (length ks)) in
  NoDup slots /\
  (forall j, In j slots ->
     0 <= j < 257 /\ HashMap_h.map h j <> HashMap_h.HASH_DEFAULT_KEY).
Proof.
  intros Ht slots.
  assert (Hks : map (HashMap_h.map h) slots = ks).
  { apply nth_error_ext. intros i. unfold slots. rewrite map_map.
    destruct (nth_error ks i) as [k|] eqn:Ek.
    - assert (Hi : (i < length ks)%nat).
      { apply nth_error_Some. congruence. }
      rewrite nth_error_map, nth_error_seq.
      replace (Nat.ltb i (length ks)) with true
        by (symmetry; apply Nat.ltb_lt; exact Hi).
      cbn [option_map Nat.add].
      destruct (HashMap_h.t_index h ks Ht i k Ek) as (e & _ & -> & -> & _).
      reflexivity.
    - apply nth_error_None. rewrite length_map, length_seq.
      apply nth_error_None. exact Ek. }
  split.
  - apply (NoDup_map_inv (HashMap_h.map h)). rewrite Hks.
    apply (HashMap_h.t_nodup h ks Ht).
  - intros j Hj. unfold slots in Hj. apply in_map_iff in Hj.
    destruct Hj as (i & <- & Hi). apply in_seq in Hi.
    destruct (nth_error ks i) as [k|] eqn:Ek.
    2:{ apply nth_error_None in Ek. lia. }
    destruct (HashMap_h.t_index h ks Ht i k Ek) as (e & _ & -> & Hm & _).
    split; [apply slot_of_range|]. rewrite Hm.
    apply (HashMap_h.t_valid h ks Ht). apply (nth_error_In _ _ Ek).
Qed.

(** With an empty slot there are at most 256 keys. *)
Lemma table_room (h : HashMap_h.HashMap) (ks : list Z) (j : Z) :
  HashMap_h.table h ks -> 0 <= j < 257 ->
  HashMap_h.map h j = HashMap_h.HASH_DEFAULT_KEY ->
  Z.of_nat (length ks) <= 256.
Proof.
  intros Ht Hj Hfree. destruct (table_slots h ks Ht) as [Hnd Hslots].
  set (slots := map _ _) in *.
  assert (Hlen : Z.of_nat (length (j :: slots)) <= 257).
  { apply NoDup_bounded_length; [lia| |].
    - constructor; [|exact Hnd]. intros Hin.
      apply (proj2 (Hslots j Hin)). exact Hfree.
    - intros x [<-|Hx]; [exact Hj|]. apply (Hslots x Hx). }
  cbn [length] in Hlen. unfold slots in Hlen.
  rewrite length_map, length_seq in Hlen. lia.
Qed.

(** With 256 slots taken there are at least 256 keys. *)
Lemma table_crowded (h : HashMap_h.HashMap) (ks : list Z) (key : Z) :
  HashMap_h.table h ks ->
  (forall e, 0 <= e < 256 ->
     HashMap_h.map h (HashMap_h.slot_of key e) <> HashMap_h.HASH_DEFAULT_KEY) ->
  256 <= Z.of_nat (length ks).
Proof.
  intros Ht Htaken.
  set (taken := map (fun e => HashMap_h.slot_of key (Z.of_nat e)) (seq 0 256)).
  assert (Hnd : NoDup taken).
  { apply NoDup_map_NoDup_ForallPairs; [|apply seq_NoDup].
    intros a b Ha Hb E. apply in_seq in Ha. apply in_seq in Hb.
    apply slot_of_inj in E; unfold HashMap_h.HASH_MAP_SIZE; lia. }
  set (slots := map (fun i => HashMap_h.index h (Z.of_nat i))
                  (seq 0 (length ks))).
  assert (Hincl : incl taken slots).
  { intros j Hj. apply in_map_iff in Hj. destruct Hj as (e & <- & He).
    apply in_seq in He.
    destruct (HashMap_h.t_taken h ks Ht _ (slot_of_range key (Z.of_nat e))
                (Htaken (Z.of_nat e) ltac:(lia))) as (i & Hi & Hidx).
    apply in_map_iff. exists i. split; [exact Hidx|]. apply in_seq.
    assert (i < length ks)%nat by (apply nth_error_Some; congruence). lia. }
  pose proof (NoDup_incl_length Hnd Hincl) as Hlen.
  unfold taken, slots in Hlen. rewrite !length_map, !length_seq in Hlen. lia.
Qed.

(** A new key stored in the first empty slot on its way. *)
Lemma store_spec (h : HashMap_h.HashMap) (ks : list Z) (key e0 : Z) :
  HashMap_h.table h ks -> key <> HashMap_h.HASH_DEFAULT_KEY ->
  ~ In key ks -> 0 <= e0 < 257 ->
  HashMap_h.map h (HashMap_h.slot_of key e0) = HashMap_h.HASH_DEFAULT_KEY ->
  (forall e, 0 <= e < e0 ->
     HashMap_h.map h (HashMap_h.slot_of key e) <> HashMap_h.HASH_DEFAULT_KEY) ->
  exists h',
    HashMap_h.store h (HashMap_h.slot_of key e0) key = Returns (h', 0) /\
    HashMap_h.table h' (ks ++ [key]).
Proof.
  intros Ht Hkey Hnew He0 Hfree Hchain.
  pose proof (table_room h ks _ Ht (slot_of_range key e0) Hfree) as Hroom.
  pose proof (HashMap_h.t_size h ks Ht) as Hsize.
  set (jn := HashMap_h.slot_of key e0) in *.
  unfold HashMap_h.store, HashMap_h.put. unfold jn at 1.
  rewrite slot_of_in_bounds. fold jn. cbn [and_then].
  replace (HashMap_h.in_bounds (HashMap_h.size h)) with true.
  2:{ symmetry. unfold HashMap_h.in_bounds, HashMap_h.HASH_MAP_SIZE.
      apply andb_true_iff. split; [apply Z.leb_le|apply Z.ltb_lt]; lia. }
  cbn [and_then]. eexists. split; [reflexivity|].
  assert (Hold : forall j, HashMap_h.map h j <> HashMap_h.HASH_DEFAULT_KEY ->
            HashMap_h.upd (HashMap_h.map h) jn key j = HashMap_h.map h j).
  { intros j Hj. apply hash_upd_other. intros ->. apply Hj. exact Hfree. }
  assert (Hstays : forall j,
            HashMap_h.map h j <> HashMap_h.HASH_DEFAULT_KEY ->
            HashMap_h.upd (HashMap_h.map h) jn key j <>
            HashMap_h.HASH_DEFAULT_KEY).
  { intros j Hj. rewrite Hold; assumption. }
  constructor; cbn [HashMap_h.map HashMap_h.index HashMap_h.size].
  - rewrite length_app. cbn [length]. lia.
  - apply NoDup_app; [apply (HashMap_h.t_nodup h ks Ht)| |].
    + repeat constructor. intros [].
    + intros k Hk [<-|[]]. apply Hnew. exact Hk.
  - intros k Hk. apply in_app_iff in Hk. destruct Hk as [Hk|[<-|[]]].
    + apply (HashMap_h.t_valid h ks Ht k Hk).
    + exact Hkey.
  - intros i k Hi. destruct (Nat.ltb_spec i (length ks)) as [Hlt|Hge].
    + rewrite nth_error_app1 in Hi by exact Hlt.
      destruct (HashMap_h.t_index h ks Ht i k Hi) as (e & He & Hidx & Hm & Hc).
      assert (Hk : k <> HashMap_h.HASH_DEFAULT_KEY).
      { apply (HashMap_h.t_valid h ks Ht). apply (nth_error_In _ _ Hi). }
      exists e. split; [exact He|]. split; [|split].
      * rewrite hash_upd_other by lia. exact Hidx.
      * rewrite Hold; [exact Hm|]. rewrite Hm. exact Hk.
      * intros e' He'. apply Hstays. apply Hc. exact He'.
    + rewrite nth_error_app2 in Hi by exact Hge.
      destruct (i - length ks)%nat as [|d] eqn:Ed.
      2:{ cbn in Hi. destruct d; discriminate. }
      cbn in Hi. inversion Hi; subst k.
      assert (Ei : Z.of_nat i = HashMap_h.size h) by lia.
      exists e0. unfold HashMap_h.HASH_MAP_SIZE. split; [lia|]. fold jn.
      split; [rewrite Ei; apply hash_upd_same|].
      split; [apply hash_upd_same|].
      intros e' He'. apply Hstays. apply Hchain. exact He'.
  - intros j Hj Htaken. destruct (Z.eq_dec j jn) as [->|Hne].
    + exists (length ks). rewrite hash_upd_same.
      split; [rewrite nth_error_app2, Nat.sub_diag by lia; reflexivity|].
      rewrite <- Hsize. apply hash_upd_same.
    + rewrite hash_upd_other in Htaken |- * by exact Hne.
      destruct (HashMap_h.t_taken h ks Ht j Hj Htaken) as (i & Hi & Hidx).
      assert (i < length ks)%nat by (apply nth_error_Some; congruence).
      exists i. split; [rewrite nth_error_app1 by lia; exact Hi|].
      rewrite hash_upd_other by lia. exact Hidx.
Qed.

Lemma table_In (h : HashMap_h.HashMap) (ks : list Z) (key e : Z) :
  HashMap_h.table h ks -> key <> HashMap_h.HASH_DEFAULT_KEY ->
  HashMap_h.map h (HashMap_h.slot_of key e) = key -> In key ks.
Proof.
  intros Ht Hkey Hm.
  destruct (HashMap_h.t_taken h ks Ht _ (slot_of_range key e)) as (i & Hi & _).
  - rewrite Hm. exact Hkey.
  - rewrite Hm in Hi. apply (nth_error_In _ _ Hi).
Qed.

(** The ways through [HashMap_insert]. *)
Lemma HashMap_insert_table (h : HashMap_h.HashMap) (ks : list Z) (key : Z) :
  HashMap_h.table h ks -> HashMap_h.valid_key key ->
  exists h' code,
    HashMap_h.HashMap_insert h key = Returns (h', code) /\
    (In key ks -> code = 0 /\ h' = h) /\
    (~ In key ks ->
       code = 0 /\ HashMap_h.table h' (ks ++ [key]) \/
       code = -1 /\ h' = h) /\
    (code = -1 <->
     ~ In key ks /\
     forall e, 0 <= e < 256 ->
       HashMap_h.map h (HashMap_h.slot_of key e) <>
       HashMap_h.HASH_DEFAULT_KEY).
Proof.
  intros Ht [_ Hkey]. unfold HashMap_h.HashMap_insert.
  rewrite <- slot_of_first, get_slot. cbn [and_then].
  destruct (Z.eqb_spec (HashMap_h.map h (HashMap_h.slot_of key 0))
              HashMap_h.HASH_DEFAULT_KEY) as [Hfree|Htaken].
  - (* the first slot is empty *)
    assert (Hnew : ~ In key ks).
    { apply (table_absent h ks key 0 Ht Hkey (Z.le_refl 0)); [lia|].
      right. exact Hfree. }
    destruct (store_spec h ks key 0 Ht Hkey Hnew ltac:(lia) Hfree ltac:(lia))
      as (h' & E & Ht').
    exists h', 0. split; [exact E|]. split; [contradiction|].
    split; [left; split; [reflexivity|exact Ht']|].
    split; [discriminate|]. intros [_ Hall]. exfalso.
    apply (Hall 0 ltac:(lia)). exact Hfree.
  - destruct (Z.eqb_spec (HashMap_h.map h (HashMap_h.slot_of key 0)) key)
      as [Hhere|Hother]; cbn [negb].
    + (* the key is in its first slot *)
      assert (Hin : In key ks) by (apply (table_In h ks key 0); assumption).
      exists h, 0. split; [reflexivity|]. split; [auto|].
      split; [contradiction|]. split; [discriminate|].
      intros [Hnew _]. contradiction.
    + rewrite slot_of_first.
      destruct (probe_spec (HashMap_h.map h) key 257 1 ltac:(lia) ltac:(lia))
        as (r & E & Hr).
      { intros e He. replace e with 0 by lia. split; assumption. }
      change (Z.to_nat HashMap_h.HASH_MAP_SIZE) with 257%nat.
      rewrite E. cbn [and_then]. destruct r as [|i' j].
      * (* the key is met *)
        destruct Hr as (e & He & Hm).
        assert (Hin : In key ks) by (apply (table_In h ks key e); assumption).
        exists h, 0. split; [reflexivity|]. split; [auto|].
        split; [contradiction|]. split; [discriminate|].
        intros [Hnew _]. contradiction.
      * destruct Hr as (Hi' & -> & Hj & Hbefore & Hend).
        unfold HashMap_h.HASH_MAP_SIZE at 1.
        destruct (Z.ltb_spec i' 257) as [Hlt|Hge].
        { (* an empty slot is met *)
          assert (Hnew : ~ In key ks).
          { apply (table_absent h ks key (i' - 1) Ht Hkey); [lia| |].
            - intros e He. apply (Hbefore e He).
            - right. apply Hend. exact Hlt. }
          destruct (store_spec h ks key (i' - 1) Ht Hkey Hnew ltac:(lia)
                      (Hend Hlt)) as (h' & E' & Ht').
          { intros e He. apply (Hbefore e He). }
          exists h', 0. split; [exact E'|]. split; [contradiction|].
          split; [left; split; [reflexivity|exact Ht']|].
          split; [discriminate|]. intros [_ Hall]. exfalso.
          apply (Hall (i' - 1) ltac:(lia)). apply Hend. exact Hlt. }
        (* all 257 slots were looked at *)
        assert (Ei : i' = 257) by lia. subst i'.
        assert (Hnew : ~ In key ks).
        { apply (table_absent h ks key 257 Ht Hkey); [lia| |left; lia].
          intros e He. destruct (Z.eq_dec e 256) as [->|Hne]; [exact Hj|].
          apply (Hbefore e). lia. }
        exists h, (-1). split; [reflexivity|]. split; [contradiction|].
        split; [right; split; reflexivity|].
        split; [|reflexivity]. intros _. split; [exact Hnew|].
        intros e He. apply (Hbefore e). lia.
Qed.

Lemma table_init (h : HashMap_h.HashMap) :
  HashMap_h.table (HashMap_h.HashMap_init h) [].
Proof.
  constructor; cbn [HashMap_h.HashMap_init HashMap_h.map HashMap_h.size length].
  - reflexivity.
  - constructor.
  - intros k [].
  - intros i k Hi. destruct i; discriminate.
  - intros j Hj Htaken. exfalso. apply Htaken.
    apply init_loop_default. unfold HashMap_h.HASH_MAP_SIZE in *. lia.
Qed.

Lemma table_get (h : HashMap_h.HashMap) (ks : list Z) (i : nat) (k : Z) :
  HashMap_h.table h ks -> Z.of_nat (length ks) <= 257 ->
  nth_error ks i = Some k ->
  HashMap_h.HashMap_get h (Z.of_nat i) = Returns k.
Proof.
  intros Ht Hlen Hi.
  assert (Hlt : (i < length ks)%nat) by (apply nth_error_Some; congruence).
  destruct (HashMap_h.t_index h ks Ht i k Hi) as (e & _ & Hidx & Hm & _).
  unfold HashMap_h.HashMap_get. unfold HashMap_h.get at 1.
  replace (HashMap_h.in_bounds (Z.of_nat i)) with true.
  2:{ symmetry. unfold HashMap_h.in_bounds, HashMap_h.HASH_MAP_SIZE.
      apply andb_true_iff. split; [apply Z.leb_le|apply Z.ltb_lt]; lia. }
  cbn [and_then]. rewrite Hidx, get_slot, Hm. reflexivity.
Qed.

Lemma table_length (h : HashMap_h.HashMap) (ks : list Z) :
  HashMap_h.table h ks -> Z.of_nat (length ks) <= 257.
Proof.
  intros Ht. destruct (table_slots h ks Ht) as [Hnd Hslots].
  set (slots := map _ _) in *.
  assert (Hlen : Z.of_nat (length slots) <= 257).
  { apply NoDup_bounded_length; [lia|exact Hnd|].
    intros x Hx. apply (Hslots x Hx). }
  unfold slots in Hlen. rewrite length_map, length_seq in Hlen. exact Hlen.
Qed.

(** X27: [HashMap_insert] on a map that holds the keys [ks] in the order
    of their insertion.  A key that is in the map leaves it as it is; a
    new key is stored, counted and becomes the last key that [HashMap_get]
    gives, unless the 256 slots from its first slot on are taken: exactly
    then -1 is returned, for a full map, whether the one slot left is
    taken or empty.  No access is outside the arrays. *)
Theorem HashMap_insert_spec (h : HashMap_h.HashMap) (ks : list Z) (key : Z) :
  HashMap_h.table h ks -> HashMap_h.valid_key key ->
  exists h' code,
    HashMap_h.HashMap_insert h key = Returns (h', code) /\
    (In key ks -> code = 0 /\ h' = h) /\
    (~ In key ks ->
       code = 0 /\ HashMap_h.table h' (ks ++ [key]) /\
       HashMap_h.HashMap_size h' = HashMap_h.HashMap_size h + 1 /\
       HashMap_h.HashMap_get h' (HashMap_h.HashMap_size h) = Returns key \/
       code = -1 /\ h' = h) /\
    (code = -1 <->
     ~ In key ks /\
     forall e, 0 <= e < 256 ->
       HashMap_h.map h (HashMap_h.slot_of key e) <>
       HashMap_h.HASH_DEFAULT_KEY).
Proof.
  intros Ht Hkey.
  destruct (HashMap_insert_table h ks key Ht Hkey)
    as (h' & code & E & Hold & Hnew & Hfull).
  exists h', code. split; [exact E|]. split; [exact Hold|].
  split; [|exact Hfull]. intros Hk.
  destruct (Hnew Hk) as [[Hcode Ht']|Hfail]; [left|right; exact Hfail].
  split; [exact Hcode|]. split; [exact Ht'|].
  pose proof (HashMap_h.t_size h ks Ht) as Hsize.
  pose proof (HashMap_h.t_size h' _ Ht') as Hsize'.
  unfold HashMap_h.HashMap_size. rewrite length_app in Hsize'.
  cbn [length] in Hsize'. split; [lia|]. rewrite Hsize.
  apply (table_get h' (ks ++ [key]) (length ks) key Ht').
  - apply (table_length h' _ Ht').
  - rewrite nth_error_app2, Nat.sub_diag by lia. reflexivity.
Qed.

Lemma HashMap_insert_spec_witness :
  exists h' code,
    HashMap_h.HashMap_insert
      (HashMap_h.HashMap_init (HashMap_h.mkHashMap (fun _ => 0) (fun _ => 0) 0))
      5 = Returns (h', code) /\
    code = 0 /\ HashMap_h.table h' [5].
Proof.
  destruct (HashMap_insert_spec
              (HashMap_h.HashMap_init
                 (HashMap_h.mkHashMap (fun _ => 0) (fun _ => 0) 0)) [] 5
              (table_init _))
    as (h' & code & E & _ & Hnew & _).
  - split; [lia|discriminate].
  - exists h', code. split; [exact E|].
    destruct (Hnew (fun H => H)) as [(-> & Ht & _)|[-> ->]].
    + split; [reflexivity|exact Ht].
    + exfalso. vm_compute in E. discriminate.
Defined.

(** The loop of [HashMap_find], entered with [i] slots behind it that hold
    other keys. *)
Lemma find_loop_spec (h : HashMap_h.HashMap) (ks : list Z) (key : Z)
    (fuel : nat) :
  HashMap_h.table h ks -> key <> HashMap_h.HASH_DEFAULT_KEY ->
  forall i,
  0 <= i <= 257 -> 257 - i < Z.of_nat fuel ->
  (forall e, 0 <= e < i ->
     HashMap_h.map h (HashMap_h.slot_of key e) <> key) ->
  exists b,
    HashMap_h.find_loop fuel (HashMap_h.map h)
      (HashMap_h.hash key mod HashMap_h.HASH_MAP_SIZE) key i = Returns b /\
    (b = true <-> In key ks).
Proof.
  intros Ht Hkey. induction fuel as [|fuel IH]; intros i Hi Hfuel Hbefore;
    [lia|].
  cbn [HashMap_h.find_loop]. unfold HashMap_h.HASH_MAP_SIZE at 1.
  destruct (Z.ltb_spec i 257) as [Hlt|Hge].
  - rewrite (slot_of_unfold key i), get_slot. cbn [and_then].
    destruct (Z.eqb_spec (HashMap_h.map h (HashMap_h.slot_of key i))
                HashMap_h.HASH_DEFAULT_KEY) as [Hfree|Htaken].
    + exists false. split; [reflexivity|]. split; [discriminate|].
      intros Hin. exfalso.
      apply (table_absent h ks key i Ht Hkey ltac:(lia) Hbefore
               (or_intror Hfree) Hin).
    + destruct (Z.eqb_spec (HashMap_h.map h (HashMap_h.slot_of key i)) key)
        as [Hhere|Hother].
      * exists true. split; [reflexivity|]. split; [|reflexivity].
        intros _. apply (table_In h ks key i); assumption.
      * apply IH; [lia|lia|]. intros e He.
        destruct (Z.eq_dec e i) as [->|Hne]; [exact Hother|].
        apply Hbefore. lia.
  - exists false. split; [reflexivity|]. split; [discriminate|].
    intros Hin. exfalso.
    apply (table_absent h ks key i Ht Hkey ltac:(lia) Hbefore
             (or_introl Hge) Hin).
Qed.

(** X28: [HashMap_find] answers whether the key was inserted, also on a
    map without an empty slot, where its loop ends after one look at each
    of the 257 slots. *)
Theorem HashMap_find_spec (h : HashMap_h.HashMap) (ks : list Z) (key : Z) :
  HashMap_h.table h ks -> HashMap_h.valid_key key ->
  exists b, HashMap_h.HashMap_find h key = Returns b /\
            (b = true <-> In key ks).
Proof.
  intros Ht [_ Hkey]. unfold HashMap_h.HashMap_find.
  apply (find_loop_spec h ks key _ Ht Hkey 0); [lia| |intros e He; lia].
  change (Z.to_nat HashMap_h.HASH_MAP_SIZE) with 257%nat. lia.
Qed.

Lemma HashMap_find_spec_witness :
  exists b,
    HashMap_h.HashMap_find
      (HashMap_h.HashMap_init (HashMap_h.mkHashMap (fun _ => 0) (fun _ => 0) 0))
      5 = Returns b /\
    (b = true <-> In 5 []).
Proof.
  apply (HashMap_find_spec _ [] 5 (table_init _)).
  split; [lia|discriminate].
Defined.

Lemma first_occurrences_members (l seen : list Z) (k : Z) :
  In k seen \/ In k l <->
  In k seen \/ In k (HashMap_h.first_occurrences seen l).
Proof.
  revert seen. induction l as [|a l IH]; intros seen; [reflexivity|].
  cbn [HashMap_h.first_occurrences In].
  destruct (existsb (Z.eqb a) seen) eqn:Ea.
  - apply existsb_exists in Ea. destruct Ea as (x & Hx & Ex).
    apply Z.eqb_eq in Ex. subst x. rewrite <- (IH seen). split.
    + intros [H|[<-|H]]; auto.
    + intros [H|H]; auto.
  - specialize (IH (seen ++ [a])). rewrite in_app_iff in IH.
    destruct IH as [IH1 IH2]. cbn [In]. split.
    + intros [H|[H|H]].
      * left. exact H.
      * right. left. exact H.
      * destruct (IH1 (or_intror H)) as [[H1|[H1|[]]]|H1]; auto.
    + intros [H|[H|H]].
      * left. exact H.
      * right. left. exact H.
      * destruct (IH2 (or_intror H)) as [[H1|[H1|[]]]|H1]; auto.
Qed.

(** Insertion of a list of keys into a map with room for them. *)
Lemma insert_all_spec (l : list Z) :
  forall (h : HashMap_h.HashMap) (ks : list Z),
  HashMap_h.table h ks -> Forall HashMap_h.valid_key l ->
  Z.of_nat (length (ks ++ HashMap_h.first_occurrences ks l)) <= 256 ->
  exists h',
    HashMap_h.insert_all h l = Returns h' /\
    HashMap_h.table h' (ks ++ HashMap_h.first_occurrences ks l).
Proof.
  induction l as [|key l IH]; intros h ks Ht Hl Hroom.
  - exists h. split; [reflexivity|]. cbn [HashMap_h.first_occurrences].
    rewrite app_nil_r. exact Ht.
  - inversion Hl as [|? ? Hkey Hl']; subst.
    cbn [HashMap_h.insert_all HashMap_h.first_occurrences] in *.
    destruct (HashMap_insert_table h ks key Ht Hkey)
      as (h' & code & E & Hold & Hnew & Hfull).
    rewrite E. cbn [and_then fst].
    destruct (existsb (Z.eqb key) ks) eqn:Eseen.
    + apply existsb_exists in Eseen. destruct Eseen as (k & Hk & Ek).
      apply Z.eqb_eq in Ek. subst k. destruct (Hold Hk) as [_ ->].
      apply IH; assumption.
    + assert (Hk : ~ In key ks).
      { intros Hk. assert (existsb (Z.eqb key) ks = true); [|congruence].
        apply existsb_exists. exists key. split; [exact Hk|apply Z.eqb_refl]. }
      rewrite length_app in Hroom. cbn [length] in Hroom.
      destruct (Hnew Hk) as [[_ Ht']|[Hcode _]].
      * replace (ks ++ key :: HashMap_h.first_occurrences (ks ++ [key]) l)
          with ((ks ++ [key]) ++ HashMap_h.first_occurrences (ks ++ [key]) l)
          by (rewrite <- app_assoc; reflexivity).
        apply IH; [exact Ht'|exact Hl'|].
        rewrite !length_app. cbn [length]. lia.
      * exfalso. apply Hfull in Hcode. destruct Hcode as [_ Hall].
        pose proof (table_crowded h ks key Ht Hall). lia.
Qed.

(** X29: a map filled from [HashMap_init] with a list of keys that has at
    most 256 different keys: every insertion returns 0, [HashMap_size] is
    the number of different keys, and [HashMap_get] gives them without
    repetition in the order of their first occurrence; what [index] held
    before [HashMap_init] does not matter. *)
Theorem HashMap_keys_in_order (h : HashMap_h.HashMap) (l : list Z) :
  Forall HashMap_h.valid_key l ->
  Z.of_nat (length (HashMap_h.first_occurrences [] l)) <= 256 ->
  exists h',
    HashMap_h.insert_all (HashMap_h.HashMap_init h) l = Returns h' /\
    HashMap_h.HashMap_size h' =
    Z.of_nat (length (HashMap_h.first_occurrences [] l)) /\
    NoDup (HashMap_h.first_occurrences [] l) /\
    (forall k, In k l <-> In k (HashMap_h.first_occurrences [] l)) /\
    forall i k, nth_error (HashMap_h.first_occurrences [] l) i = Some k ->
      HashMap_h.HashMap_get h' (Z.of_nat i) = Returns k.
Proof.
  intros Hl Hroom.
  destruct (insert_all_spec l (HashMap_h.HashMap_init h) [] (table_init h) Hl
              Hroom) as (h' & E & Ht).
  cbn [app] in Ht. exists h'. split; [exact E|].
  split; [apply (HashMap_h.t_size h' _ Ht)|].
  split; [apply (HashMap_h.t_nodup h' _ Ht)|]. split.
  - intros k. pose proof (first_occurrences_members l [] k) as H.
    cbn [In] in H. tauto.
  - intros i k Hi. apply (table_get h' _ i k Ht); [lia|exact Hi].
Qed.

Lemma HashMap_keys_in_order_witness :
  exists h',
    HashMap_h.insert_all
      (HashMap_h.HashMap_init (HashMap_h.mkHashMap (fun _ => 0) (fun _ => 0) 0))
      [2; 0; 2; 1; 0] = Returns h' /\
    HashMap_h.HashMap_size h' = 3 /\
    HashMap_h.HashMap_get h' 0 = Returns 2 /\
    HashMap_h.HashMap_get h' 1 = Returns 0 /\
    HashMap_h.HashMap_get h' 2 = Returns 1.
Proof.
  destruct (HashMap_keys_in_order
              (HashMap_h.mkHashMap (fun _ => 0) (fun _ => 0) 0) [2; 0; 2; 1; 0])
    as (h' & E & Hsize & _ & _ & Hget).
  - repeat constructor; try lia; discriminate.
  - cbn. lia.
  - exists h'. split; [exact E|]. split; [exact Hsize|].
    split; [apply (Hget 0%nat 2); reflexivity|].
    split; [apply (Hget 1%nat 0); reflexivity|].
    apply (Hget 2%nat 1); reflexivity.
Defined.

(** The keys 0 to 255 leave slot 66 empty; the first slot of the key 326
    is slot 67, and its insertion returns -1. *)
Example HashMap_full_with_empty_slot :
  match HashMap_h.insert_all
          (HashMap_h.HashMap_init
             (HashMap_h.mkHashMap (fun _ => 0) (fun _ => 0) 0))
          (map Z.of_nat (seq 0 256)) with
  | Returns h =>
      (HashMap_h.HashMap_size h, HashMap_h.map h 66,
       HashMap_h.slot_of 326 0,
       match HashMap_h.HashMap_insert h 326 with
       | Returns (_, code) => code
       | _ => 0
       end)
  | _ => (0, 0, 0, 0)
  end = (256, HashMap_h.HASH_DEFAULT_KEY, 67, -1).
Proof. vm_compute. reflexivity. Qed.

(** ** The graph of the dependencies *)

Lemma DArray_set_length (arr : Graph_h.DArray) (i : nat)
    (ll : Graph_h.LinkedList) :
  length (Graph_h.DArray_set arr i ll) = length arr.
Proof.
  revert i. induction arr as [|l0 arr IH]; intros i; [reflexivity|].
  destruct i; cbn [Graph_h.DArray_set length]; [reflexivity|].
  rewrite IH. reflexivity.
Qed.

Lemma DArray_set_same (arr : Graph_h.DArray) (i : nat)
    (ll d : Graph_h.LinkedList) :
  (i < length arr)%nat -> nth i (Graph_h.DArray_set arr i ll) d = ll.
Proof.
  revert i. induction arr as [|l0 arr IH]; intros i Hi;
    [cbn [length] in Hi; lia|].
  destruct i; cbn [Graph_h.DArray_set nth]; [reflexivity|].
  apply IH. cbn [length] in Hi. lia.
Qed.

Lemma DArray_set_other (arr : Graph_h.DArray) (i j : nat)
    (ll d : Graph_h.LinkedList) :
  j <> i -> nth j (Graph_h.DArray_set arr i ll) d = nth j arr d.
Proof.
  revert i j. induction arr as [|l0 arr IH]; intros i j Hij; [reflexivity|].
  destruct i, j; cbn [Graph_h.DArray_set nth]; try reflexivity;
    [congruence|].
  apply IH. congruence.
Qed.

Lemma neighbors_add_edge (g : Graph_h.Graph) (i j : Z) :
  Graph_h.n_vert g = Z.of_nat (length (Graph_h.adjList g)) ->
  0 <= i < Graph_h.n_vert g -> j < Graph_h.n_vert g ->
  exists g',
    Graph_h.Graph_add_edge g i j = Returns g' /\
    Graph_h.n_vert g' = Graph_h.n_vert g /\
    length (Graph_h.adjList g') = length (Graph_h.adjList g) /\
    neighbors g' i = neighbors g i ++ [j] /\
    forall v, 0 <= v -> v <> i -> neighbors g' v = neighbors g v.
Proof.
  intros Hsize Hi Hj. unfold Graph_h.Graph_add_edge, Graph_h.DArray_get,
    Graph_h.DArray_size.
  rewrite <- Hsize, Z.eqb_refl.
  replace (i <? Graph_h.n_vert g) with true by (symmetry; apply Z.ltb_lt; lia).
  replace (j <? Graph_h.n_vert g) with true by (symmetry; apply Z.ltb_lt; lia).
  replace (0 <=? i) with true by (symmetry; apply Z.leb_le; lia).
  cbn [andb and_then]. eexists. split; [reflexivity|].
  cbn [Graph_h.n_vert Graph_h.adjList]. split; [reflexivity|].
  split; [apply DArray_set_length|]. unfold neighbors.
  cbn [Graph_h.adjList]. split.
  - rewrite DArray_set_same by lia. reflexivity.
  - intros v Hv Hne. apply DArray_set_other. lia.
Qed.

Lemma add_edges_from_spec (index : Z) (others : list Z) :
  forall g,
  Graph_h.n_vert g = Z.of_nat (length (Graph_h.adjList g)) ->
  0 <= index < Graph_h.n_vert g ->
  (forall w, In w others -> w < Graph_h.n_vert g) ->
  exists g',
    add_edges_from g index others = Returns g' /\
    Graph_h.n_vert g' = Graph_h.n_vert g /\
    length (Graph_h.adjList g') = length (Graph_h.adjList g) /\
    neighbors g' index = neighbors g index ++ others /\
    forall v, 0 <= v -> v <> index -> neighbors g' v = neighbors g v.
Proof.
  induction others as [|w others IH]; intros g Hsize Hi Hw.
  - exists g. split; [reflexivity|]. split; [reflexivity|].
    split; [reflexivity|]. split; [rewrite app_nil_r; reflexivity|].
    reflexivity.
  - cbn [add_edges_from].
    destruct (neighbors_add_edge g index w Hsize Hi (Hw w (or_introl eq_refl)))
      as (g1 & E1 & Hn1 & Hl1 & Hat1 & Hother1).
    rewrite E1. cbn [and_then].
    destruct (IH g1) as (g' & E & Hn & Hl & Hat & Hother).
    + rewrite Hn1, Hl1. exact Hsize.
    + rewrite Hn1. exact Hi.
    + intros w' Hw'. rewrite Hn1. apply Hw. right. exact Hw'.
    + exists g'. split; [exact E|]. split; [congruence|].
      split; [congruence|]. split.
      * rewrite Hat, Hat1, <- app_assoc. reflexivity.
      * intros v Hv Hne. rewrite Hother, Hother1 by assumption. reflexivity.
Qed.

Lemma add_edges_to_spec (new_index : Z) (others : list Z) :
  forall g,
  Graph_h.n_vert g = Z.of_nat (length (Graph_h.adjList g)) ->
  new_index < Graph_h.n_vert g -> NoDup others ->
  (forall a, In a others -> 0 <= a < Graph_h.n_vert g) ->
  exists g',
    add_edges_to g others new_index = Returns g' /\
    Graph_h.n_vert g' = Graph_h.n_vert g /\
    length (Graph_h.adjList g') = length (Graph_h.adjList g) /\
    (forall a, In a others -> neighbors g' a = neighbors g a ++ [new_index]) /\
    forall v, 0 <= v -> ~ In v others -> neighbors g' v = neighbors g v.
Proof.
  induction others as [|a others IH]; intros g Hsize Hx Hnd Ha.
  - exists g. split; [reflexivity|]. split; [reflexivity|].
    split; [reflexivity|]. split; [intros a []|reflexivity].
  - cbn [add_edges_to]. inversion Hnd as [|? ? Hnotin Hnd']; subst.
    destruct (neighbors_add_edge g a new_index Hsize
                (Ha a (or_introl eq_refl)) Hx)
      as (g1 & E1 & Hn1 & Hl1 & Hat1 & Hother1).
    rewrite E1. cbn [and_then].
    destruct (IH g1) as (g' & E & Hn & Hl & Hin & Hout).
    + rewrite Hn1, Hl1. exact Hsize.
    + rewrite Hn1. exact Hx.
    + exact Hnd'.
    + intros b Hb. rewrite Hn1. apply Ha. right. exact Hb.
    + exists g'. split; [exact E|]. split; [congruence|].
      split; [congruence|]. split.
      * intros b [<-|Hb].
        { rewrite Hout; [exact Hat1| |exact Hnotin].
          apply (Ha a (or_introl eq_refl)). }
        rewrite (Hin b Hb). rewrite Hother1; [reflexivity| |].
        { apply (Ha b (or_intror Hb)). }
        intros ->. contradiction.
      * intros v Hv Hnot. rewrite Hout.
        { apply Hother1; [exact Hv|]. intros ->. apply Hnot. left.
          reflexivity. }
        { exact Hv. }
        intros Hin'. apply Hnot. right. exact Hin'.
Qed.

(** The loops over a set are the loops over the list of its members. *)
Lemma edges_from_print_loop (index : Z) (todo : nat) :
  forall (g : Graph_h.Graph) (s : Set_t),
  Func_dep_graph.edges_from todo g index s =
  (g' <~ add_edges_from g index (snd (print_loop todo s)) ;;
   Returns (g', fst (print_loop todo s))).
Proof.
  induction todo as [|todo IH]; intros g s; [reflexivity|].
  cbn [Func_dep_graph.edges_from print_loop].
  destruct (Set_next_pos s) as [s1 pos].
  destruct (print_loop todo s1) as [s2 line] eqn:El. cbn [fst snd].
  cbn [add_edges_from].
  destruct (Graph_h.Graph_add_edge g index pos) as [g1| | |];
    cbn [and_then]; try reflexivity.
  rewrite IH, El. reflexivity.
Qed.

Lemma edges_to_print_loop (new_index : Z) (todo : nat) :
  forall (g : Graph_h.Graph) (s : Set_t),
  Func_dep_graph.edges_to todo g s new_index =
  (g' <~ add_edges_to g (snd (print_loop todo s)) new_index ;;
   Returns (g', fst (print_loop todo s))).
Proof.
  induction todo as [|todo IH]; intros g s; [reflexivity|].
  cbn [Func_dep_graph.edges_to print_loop].
  destruct (Set_next_pos s) as [s1 pos].
  destruct (print_loop todo s1) as [s2 line] eqn:El. cbn [fst snd].
  cbn [add_edges_to].
  destruct (Graph_h.Graph_add_edge g pos new_index) as [g1| | |];
    cbn [and_then]; try reflexivity.
  rewrite IH, El. reflexivity.
Qed.

Lemma members_NoDup (s : Set_t) : NoDup (members s).
Proof.
  unfold members.
  pose proof (members_from_sorted (Z.to_nat MAX_ATTRIBS) 0 (set s)) as H.
  induction H as [|a l _ IH Hall]; constructor; [|exact IH].
  intros Hin. rewrite Forall_forall in Hall. specialize (Hall a Hin). lia.
Qed.

Lemma members_below (n : Z) (s : Set_t) (a : Z) :
  0 <= n <= MAX_ATTRIBS -> wf n s -> In a (members s) -> 0 <= a < n.
Proof.
  intros Hn Hwf Ha. apply members_In in Ha. destruct Ha as [Ha Hb].
  split; [lia|].
  apply (bit_below_n n Hn (set s) a (proj1 Hwf)); [lia|exact Hb].
Qed.

Lemma members_bit (n : Z) (s : Set_t) (a : Z) :
  0 <= n <= MAX_ATTRIBS -> wf n s -> 0 <= a ->
  Z.testbit (set s) a = true -> In a (members s).
Proof.
  intros Hn Hwf Ha Hb. apply members_In. split; [|exact Hb].
  pose proof (bit_below_n n Hn (set s) a (proj1 Hwf) Ha Hb). lia.
Qed.

(** The one member of a set of size 1. *)
Lemma single_member (n : Z) (s : Set_t) :
  0 <= n <= MAX_ATTRIBS -> wf n s -> idle s -> size s = 1 ->
  exists a, members s = [a] /\ Set_next_pos s = (s, a).
Proof.
  intros Hn Hwf Hidle Hsize.
  pose proof (wf_MAX n Hn s Hwf) as HwfM.
  pose proof (members_length s HwfM) as Hlen.
  pose proof (Set_print_members s HwfM Hidle) as Hp.
  unfold Set_print in Hp. rewrite Hsize in Hp, Hlen.
  change (Z.to_nat 1) with 1%nat in Hp. cbn [print_loop] in Hp.
  destruct (Set_next_pos s) as [s1 pos]. inversion Hp as [[Hs Hm]].
  exists pos. split; reflexivity.
Qed.

Lemma neighbors_overflow (g : Graph_h.Graph) (v : Z) :
  Graph_h.n_vert g = Z.of_nat (length (Graph_h.adjList g)) ->
  Graph_h.n_vert g <= v -> neighbors g v = [].
Proof.
  intros Hsize Hv. unfold neighbors. apply nth_overflow. lia.
Qed.

Lemma graph_of_init (n : Z) :
  0 <= n ->
  graph_of n [] (Graph_h.Graph_init n) (repeat 1 (Z.to_nat n)) [].
Proof.
  intros Hn.
  assert (Hnb : forall v, neighbors (Graph_h.Graph_init n) v = []).
  { intros v. unfold neighbors, Graph_h.Graph_init, Graph_h.DArray_init_reserve.
    cbn [Graph_h.adjList].
    destruct (Nat.ltb_spec (Z.to_nat v) (Z.to_nat n)) as [Hlt|Hge].
    - apply nth_repeat_lt. exact Hlt.
    - apply nth_overflow. rewrite repeat_length. exact Hge. }
  constructor; cbn [Graph_h.Graph_init Graph_h.n_vert Graph_h.adjList length].
  - unfold Graph_h.DArray_init_reserve. rewrite repeat_length. lia.
  - unfold Graph_h.DArray_init_reserve. rewrite !repeat_length. reflexivity.
  - lia.
  - intros a Ha. apply nth_repeat_lt. lia.
  - intros x k [].
  - intros x Hx. lia.
  - intros k [].
  - intros v w _ Hw. rewrite Hnb in Hw. destruct Hw.
  - intros a w _ Hw. rewrite Hnb in Hw. destruct Hw.
  - intros k a r [].
  - intros x k a [].
Qed.

(** A dependency with one attribute on the left. *)
Lemma add_dependency_single (n : Z) (qs : list q_key_t) (g : Graph_h.Graph)
    (thresh : list Z) (aux : list (Z * q_key_t)) (key : q_key_t) :
  1 <= n <= MAX_ATTRIBS -> graph_of n qs g thresh aux -> graph_dep n key ->
  size (lhs key) = 1 ->
  exists g',
    Func_dep_graph.add_dependency g thresh key = Returns (g', thresh) /\
    graph_of n (qs ++ [key]) g' thresh aux.
Proof.
  intros Hn Hg [(Lwf & Lidle & Lpos) (Rwf & Ridle & Rpos)] Hone.
  assert (Hn' : 0 <= n <= MAX_ATTRIBS) by lia.
  destruct (single_member n (lhs key) Hn' Lwf Lidle Hone) as (a0 & Hm & Hnext).
  assert (Ha0 : 0 <= a0 < n).
  { apply (members_below n (lhs key) a0 Hn' Lwf). rewrite Hm. left.
    reflexivity. }
  pose proof (go_size _ _ _ _ _ Hg) as Hsize.
  pose proof (go_count _ _ _ _ _ Hg) as Hcount.
  unfold Func_dep_graph.add_dependency. rewrite Hone.
  replace (1 >? 0) with true by reflexivity.
  replace (size (rhs key) >? 0) with true
    by (symmetry; apply Z.gtb_lt; lia).
  replace (1 >? 1) with false by reflexivity. cbn [andb]. rewrite Hnext.
  rewrite edges_from_print_loop.
  pose proof (Set_print_members (rhs key) (wf_MAX n Hn' _ Rwf) Ridle) as Hp.
  unfold Set_print in Hp. rewrite Hp. cbn [fst snd].
  destruct (add_edges_from_spec a0 (members (rhs key)) g Hsize ltac:(lia))
    as (g' & E & Hn1 & Hl1 & Hat & Hother).
  { intros w Hw. pose proof (members_below n _ w Hn' Rwf Hw). lia. }
  rewrite E. cbn [and_then fst]. exists g'. split; [reflexivity|].
  assert (Hsub : forall v w, In w (neighbors g v) -> In w (neighbors g' v)).
  { intros v w Hw. destruct (Z.eq_dec (Z.max v 0) a0) as [Ev|Ev].
    - assert (Hv : neighbors g' v = neighbors g' a0).
      { unfold neighbors. f_equal. lia. }
      assert (Hv' : neighbors g v = neighbors g a0).
      { unfold neighbors. f_equal. lia. }
      rewrite Hv, Hat. apply in_app_iff. left. rewrite <- Hv'. exact Hw.
    - assert (Hv : neighbors g' v = neighbors g' (Z.max v 0)).
      { unfold neighbors. f_equal. lia. }
      assert (Hv' : neighbors g v = neighbors g (Z.max v 0)).
      { unfold neighbors. f_equal. lia. }
      rewrite Hv, Hother by lia. rewrite <- Hv'. exact Hw. }
  constructor.
  - rewrite Hn1, Hl1. exact Hsize.
  - rewrite Hl1. apply (go_thresh _ _ _ _ _ Hg).
  - rewrite Hn1. exact Hcount.
  - apply (go_attrib _ _ _ _ _ Hg).
  - intros x k Hx.
    destruct (go_aux _ _ _ _ _ Hg x k Hx) as (H1 & H2 & H3 & H4 & H5).
    rewrite Hn1. split; [exact H1|]. split; [apply in_app_iff; left; exact H2|].
    split; [exact H3|]. split; [exact H4|].
    rewrite Hother by lia. exact H5.
  - intros x Hx. rewrite Hn1 in Hx. apply (go_all _ _ _ _ _ Hg x Hx).
  - intros k Hk Hsz. apply in_app_iff in Hk. destruct Hk as [Hk|[<-|[]]].
    + apply (go_cover _ _ _ _ _ Hg k Hk Hsz).
    + lia.
  - intros v w Hv Hw. rewrite Hn1. destruct (Z.eq_dec v a0) as [->|Hne].
    + rewrite Hat in Hw. apply in_app_iff in Hw. destruct Hw as [Hw|Hw].
      * apply (go_below _ _ _ _ _ Hg a0 w Hv Hw).
      * pose proof (members_below n _ w Hn' Rwf Hw). lia.
    + rewrite Hother in Hw by assumption.
      apply (go_below _ _ _ _ _ Hg v w Hv Hw).
  - intros a w Ha Hw. destruct (Z.eq_dec a a0) as [->|Hne].
    + rewrite Hat in Hw. apply in_app_iff in Hw. destruct Hw as [Hw|Hw].
      * destruct (go_edges _ _ _ _ _ Hg a0 w Ha Hw)
          as [(Hw' & k & Hk & Hrest)|Hr]; [left|right; exact Hr].
        split; [exact Hw'|]. exists k. split; [|exact Hrest].
        apply in_app_iff. left. exact Hk.
      * left. split; [apply (members_below n _ w Hn' Rwf Hw)|].
        exists key. split; [apply in_app_iff; right; left; reflexivity|].
        split; [exact Hone|]. split.
        { apply (members_In (lhs key) a0). rewrite Hm. left. reflexivity. }
        { apply (members_In (rhs key) w). exact Hw. }
    + rewrite Hother in Hw by lia.
      destruct (go_edges _ _ _ _ _ Hg a w Ha Hw)
        as [(Hw' & k & Hk & Hrest)|Hr]; [left|right; exact Hr].
      split; [exact Hw'|]. exists k. split; [|exact Hrest].
      apply in_app_iff. left. exact Hk.
  - intros k a r Hk Hsz Ha Hr Hba Hbr. apply in_app_iff in Hk.
    destruct Hk as [Hk|[<-|[]]].
    + apply Hsub. apply (go_single _ _ _ _ _ Hg k a r); assumption.
    + assert (Ea : a = a0).
      { pose proof (members_bit n _ a Hn' Lwf ltac:(lia) Hba) as Hin.
        rewrite Hm in Hin. destruct Hin as [<-|[]]. reflexivity. }
      subst a. rewrite Hat. apply in_app_iff. right.
      apply (members_bit n _ r Hn' Rwf Hr Hbr).
  - intros x k a Hx Ha.
    destruct (go_aux _ _ _ _ _ Hg x k Hx) as (Hxr & _).
    destruct (Z.eq_dec a a0) as [->|Hne].
    + rewrite Hat, count_occ_app.
      rewrite (go_multi _ _ _ _ _ Hg x k a0 Hx Ha).
      rewrite (proj1 (count_occ_not_In Z.eq_dec (members (rhs key)) x)).
      * apply Nat.add_0_r.
      * intros Hin. pose proof (members_below n _ x Hn' Rwf Hin). lia.
    + rewrite Hother by lia. apply (go_multi _ _ _ _ _ Hg x k a Hx Ha).
Qed.

(** A dependency with more than one attribute on the left. *)
Lemma add_dependency_multi (n : Z) (qs : list q_key_t) (g : Graph_h.Graph)
    (thresh : list Z) (aux : list (Z * q_key_t)) (key : q_key_t) :
  1 <= n <= MAX_ATTRIBS -> graph_of n qs g thresh aux -> graph_dep n key ->
  1 < size (lhs key) -> Graph_h.n_vert g + 1 < 2 ^ 32 ->
  exists g',
    Func_dep_graph.add_dependency g thresh key =
    Returns (g', thresh ++ [size (lhs key)]) /\
    graph_of n (qs ++ [key]) g' (thresh ++ [size (lhs key)])
      (aux ++ [(Graph_h.n_vert g, key)]).
Proof.
  intros Hn Hg [(Lwf & Lidle & Lpos) (Rwf & Ridle & Rpos)] Hmany Hroom.
  assert (Hn' : 0 <= n <= MAX_ATTRIBS) by lia.
  pose proof (go_size _ _ _ _ _ Hg) as Hsize.
  pose proof (go_count _ _ _ _ _ Hg) as Hcount.
  pose proof (go_thresh _ _ _ _ _ Hg) as Hthresh.
  set (x := Graph_h.n_vert g) in *.
  unfold Func_dep_graph.add_dependency.
  replace (size (lhs key) >? 0) with true by (symmetry; apply Z.gtb_lt; lia).
  replace (size (rhs key) >? 0) with true by (symmetry; apply Z.gtb_lt; lia).
  replace (size (lhs key) >? 1) with true by (symmetry; apply Z.gtb_lt; lia).
  cbn [andb]. unfold Graph_h.Graph_new_vertex. fold x.
  set (g1 := {| Graph_h.adjList := Graph_h.DArray_insert (Graph_h.adjList g);
                Graph_h.n_vert := u32 (x + 1);
                Graph_h.n_edge := Graph_h.n_edge g |}).
  assert (Hx1 : Graph_h.n_vert g1 = x + 1).
  { cbn [g1 Graph_h.n_vert]. unfold u32. apply Z.mod_small. lia. }
  assert (Hsize1 : Graph_h.n_vert g1 =
                   Z.of_nat (length (Graph_h.adjList g1))).
  { rewrite Hx1. cbn [g1 Graph_h.adjList]. unfold Graph_h.DArray_insert.
    rewrite length_app. cbn [length]. lia. }
  assert (Hnb1 : forall v, 0 <= v -> neighbors g1 v = neighbors g v).
  { intros v Hv. unfold neighbors. cbn [g1 Graph_h.adjList].
    unfold Graph_h.DArray_insert.
    destruct (Z.ltb_spec v x) as [Hlt|Hge].
    - apply app_nth1. lia.
    - rewrite (nth_overflow (Graph_h.adjList g)) by lia.
      destruct (Z.eq_dec v x) as [->|Hne].
      + rewrite app_nth2 by lia.
        replace (Z.to_nat x - length (Graph_h.adjList g))%nat with 0%nat
          by lia.
        reflexivity.
      + apply nth_overflow. rewrite length_app. cbn [length]. lia. }
  rewrite edges_to_print_loop.
  pose proof (Set_print_members (lhs key) (wf_MAX n Hn' _ Lwf) Lidle) as Hpl.
  unfold Set_print in Hpl. rewrite Hpl. cbn [fst snd].
  destruct (add_edges_to_spec x (members (lhs key)) g1 Hsize1 ltac:(lia)
              (members_NoDup _))
    as (g2 & E2 & Hn2 & Hl2 & Hin2 & Hout2).
  { intros a Ha. pose proof (members_below n _ a Hn' Lwf Ha). lia. }
  rewrite E2. cbn [and_then fst]. rewrite edges_from_print_loop.
  pose proof (Set_print_members (rhs key) (wf_MAX n Hn' _ Rwf) Ridle) as Hpr.
  unfold Set_print in Hpr. rewrite Hpr. cbn [fst snd].
  destruct (add_edges_from_spec x (members (rhs key)) g2)
    as (g3 & E3 & Hn3 & Hl3 & Hat3 & Hother3).
  { rewrite Hn2, Hl2. exact Hsize1. }
  { lia. }
  { intros w Hw. pose proof (members_below n _ w Hn' Rwf Hw). lia. }
  rewrite E3. cbn [and_then fst]. exists g3. split; [reflexivity|].
  assert (Hx3 : Graph_h.n_vert g3 = x + 1) by lia.
  assert (Hnb_x : neighbors g3 x = members (rhs key)).
  { rewrite Hat3, Hout2, Hnb1 by
      (try lia; intros Hin; pose proof (members_below n _ x Hn' Lwf Hin); lia).
    rewrite (neighbors_overflow g x Hsize) by (fold x; lia). reflexivity. }
  assert (Hnb_in : forall a, In a (members (lhs key)) ->
            neighbors g3 a = neighbors g a ++ [x]).
  { intros a Ha. pose proof (members_below n _ a Hn' Lwf Ha).
    rewrite Hother3, (Hin2 a Ha), Hnb1 by lia. reflexivity. }
  assert (Hnb_out : forall v, 0 <= v -> v <> x ->
            ~ In v (members (lhs key)) -> neighbors g3 v = neighbors g v).
  { intros v Hv Hne Hnot. rewrite Hother3, Hout2, Hnb1 by assumption.
    reflexivity. }
  assert (Hold : forall w, In w (neighbors g3 x) -> 0 <= w < n).
  { intros w Hw. rewrite Hnb_x in Hw.
    apply (members_below n _ w Hn' Rwf Hw). }
  assert (Hnth : forall v, 0 <= v < x ->
            nth (Z.to_nat v) (thresh ++ [size (lhs key)]) 0 =
            nth (Z.to_nat v) thresh 0).
  { intros v Hv. apply app_nth1. lia. }
  constructor.
  - rewrite Hn3, Hl3, Hn2, Hl2. exact Hsize1.
  - rewrite Hl3, Hl2. cbn [g1 Graph_h.adjList]. unfold Graph_h.DArray_insert.
    rewrite !length_app. cbn [length]. lia.
  - rewrite Hx3, length_app. cbn [length]. lia.
  - intros a Ha. rewrite Hnth by lia. apply (go_attrib _ _ _ _ _ Hg a Ha).
  - intros x' k Hin. apply in_app_iff in Hin. destruct Hin as [Hin|[E|[]]].
    + destruct (go_aux _ _ _ _ _ Hg x' k Hin) as (H1 & H2 & H3 & H4 & H5).
      fold x in H1. split; [lia|]. split; [apply in_app_iff; left; exact H2|].
      split; [exact H3|]. split; [rewrite Hnth by lia; exact H4|].
      rewrite Hnb_out; [exact H5|lia|lia|].
      intros Hm. pose proof (members_below n _ x' Hn' Lwf Hm). lia.
    + inversion E; subst x' k. split; [lia|].
      split; [apply in_app_iff; right; left; reflexivity|].
      split; [exact Hmany|]. split; [|exact Hnb_x].
      rewrite app_nth2 by lia.
      replace (Z.to_nat x - length thresh)%nat with 0%nat by lia.
      reflexivity.
  - intros v Hv. rewrite Hx3 in Hv. destruct (Z.eq_dec v x) as [->|Hne].
    + exists key. apply in_app_iff. right. left. reflexivity.
    + destruct (go_all _ _ _ _ _ Hg v) as (k & Hk); [fold x; lia|].
      exists k. apply in_app_iff. left. exact Hk.
  - intros k Hk Hsz. apply in_app_iff in Hk. destruct Hk as [Hk|[<-|[]]].
    + destruct (go_cover _ _ _ _ _ Hg k Hk Hsz) as (x' & Hx').
      exists x'. apply in_app_iff. left. exact Hx'.
    + exists x. apply in_app_iff. right. left. reflexivity.
  - intros v w Hv Hw. rewrite Hx3. destruct (Z.eq_dec v x) as [->|Hne].
    + pose proof (Hold w Hw). lia.
    + destruct (in_dec Z.eq_dec v (members (lhs key))) as [Hm|Hm].
      * rewrite (Hnb_in v Hm) in Hw. apply in_app_iff in Hw.
        destruct Hw as [Hw|[<-|[]]]; [|lia].
        pose proof (go_below _ _ _ _ _ Hg v w Hv Hw) as Hb. fold x in Hb. lia.
      * rewrite (Hnb_out v Hv Hne Hm) in Hw.
        pose proof (go_below _ _ _ _ _ Hg v w Hv Hw) as Hb. fold x in Hb. lia.
  - intros a w Ha Hw.
    assert (Hmono : (0 <= w < n /\
              exists k, In k qs /\ size (lhs k) = 1 /\
                        Z.testbit (set (lhs k)) a = true /\
                        Z.testbit (set (rhs k)) w = true) \/
             (exists k, In (w, k) aux /\ Z.testbit (set (lhs k)) a = true) ->
            (0 <= w < n /\
              exists k, In k (qs ++ [key]) /\ size (lhs k) = 1 /\
                        Z.testbit (set (lhs k)) a = true /\
                        Z.testbit (set (rhs k)) w = true) \/
             (exists k, In (w, k) (aux ++ [(x, key)]) /\
                        Z.testbit (set (lhs k)) a = true)).
    { intros [(Hw' & k & Hk & Hrest)|(k & Hk & Hrest)]; [left|right].
      - split; [exact Hw'|]. exists k. split; [|exact Hrest].
        apply in_app_iff. left. exact Hk.
      - exists k. split; [|exact Hrest]. apply in_app_iff. left. exact Hk. }
    destruct (in_dec Z.eq_dec a (members (lhs key))) as [Hm|Hm].
    + rewrite (Hnb_in a Hm) in Hw. apply in_app_iff in Hw.
      destruct Hw as [Hw|[<-|[]]].
      * apply Hmono. apply (go_edges _ _ _ _ _ Hg a w Ha Hw).
      * right. exists key. split; [apply in_app_iff; right; left; reflexivity|].
        apply (members_In (lhs key) a). exact Hm.
    + rewrite (Hnb_out a ltac:(lia) ltac:(fold x in Hcount; lia) Hm) in Hw.
      apply Hmono. apply (go_edges _ _ _ _ _ Hg a w Ha Hw).
  - intros k a r Hk Hsz Ha Hr Hba Hbr. apply in_app_iff in Hk.
    destruct Hk as [Hk|[<-|[]]]; [|lia].
    pose proof (go_single _ _ _ _ _ Hg k a r Hk Hsz Ha Hr Hba Hbr) as Hin.
    destruct (in_dec Z.eq_dec a (members (lhs key))) as [Hm|Hm].
    + rewrite (Hnb_in a Hm). apply in_app_iff. left. exact Hin.
    + rewrite (Hnb_out a ltac:(lia) ltac:(fold x in Hcount; lia) Hm).
      exact Hin.
  - intros x' k a Hin Ha.
    assert (Hfresh : count_occ Z.eq_dec (neighbors g a) x = 0%nat).
    { apply count_occ_not_In. intros Hw.
      pose proof (go_below _ _ _ _ _ Hg a x ltac:(lia) Hw) as Hb.
      fold x in Hb. lia. }
    apply in_app_iff in Hin. destruct Hin as [Hin|[E|[]]].
    + destruct (go_aux _ _ _ _ _ Hg x' k Hin) as (Hxr & _). fold x in Hxr.
      destruct (in_dec Z.eq_dec a (members (lhs key))) as [Hm|Hm].
      * rewrite (Hnb_in a Hm), count_occ_app. cbn [count_occ].
        destruct (Z.eq_dec x x') as [E|_]; [lia|].
        rewrite Nat.add_0_r. apply (go_multi _ _ _ _ _ Hg x' k a Hin Ha).
      * rewrite (Hnb_out a ltac:(lia) ltac:(lia) Hm).
        apply (go_multi _ _ _ _ _ Hg x' k a Hin Ha).
    + inversion E; subst x' k.
      destruct (in_dec Z.eq_dec a (members (lhs key))) as [Hm|Hm].
      * rewrite (Hnb_in a Hm), count_occ_app, Hfresh. cbn [count_occ].
        destruct (Z.eq_dec x x) as [_|Hne]; [|congruence].
        rewrite (proj2 (proj1 (members_In (lhs key) a) Hm)). reflexivity.
      * rewrite (Hnb_out a ltac:(lia) ltac:(lia) Hm), Hfresh.
        destruct (Z.testbit (set (lhs key)) a) eqn:Hb; [|reflexivity].
        exfalso. apply Hm. apply (members_bit n _ a Hn' Lwf ltac:(lia) Hb).
Qed.

(** The graph after the lines of the file. *)
Lemma add_dependencies_spec (n : Z) (q : list q_key_t) :
  1 <= n <= MAX_ATTRIBS ->
  forall (qs : list q_key_t) (g : Graph_h.Graph) (thresh : list Z)
         (aux : list (Z * q_key_t)),
  graph_of n qs g thresh aux ->
  (forall k, In k q -> graph_dep n k) ->
  Graph_h.n_vert g + Z.of_nat (length q) < 2 ^ 32 ->
  exists g' thresh' aux',
    Func_dep_graph.add_dependencies g thresh q = Returns (g', thresh') /\
    graph_of n (qs ++ q) g' thresh' aux' /\
    length aux' = (length aux + length (new_vertices q))%nat.
Proof.
  intros Hn. induction q as [|key q IH]; intros qs g thresh aux Hg Hq Hroom.
  - exists g, thresh, aux. split; [reflexivity|]. rewrite app_nil_r.
    split; [exact Hg|]. cbn [new_vertices filter length]. lia.
  - cbn [Func_dep_graph.add_dependencies]. cbn [length] in Hroom.
    pose proof (Hq key (or_introl eq_refl)) as Hkey.
    assert (Hq' : forall k, In k q -> graph_dep n k).
    { intros k Hk. apply Hq. right. exact Hk. }
    replace (qs ++ key :: q) with ((qs ++ [key]) ++ q)
      by (rewrite <- app_assoc; reflexivity).
    destruct (Z.eq_dec (size (lhs key)) 1) as [Hone|Hmany].
    + destruct (add_dependency_single n qs g thresh aux key Hn Hg Hkey Hone)
        as (g1 & E1 & Hg1).
      rewrite E1. cbn [and_then fst snd]. unfold new_vertices.
      cbn [filter]. rewrite Hone. change (1 <? 1) with false. cbv iota.
      fold (new_vertices q).
      apply (IH _ g1 thresh aux Hg1 Hq').
      rewrite (go_count _ _ _ _ _ Hg1), <- (go_count _ _ _ _ _ Hg). lia.
    + assert (Hsz : 1 < size (lhs key)).
      { destruct Hkey as [(_ & _ & Hpos) _]. lia. }
      destruct (add_dependency_multi n qs g thresh aux key Hn Hg Hkey Hsz)
        as (g1 & E1 & Hg1); [lia|].
      rewrite E1. cbn [and_then fst snd]. unfold new_vertices.
      cbn [filter].
      replace (1 <? size (lhs key)) with true
        by (symmetry; apply Z.ltb_lt; exact Hsz).
      fold (new_vertices q).
      destruct (IH _ g1 _ _ Hg1 Hq') as (g' & thresh' & aux' & E & Hg' & Hlen).
      { rewrite (go_count _ _ _ _ _ Hg1), length_app. cbn [length].
        rewrite (go_count _ _ _ _ _ Hg) in Hroom. lia. }
      exists g', thresh', aux'. split; [exact E|]. split; [exact Hg'|].
      rewrite Hlen, length_app. cbn [length]. lia.
Qed.

(** ** The search in the graph *)

Lemma count_in_snoc (k : q_key_t) (done : list Z) (v : Z) :
  count_in k (done ++ [v]) =
  count_in k done + (if Z.testbit (set (lhs k)) v then 1 else 0).
Proof.
  unfold count_in. rewrite filter_app, length_app. cbn [filter].
  destruct (Z.testbit (set (lhs k)) v); cbn [length]; lia.
Qed.

Lemma count_in_filter (n : Z) (k : q_key_t) (done : list Z) :
  0 <= n <= MAX_ATTRIBS -> wf n (lhs k) ->
  NoDup done -> (forall v, In v done -> 0 <= v) ->
  NoDup (filter (fun v => Z.testbit (set (lhs k)) v) done) /\
  incl (filter (fun v => Z.testbit (set (lhs k)) v) done) (members (lhs k)).
Proof.
  intros Hn Hwf Hnd Hpos. split; [apply NoDup_filter; exact Hnd|].
  intros v Hv. apply filter_In in Hv. destruct Hv as [Hv Hb].
  apply (members_bit n _ v Hn Hwf (Hpos v Hv) Hb).
Qed.

(** All attributes of the left-hand side are done exactly when their
    number is reached. *)
Lemma count_in_full (n : Z) (k : q_key_t) (done : list Z) :
  0 <= n <= MAX_ATTRIBS -> wf n (lhs k) ->
  NoDup done -> (forall v, In v done -> 0 <= v) ->
  count_in k done <= size (lhs k) /\
  (count_in k done = size (lhs k) <->
   forall a, In a (members (lhs k)) -> In a done).
Proof.
  intros Hn Hwf Hnd Hpos.
  destruct (count_in_filter n k done Hn Hwf Hnd Hpos) as [Hnd' Hincl].
  pose proof (members_length (lhs k) (wf_MAX n Hn _ Hwf)) as Hlen.
  pose proof (NoDup_incl_length Hnd' Hincl) as Hle.
  unfold count_in. split; [lia|]. split.
  - intros E a Ha.
    assert (Hrev : incl (members (lhs k))
                     (filter (fun v => Z.testbit (set (lhs k)) v) done)).
    { apply (NoDup_length_incl Hnd'); [lia|exact Hincl]. }
    apply Hrev in Ha. apply filter_In in Ha. apply Ha.
  - intros Hall.
    assert (Hrev : incl (members (lhs k))
                     (filter (fun v => Z.testbit (set (lhs k)) v) done)).
    { intros a Ha. apply filter_In. split; [apply Hall; exact Ha|].
      apply (members_In (lhs k) a). exact Ha. }
    pose proof (NoDup_incl_length (members_NoDup (lhs k)) Hrev). lia.
Qed.

Lemma write_cell (b : Graph_h.buffer) (i v : Z) :
  0 <= i < Graph_h.len b ->
  Graph_h.write b i v =
  Returns {| Graph_h.len := Graph_h.len b;
             Graph_h.cell := fun j => if j =? i then v else Graph_h.cell b j |}.
Proof.
  intros Hi. unfold Graph_h.write.
  replace (0 <=? i) with true by (symmetry; apply Z.leb_le; lia).
  replace (i <? Graph_h.len b) with true by (symmetry; apply Z.ltb_lt; lia).
  reflexivity.
Qed.

Lemma read_cell (b : Graph_h.buffer) (i : Z) :
  0 <= i < Graph_h.len b -> Graph_h.read b i = Returns (Graph_h.cell b i).
Proof.
  intros Hi. unfold Graph_h.read.
  replace (0 <=? i) with true by (symmetry; apply Z.leb_le; lia).
  replace (i <? Graph_h.len b) with true by (symmetry; apply Z.ltb_lt; lia).
  reflexivity.
Qed.

Lemma NoDup_snoc (l : list Z) (w : Z) :
  NoDup l -> ~ In w l -> NoDup (l ++ [w]).
Proof.
  intros Hnd Hw. apply NoDup_app; [exact Hnd|repeat constructor; intros []|].
  intros x Hx [<-|[]]. apply Hw. exact Hx.
Qed.

Section Search.

Variable n : Z.
Variable qs : list q_key_t.
Variable g : Graph_h.Graph.
Variable thresh : list Z.
Variable aux : list (Z * q_key_t).
Variable C : Z.

Hypothesis n_attribs_range : 1 <= n <= MAX_ATTRIBS.
Hypothesis g_graph : graph_of n qs g thresh aux.
Hypothesis qs_valid : forall k, In k qs -> graph_dep n k.
Hypothesis C_closed : closed qs C.
Hypothesis g_small : Graph_h.n_vert g < 2 ^ 32 - 1.

Local Notation "'vt'" := (Graph_h.LL_dump_to_array thresh).
Local Notation "'inv'" := (search_inv n g (Graph_h.LL_dump_to_array thresh) aux C).

Lemma n_universe : 0 <= n <= MAX_ATTRIBS.
Proof. lia. Qed.

Lemma vt_len : Graph_h.len vt = Graph_h.n_vert g.
Proof.
  cbn [Graph_h.LL_dump_to_array Graph_h.len]. unfold Graph_h.LL_size.
  rewrite (go_thresh _ _ _ _ _ g_graph), (go_size _ _ _ _ _ g_graph).
  reflexivity.
Qed.

Lemma n_le_vert : n <= Graph_h.n_vert g.
Proof. rewrite (go_count _ _ _ _ _ g_graph). lia. Qed.

Lemma vt_attrib (a : Z) : 0 <= a < n -> Graph_h.cell vt a = 1.
Proof. intros Ha. apply (go_attrib _ _ _ _ _ g_graph a Ha). Qed.

Lemma aux_vertex (x : Z) (k : q_key_t) :
  In (x, k) aux ->
  n <= x < Graph_h.n_vert g /\ graph_dep n k /\ 1 < size (lhs k) /\
  Graph_h.cell vt x = size (lhs k) /\ neighbors g x = members (rhs k).
Proof.
  intros Hx. destruct (go_aux _ _ _ _ _ g_graph x k Hx)
    as (H1 & H2 & H3 & H4 & H5).
  split; [exact H1|]. split; [apply qs_valid; exact H2|].
  split; [exact H3|]. split; [exact H4|exact H5].
Qed.

Lemma aux_neighbors (x : Z) (k : q_key_t) (w : Z) :
  In (x, k) aux -> In w (neighbors g x) ->
  0 <= w < n /\ Z.testbit (set (rhs k)) w = true.
Proof.
  intros Hx Hw.
  destruct (aux_vertex x k Hx) as (_ & [_ (Rwf & _)] & _ & _ & Hnb).
  rewrite Hnb in Hw. split.
  - apply (members_below n _ w n_universe Rwf Hw).
  - apply (members_In (rhs k) w). exact Hw.
Qed.

(** How often the vertex of a dependency occurs among the neighbours of
    a vertex. *)
Lemma count_occ_vertex (current x : Z) (k : q_key_t) :
  0 <= current < Graph_h.n_vert g -> In (x, k) aux ->
  count_occ Z.eq_dec (neighbors g current) x =
  if Z.testbit (set (lhs k)) current then 1%nat else 0%nat.
Proof.
  intros Hc Hx. destruct (Z.ltb_spec current n) as [Hlt|Hge].
  - apply (go_multi _ _ _ _ _ g_graph x k current Hx). lia.
  - destruct (aux_vertex x k Hx) as (Hxr & [(Lwf & _) _] & _).
    rewrite (in_universe_high n (set (lhs k)) current ltac:(lia) (proj1 Lwf) Hge).
    apply count_occ_not_In. intros Hin.
    destruct (go_all _ _ _ _ _ g_graph current ltac:(lia)) as (k' & Hk').
    pose proof (aux_neighbors current k' x Hk' Hin). lia.
Qed.

(** The attributes of a left-hand side that are all marked are in [C]. *)
Lemma marked_side_in_C (vb : Graph_h.buffer) (done cur pre todo : list Z)
    (k : q_key_t) :
  inv vb done cur pre todo -> wf n (lhs k) ->
  (forall a, In a (members (lhs k)) -> In a (done ++ cur ++ todo)) ->
  subset (set (lhs k)) C.
Proof.
  intros Hinv Lwf Hall a Ha Hb.
  pose proof (members_bit n _ a n_universe Lwf Ha Hb) as Hm.
  pose proof (members_below n _ a n_universe Lwf Hm) as Hr.
  pose proof n_le_vert as Hnv.
  apply (si_sound _ _ _ _ _ _ _ _ _ _ Hinv a Hr).
  pose proof (proj2 (si_marked _ _ _ _ _ _ _ _ _ _ Hinv a ltac:(lia))
                (Hall a Hm)) as Hmk.
  unfold marked in Hmk. rewrite Hmk. apply vt_attrib. exact Hr.
Qed.

(** An attribute next to the vertex whose neighbours are looked at is in
    [C]. *)
Lemma neighbor_in_C (vb : Graph_h.buffer) (done pre todo : list Z)
    (current w : Z) :
  inv vb done [current] pre todo ->
  (forall p, In p pre -> In p (neighbors g current)) ->
  In w (neighbors g current) -> 0 <= w < n ->
  Z.testbit C w = true.
Proof.
  intros Hinv Hpre Hw Hwr.
  assert (Hcur : In current (done ++ [current] ++ todo)).
  { apply in_app_iff. right. left. reflexivity. }
  pose proof (si_range _ _ _ _ _ _ _ _ _ _ Hinv current Hcur) as Hcr.
  pose proof (proj2 (si_marked _ _ _ _ _ _ _ _ _ _ Hinv current Hcr) Hcur)
    as Hmk.
  unfold marked in Hmk.
  destruct (Z.ltb_spec current n) as [Hlt|Hge].
  - destruct (go_edges _ _ _ _ _ g_graph current w ltac:(lia) Hw)
      as [(_ & k & Hk & Hone & Hbl & Hbr)|(k & Hk & _)].
    + destruct (qs_valid k Hk) as [(Lwf & Lidle & _) _].
      apply (C_closed k Hk); [|lia|exact Hbr].
      apply (marked_side_in_C vb done [current] pre todo k Hinv Lwf).
      intros a Ha.
      destruct (single_member n (lhs k) n_universe Lwf Lidle Hone)
        as (a0 & Hm & _).
      assert (Hcm : In current (members (lhs k))).
      { apply (members_bit n _ current n_universe Lwf ltac:(lia) Hbl). }
      rewrite Hm in Ha, Hcm. destruct Ha as [<-|[]].
      destruct Hcm as [->|[]]. exact Hcur.
    + destruct (aux_vertex w k Hk) as (Hx & _). lia.
  - destruct (go_all _ _ _ _ _ g_graph current ltac:(lia)) as (k & Hk).
    destruct (aux_vertex current k Hk) as (_ & Hdep & _ & Hvt & _).
    destruct Hdep as [(Lwf & _) _].
    destruct (go_aux _ _ _ _ _ g_graph current k Hk) as (_ & Hkq & _).
    apply (C_closed k Hkq); [|lia|apply (aux_neighbors current k w Hk Hw)].
    apply (marked_side_in_C vb done [current] pre todo k Hinv Lwf).
    intros a Ha. apply in_app_iff. left.
    assert (Hnd : NoDup done).
    { apply (NoDup_app_remove_r _ _ (si_nodup _ _ _ _ _ _ _ _ _ _ Hinv)). }
    assert (Hpos : forall v, In v done -> 0 <= v).
    { intros v Hv.
      apply (si_range _ _ _ _ _ _ _ _ _ _ Hinv v). apply in_app_iff. left.
      exact Hv. }
    apply (proj1 (proj2 (count_in_full n k done n_universe Lwf Hnd Hpos)));
      [|exact Ha].
    pose proof (si_aux _ _ _ _ _ _ _ _ _ _ Hinv current k Hk) as Hcell.
    rewrite (proj1 (count_occ_not_In Z.eq_dec pre current)) in Hcell.
    + rewrite <- Hvt, <- Hmk, Hcell. cbn. lia.
    + intros Hin. pose proof (aux_neighbors current k current Hk
                                (Hpre current Hin)). lia.
Qed.

Lemma NoDup_app_disjoint (l1 l2 : list Z) (x : Z) :
  NoDup (l1 ++ l2) -> In x l1 -> In x l2 -> False.
Proof.
  induction l1 as [|a l1 IH]; intros Hnd H1 H2; [destruct H1|].
  cbn [app] in Hnd. inversion Hnd as [|? ? Hnot Hnd']; subst.
  destruct H1 as [->|H1].
  - apply Hnot. apply in_app_iff. right. exact H2.
  - apply (IH Hnd' H1 H2).
Qed.

(** While the neighbours of an attribute are looked at, the vertex of a
    dependency with this attribute on the left that comes next has not
    reached its threshold. *)
Lemma aux_below_threshold (vb : Graph_h.buffer) (done pre rest todo : list Z)
    (current w : Z) (k : q_key_t) :
  inv vb done [current] pre todo ->
  neighbors g current = pre ++ w :: rest ->
  In (w, k) aux ->
  Z.testbit (set (lhs k)) current = true /\
  count_occ Z.eq_dec pre w = 0%nat /\
  Graph_h.cell vb w = count_in k done /\
  0 <= count_in k done < size (lhs k).
Proof.
  intros Hinv Hnb Hk.
  assert (Hcur : In current (done ++ [current] ++ todo)).
  { apply in_app_iff. right. left. reflexivity. }
  pose proof (si_range _ _ _ _ _ _ _ _ _ _ Hinv current Hcur) as Hcr.
  pose proof (count_occ_vertex current w k Hcr Hk) as Hcount.
  rewrite Hnb, count_occ_app in Hcount. cbn [count_occ] in Hcount.
  destruct (Z.eq_dec w w) as [_|Hne]; [|congruence].
  destruct (Z.testbit (set (lhs k)) current) eqn:Hb; [|lia].
  assert (Hzero : count_occ Z.eq_dec pre w = 0%nat) by lia.
  split; [reflexivity|]. split; [exact Hzero|].
  pose proof (si_aux _ _ _ _ _ _ _ _ _ _ Hinv w k Hk) as Hcell.
  rewrite Hzero in Hcell. split; [rewrite Hcell; cbn; lia|].
  destruct (aux_vertex w k Hk) as (_ & [(Lwf & _) _] & _).
  pose proof (si_nodup _ _ _ _ _ _ _ _ _ _ Hinv) as Hnd.
  assert (Hnd' : NoDup done) by (apply (NoDup_app_remove_r _ _ Hnd)).
  assert (Hpos : forall v, In v done -> 0 <= v).
  { intros v Hv. apply (si_range _ _ _ _ _ _ _ _ _ _ Hinv v).
    apply in_app_iff. left. exact Hv. }
  destruct (count_in_full n k done n_universe Lwf Hnd' Hpos) as [Hle Hfull].
  split; [unfold count_in; lia|].
  destruct (Z.eq_dec (count_in k done) (size (lhs k))) as [E|Hne]; [|lia].
  exfalso. apply (NoDup_app_disjoint done ([current] ++ todo) current Hnd).
  - apply (proj1 Hfull E).
    apply (members_bit n _ current n_universe Lwf ltac:(lia) Hb).
  - left. reflexivity.
Qed.

(** One turn of the loop over the neighbours. *)
Lemma neighbors_step (vb : Graph_h.buffer) (done pre rest todo : list Z)
    (current w : Z) :
  inv vb done [current] pre todo ->
  neighbors g current = pre ++ w :: rest ->
  exists vb2 todo2,
    (forall rest',
       Graph_h.neighbors_loop (w :: rest') todo vb vt =
       Graph_h.neighbors_loop rest' todo2 vb2 vt) /\
    inv vb2 done [current] (pre ++ [w]) todo2 /\
    (forall a, 0 <= a < n -> Graph_h.cell vb a = 1 ->
               Graph_h.cell vb2 a = 1).
Proof.
  intros Hinv Hnb.
  assert (Hcur : In current (done ++ [current] ++ todo)).
  { apply in_app_iff. right. left. reflexivity. }
  pose proof (si_range _ _ _ _ _ _ _ _ _ _ Hinv current Hcur) as Hcr.
  assert (Hw : In w (neighbors g current)).
  { rewrite Hnb. apply in_app_iff. right. left. reflexivity. }
  pose proof (go_below _ _ _ _ _ g_graph current w ltac:(lia) Hw) as Hwr.
  assert (Hpre : forall p, In p pre -> In p (neighbors g current)).
  { intros p Hp. rewrite Hnb. apply in_app_iff. left. exact Hp. }
  pose proof (neighbor_in_C vb done pre todo current w Hinv Hpre Hw) as HwC.
  pose proof vt_len as Hvt. pose proof n_le_vert as Hnv.
  destruct Hinv as [Hlen Hnd Hrange Hmarked Hattr Haux Hdone Hpre' Hsound].
  assert (Hloop : forall rest',
            Graph_h.neighbors_loop (w :: rest') todo vb vt =
            if Graph_h.cell vb w =? Graph_h.cell vt w then
              Graph_h.neighbors_loop rest' todo vb vt
            else
              let v' := u32 (Graph_h.cell vb w + 1) in
              let vb' := {| Graph_h.len := Graph_h.len vb;
                            Graph_h.cell := fun j =>
                              if j =? w then v' else Graph_h.cell vb j |} in
              if v' =? Graph_h.cell vt w then
                Graph_h.neighbors_loop rest' (Graph_h.LL_insert todo w) vb' vt
              else Graph_h.neighbors_loop rest' todo vb' vt).
  { intros rest'. cbn [Graph_h.neighbors_loop].
    rewrite (read_cell vt w) by lia. rewrite (read_cell vb w) by lia.
    cbn [and_then]. destruct (_ =? _); [reflexivity|].
    rewrite write_cell by lia. reflexivity. }
  destruct (Z.eqb_spec (Graph_h.cell vb w) (Graph_h.cell vt w)) as [Hm|Hm].
  - (* the threshold was reached before *)
    exists vb, todo. split; [exact Hloop|]. split; [|auto].
    constructor; try assumption.
    + intros x k Hx. rewrite count_occ_app. cbn [count_occ].
      destruct (Z.eq_dec w x) as [<-|Hne];
        [|rewrite Nat.add_0_r; apply (Haux x k Hx)].
      exfalso.
      destruct (aux_below_threshold vb done pre rest todo current w k)
        as (_ & _ & Hcell & Hlt); try assumption.
      { constructor; assumption. }
      destruct (aux_vertex w k Hx) as (_ & _ & _ & Hth & _). lia.
    + intros w' Hw' Hr. apply in_app_iff in Hw'.
      destruct Hw' as [Hw'|[<-|[]]]; [apply (Hpre' w' Hw' Hr)|].
      rewrite Hm. apply vt_attrib. exact Hr.
  - assert (Hnew : ~ In w (done ++ [current] ++ todo)).
    { intros Hin. apply Hm. apply (proj2 (Hmarked w Hwr) Hin). }
    assert (EL : forall l, done ++ [current] ++ (todo ++ l) =
                           (done ++ [current] ++ todo) ++ l).
    { intros l. rewrite !app_assoc. reflexivity. }
    destruct (Z.ltb_spec w n) as [Hlt|Hge].
    + (* an attribute that is reached now *)
      assert (Hzero : Graph_h.cell vb w = 0).
      { destruct (Hattr w ltac:(lia)) as [H0|H1]; [exact H0|].
        exfalso. apply Hm. rewrite H1. symmetry. apply vt_attrib. lia. }
      assert (Hth : Graph_h.cell vt w = 1) by (apply vt_attrib; lia).
      eexists _, _. split.
      { intros rest'. rewrite Hloop.
        replace (Graph_h.cell vb w =? Graph_h.cell vt w) with false
          by (symmetry; apply Z.eqb_neq; exact Hm).
        cbv zeta. rewrite Hzero, Hth. change (u32 (0 + 1) =? 1) with true.
        cbv iota. reflexivity. }
      change (u32 (0 + 1)) with 1. unfold Graph_h.LL_insert. split.
      * constructor; cbn [Graph_h.len Graph_h.cell].
        { exact Hlen. }
        { rewrite EL. apply NoDup_snoc; assumption. }
        { intros v Hv. rewrite EL in Hv. apply in_app_iff in Hv.
          destruct Hv as [Hv|[<-|[]]]; [apply (Hrange v Hv)|exact Hwr]. }
        { intros v Hv. unfold marked. cbn [Graph_h.cell]. rewrite EL.
          destruct (Z.eqb_spec v w) as [->|Hne].
          - rewrite Hth. split; [intros _|reflexivity].
            apply in_app_iff. right. left. reflexivity.
          - fold (marked vb vt v). rewrite (Hmarked v Hv). split.
            + intros H. apply in_app_iff. left. exact H.
            + intros H. apply in_app_iff in H.
              destruct H as [H|[E|[]]]; [exact H|congruence]. }
        { intros a Ha. destruct (a =? w); [right; reflexivity|].
          apply (Hattr a Ha). }
        { intros x k Hx. destruct (aux_vertex x k Hx) as (Hxr & _).
          replace (x =? w) with false by (symmetry; apply Z.eqb_neq; lia).
          rewrite count_occ_app. cbn [count_occ].
          destruct (Z.eq_dec w x) as [E|_]; [lia|].
          rewrite Nat.add_0_r. apply (Haux x k Hx). }
        { intros v w' Hv Hw' Hr. destruct (w' =? w); [reflexivity|].
          apply (Hdone v w' Hv Hw' Hr). }
        { intros w' Hw' Hr. destruct (Z.eqb_spec w' w) as [_|Hne];
            [reflexivity|].
          apply in_app_iff in Hw'. destruct Hw' as [Hw'|[E|[]]];
            [apply (Hpre' w' Hw' Hr)|congruence]. }
        { intros a Ha Hone. destruct (Z.eqb_spec a w) as [->|Hne].
          - apply HwC. lia.
          - apply (Hsound a Ha Hone). }
      * intros a Ha Hone. cbn [Graph_h.cell].
        destruct (a =? w); [reflexivity|exact Hone].
    + (* the vertex of a dependency *)
      assert (Hcn : current < n).
      { destruct (Z.ltb_spec current n) as [H|H]; [exact H|exfalso].
        destruct (go_all _ _ _ _ _ g_graph current ltac:(lia)) as (k' & Hk').
        pose proof (aux_neighbors current k' w Hk' Hw). lia. }
      destruct (go_edges _ _ _ _ _ g_graph current w ltac:(lia) Hw)
        as [(Hwn & _)|(k & Hk & Hbit)]; [lia|].
      destruct (aux_below_threshold vb done pre rest todo current w k)
        as (_ & Hzero & Hcell & Hlt); try assumption.
      { constructor; assumption. }
      destruct (aux_vertex w k Hk) as (_ & [(Lwf & _) _] & _ & Hth & _).
      pose proof (wf_size_le n n_universe _ Lwf) as Hsz.
      assert (Hv' : u32 (Graph_h.cell vb w + 1) = Graph_h.cell vb w + 1).
      { unfold u32. apply Z.mod_small. unfold MAX_ATTRIBS in *. lia. }
      assert (Hinv2 : forall todo2,
                (Graph_h.cell vb w + 1 = Graph_h.cell vt w ->
                 todo2 = todo ++ [w]) ->
                (Graph_h.cell vb w + 1 <> Graph_h.cell vt w ->
                 todo2 = todo) ->
                inv {| Graph_h.len := Graph_h.len vb;
                       Graph_h.cell := fun j =>
                         if j =? w then Graph_h.cell vb w + 1
                         else Graph_h.cell vb j |}
                    done [current] (pre ++ [w]) todo2).
      { intros todo2 Hpush Hkeep.
        assert (Hin2 : forall v, In v (done ++ [current] ++ todo2) <->
                  In v (done ++ [current] ++ todo) \/
                  (v = w /\ Graph_h.cell vb w + 1 = Graph_h.cell vt w)).
        { intros v.
          destruct (Z.eq_dec (Graph_h.cell vb w + 1) (Graph_h.cell vt w))
            as [E|E].
          - rewrite (Hpush E), EL. split.
            + intros H. apply in_app_iff in H.
              destruct H as [H|[H|[]]]; [left; exact H|right; split; congruence].
            + intros [H|[H _]]; apply in_app_iff;
                [left; exact H|right; left; congruence].
          - rewrite (Hkeep E). split; [auto|]. intros [H|[_ H]];
              [exact H|contradiction]. }
        constructor; cbn [Graph_h.len Graph_h.cell].
        - exact Hlen.
        - destruct (Z.eq_dec (Graph_h.cell vb w + 1) (Graph_h.cell vt w))
            as [E|E].
          + rewrite (Hpush E), EL. apply NoDup_snoc; assumption.
          + rewrite (Hkeep E). exact Hnd.
        - intros v Hv. apply Hin2 in Hv. destruct Hv as [Hv|[-> _]];
            [apply (Hrange v Hv)|exact Hwr].
        - intros v Hv. unfold marked. cbn [Graph_h.cell]. rewrite Hin2.
          destruct (Z.eqb_spec v w) as [->|Hne].
          + split; [intros E; right; split; [reflexivity|exact E]|].
            intros [H|[_ E]]; [contradiction|exact E].
          + fold (marked vb vt v). rewrite (Hmarked v Hv). split; [auto|].
            intros [H|[E _]]; [exact H|congruence].
        - intros a Ha.
          replace (a =? w) with false by (symmetry; apply Z.eqb_neq; lia).
          apply (Hattr a Ha).
        - intros x k2 Hx. rewrite count_occ_app. cbn [count_occ].
          destruct (Z.eqb_spec x w) as [->|Hne].
          + destruct (Z.eq_dec w w) as [_|Hne']; [|congruence].
            rewrite (Haux w k2 Hx). lia.
          + destruct (Z.eq_dec w x) as [E|_]; [congruence|].
            rewrite Nat.add_0_r. apply (Haux x k2 Hx).
        - intros v w' Hv Hw' Hr.
          replace (w' =? w) with false by (symmetry; apply Z.eqb_neq; lia).
          apply (Hdone v w' Hv Hw' Hr).
        - intros w' Hw' Hr.
          replace (w' =? w) with false by (symmetry; apply Z.eqb_neq; lia).
          apply in_app_iff in Hw'. destruct Hw' as [Hw'|[E|[]]];
            [apply (Hpre' w' Hw' Hr)|lia].
        - intros a Ha.
          replace (a =? w) with false by (symmetry; apply Z.eqb_neq; lia).
          apply (Hsound a Ha). }
      destruct (Z.eq_dec (Graph_h.cell vb w + 1) (Graph_h.cell vt w))
        as [E|E].
      * eexists _, (todo ++ [w]). split.
        { intros rest'. rewrite Hloop.
          replace (Graph_h.cell vb w =? Graph_h.cell vt w) with false
            by (symmetry; apply Z.eqb_neq; exact Hm).
          cbv zeta. rewrite Hv'.
          replace (Graph_h.cell vb w + 1 =? Graph_h.cell vt w) with true
            by (symmetry; apply Z.eqb_eq; exact E).
          reflexivity. }
        split; [apply Hinv2; [reflexivity|contradiction]|].
        intros a Ha Hone. cbn [Graph_h.cell].
        replace (a =? w) with false by (symmetry; apply Z.eqb_neq; lia).
        exact Hone.
      * eexists _, todo. split.
        { intros rest'. rewrite Hloop.
          replace (Graph_h.cell vb w =? Graph_h.cell vt w) with false
            by (symmetry; apply Z.eqb_neq; exact Hm).
          cbv zeta. rewrite Hv'.
          replace (Graph_h.cell vb w + 1 =? Graph_h.cell vt w) with false
            by (symmetry; apply Z.eqb_neq; exact E).
          reflexivity. }
        split; [apply Hinv2; [contradiction|reflexivity]|].
        intros a Ha Hone. cbn [Graph_h.cell].
        replace (a =? w) with false by (symmetry; apply Z.eqb_neq; lia).
        exact Hone.
Qed.

(** The loop over the neighbours of the vertex taken from the search
    list. *)
Lemma neighbors_loop_spec (done : list Z) (current : Z) (rest : list Z) :
  forall (pre : list Z) (vb : Graph_h.buffer) (todo : list Z),
  inv vb done [current] pre todo ->
  neighbors g current = pre ++ rest ->
  exists vb' todo',
    Graph_h.neighbors_loop rest todo vb vt = Returns (todo', vb') /\
    inv vb' done [current] (neighbors g current) todo' /\
    (forall a, 0 <= a < n -> Graph_h.cell vb a = 1 ->
               Graph_h.cell vb' a = 1).
Proof.
  induction rest as [|w rest IH]; intros pre vb todo Hinv Hnb.
  - exists vb, todo. split; [reflexivity|]. rewrite Hnb, app_nil_r.
    split; [exact Hinv|auto].
  - destruct (neighbors_step vb done pre rest todo current w Hinv Hnb)
      as (vb2 & todo2 & Hloop & Hinv2 & Hmono2).
    destruct (IH (pre ++ [w]) vb2 todo2 Hinv2) as (vb' & todo' & E & Hinv' & Hmono').
    { rewrite Hnb, <- app_assoc. reflexivity. }
    exists vb', todo'. split; [rewrite Hloop; exact E|].
    split; [exact Hinv'|]. intros a Ha Hone.
    apply (Hmono' a Ha). apply (Hmono2 a Ha Hone).
Qed.

(** The vertex whose neighbours were all looked at is done. *)
Lemma search_inv_done (vb : Graph_h.buffer) (done todo : list Z)
    (current : Z) :
  inv vb done [current] (neighbors g current) todo ->
  inv vb (done ++ [current]) [] [] todo.
Proof.
  intros Hinv.
  assert (Hcur : In current (done ++ [current] ++ todo)).
  { apply in_app_iff. right. left. reflexivity. }
  pose proof (si_range _ _ _ _ _ _ _ _ _ _ Hinv current Hcur) as Hcr.
  destruct Hinv as [Hlen Hnd Hrange Hmarked Hattr Haux Hdone Hpre' Hsound].
  assert (EL : (done ++ [current]) ++ [] ++ todo =
               done ++ [current] ++ todo).
  { rewrite <- app_assoc. reflexivity. }
  constructor; try assumption.
  - rewrite EL. exact Hnd.
  - rewrite EL. exact Hrange.
  - rewrite EL. exact Hmarked.
  - intros x k Hx. rewrite count_in_snoc, (Haux x k Hx).
    rewrite (count_occ_vertex current x k Hcr Hx). cbn [count_occ].
    destruct (Z.testbit (set (lhs k)) current); lia.
  - intros v w Hv Hw Hr. apply in_app_iff in Hv.
    destruct Hv as [Hv|[<-|[]]].
    + apply (Hdone v w Hv Hw Hr).
    + apply (Hpre' w Hw Hr).
  - intros w [].
Qed.

(** The search loop ends, with every vertex of the search list done. *)
Lemma search_loop_spec (fuel : nat) :
  forall (vb : Graph_h.buffer) (done todo : list Z),
  inv vb done [] [] todo ->
  Graph_h.n_vert g - Z.of_nat (length done) < Z.of_nat fuel ->
  exists vb' done',
    Graph_h.search_loop fuel g todo vb vt = Returns vb' /\
    inv vb' done' [] [] [] /\
    (forall a, 0 <= a < n -> Graph_h.cell vb a = 1 ->
               Graph_h.cell vb' a = 1).
Proof.
  induction fuel as [|fuel IH]; intros vb done todo Hinv Hfuel.
  - exfalso.
    pose proof (NoDup_bounded_length _ (Graph_h.n_vert g)
                  ltac:(pose proof n_le_vert; lia)
                  (si_nodup _ _ _ _ _ _ _ _ _ _ Hinv)
                  (si_range _ _ _ _ _ _ _ _ _ _ Hinv)) as Hlen.
    rewrite !length_app in Hlen. cbn [length] in *. lia.
  - destruct todo as [|current todo].
    + exists vb, done. split; [reflexivity|]. split; [exact Hinv|auto].
    + cbn [Graph_h.search_loop Graph_h.LL_size Graph_h.LL_pop length].
      replace (Z.of_nat (S (length todo)) =? 0) with false
        by (symmetry; apply Z.eqb_neq; lia).
      assert (Hcur : In current (done ++ [] ++ current :: todo)).
      { apply in_app_iff. right. left. reflexivity. }
      pose proof (si_range _ _ _ _ _ _ _ _ _ _ Hinv current Hcur) as Hcr.
      replace (current =? Graph_h.LL_INVALID_KEY) with false
        by (symmetry; apply Z.eqb_neq; unfold Graph_h.LL_INVALID_KEY; lia).
      unfold Graph_h.DArray_get, Graph_h.DArray_size.
      rewrite <- (go_size _ _ _ _ _ g_graph).
      replace (0 <=? current) with true by (symmetry; apply Z.leb_le; lia).
      replace (current <? Graph_h.n_vert g) with true
        by (symmetry; apply Z.ltb_lt; lia).
      cbn [andb and_then]. fold (neighbors g current).
      unfold Graph_h.LL_iterator.
      assert (Hinv1 : inv vb done [current] [] todo).
      { destruct Hinv as [Hlen Hnd Hrange Hmarked Hattr Haux Hdone Hpre'
                            Hsound].
        constructor; assumption. }
      destruct (neighbors_loop_spec done current (neighbors g current) [] vb
                  todo Hinv1 eq_refl) as (vb1 & todo1 & E1 & Hinv2 & Hmono1).
      rewrite E1. cbn [and_then fst snd].
      pose proof (search_inv_done vb1 done todo1 current Hinv2) as Hinv3.
      destruct (IH vb1 (done ++ [current]) todo1 Hinv3)
        as (vb' & done' & E & Hinv' & Hmono').
      { rewrite length_app. cbn [length]. lia. }
      exists vb', done'. split; [exact E|]. split; [exact Hinv'|].
      intros a Ha Hone. apply (Hmono' a Ha). apply (Hmono1 a Ha Hone).
Qed.

(** A search from an attribute of [C]. *)
Lemma Graph_BFS_closure_spec (fuel : nat) (vb : Graph_h.buffer)
    (done : list Z) (source : Z) :
  inv vb done [] [] [] -> 0 <= source < n ->
  Z.testbit C source = true ->
  Graph_h.n_vert g < Z.of_nat fuel ->
  exists vb' done',
    Graph_h.Graph_BFS_closure fuel g source vb vt = Returns vb' /\
    inv vb' done' [] [] [] /\
    Graph_h.cell vb' source = 1 /\
    (forall a, 0 <= a < n -> Graph_h.cell vb a = 1 ->
               Graph_h.cell vb' a = 1).
Proof.
  intros Hinv Hs HC Hfuel. pose proof n_le_vert as Hnv.
  unfold Graph_h.Graph_BFS_closure.
  replace (0 <=? source) with true by (symmetry; apply Z.leb_le; lia).
  replace (source <? Graph_h.n_vert g) with true
    by (symmetry; apply Z.ltb_lt; lia).
  cbn [andb].
  pose proof (si_len _ _ _ _ _ _ _ _ _ _ Hinv) as Hlen.
  rewrite read_cell by lia. cbn [and_then].
  destruct (Z.eqb_spec (Graph_h.cell vb source) 1) as [Hone|Hnot].
  - exists vb, done. split; [reflexivity|]. split; [exact Hinv|].
    split; [exact Hone|auto].
  - rewrite write_cell by lia. cbn [and_then].
    unfold Graph_h.LL_insert, Graph_h.LL_init. cbn [app].
    assert (Hinv1 : inv {| Graph_h.len := Graph_h.len vb;
                           Graph_h.cell := fun j =>
                             if j =? source then 1 else Graph_h.cell vb j |}
                        done [] [] [source]).
    { destruct Hinv as [_ Hnd Hrange Hmarked Hattr Haux Hdone Hpre' Hsound].
      assert (Hnew : ~ In source (done ++ [] ++ [])).
      { intros Hin. apply Hnot.
        pose proof (proj2 (Hmarked source ltac:(lia)) Hin) as Hmk.
        unfold marked in Hmk. rewrite Hmk. apply vt_attrib. exact Hs. }
      cbn [app] in *. rewrite app_nil_r in *.
      constructor; cbn [Graph_h.len Graph_h.cell app].
      - exact Hlen.
      - apply NoDup_snoc; assumption.
      - intros v Hv. apply in_app_iff in Hv.
        destruct Hv as [Hv|[<-|[]]]; [apply (Hrange v Hv)|lia].
      - intros v Hv. unfold marked. cbn [Graph_h.cell].
        destruct (Z.eqb_spec v source) as [->|Hne].
        + rewrite (vt_attrib source Hs). split; [intros _|reflexivity].
          apply in_app_iff. right. left. reflexivity.
        + fold (marked vb vt v). rewrite (Hmarked v Hv). split.
          * intros H. apply in_app_iff. left. exact H.
          * intros H. apply in_app_iff in H.
            destruct H as [H|[E|[]]]; [exact H|congruence].
      - intros a Ha. destruct (a =? source); [right; reflexivity|].
        apply (Hattr a Ha).
      - intros x k Hx. destruct (aux_vertex x k Hx) as (Hxr & _).
        replace (x =? source) with false by (symmetry; apply Z.eqb_neq; lia).
        apply (Haux x k Hx).
      - intros v w Hv Hw Hr. destruct (w =? source); [reflexivity|].
        apply (Hdone v w Hv Hw Hr).
      - intros w [].
      - intros a Ha Hone. destruct (Z.eqb_spec a source) as [->|Hne];
          [exact HC|]. apply (Hsound a Ha Hone). }
    destruct (search_loop_spec fuel _ done [source] Hinv1)
      as (vb' & done' & E & Hinv' & Hmono').
    { lia. }
    exists vb', done'. split; [exact E|]. split; [exact Hinv'|]. split.
    + apply (Hmono' source Hs). cbn [Graph_h.cell]. rewrite Z.eqb_refl.
      reflexivity.
    + intros a Ha Hone. apply (Hmono' a Ha). cbn [Graph_h.cell].
      destruct (a =? source); [reflexivity|exact Hone].
Qed.

(** The searches from the attributes of a set within [C]. *)
Lemma search_from_spec (fuel : nat) (sources : list Z) :
  forall (vb : Graph_h.buffer) (done : list Z),
  inv vb done [] [] [] ->
  (forall a, In a sources -> 0 <= a < n /\ Z.testbit C a = true) ->
  Graph_h.n_vert g < Z.of_nat fuel ->
  exists vb' done',
    search_from fuel g sources vb vt = Returns vb' /\
    inv vb' done' [] [] [] /\
    (forall a, In a sources -> Graph_h.cell vb' a = 1) /\
    (forall a, 0 <= a < n -> Graph_h.cell vb a = 1 ->
               Graph_h.cell vb' a = 1).
Proof.
  induction sources as [|source sources IH]; intros vb done Hinv Hs Hfuel.
  - exists vb, done. split; [reflexivity|]. split; [exact Hinv|].
    split; [intros a []|auto].
  - cbn [search_from].
    destruct (Hs source (or_introl eq_refl)) as [Hr HC].
    destruct (Graph_BFS_closure_spec fuel vb done source Hinv Hr HC Hfuel)
      as (vb1 & done1 & E1 & Hinv1 & Hone1 & Hmono1).
    rewrite E1. cbn [and_then].
    destruct (IH vb1 done1 Hinv1) as (vb' & done' & E & Hinv' & Hall & Hmono').
    { intros a Ha. apply Hs. right. exact Ha. }
    { exact Hfuel. }
    exists vb', done'. split; [exact E|]. split; [exact Hinv'|]. split.
    + intros a [<-|Ha]; [apply (Hmono' source Hr Hone1)|apply (Hall a Ha)].
    + intros a Ha Hone. apply (Hmono' a Ha). apply (Hmono1 a Ha Hone).
Qed.

(** A cleared buffer: no vertex has reached its threshold. *)
Lemma search_inv_clear (vb : Graph_h.buffer) :
  Graph_h.len vb = Graph_h.n_vert g ->
  (forall v, 0 <= v < Graph_h.n_vert g -> Graph_h.cell vb v = 0) ->
  inv vb [] [] [] [].
Proof.
  intros Hlen Hzero. pose proof n_le_vert as Hnv.
  constructor; cbn [app].
  - exact Hlen.
  - constructor.
  - intros v [].
  - intros v Hv. unfold marked. rewrite (Hzero v Hv). split; [|intros []].
    intros E. destruct (Z.ltb_spec v n) as [Hlt|Hge].
    + rewrite (vt_attrib v ltac:(lia)) in E. discriminate.
    + destruct (go_all _ _ _ _ _ g_graph v ltac:(lia)) as (k & Hk).
      destruct (aux_vertex v k Hk) as (_ & _ & Hsz & Hth & _). lia.
  - intros a Ha. left. apply Hzero. lia.
  - intros x k Hx. destruct (aux_vertex x k Hx) as (Hxr & _).
    rewrite (Hzero x ltac:(lia)). reflexivity.
  - intros v w [].
  - intros w [].
  - intros a Ha Hone. rewrite (Hzero a ltac:(lia)) in Hone. discriminate.
Qed.

(** When the searches are over, the attributes that were reached are
    closed under the dependencies. *)
Lemma reached_closed (vb : Graph_h.buffer) (done : list Z) (k : q_key_t) :
  inv vb done [] [] [] -> In k qs ->
  (forall a, 0 <= a -> Z.testbit (set (lhs k)) a = true ->
     Graph_h.cell vb a = 1) ->
  forall r, 0 <= r -> Z.testbit (set (rhs k)) r = true ->
    Graph_h.cell vb r = 1.
Proof.
  intros Hinv Hk Hleft r Hr Hbr. pose proof n_le_vert as Hnv.
  destruct (qs_valid k Hk) as [(Lwf & Lidle & Lpos) (Rwf & _)].
  pose proof (bit_below_n n n_universe _ r (proj1 Rwf) Hr Hbr) as Hrn.
  assert (Hdone : forall a, In a (members (lhs k)) -> In a done).
  { intros a Ha. pose proof (members_below n _ a n_universe Lwf Ha) as Har.
    assert (Hmk : marked vb vt a).
    { unfold marked. rewrite (vt_attrib a Har). apply Hleft; [lia|].
      apply (members_In (lhs k) a). exact Ha. }
    apply (si_marked _ _ _ _ _ _ _ _ _ _ Hinv a ltac:(lia)) in Hmk.
    cbn [app] in Hmk. rewrite app_nil_r in Hmk. exact Hmk. }
  destruct (Z.eq_dec (size (lhs k)) 1) as [Hone|Hmany].
  - destruct (single_member n (lhs k) n_universe Lwf Lidle Hone)
      as (a0 & Hm & _).
    assert (Ha0 : In a0 (members (lhs k))) by (rewrite Hm; left; reflexivity).
    pose proof (members_below n _ a0 n_universe Lwf Ha0) as Ha0r.
    apply (si_done _ _ _ _ _ _ _ _ _ _ Hinv a0 r (Hdone a0 Ha0)); [|lia].
    apply (go_single _ _ _ _ _ g_graph k a0 r Hk Hone Ha0r Hr); [|exact Hbr].
    apply (members_In (lhs k) a0). exact Ha0.
  - destruct (go_cover _ _ _ _ _ g_graph k Hk ltac:(lia)) as (x & Hx).
    destruct (aux_vertex x k Hx) as (Hxr & _ & _ & Hth & Hnb).
    assert (Hnd : NoDup done).
    { pose proof (si_nodup _ _ _ _ _ _ _ _ _ _ Hinv) as H.
      cbn [app] in H. rewrite app_nil_r in H. exact H. }
    assert (Hpos : forall v, In v done -> 0 <= v).
    { intros v Hv. apply (si_range _ _ _ _ _ _ _ _ _ _ Hinv v).
      apply in_app_iff. left. exact Hv. }
    pose proof (proj2 (proj2 (count_in_full n k done n_universe Lwf Hnd Hpos))
                  Hdone) as Hfull.
    pose proof (si_aux _ _ _ _ _ _ _ _ _ _ Hinv x k Hx) as Hcell.
    cbn [count_occ] in Hcell.
    assert (Hmk : marked vb vt x) by (unfold marked; lia).
    apply (si_marked _ _ _ _ _ _ _ _ _ _ Hinv x ltac:(lia)) in Hmk.
    cbn [app] in Hmk. rewrite app_nil_r in Hmk.
    apply (si_done _ _ _ _ _ _ _ _ _ _ Hinv x r Hmk); [|lia].
    rewrite Hnb. apply (members_bit n _ r n_universe Rwf Hr Hbr).
Qed.

End Search.

(** ** The superkey test of the graph revision *)

Lemma sources_loop_print_loop (fuel : nat) (g : Graph_h.Graph)
    (vt : Graph_h.buffer) (todo : nat) :
  forall (s : Set_t) (vb : Graph_h.buffer),
  Func_dep_graph.sources_loop todo fuel g s vb vt =
  (vb' <~ search_from fuel g (snd (print_loop todo s)) vb vt ;;
   Returns (fst (print_loop todo s), vb')).
Proof.
  induction todo as [|todo IH]; intros s vb; [reflexivity|].
  cbn [Func_dep_graph.sources_loop print_loop].
  destruct (Set_next_pos s) as [s1 pos].
  destruct (print_loop todo s1) as [s2 line] eqn:El. cbn [fst snd].
  cbn [search_from].
  destruct (Graph_h.Graph_BFS_closure fuel g pos vb vt) as [vb1| | |];
    cbn [and_then]; try reflexivity.
  rewrite IH, El. reflexivity.
Qed.

(** The first loop ends when the graph has at most 255 vertices. *)
Lemma clear_loop_spec (N : Z) (fuel : nat) :
  forall (j : Z) (vb : Graph_h.buffer),
  Graph_h.len vb = N -> N <= 255 -> 0 <= j <= N ->
  N - j <= Z.of_nat fuel ->
  exists vb',
    Func_dep_graph.clear_loop fuel N j vb = Returns vb' /\
    Graph_h.len vb' = N /\
    (forall v, j <= v < N -> Graph_h.cell vb' v = 0) /\
    (forall v, v < j -> Graph_h.cell vb' v = Graph_h.cell vb v).
Proof.
  induction fuel as [|fuel IH]; intros j vb Hlen HN Hj Hfuel.
  - assert (j = N) by lia. subst j. cbn [Func_dep_graph.clear_loop].
    rewrite Z.ltb_irrefl. exists vb. split; [reflexivity|].
    split; [exact Hlen|]. split; [intros v Hv; lia|reflexivity].
  - cbn [Func_dep_graph.clear_loop].
    destruct (Z.ltb_spec j N) as [Hlt|Hge].
    + rewrite write_cell by lia. cbn [and_then].
      assert (Hu : u8 (j + 1) = j + 1) by (unfold u8; apply Z.mod_small; lia).
      rewrite Hu.
      destruct (IH (j + 1)
                  {| Graph_h.len := Graph_h.len vb;
                     Graph_h.cell := fun i =>
                       if i =? j then 0 else Graph_h.cell vb i |})
        as (vb' & E & Hlen' & Hzero & Hkeep); cbn [Graph_h.len]; try lia.
      exists vb'. split; [exact E|]. split; [exact Hlen'|]. split.
      * intros v Hv. destruct (Z.eq_dec v j) as [->|Hne].
        { rewrite Hkeep by lia. cbn [Graph_h.cell]. rewrite Z.eqb_refl.
          reflexivity. }
        apply Hzero. lia.
      * intros v Hv. rewrite Hkeep by lia. cbn [Graph_h.cell].
        replace (v =? j) with false by (symmetry; apply Z.eqb_neq; lia).
        reflexivity.
    + exists vb. split; [reflexivity|]. split; [exact Hlen|].
      split; [intros v Hv; lia|reflexivity].
Qed.

(** With 256 vertices or more the counter of the first loop wraps around
    before it reaches their number. *)
Lemma clear_loop_unfinished (N : Z) (fuel : nat) :
  forall (j : Z) (vb : Graph_h.buffer),
  256 <= N -> Graph_h.len vb = N -> 0 <= j < 256 ->
  Func_dep_graph.clear_loop fuel N j vb = Unfinished.
Proof.
  induction fuel as [|fuel IH]; intros j vb HN Hlen Hj;
    cbn [Func_dep_graph.clear_loop];
    replace (j <? N) with true by (symmetry; apply Z.ltb_lt; lia);
    [reflexivity|].
  rewrite write_cell by lia. cbn [and_then]. apply IH.
  - exact HN.
  - exact Hlen.
  - unfold u8. apply Z.mod_pos_bound. lia.
Qed.

Lemma reached_loop_spec (vb : Graph_h.buffer) (todo : nat) :
  forall j, 0 <= j -> j + Z.of_nat todo <= Graph_h.len vb ->
  exists b,
    Func_dep_graph.reached_loop todo j vb = Returns b /\
    (b = true <->
     forall i, j <= i < j + Z.of_nat todo -> Graph_h.cell vb i = 1).
Proof.
  induction todo as [|todo IH]; intros j Hj Hlen.
  - exists true. split; [reflexivity|]. split; [intros _ i Hi; lia|reflexivity].
  - cbn [Func_dep_graph.reached_loop]. rewrite read_cell by lia.
    cbn [and_then].
    destruct (Z.eqb_spec (Graph_h.cell vb j) 1) as [Hone|Hnot]; cbn [negb].
    + destruct (IH (j + 1) ltac:(lia) ltac:(lia)) as (b & E & Hb).
      exists b. split; [exact E|]. rewrite Hb. split.
      * intros H i Hi. destruct (Z.eq_dec i j) as [->|Hne]; [exact Hone|].
        apply H. lia.
      * intros H i Hi. apply H. lia.
    + exists false. split; [reflexivity|]. split; [discriminate|].
      intros H. exfalso. apply Hnot. apply H. lia.
Qed.

Lemma reached_mask_bit (vb : Graph_h.buffer) (todo : nat) (i : Z) :
  0 <= i ->
  Z.testbit (reached_mask todo vb) i =
  (i <? Z.of_nat todo) && (Graph_h.cell vb i =? 1).
Proof.
  intros Hi. induction todo as [|todo IH].
  - cbn [reached_mask]. rewrite Z.bits_0.
    replace (i <? Z.of_nat 0) with false by (symmetry; apply Z.ltb_ge; lia).
    reflexivity.
  - cbn [reached_mask]. rewrite Z.lor_spec, IH.
    destruct (Z.eq_dec i (Z.of_nat todo)) as [->|Hne].
    + replace (Z.of_nat todo <? Z.of_nat todo) with false
        by (symmetry; apply Z.ltb_ge; lia).
      replace (Z.of_nat todo <? Z.of_nat (S todo)) with true
        by (symmetry; apply Z.ltb_lt; lia).
      cbn [andb orb].
      destruct (Graph_h.cell vb (Z.of_nat todo) =? 1).
      * rewrite bit_of_shiftl by lia. apply Z.eqb_refl.
      * apply Z.bits_0.
    + assert (Hbit : Z.testbit
                (if Graph_h.cell vb (Z.of_nat todo) =? 1
                 then Z.shiftl 1 (Z.of_nat todo) else 0) i = false).
      { destruct (Graph_h.cell vb (Z.of_nat todo) =? 1); [|apply Z.bits_0].
        rewrite bit_of_shiftl by lia. apply Z.eqb_neq. lia. }
      rewrite Hbit, orb_false_r.
      destruct (Z.ltb_spec i (Z.of_nat todo));
        destruct (Z.ltb_spec i (Z.of_nat (S todo))); try reflexivity; lia.
Qed.

Lemma universe_closed (n : Z) (q : list q_key_t) :
  0 <= n <= MAX_ATTRIBS -> (forall k, In k q -> graph_dep n k) ->
  closed q (Z.shiftl 1 n - 1).
Proof.
  intros Hn Hq k Hk _. destruct (Hq k Hk) as [_ (Rwf & _)].
  apply (universe_subset n Hn). apply Rwf.
Qed.

(** The graph that [main] builds. *)
Lemma build_spec (n : Z) (q : list q_key_t) :
  1 <= n <= MAX_ATTRIBS -> (forall k, In k q -> graph_dep n k) ->
  Z.of_nat (length q) < 2 ^ 31 ->
  exists g thresh aux,
    Func_dep_graph.build n q = Returns (g, Graph_h.LL_dump_to_array thresh) /\
    graph_of n q g thresh aux /\
    Graph_h.n_vert g = n + Z.of_nat (length (new_vertices q)).
Proof.
  intros Hn Hq Hroom. unfold Func_dep_graph.build.
  destruct (add_dependencies_spec n q Hn [] (Graph_h.Graph_init n)
              (repeat 1 (Z.to_nat n)) [] (graph_of_init n ltac:(lia)) Hq)
    as (g & thresh & aux & E & Hg & Hlen).
  { cbn [Graph_h.Graph_init Graph_h.n_vert]. unfold MAX_ATTRIBS in Hn. lia. }
  rewrite E. cbn [and_then fst snd app] in *.
  exists g, thresh, aux. split; [reflexivity|]. split; [exact Hg|].
  rewrite (go_count _ _ _ _ _ Hg), Hlen. cbn [length]. lia.
Qed.

(** [check_super_key] on a graph with at most 255 vertices, for a set
    within a closed set [C]. *)
Lemma check_super_key_run (n : Z) (qs : list q_key_t) (g : Graph_h.Graph)
    (thresh : list Z) (aux : list (Z * q_key_t)) (C : Z) (fuel : nat)
    (s : Set_t) (vb : Graph_h.buffer) :
  1 <= n <= MAX_ATTRIBS -> graph_of n qs g thresh aux ->
  (forall k, In k qs -> graph_dep n k) -> closed qs C ->
  Graph_h.n_vert g <= 255 -> (256 <= fuel)%nat ->
  wf n s -> idle s -> subset (set s) C ->
  Graph_h.len vb = Graph_h.n_vert g ->
  exists vb' done b,
    Func_dep_graph.check_super_key fuel g s vb
      (Graph_h.LL_dump_to_array thresh) n = Returns (s, vb', b) /\
    search_inv n g (Graph_h.LL_dump_to_array thresh) aux C vb' done [] [] [] /\
    (forall a, 0 <= a -> Z.testbit (set s) a = true ->
       Graph_h.cell vb' a = 1) /\
    (b = true <-> forall j, 0 <= j < n -> Graph_h.cell vb' j = 1).
Proof.
  intros Hn Hg Hq HC Hsmall Hfuel Hwf Hidle Hsub Hlen.
  assert (Hn' : 0 <= n <= MAX_ATTRIBS) by lia.
  pose proof (go_count _ _ _ _ _ Hg) as Hcount.
  unfold Func_dep_graph.check_super_key.
  destruct (clear_loop_spec (Graph_h.n_vert g) fuel 0 vb Hlen Hsmall
              ltac:(lia) ltac:(lia)) as (vb0 & E0 & Hlen0 & Hzero & _).
  rewrite E0. cbn [and_then]. rewrite sources_loop_print_loop.
  pose proof (Set_print_members s (wf_MAX n Hn' _ Hwf) Hidle) as Hp.
  unfold Set_print in Hp. rewrite Hp. cbn [fst snd].
  pose proof (search_inv_clear n qs g thresh aux C Hn Hg Hq vb0 Hlen0 Hzero)
    as Hinv0.
  destruct (search_from_spec n qs g thresh aux C Hn Hg Hq HC ltac:(lia) fuel
              (members s) vb0 [] Hinv0)
    as (vb' & done & E & Hinv & Hall & _).
  { intros a Ha. pose proof (members_below n _ a Hn' Hwf Ha) as Hr.
    split; [exact Hr|]. apply Hsub; [lia|].
    apply (members_In s a). exact Ha. }
  { lia. }
  rewrite E. cbn [and_then fst snd].
  destruct (reached_loop_spec vb' (Z.to_nat n) 0 ltac:(lia)) as (b & Eb & Hb).
  { rewrite (si_len _ _ _ _ _ _ _ _ _ _ Hinv). lia. }
  rewrite Eb. cbn [and_then]. exists vb', done, b. split; [reflexivity|].
  split; [exact Hinv|]. split.
  - intros a Ha Hbit. apply Hall.
    apply (members_bit n _ a Hn' Hwf Ha Hbit).
  - rewrite Hb. split; intros H j Hj; apply H; lia.
Qed.

Lemma graph_depsb_ok (n : Z) (q : list q_key_t) :
  graph_depsb n q = true -> forall k, In k q -> graph_dep n k.
Proof.
  unfold graph_depsb. rewrite forallb_forall. intros H k Hk.
  specialize (H k Hk). apply andb_true_iff in H. destruct H as [Hl Hr].
  assert (Hside : forall s, graph_sideb n s = true ->
            wf n s /\ idle s /\ 0 < size s).
  { intros s Hs. unfold graph_sideb in Hs.
    apply andb_true_iff in Hs. destruct Hs as [Hs Hpos].
    apply andb_true_iff in Hs. destruct Hs as [Hs Hcount].
    apply andb_true_iff in Hs. destruct Hs as [Hs Hcursor].
    apply andb_true_iff in Hs. destruct Hs as [Hs Hsize].
    split; [split; [apply in_universeb_ok; exact Hs|]|split; [split|]].
    - unfold consistent. apply Z.eqb_eq. exact Hsize.
    - apply Z.eqb_eq. exact Hcursor.
    - apply Z.eqb_eq. exact Hcount.
    - apply Z.ltb_lt. exact Hpos. }
  split; apply Hside; assumption.
Qed.

(** X30: the superkey test of the revision over a graph.  [main] builds
    a graph with one more vertex for each dependency with more than one
    attribute on the left.  On a graph with at most 255 vertices
    [check_super_key] returns, leaves the set as it was, and answers 1
    exactly when the closure of the set that [compute_closure] computes is
    full, whatever the buffer holds before.  On a graph with 256 vertices
    or more it never returns: the counter [j] of its first loop has 8
    bits. *)
Theorem check_super_key_spec (n : Z) (q : list q_key_t) (s : Set_t)
    (content : Z -> Z) :
  1 <= n <= MAX_ATTRIBS ->
  (forall k, In k q -> graph_dep n k) ->
  Z.of_nat (length q) < 2 ^ 31 ->
  wf n s -> idle s ->
  exists g vt,
    Func_dep_graph.build n q = Returns (g, vt) /\
    Graph_h.n_vert g = n + Z.of_nat (length (new_vertices q)) /\
    (Graph_h.n_vert g <= 255 ->
     forall fuel, (256 <= fuel)%nat ->
     exists vb b,
       Func_dep_graph.check_super_key fuel g s
         (Func_dep_graph.fresh_buffer (Graph_h.n_vert g) content) vt n =
       Returns (s, vb, b) /\
       (b = true <-> closure_is_full q n s)) /\
    (256 <= Graph_h.n_vert g ->
     forall fuel,
       Func_dep_graph.check_super_key fuel g s
         (Func_dep_graph.fresh_buffer (Graph_h.n_vert g) content) vt n =
       Unfinished).
Proof.
  intros Hn Hq Hroom Hwf Hidle.
  assert (Hn' : 0 <= n <= MAX_ATTRIBS) by lia.
  destruct (build_spec n q Hn Hq Hroom) as (g & thresh & aux & E & Hg & Hcount).
  exists g, (Graph_h.LL_dump_to_array thresh). split; [exact E|].
  split; [exact Hcount|]. split.
  - intros Hsmall fuel Hfuel.
    set (vb0 := Func_dep_graph.fresh_buffer (Graph_h.n_vert g) content).
    assert (Hrun : forall C, closed q C -> subset (set s) C ->
              exists vb' done b,
                Func_dep_graph.check_super_key fuel g s vb0
                  (Graph_h.LL_dump_to_array thresh) n = Returns (s, vb', b) /\
                search_inv n g (Graph_h.LL_dump_to_array thresh) aux C vb'
                  done [] [] [] /\
                (forall a, 0 <= a -> Z.testbit (set s) a = true ->
                   Graph_h.cell vb' a = 1) /\
                (b = true <-> forall j, 0 <= j < n -> Graph_h.cell vb' j = 1)).
    { intros C HC Hsub.
      apply (check_super_key_run n q g thresh aux C fuel s vb0); try assumption.
      reflexivity. }
    destruct (Hrun (Z.shiftl 1 n - 1) (universe_closed n q Hn' Hq)
                (universe_subset n Hn' _ (proj1 Hwf)))
      as (vb & done & b & Erun & Hinv & Hsrc & Hb).
    exists vb, b. split; [exact Erun|].
    assert (Hvalid : valid_deps q n).
    { intros k Hk. destruct (Hq k Hk) as [(Lwf & _) (Rwf & _)].
      split; [apply Lwf|apply Rwf]. }
    rewrite (closure_is_full_iff q n Hn' Hvalid s Hwf), Hb. split.
    + intros Hall C Hsub HC.
      destruct (Hrun C HC Hsub) as (vb' & done' & b' & Erun' & Hinv' & _).
      rewrite Erun in Erun'. inversion Erun'; subst vb' b'.
      intros i Hi Hbit. rewrite ones_bit in Hbit by lia.
      apply Z.ltb_lt in Hbit.
      apply (si_sound _ _ _ _ _ _ _ _ _ _ Hinv' i ltac:(lia)).
      apply Hall. lia.
    + intros Hdet j Hj.
      set (Cm := reached_mask (Z.to_nat n) vb).
      assert (Hbit : forall i, 0 <= i ->
                (Z.testbit Cm i = true <->
                 i < n /\ Graph_h.cell vb i = 1)).
      { intros i Hi. unfold Cm. rewrite reached_mask_bit by exact Hi.
        rewrite andb_true_iff, Z.ltb_lt, Z.eqb_eq, Z2Nat.id by lia.
        reflexivity. }
      assert (Hsub : subset (set s) Cm).
      { intros a Ha Hba. apply (Hbit a Ha). split.
        - apply (bit_below_n n Hn' _ a (proj1 Hwf) Ha Hba).
        - apply (Hsrc a Ha Hba). }
      assert (HC : closed q Cm).
      { intros k Hk Hleft r Hr Hbr.
        destruct (Hq k Hk) as [_ (Rwf & _)].
        apply (Hbit r Hr). split.
        - apply (bit_below_n n Hn' _ r (proj1 Rwf) Hr Hbr).
        - apply (reached_closed n q g thresh aux _ Hn Hg Hq vb done k Hinv Hk);
            [|exact Hr|exact Hbr].
          intros a Ha Hba. apply (Hbit a Ha). apply (Hleft a Ha Hba). }
      apply (Hbit j ltac:(lia)). apply (Hdet Cm Hsub HC); [lia|].
      rewrite ones_bit by lia. apply Z.ltb_lt. lia.
  - intros Hbig fuel. unfold Func_dep_graph.check_super_key.
    rewrite (clear_loop_unfinished (Graph_h.n_vert g) fuel 0); try lia;
      reflexivity.
Qed.

Lemma check_super_key_spec_witness :
  exists g vt,
    Func_dep_graph.build 9 large_txt = Returns (g, vt) /\
    Graph_h.n_vert g = 12 /\
    exists vb b,
      Func_dep_graph.check_super_key 256 g (attrs [1; 2])
        (Func_dep_graph.fresh_buffer (Graph_h.n_vert g) (fun _ => 7)) vt 9 =
      Returns (attrs [1; 2], vb, b) /\
      (b = true <-> closure_is_full large_txt 9 (attrs [1; 2])).
Proof.
  destruct (check_super_key_spec 9 large_txt (attrs [1; 2]) (fun _ => 7))
    as (g & vt & E & Hcount & Hsmall & _).
  - unfold MAX_ATTRIBS. lia.
  - apply graph_depsb_ok. reflexivity.
  - cbn. lia.
  - split; [apply in_universeb_ok; reflexivity|reflexivity].
  - split; reflexivity.
  - exists g, vt. split; [exact E|]. split; [exact Hcount|].
    apply Hsmall; [rewrite Hcount; cbn; lia|apply Nat.le_refl].
Defined.
